(** * Console: session process manager, output replay and session store

    A shallow embedding of [server.js] (the WebSocket attach protocol, the
    resume-token capture and the exit notification of [spawnSession]) and of
    [store.js] (the atomic save of the session metadata), together with a
    model of the process manager [pty-manager.js] that [server.js] drives.

    JavaScript runs every event handler to completion before the next event
    is dispatched, so each handler is one transition of the server state;
    handlers live in a state-and-exception monad, so that a statement such as
    "no exception escapes" is a statement about the value a handler returns. *)

From Stdlib Require Import ZArith String Ascii List Lia Bool.
From stdpp Require Import base option list gmap strings fin_maps.

Local Open Scope string_scope.
Local Open Scope list_scope.
Local Open Scope Z_scope.

(* ===================================================================== *)
(** * Part I: definitions *)
(* ===================================================================== *)

(** ** Exceptions *)

Inductive exn :=
| SyntaxError             (* JSON.parse on malformed text *)
| TypeError               (* property read on null *)
| WsSendError             (* ws.send on a broken socket *)
| DuplicateSessionError
| SpawnError
| FsError (code : string).

Inductive outcome (A : Type) :=
| Ok (a : A)
| Throw (e : exn).
Arguments Ok {A} a.
Arguments Throw {A} e.

(** ** store.js *)

Module Store.

(** The file system is a finite map from paths to file contents. *)
Abbreviation fs := (gmap string string).

(** What the operating system does with the next calls; the code has no
    control over it. *)
Inductive write_fault :=
| OpenFails                 (* the file is neither created nor truncated *)
| WriteFailsAfter (n : nat) (* opened and truncated, [n] characters written *).

Record fs_env := {
  write_result  : option write_fault;   (* [None]: the write succeeds *)
  rename_fails  : bool;
  unlink_fails  : bool;                 (* unlink of an existing file fails *)
}.

(** The disk together with every state it went through, oldest first. *)
Record disk := { files : fs; history : list fs }.

Definition commit (f : fs) (d : disk) : disk :=
  {| files := f; history := history d ++ [f] |}.

(** fs.writeFileSync(path, data): open with truncation, then write. *)
Definition writeFileSync (env : fs_env) (path data : string) (d : disk)
  : outcome unit * disk :=
  match write_result env with
  | Some OpenFails => (Throw (FsError "EACCES"), d)
  | Some (WriteFailsAfter n) =>
      let d1 := commit (<[path := ""]> (files d)) d in
      (Throw (FsError "ENOSPC"),
       commit (<[path := String.substring 0 n data]> (files d1)) d1)
  | None =>
      let d1 := commit (<[path := ""]> (files d)) d in
      (Ok tt, commit (<[path := data]> (files d1)) d1)
  end.

(** fs.renameSync(oldPath, newPath): atomic replacement of [newPath]. *)
Definition renameSync (env : fs_env) (oldPath newPath : string) (d : disk)
  : outcome unit * disk :=
  match files d !! oldPath with
  | None => (Throw (FsError "ENOENT"), d)
  | Some content =>
      if rename_fails env then (Throw (FsError "EPERM"), d)
      else (Ok tt, commit (<[newPath := content]> (delete oldPath (files d))) d)
  end.

(** fs.unlinkSync(path) *)
Definition unlinkSync (env : fs_env) (path : string) (d : disk)
  : outcome unit * disk :=
  match files d !! path with
  | None => (Throw (FsError "ENOENT"), d)
  | Some _ =>
      if unlink_fails env then (Throw (FsError "EPERM"), d)
      else (Ok tt, commit (delete path (files d)) d)
  end.

Section SaveSessions.
(** [path.join(__dirname, 'sessions.json')] *)
Variable STORE_PATH : string.
(** The session records and [JSON.stringify(sessions, null, 2)]. *)
Variable sessions_t : Type.
Variable JSON_stringify : sessions_t → string.

(** [STORE_PATH + '.tmp.' + crypto.randomUUID().slice(0, 8)]; [uuid] is
    the value [crypto.randomUUID()] returned. *)
Definition tmp_path (uuid : string) : string :=
  STORE_PATH +:+ ".tmp." +:+ String.substring 0 8 uuid.

Definition saveSessions (env : fs_env) (uuid : string)
    (sessions : sessions_t) (d : disk) : outcome unit * disk :=
  let tmp := tmp_path uuid in
  let on_error (d' : disk) : outcome unit * disk :=
    (* try { fs.unlinkSync(tmp); } catch { /* ignore */ } *)
    let '(_, d'') := unlinkSync env tmp d' in
    (* console.error(...) *)
    (Ok tt, d'') in
  match writeFileSync env tmp (JSON_stringify sessions) d with
  | (Throw _, d1) => on_error d1
  | (Ok _, d1) =>
      match renameSync env tmp STORE_PATH d1 with
      | (Throw _, d2) => on_error d2
      | (Ok _, d2) => (Ok tt, d2)
      end
  end.

(** The variant that writes the store file in place, for comparison. *)
Definition saveSessions_in_place (env : fs_env)
    (sessions : sessions_t) (d : disk) : outcome unit * disk :=
  match writeFileSync env STORE_PATH (JSON_stringify sessions) d with
  | (_, d1) => (Ok tt, d1)
  end.
End SaveSessions.

(** fs.readFileSync(path, 'utf-8'); [read_fails] is the operating system's
    answer for a file that is there. *)
Definition readFileSync (read_fails : bool) (path : string) (d : disk)
  : outcome string :=
  match files d !! path with
  | None => Throw (FsError "ENOENT")
  | Some content => if read_fails then Throw (FsError "EACCES") else Ok content
  end.

(** [e.code] *)
Definition code (e : exn) : option string :=
  match e with
  | FsError c => Some c
  | _ => None
  end.

Section LoadSessions.
Variable STORE_PATH : string.
(** What [JSON.parse] returns, and the value of the literal [[]]. *)
Variable sessions_t : Type.
Variable JSON_parse : string → option sessions_t.
Variable empty : sessions_t.

(** The value [loadSessions()] returns, and whether it called
    [console.warn]. *)
Definition loadSessions (read_fails : bool) (d : disk) : sessions_t * bool :=
  let attempt : outcome sessions_t :=
    match readFileSync read_fails STORE_PATH d with
    | Ok data =>
        match JSON_parse data with
        | Some v => Ok v
        | None => Throw SyntaxError
        end
    | Throw e => Throw e
    end in
  match attempt with
  | Ok v => (v, false)
  | Throw e =>
      (empty, negb (bool_decide (code e = Some "ENOENT")))
  end.
End LoadSessions.

End Store.

(** ** The ring buffer of a session process *)

(** Modelled from the spec: [pty-manager.js] is not among the sources; the
    buffer follows spec 3 and 4.1 (append a chunk, then discard whole chunks
    from the front while the total exceeds the capacity) and the names the
    test file uses ([_pushToBuffer], [bufferSize], 1024 * 1024). *)
Definition MAX_BUFFER_SIZE : Z := 1024 * 1024.

Definition chunk_length (chunk : string) : Z := Z.of_nat (String.length chunk).

Fixpoint total_length (chunks : list string) : Z :=
  match chunks with
  | [] => 0
  | c :: rest => chunk_length c + total_length rest
  end.

(** Modelled from the spec: the trimming loop of 4.1, "while total size
    exceeds capacity, removes chunks from the front of the sequence". *)
Fixpoint trim (buffer : list string) (bufferSize : Z) : list string * Z :=
  match buffer with
  | [] => ([], bufferSize)
  | oldest :: rest =>
      if MAX_BUFFER_SIZE <? bufferSize
      then trim rest (bufferSize - chunk_length oldest)
      else (buffer, bufferSize)
  end.

(** Modelled from the spec: [append(chunk)] of 4.1, [_pushToBuffer] in the
    test file. *)
Definition pushToBuffer (chunk : string) (b : list string * Z) : list string * Z :=
  trim (fst b ++ [chunk]) (snd b + chunk_length chunk).

(** ** JSON values and what server.js reads from them *)

Local Set Warnings "-register-all".

(** Numbers are kept as integers: server.js only tests them for truthiness
    and hands them on to the manager. *)
Inductive json :=
| JNull
| JBool (b : bool)
| JNum (n : Z)
| JStr (s : string)
| JArr (elems : list json)
| JObj (members : list (string * json)).

(** A value read out of a message is a JSON value or [undefined] ([None]). *)
Definition truthy (v : option json) : bool :=
  match v with
  | None | Some JNull => false
  | Some (JBool b) => b
  | Some (JNum n) => negb (n =? 0)
  | Some (JStr s) => negb (String.eqb s "")
  | Some (JArr _) | Some (JObj _) => true
  end.

Fixpoint member (key : string) (members : list (string * json)) : option json :=
  match members with
  | [] => None
  | (k, v) :: rest => if String.eqb k key then Some v else member key rest
  end.

(** [v.key] for the keys server.js reads ([type], [sessionId], [cols],
    [rows], [data]): a TypeError on [null], the member on an object,
    [undefined] on every other value. *)
Definition get_prop (v : json) (key : string) : outcome (option json) :=
  match v with
  | JNull => Throw TypeError
  | JObj members => Ok (member key members)
  | _ => Ok None
  end.

(** The text of a WebSocket frame, as [JSON.parse] sees it. *)
Inductive raw_message :=
| Malformed
| Json (v : json).

Definition JSON_parse (raw : raw_message) : outcome json :=
  match raw with
  | Malformed => Throw SyntaxError
  | Json v => Ok v
  end.

Definition type_is (ty : option json) (name : string) : bool :=
  match ty with
  | Some (JStr s) => String.eqb s name
  | _ => false
  end.

(** ** The resume-token pattern
    [/[0-9a-f]{8}-[0-9a-f]{4}-[0-9a-f]{4}-[0-9a-f]{4}-[0-9a-f]{12}/i] *)

Definition is_hex (a : ascii) : bool :=
  let n := nat_of_ascii a in
  ((48 <=? n) && (n <=? 57) || (97 <=? n) && (n <=? 102)
   || (65 <=? n) && (n <=? 70))%nat.

Fixpoint hex_run (n : nat) (s : string) : option string :=
  match n with
  | O => Some s
  | S n' =>
      match s with
      | String a rest => if is_hex a then hex_run n' rest else None
      | EmptyString => None
      end
  end.

Definition dash (s : string) : option string :=
  match s with
  | String a rest => if Ascii.eqb a "-" then Some rest else None
  | EmptyString => None
  end.

Definition dash_hex_run (n : nat) (s : string) : option string :=
  dash s ≫= hex_run n.

Definition uuid_at (s : string) : bool :=
  match
    s1 ← hex_run 8 s; s2 ← dash_hex_run 4 s1; s3 ← dash_hex_run 4 s2;
    s4 ← dash_hex_run 4 s3; dash_hex_run 12 s4
  with
  | Some _ => true
  | None => false
  end.

(** [data.match(uuidRegex)]: the leftmost match, [match[0]]. *)
Fixpoint uuid_match (data : string) : option string :=
  match data with
  | EmptyString => None
  | String _ rest =>
      if uuid_at data then Some (String.substring 0 36 data) else uuid_match rest
  end.

(** ** Session records, messages, sockets *)

Inductive session_status := running | exited.

Record session := {
  session_id : string;
  session_name : string;
  session_cwd : string;
  claudeSessionId : option string;
  status : session_status;
  createdAt : string;
}.

(** The messages the server serialises with [JSON.stringify] and sends. *)
Inductive message :=
| MsgSessions (sessions : list (session * bool))
| MsgExited (sessionId : string)
| MsgOutput (sessionId : string) (data : string)
| MsgReplayDone (sessionId : string).

(** A [ws] socket: its ready state (1 is OPEN), what the peer has received,
    and which of the coming [ws.send] calls throw ([true]); the schedule is
    the environment's, an exhausted schedule means that sends succeed. *)
Record WebSocket := {
  readyState : nat;
  sendFaults : list bool;
  received : list message;
}.

Definition socket_send (data : message) (w : WebSocket) : outcome unit * WebSocket :=
  match sendFaults w with
  | true :: later =>
      (Throw WsSendError,
       {| readyState := readyState w; sendFaults := later; received := received w |})
  | _ =>
      (Ok tt,
       {| readyState := readyState w; sendFaults := tail (sendFaults w);
          received := received w ++ [data] |})
  end.

(** The variables of one [wss.on('connection')] activation. *)
Record connection := {
  ws : WebSocket;
  attachedSessionId : option string;
  dataListener : option nat;
}.

(** ** The process manager *)

(** Function values are heap objects; a listener is the address of its
    closure. [DataListener] is the closure built by an attach, with the
    variables it captures; [CaptureListener] is the one of [spawnSession]. *)
Inductive closure :=
| DataListener (ws : nat) (sessionId : string) (replaying : bool)
               (pendingData : list string)
| CaptureListener (sessionId : string).

(** The two exit callbacks [spawnSession] registers. *)
Inductive exit_callback :=
| ExitHandler (sessionId : string)
| CaptureCleanup (sessionId : string) (captureListener : nat).

Record spawn_options := {
  opt_cwd : string;
  opt_shell : option string;
  opt_args : list string;
  opt_resumeId : option string;
}.

(** Modelled from the spec: the Session Process of spec 3 and 4.2, which
    [pty-manager.js] (not among the sources) implements: a running flag, the
    ring buffer, the registered output listeners (a set, kept in
    registration order), the exit callbacks, and what reached the
    pseudo-terminal (input written, last size set). *)
Record PtyProcess := {
  alive : bool;
  options : spawn_options;
  buffer : list string;
  bufferSize : Z;
  dataListeners : list nat;
  exitListeners : list exit_callback;
  written : list (option json);
  size : option (option json * option json);
}.

Definition new_process (opts : spawn_options) (started : bool) : PtyProcess :=
  {| alive := started; options := opts; buffer := []; bufferSize := 0;
     dataListeners := []; exitListeners := []; written := []; size := None |}.

Definition set_alive (b : bool) (p : PtyProcess) : PtyProcess :=
  {| alive := b; options := options p; buffer := buffer p;
     bufferSize := bufferSize p; dataListeners := dataListeners p;
     exitListeners := exitListeners p; written := written p; size := size p |}.

Definition set_dataListeners (l : list nat) (p : PtyProcess) : PtyProcess :=
  {| alive := alive p; options := options p; buffer := buffer p;
     bufferSize := bufferSize p; dataListeners := l;
     exitListeners := exitListeners p; written := written p; size := size p |}.

(** Modelled from the spec: 4.2, every chunk is appended to the ring buffer
    ([_pushToBuffer]). *)
Definition proc_pushToBuffer (chunk : string) (p : PtyProcess) : PtyProcess :=
  let b := pushToBuffer chunk (buffer p, bufferSize p) in
  {| alive := alive p; options := options p; buffer := fst b;
     bufferSize := snd b; dataListeners := dataListeners p;
     exitListeners := exitListeners p; written := written p; size := size p |}.

(** Modelled from the spec: 4.2 [addOutputListener] / [removeOutputListener]
    on the listener set. *)
Definition proc_addListener (fn : nat) (p : PtyProcess) : PtyProcess :=
  if bool_decide (fn ∈ dataListeners p) then p
  else set_dataListeners (dataListeners p ++ [fn]) p.

Definition proc_removeListener (fn : nat) (p : PtyProcess) : PtyProcess :=
  set_dataListeners (filter (λ g, g ≠ fn) (dataListeners p)) p.

(** Modelled from the spec: 4.2 [onExit(callback)], "multiple registrations
    are all invoked". *)
Definition proc_onExit (cb : exit_callback) (p : PtyProcess) : PtyProcess :=
  {| alive := alive p; options := options p; buffer := buffer p;
     bufferSize := bufferSize p; dataListeners := dataListeners p;
     exitListeners := exitListeners p ++ [cb]; written := written p;
     size := size p |}.

(** Modelled from the spec: 4.2 [write] and [resize], no-ops once exited. *)
Definition proc_write (data : option json) (p : PtyProcess) : PtyProcess :=
  if alive p then
    {| alive := alive p; options := options p; buffer := buffer p;
       bufferSize := bufferSize p; dataListeners := dataListeners p;
       exitListeners := exitListeners p; written := written p ++ [data];
       size := size p |}
  else p.

Definition proc_resize (cols rows : option json) (p : PtyProcess) : PtyProcess :=
  if alive p then
    {| alive := alive p; options := options p; buffer := buffer p;
       bufferSize := bufferSize p; dataListeners := dataListeners p;
       exitListeners := exitListeners p; written := written p;
       size := Some (cols, rows) |}
  else p.

(** Modelled from the spec: the exit path of 4.2, shared by a natural exit
    and by [kill()]: a running process becomes exited and its exit callbacks
    are due, an exited one stays as it is and nothing is due. *)
Definition proc_exit (p : PtyProcess) : PtyProcess * list exit_callback :=
  if alive p then (set_alive false p, exitListeners p) else (p, []).

(** Modelled from the spec: the Process Manager of 4.3, a map from session
    ids to Session Processes; unknown ids make every operation a no-op. *)
Abbreviation PtyManager := (gmap string PtyProcess).

Definition getProcess (id : string) (m : PtyManager) : option PtyProcess := m !! id.

Definition isAlive (id : string) (m : PtyManager) : bool :=
  match m !! id with
  | Some p => alive p
  | None => false
  end.

Definition getBuffer (id : string) (m : PtyManager) : list string :=
  match m !! id with
  | Some p => buffer p
  | None => []
  end.

Definition getAll (m : PtyManager) : list string := elements (dom m).

Definition write (id : string) (data : option json) (m : PtyManager) : PtyManager :=
  alter (proc_write data) id m.

Definition resize (id : string) (cols rows : option json) (m : PtyManager) : PtyManager :=
  alter (proc_resize cols rows) id m.

Definition onData (id : string) (fn : nat) (m : PtyManager) : PtyManager :=
  alter (proc_addListener fn) id m.

Definition offData (id : string) (fn : nat) (m : PtyManager) : PtyManager :=
  alter (proc_removeListener fn) id m.

Definition onExit (id : string) (cb : exit_callback) (m : PtyManager) : PtyManager :=
  alter (proc_onExit cb) id m.

(** [kill(id)] and the natural exit of the process of [id]: the new manager
    and the exit callbacks to invoke. *)
Definition kill (id : string) (m : PtyManager) : PtyManager * list exit_callback :=
  match m !! id with
  | Some p => let '(p', due) := proc_exit p in (<[id := p']> m, due)
  | None => (m, [])
  end.

Definition natural_exit (id : string) (m : PtyManager)
  : PtyManager * list exit_callback := kill id m.

(** Modelled from the spec: 4.3 [spawn]: DuplicateSessionError when [id]
    maps to a live process and nothing changes; otherwise a new process is
    stored; when the operating system cannot start it ([started = false]) it
    is stored exited and SpawnError is raised (the reference policy of 7). *)
Definition spawn (id : string) (opts : spawn_options) (started : bool)
    (m : PtyManager) : outcome unit * PtyManager :=
  if isAlive id m then (Throw DuplicateSessionError, m)
  else if started then (Ok tt, <[id := new_process opts true]> m)
  else (Throw SpawnError, <[id := new_process opts false]> m).

(** Modelled from the spec: 4.2, an output chunk of a running process is
    appended to the ring buffer, then delivered to the listeners registered
    at that moment: the new manager and the listeners to call. *)
Definition output (id : string) (chunk : string) (m : PtyManager)
  : PtyManager * list nat :=
  match m !! id with
  | Some p =>
      if alive p then (<[id := proc_pushToBuffer chunk p]> m, dataListeners p)
      else (m, [])
  | None => (m, [])
  end.

(** ** server.js: the state of [createServer] *)

Record Server := {
  testMode : bool;
  manager : PtyManager;
  heap : gmap nat closure;          (* the listener closures *)
  nextRef : nat;                    (* the next fresh closure address *)
  sessions : list session;
  clients : list nat;               (* the [clients] set, in insertion order *)
  conns : gmap nat connection;      (* every socket ever accepted *)
  persisted : list (list session);  (* the arguments of every saveSessions call *)
}.

Definition set_manager (f : PtyManager → PtyManager) (st : Server) : Server :=
  {| testMode := testMode st; manager := f (manager st); heap := heap st;
     nextRef := nextRef st; sessions := sessions st; clients := clients st;
     conns := conns st; persisted := persisted st |}.

Definition set_heap (f : gmap nat closure → gmap nat closure) (st : Server) : Server :=
  {| testMode := testMode st; manager := manager st; heap := f (heap st);
     nextRef := nextRef st; sessions := sessions st; clients := clients st;
     conns := conns st; persisted := persisted st |}.

Definition set_nextRef (n : nat) (st : Server) : Server :=
  {| testMode := testMode st; manager := manager st; heap := heap st;
     nextRef := n; sessions := sessions st; clients := clients st;
     conns := conns st; persisted := persisted st |}.

Definition set_sessions (f : list session → list session) (st : Server) : Server :=
  {| testMode := testMode st; manager := manager st; heap := heap st;
     nextRef := nextRef st; sessions := f (sessions st); clients := clients st;
     conns := conns st; persisted := persisted st |}.

Definition set_clients (f : list nat → list nat) (st : Server) : Server :=
  {| testMode := testMode st; manager := manager st; heap := heap st;
     nextRef := nextRef st; sessions := sessions st; clients := f (clients st);
     conns := conns st; persisted := persisted st |}.

Definition set_conns (f : gmap nat connection → gmap nat connection) (st : Server)
  : Server :=
  {| testMode := testMode st; manager := manager st; heap := heap st;
     nextRef := nextRef st; sessions := sessions st; clients := clients st;
     conns := f (conns st); persisted := persisted st |}.

Definition set_persisted (l : list (list session)) (st : Server) : Server :=
  {| testMode := testMode st; manager := manager st; heap := heap st;
     nextRef := nextRef st; sessions := sessions st; clients := clients st;
     conns := conns st; persisted := l |}.

Definition set_ws (w : WebSocket) (k : connection) : connection :=
  {| ws := w; attachedSessionId := attachedSessionId k;
     dataListener := dataListener k |}.

Definition set_attachedSessionId (a : option string) (k : connection) : connection :=
  {| ws := ws k; attachedSessionId := a; dataListener := dataListener k |}.

Definition set_dataListener (l : option nat) (k : connection) : connection :=
  {| ws := ws k; attachedSessionId := attachedSessionId k; dataListener := l |}.

Definition set_session_status (v : session_status) (s : session) : session :=
  {| session_id := session_id s; session_name := session_name s;
     session_cwd := session_cwd s; claudeSessionId := claudeSessionId s;
     status := v; createdAt := createdAt s |}.

Definition set_claudeSessionId (v : option string) (s : session) : session :=
  {| session_id := session_id s; session_name := session_name s;
     session_cwd := session_cwd s; claudeSessionId := v;
     status := status s; createdAt := createdAt s |}.

(** A session object is shared between the [sessions] array and the
    closures of [spawnSession]; it is identified by its id. *)
Definition update_session (id : string) (f : session → session)
    (l : list session) : list session :=
  map (λ s, if String.eqb (session_id s) id then f s else s) l.

(** ** The handler monad: server state and exceptions *)

Definition M (A : Type) : Type := Server → outcome A * Server.

#[global] Instance M_ret : MRet M := λ A a st, (Ok a, st).

#[global] Instance M_bind : MBind M := λ A B k m st,
  match m st with
  | (Ok a, st') => k a st'
  | (Throw e, st') => (Throw e, st')
  end.

Definition throw {A} (e : exn) : M A := λ st, (Throw e, st).

Definition try_catch {A} (body : M A) (handler : exn → M A) : M A := λ st,
  match body st with
  | (Throw e, st') => handler e st'
  | r => r
  end.

Definition gets {A} (f : Server → A) : M A := λ st, (Ok (f st), st).

Definition modify (f : Server → Server) : M unit := λ st, (Ok tt, f st).

Definition lift {A} (r : outcome A) : M A := λ st, (r, st).

Definition when (b : bool) (body : M unit) : M unit :=
  if b then body else mret tt.

Fixpoint for_of {A} (l : list A) (body : A → M unit) : M unit :=
  match l with
  | [] => mret tt
  | x :: rest => body x ;; for_of rest body
  end.

(** ** server.js: helpers *)

(** [persist()]; [saveSessions] itself is verified in [Store]. *)
Definition persist : M unit :=
  tm ← gets testMode;
  when (negb tm) (modify (λ st, set_persisted (persisted st ++ [sessions st]) st)).

Definition ws_send (c : nat) (data : message) : M unit := λ st,
  match conns st !! c with
  | Some k =>
      let '(r, w) := socket_send data (ws k) in
      (r, set_conns (<[c := set_ws w k]>) st)
  | None => (Ok tt, st)
  end.

Definition readyState_of (c : nat) (st : Server) : nat :=
  match conns st !! c with
  | Some k => readyState (ws k)
  | None => 3%nat
  end.

Definition safeSend (c : nat) (data : message) : M unit :=
  state ← gets (readyState_of c);
  if (state =? 1)%nat
  then try_catch (ws_send c data) (λ _, mret tt)
  else mret tt.

Definition sessions_message (st : Server) : message :=
  MsgSessions (map (λ s, (s, isAlive (session_id s) (manager st))) (sessions st)).

Definition broadcastSessions : M unit :=
  msg ← gets sessions_message;
  cl ← gets clients;
  for_of cl (λ c, safeSend c msg).

(** The manager calls, lifted to the server. *)
Definition manager_offData (id : string) (fn : nat) : M unit :=
  modify (set_manager (offData id fn)).

Definition manager_onData (id : string) (fn : nat) : M unit :=
  modify (set_manager (onData id fn)).

Definition manager_onExit (id : string) (cb : exit_callback) : M unit :=
  modify (set_manager (onExit id cb)).

Definition manager_resize (id : string) (cols rows : option json) : M unit :=
  modify (set_manager (resize id cols rows)).

Definition manager_write (id : string) (data : option json) : M unit :=
  modify (set_manager (write id data)).

Definition manager_spawn (id : string) (opts : spawn_options) (started : bool)
  : M unit := λ st,
  let '(r, m) := spawn id opts started (manager st) in
  (r, set_manager (λ _, m) st).

(** Allocation of a closure. *)
Definition new_closure (cl : closure) : M nat := λ st,
  (Ok (nextRef st), set_nextRef (S (nextRef st)) (set_heap (<[nextRef st := cl]>) st)).

(** ** server.js: the callbacks of [spawnSession] *)

(** The [manager.onExit] handler and the clean-up of the capture listener. *)
Definition call_exit (cb : exit_callback) : M unit :=
  match cb with
  | ExitHandler id =>
      modify (set_sessions (update_session id (set_session_status exited))) ;;
      persist ;;
      broadcastSessions ;;
      cl ← gets clients;
      for_of cl (λ c, safeSend c (MsgExited id))
  | CaptureCleanup id captureListener =>
      manager_offData id captureListener
  end.

(** A call of the function at address [fn] with an output chunk. *)
Definition call_listener (fn : nat) (data : string) : M unit :=
  cl ← gets (λ st, heap st !! fn);
  match cl with
  | Some (DataListener c sessionId replaying pendingData) =>
      if replaying
      then modify (set_heap
             (<[fn := DataListener c sessionId replaying (pendingData ++ [data])]>))
      else safeSend c (MsgOutput sessionId data)
  | Some (CaptureListener id) =>
      match uuid_match data with
      | Some token =>
          modify (set_sessions (update_session id (set_claudeSessionId (Some token)))) ;;
          manager_offData id fn ;;
          persist ;;
          broadcastSessions
      | None => mret tt
      end
  | None => mret tt
  end.

(** [manager.kill(id)] and the exit of a process run the exit callbacks. *)
Definition with_manager {A} (f : PtyManager → PtyManager * A) : M A := λ st,
  let '(m, a) := f (manager st) in (Ok a, set_manager (λ _, m) st).

Definition manager_kill (id : string) : M unit :=
  due ← with_manager (kill id);
  for_of due call_exit.

Definition truthy_string (s : option string) : bool :=
  match s with
  | Some s => negb (String.eqb s "")
  | None => false
  end.

Definition spawnSession (s : session) (started : bool) : M unit :=
  tm ← gets testMode;
  let spawnOpts :=
    if (tm : bool) then
      {| opt_cwd := session_cwd s; opt_shell := Some "/bin/bash";
         opt_args := ["-c"; "sleep 3600"]; opt_resumeId := None |}
    else
      {| opt_cwd := session_cwd s; opt_shell := None; opt_args := [];
         opt_resumeId := if truthy_string (claudeSessionId s)
                         then claudeSessionId s else None |} in
  try_catch (manager_spawn (session_id s) spawnOpts started)
    (λ e,
       modify (set_sessions (update_session (session_id s) (set_session_status exited))) ;;
       persist ;;
       broadcastSessions ;;
       throw e) ;;
  manager_onExit (session_id s) (ExitHandler (session_id s)) ;;
  when (negb tm)
    (captureListener ← new_closure (CaptureListener (session_id s));
     manager_onData (session_id s) captureListener ;;
     manager_onExit (session_id s) (CaptureCleanup (session_id s) captureListener)).

(** ** server.js: the WebSocket handlers *)

Definition attached_of (c : nat) (st : Server) : option string :=
  conns st !! c ≫= attachedSessionId.

Definition listener_of (c : nat) (st : Server) : option nat :=
  conns st !! c ≫= dataListener.

Definition pendingData_of (fn : nat) (st : Server) : list string :=
  match heap st !! fn with
  | Some (DataListener _ _ _ pendingData) => pendingData
  | _ => []
  end.

Definition stop_replaying (cl : closure) : closure :=
  match cl with
  | DataListener c sessionId _ pendingData => DataListener c sessionId false pendingData
  | other => other
  end.

(** [if (attachedSessionId && dataListener) { manager.offData(...);
    dataListener = null; }], the first step of an attach. *)
Definition detach_previous (c : nat) : M unit :=
  attached ← gets (attached_of c);
  listener ← gets (listener_of c);
  match attached, listener with
  | Some previous, Some fn =>
      when (truthy_string attached)
        (manager_offData previous fn ;;
         modify (set_conns (alter (set_dataListener None) c)))
  | _, _ => mret tt
  end.

(** [case 'attach'] *)
Definition on_attach (c : nat) (msg : json) : M unit :=
  sessionId ← lift (get_prop msg "sessionId");
  cols ← lift (get_prop msg "cols");
  rows ← lift (get_prop msg "rows");
  match sessionId with
  | Some (JStr sessionId) =>
      proc ← gets (λ st, getProcess sessionId (manager st));
      match proc with
      | None => mret tt
      | Some _ =>
          detach_previous c ;;
          modify (set_conns (alter (set_attachedSessionId (Some sessionId)) c)) ;;
          (* Resize before replay *)
          when (truthy cols && truthy rows) (manager_resize sessionId cols rows) ;;
          (* Install the live listener first *)
          fn ← new_closure (DataListener c sessionId true []);
          modify (set_conns (alter (set_dataListener (Some fn)) c)) ;;
          manager_onData sessionId fn ;;
          (* Replay buffer *)
          buffer ← gets (λ st, getBuffer sessionId (manager st));
          for_of buffer (λ chunk, safeSend c (MsgOutput sessionId chunk)) ;;
          safeSend c (MsgReplayDone sessionId) ;;
          (* Flush what arrived during replay, then switch to live *)
          modify (set_heap (alter stop_replaying fn)) ;;
          pendingData ← gets (pendingData_of fn);
          for_of pendingData (λ data, safeSend c (MsgOutput sessionId data))
      end
  (* the manager's map is keyed by strings: any other value finds nothing *)
  | _ => mret tt
  end.

(** [case 'input'] *)
Definition on_input (c : nat) (msg : json) : M unit :=
  attached ← gets (attached_of c);
  match attached with
  | Some id =>
      when (truthy_string attached)
        (data ← lift (get_prop msg "data"); manager_write id data)
  | None => mret tt
  end.

(** [case 'resize'] *)
Definition on_resize (c : nat) (msg : json) : M unit :=
  attached ← gets (attached_of c);
  match attached with
  | Some id =>
      when (truthy_string attached)
        (cols ← lift (get_prop msg "cols");
         rows ← lift (get_prop msg "rows");
         when (truthy cols && truthy rows) (manager_resize id cols rows))
  | None => mret tt
  end.

(** [ws.on('message', (raw) => ...)] *)
Definition on_message (c : nat) (raw : raw_message) : M unit :=
  match JSON_parse raw with
  | Throw _ => mret tt
  | Ok msg =>
      ty ← lift (get_prop msg "type");
      if type_is ty "attach" then on_attach c msg
      else if type_is ty "input" then on_input c msg
      else if type_is ty "resize" then on_resize c msg
      else mret tt
  end.

(** [ws.on('close', ...)] *)
Definition on_close (c : nat) : M unit :=
  modify (set_clients (filter (λ d, d ≠ c))) ;;
  attached ← gets (attached_of c);
  listener ← gets (listener_of c);
  match attached, listener with
  | Some id, Some fn => when (truthy_string attached) (manager_offData id fn)
  | _, _ => mret tt
  end.

(** [wss.on('connection', (ws) => ...)] for a socket not seen before. *)
Definition on_connection (c : nat) (faults : list bool) : M unit :=
  modify (set_clients (λ l, l ++ [c])) ;;
  modify (set_conns (<[c := {| ws := {| readyState := 1; sendFaults := faults;
                                        received := [] |};
                               attachedSessionId := None;
                               dataListener := None |}]>)) ;;
  msg ← gets sessions_message;
  safeSend c msg.

Definition set_readyState (n : nat) (k : connection) : connection :=
  set_ws {| readyState := n; sendFaults := sendFaults (ws k);
            received := received (ws k) |} k.

(** ** server.js: the REST handlers that drive the manager *)

(** [app.post('/api/sessions')] once the request is validated; [uuid] is
    what [crypto.randomUUID()] returned. *)
Definition api_create (uuid name cwd now : string) (started : bool) : M unit :=
  let session := {| session_id := uuid; session_name := name; session_cwd := cwd;
                    claudeSessionId := None; status := running;
                    createdAt := now |} in
  modify (set_sessions (λ l, l ++ [session])) ;;
  persist ;;
  spawned ← try_catch (spawnSession session started ;; mret true) (λ _, mret false);
  when spawned broadcastSessions.

(** [app.post('/api/sessions/:id/restart')] *)
Definition api_restart (id : string) (started : bool) : M unit :=
  found ← gets (λ st, find (λ s, String.eqb (session_id s) id) (sessions st));
  match found with
  | None => mret tt
  | Some session =>
      live ← gets (λ st, isAlive id (manager st));
      when live (manager_kill id) ;;
      modify (set_sessions (update_session id (set_session_status running))) ;;
      persist ;;
      spawned ← try_catch (spawnSession session started ;; mret true) (λ _, mret false);
      when spawned broadcastSessions
  end.

Fixpoint remove_session (id : string) (l : list session) : list session :=
  match l with
  | [] => []
  | s :: rest => if String.eqb (session_id s) id then rest
                 else s :: remove_session id rest
  end.

(** [app.delete('/api/sessions/:id')] *)
Definition api_delete (id : string) : M unit :=
  found ← gets (λ st, find (λ s, String.eqb (session_id s) id) (sessions st));
  match found with
  | None => mret tt
  | Some _ =>
      manager_kill id ;;
      modify (set_sessions (remove_session id)) ;;
      persist ;;
      broadcastSessions
  end.

(** ** The events of the server and its runs *)

Inductive event :=
| WsConnection (c : nat) (faults : list bool)
| WsReadyState (c : nat) (state : nat)
| WsMessage (c : nat) (raw : raw_message)
| WsClose (c : nat)
| PtyData (sessionId : string) (data : string)
| PtyExit (sessionId : string)
| ApiCreate (uuid name cwd now : string) (started : bool)
| ApiRestart (id : string) (started : bool)
| ApiDelete (id : string).

Definition step (ev : event) : M unit :=
  match ev with
  | WsConnection c faults =>
      known ← gets (λ st, bool_decide (is_Some (conns st !! c)));
      if (known : bool) then mret tt else on_connection c faults
  | WsReadyState c state =>
      modify (set_conns (alter (set_readyState state) c))
  | WsMessage c raw =>
      known ← gets (λ st, bool_decide (is_Some (conns st !! c)));
      if (known : bool) then on_message c raw else mret tt
  | WsClose c =>
      modify (set_conns (alter (set_readyState 3) c)) ;;
      on_close c
  | PtyData id data =>
      listeners ← with_manager (output id data);
      for_of listeners (λ fn, call_listener fn data)
  | PtyExit id =>
      due ← with_manager (natural_exit id);
      for_of due call_exit
  | ApiCreate uuid name cwd now started => api_create uuid name cwd now started
  | ApiRestart id started => api_restart id started
  | ApiDelete id => api_delete id
  end.

(** A run stops at the first exception that escapes a handler. *)
Fixpoint run (evs : list event) : M unit :=
  match evs with
  | [] => mret tt
  | ev :: rest => step ev ;; run rest
  end.

(** The server before any event when no record is loaded; it is the one
    [createServer] returns in test mode, where the store is not read. *)
Definition initial (tm : bool) : Server :=
  {| testMode := tm; manager := ∅; heap := ∅; nextRef := 0%nat; sessions := [];
     clients := []; conns := ∅; persisted := [] |}.

(** ** Reasoning about handlers *)

(** [wp m Q E st]: run from [st], the handler [m] returns a value and a
    state that satisfy [Q], or throws an exception in a state that
    satisfy [E]. *)
Definition wp {A} (m : M A) (Q : A → Server → Prop) (E : exn → Server → Prop)
    (st : Server) : Prop :=
  match m st with
  | (Ok a, st') => Q a st'
  | (Throw e, st') => E e st'
  end.

Definition never : exn → Server → Prop := λ _ _, False.

(** ** The attach invariant *)

(** [fn] is among the output listeners of the process of [id]. *)
Definition registered (st : Server) (id : string) (fn : nat) : Prop :=
  ∃ p, manager st !! id = Some p ∧ fn ∈ dataListeners p.

Definition owned_by (c : nat) (cl : option closure) : Prop :=
  match cl with
  | Some (DataListener c' _ _ _) => c' = c
  | _ => False
  end.

(** Connection [c] listens to the process of [id] through the closure at
    [fn]. *)
Definition listens (st : Server) (c : nat) (id : string) (fn : nat) : Prop :=
  registered st id fn ∧ owned_by c (heap st !! fn).

Definition is_capture (cl : option closure) : Prop :=
  match cl with
  | Some (CaptureListener _) => True
  | _ => False
  end.

Record wf (st : Server) : Prop := {
  wf_heap : ∀ a, is_Some (heap st !! a) → (a < nextRef st)%nat;
  wf_nodup : ∀ id p, manager st !! id = Some p → NoDup (dataListeners p);
  wf_ids : ∀ id p, manager st !! id = Some p → id ≠ "";
  wf_fresh : ∀ id fn, registered st id fn → (fn < nextRef st)%nat;
  wf_current : ∀ c id fn, listens st c id fn →
    ∃ k, conns st !! c = Some k ∧ attachedSessionId k = Some id
         ∧ dataListener k = Some fn;
  wf_own : ∀ c k fn, conns st !! c = Some k → dataListener k = Some fn →
    owned_by c (heap st !! fn);
  wf_sessions : ∀ s, s ∈ sessions st → session_id s ≠ "";
  wf_cleanup : ∀ id p id' a, manager st !! id = Some p →
    CaptureCleanup id' a ∈ exitListeners p → is_capture (heap st !! a);
}.

(** The events a well-formed run is made of: [crypto.randomUUID()] never
    returns the empty string. *)
Definition event_ok (ev : event) : Prop :=
  match ev with
  | ApiCreate uuid _ _ _ _ => uuid ≠ ""
  | _ => True
  end.

(** ** What a viewer sees of a session *)

Definition is_stream (m : message) : bool :=
  match m with
  | MsgOutput _ _ | MsgReplayDone _ => true
  | _ => false
  end.

(** The output and replay-done messages connection [c] has received. *)
Definition stream (c : nat) (st : Server) : list message :=
  match conns st !! c with
  | Some k => filter (λ m, is_stream m = true) (received (ws k))
  | None => []
  end.

(** The socket is open and none of the coming sends is scheduled to fail. *)
Definition healthy (k : connection) : Prop :=
  readyState (ws k) = 1%nat ∧ Forall (λ b, b = false) (sendFaults (ws k)).

(** Connection [c] forwards the output of the process of [sid] live
    through the closure at [fn]. *)
Record live (c : nat) (sid : string) (fn : nat) (st : Server) : Prop := {
  live_conn : ∃ k, conns st !! c = Some k ∧ healthy k
                   ∧ attachedSessionId k = Some sid ∧ dataListener k = Some fn;
  live_closure : ∃ pd, heap st !! fn = Some (DataListener c sid false pd);
  live_registered : registered st sid fn;
}.

Definition is_attach (raw : raw_message) : bool :=
  match raw with
  | Json (JObj members) => type_is (member "type" members) "attach"
  | _ => false
  end.

(** Events that leave the attachment of [c] to the process of [sid] alone:
    [c] neither attaches again nor closes, its socket stays as it is, and
    the process of [sid] is not replaced by a new one. *)
Definition calm (c : nat) (sid : string) (ev : event) : Prop :=
  match ev with
  | WsMessage c' raw => c' = c → is_attach raw = false
  | WsClose c' => c' ≠ c
  | WsReadyState c' _ => c' ≠ c
  | ApiCreate uuid _ _ _ _ => uuid ≠ sid ∧ uuid ≠ ""
  | ApiRestart id _ => id ≠ sid
  | _ => True
  end.

(** The chunks the process of [sid] puts out during a run. *)
Fixpoint produced (sid : string) (evs : list event) (st : Server) : list string :=
  match evs with
  | [] => []
  | ev :: rest =>
      match ev with
      | PtyData id data =>
          if bool_decide (id = sid) && isAlive sid (manager st) then [data] else []
      | _ => []
      end ++
      match step ev st with
      | (Ok _, st') => produced sid rest st'
      | (Throw _, _) => []
      end
  end.

(** Whose closure it is: [Some (Some c)] for the listener of connection
    [c], [Some None] for a capture listener. *)
Definition kind (cl : option closure) : option (option nat) :=
  match cl with
  | Some (DataListener c _ _ _) => Some (Some c)
  | Some (CaptureListener _) => Some None
  | None => None
  end.

Definition same_kinds (st st' : Server) : Prop :=
  ∀ a, kind (heap st' !! a) = kind (heap st !! a).

(** The invariant of a run, with a watched connection or without: the
    server is well formed, and the watched connection [c] is live on the
    process of [sid] through [fn] and has received the stream [S]. *)
Definition inv (w : option (nat * string * nat)) (S : list message)
    (st : Server) : Prop :=
  wf st ∧
  match w with
  | Some (c, sid, fn) => live c sid fn st ∧ stream c st = S
  | None => True
  end.

(** The message [{type: 'attach', sessionId, cols, rows}] and friends. *)
Definition attach_message (sessionId : string) (cols rows : Z) : raw_message :=
  Json (JObj [("type", JStr "attach"); ("sessionId", JStr sessionId);
              ("cols", JNum cols); ("rows", JNum rows)]).

Definition open_and_sound (c : nat) (st : Server) : Prop :=
  ∃ k, conns st !! c = Some k ∧ healthy k.

(** ** server.js: the REST handlers, from request to response *)

Definition MAX_NAME_LENGTH : nat := 100.
Definition MAX_CWD_LENGTH : nat := 1024.

Inductive response_body :=
| ErrorBody (error : string)
| SpawnFailed (e : exn)            (* error: `Failed to spawn: ${e.message}` *)
| SessionBody (s : session) (alive : bool)
| SessionsBody (l : list (session * bool))
| OkBody.                          (* { ok: true } *)

Record response := { res_status : nat; res_body : response_body }.

Definition json_response (code : nat) (body : response_body) : M response :=
  mret {| res_status := code; res_body := body |}.

(** What the host gives the server: [os.homedir()], [path.resolve(p)], and
    [fs.statSync(p)], which throws ([None]) or returns a stat whose
    [isDirectory()] is the boolean. *)
Record host := {
  homedir : string;
  path_resolve : string → string;
  statSync : string → option bool;
}.

(** The replacement text of [String.prototype.replace] for a pattern
    without capture groups: [$$], [$&], [$`] and [$'] are special in it. *)
Fixpoint substitution (matched before after replacement : string) : string :=
  match replacement with
  | EmptyString => EmptyString
  | String a rest =>
      if Ascii.eqb a "$" then
        match rest with
        | String b rest' =>
            if Ascii.eqb b "$"
            then String "$" (substitution matched before after rest')
            else if Ascii.eqb b "&"
            then matched +:+ substitution matched before after rest'
            else if Ascii.eqb b "`"
            then before +:+ substitution matched before after rest'
            else if Ascii.eqb b "'"
            then after +:+ substitution matched before after rest'
            else String a (substitution matched before after rest)
        | EmptyString => String a EmptyString
        end
      else String a (substitution matched before after rest)
  end.

(** [cwd.startsWith('~') ? cwd.replace(/^~/, os.homedir()) : cwd] *)
Definition expand_home (home cwd : string) : string :=
  match cwd with
  | String a rest =>
      if Ascii.eqb a "~" then substitution "~" "" rest home +:+ rest else cwd
  | EmptyString => cwd
  end.

(** A string of the request is held as the bytes of its UTF-8 encoding,
    as it comes in the body. [s.length] counts UTF-16 code units: one for
    a character of one, two or three bytes, two for a character of four
    bytes (a surrogate pair); the continuation bytes [10xxxxxx] count for
    nothing. *)
Definition code_units (a : ascii) : nat :=
  let n := nat_of_ascii a in
  if (n <? 128)%nat then 1%nat
  else if (n <? 192)%nat then 0%nat
  else if (n <? 240)%nat then 1%nat
  else 2%nat.

Fixpoint js_length (s : string) : nat :=
  match s with
  | EmptyString => 0%nat
  | String a rest => (code_units a + js_length rest)%nat
  end.

(** [typeof v !== 'string' || v.length > max] *)
Definition not_string_within (max : nat) (v : option json) : bool :=
  match v with
  | Some (JStr s) => (max <? js_length s)%nat
  | _ => true
  end.

Definition string_of (v : option json) : string :=
  match v with
  | Some (JStr s) => s
  | _ => ""
  end.

Definition with_alive (st : Server) : list (session * bool) :=
  map (λ s, (s, isAlive (session_id s) (manager st))) (sessions st).

(** [app.get('/api/sessions')] *)
Definition get_sessions : M response :=
  l ← gets with_alive;
  json_response 200 (SessionsBody l).

(** [try { spawnSession(session); } catch (e) { ... }]: what was caught. *)
Definition try_spawnSession (s : session) (started : bool) : M (option exn) :=
  try_catch (spawnSession s started ;; mret None) (λ e, mret (Some e)).

(** [app.post('/api/sessions')]; [body] is [req.body], [uuid] and [now] are
    what [crypto.randomUUID()] and [new Date().toISOString()] return. *)
Definition post_sessions (h : host) (body : json) (uuid now : string)
    (started : bool) : M response :=
  name ← lift (get_prop body "name");
  cwd ← lift (get_prop body "cwd");
  if negb (truthy name) || negb (truthy cwd)
  then json_response 400 (ErrorBody "name and cwd are required")
  else if not_string_within MAX_NAME_LENGTH name
  then json_response 400
         (ErrorBody "name must be a string of at most 100 characters")
  else if not_string_within MAX_CWD_LENGTH cwd
  then json_response 400
         (ErrorBody "cwd must be a string of at most 1024 characters")
  else
    (* Expand ~ and canonicalize cwd *)
    let expanded := expand_home (homedir h) (string_of cwd) in
    let resolvedCwd := path_resolve h expanded in
    match statSync h resolvedCwd with
    | None => json_response 400 (ErrorBody "cwd does not exist")
    | Some false => json_response 400 (ErrorBody "cwd is not a directory")
    | Some true =>
        let session := {| session_id := uuid; session_name := string_of name;
                          session_cwd := resolvedCwd; claudeSessionId := None;
                          status := running; createdAt := now |} in
        modify (set_sessions (λ l, l ++ [session])) ;;
        persist ;;
        failure ← try_spawnSession session started;
        match failure with
        | Some e => json_response 500 (SpawnFailed e)
        | None =>
            broadcastSessions ;;
            json_response 201 (SessionBody session true)
        end
    end.

(** [app.post('/api/sessions/:id/restart')] *)
Definition post_restart (id : string) (started : bool) : M response :=
  found ← gets (λ st, find (λ s, String.eqb (session_id s) id) (sessions st));
  match found with
  | None => json_response 404 (ErrorBody "not found")
  | Some session =>
      (* Kill existing if alive *)
      live ← gets (λ st, isAlive (session_id session) (manager st));
      when live (manager_kill (session_id session)) ;;
      modify (set_sessions
                (update_session (session_id session) (set_session_status running))) ;;
      persist ;;
      failure ← try_spawnSession session started;
      match failure with
      | Some e => json_response 500 (SpawnFailed e)
      | None =>
          broadcastSessions ;;
          json_response 200 (SessionBody (set_session_status running session) true)
      end
  end.

(** [app.delete('/api/sessions/:id')] *)
Definition delete_session (id : string) : M response :=
  found ← gets (λ st, find (λ s, String.eqb (session_id s) id) (sessions st));
  match found with
  | None => json_response 404 (ErrorBody "not found")
  | Some session =>
      manager_kill (session_id session) ;;
      modify (set_sessions (remove_session id)) ;;
      persist ;;
      broadcastSessions ;;
      json_response 200 OkBody
  end.

(** ** server.js: the start of the server *)

Definition is_running (s : session_status) : bool :=
  match s with
  | running => true
  | exited => false
  end.

(** The resume loop of [createServer]; [started id] tells whether the
    operating system starts the process of [id]. *)
Definition resume_sessions (started : string → bool) : M unit :=
  tm ← gets testMode;
  when (negb tm)
    (l ← gets sessions;
     for_of l (λ session,
       when (is_running (status session) && truthy_string (claudeSessionId session))
         (try_catch (spawnSession session (started (session_id session)))
            (λ _, modify (set_sessions
                            (update_session (session_id session)
                               (set_session_status exited)))))) ;;
     persist).

(** [createServer({ testMode })]: [loaded] is what [loadSessions()]
    returns. *)
Definition createServer (tm : bool) (loaded : list session)
    (started : string → bool) : outcome unit * Server :=
  resume_sessions started
    {| testMode := tm; manager := ∅; heap := ∅; nextRef := 0%nat;
       sessions := if tm then [] else loaded;
       clients := []; conns := ∅; persisted := [] |}.

(** The records of the store carry the ids the server gave them:
    [crypto.randomUUID()] never returns the empty string. *)
Definition stored_ok (loaded : list session) : Prop :=
  Forall (λ s, session_id s ≠ "") loaded.

(** The state the server has reached after the events [evs]:
    [createServer] has run on the records [loaded] of the store, the
    operating system starting the processes [started] says, and then the
    events have been served. *)
Definition reach (tm : bool) (loaded : list session) (started : string → bool)
    (evs : list event) : Server :=
  snd (run evs (snd (createServer tm loaded started))).

(** A store with one session to resume and one that has exited. *)
Definition stored_demo : list session :=
  [{| session_id := "s0"; session_name := "kept"; session_cwd := "/srv";
      claudeSessionId := Some "01234567-89ab-cdef-0123-456789abcdef";
      status := running; createdAt := "2025-12-31T00:00:00.000Z" |};
   {| session_id := "s9"; session_name := "old"; session_cwd := "/srv";
      claudeSessionId := None; status := exited;
      createdAt := "2025-12-30T00:00:00.000Z" |}].

(* ===================================================================== *)
(** * Part II: theorems *)
(* ===================================================================== *)

(** ** store.js: saveSessions *)

Section StoreFacts.
Import Store.
Variable STORE_PATH : string.
Variable sessions_t : Type.
Variable JSON_stringify : sessions_t → string.

Lemma append_nonempty_neq (s t : string) : t ≠ "" → s +:+ t ≠ s.
Proof.
  intros Ht. induction s as [|a s IH]; simpl; [done |].
  intros Heq. apply IH. by injection Heq.
Qed.

Lemma tmp_path_neq uuid : tmp_path STORE_PATH uuid ≠ STORE_PATH.
Proof. unfold tmp_path. apply append_nonempty_neq. done. Qed.

(** The store file holds what it held before the save, or all of the new
    data. *)
Definition store_intact (before : fs) (data : string) (f : fs) : Prop :=
  f !! STORE_PATH = before !! STORE_PATH ∨ f !! STORE_PATH = Some data.

Lemma store_intact_later before data f g :
  g !! STORE_PATH = f !! STORE_PATH →
  store_intact before data f → store_intact before data g.
Proof. unfold store_intact. intros ->. done. Qed.

(** C10 (amended): saveSessions never throws; in every state the disk goes
    through the store file holds its previous contents or the complete new
    data; when the write and the rename succeed the store file holds the
    new data and no temporary file is left; when one of them fails the
    store file is as before, and the temporary file is gone whenever the
    clean-up unlink does not itself fail. *)
Theorem saveSessions_atomic env uuid sessions d :
  let data := JSON_stringify sessions in
  let tmp := tmp_path STORE_PATH uuid in
  let r := saveSessions STORE_PATH sessions_t JSON_stringify env uuid sessions d in
  fst r = Ok tt
  ∧ (∃ steps, history (snd r) = history d ++ steps
              ∧ Forall (store_intact (files d) data) steps)
  ∧ (write_result env = None → rename_fails env = false →
       files (snd r) !! STORE_PATH = Some data ∧ files (snd r) !! tmp = None)
  ∧ (write_result env ≠ None ∨ rename_fails env = true →
       files (snd r) !! STORE_PATH = files d !! STORE_PATH
       ∧ (unlink_fails env = false → files (snd r) !! tmp = None)).
Proof.
  intros data tmp r. subst r. unfold saveSessions.
  fold tmp. fold data.
  pose proof (tmp_path_neq uuid) as Hne. fold tmp in Hne.
  assert (Hstore : ∀ (f : fs) v, <[tmp := v]> f !! STORE_PATH = f !! STORE_PATH)
    by (intros; by rewrite lookup_insert_ne).
  assert (Hdel : ∀ (f : fs), delete tmp f !! STORE_PATH = f !! STORE_PATH)
    by (intros; by rewrite lookup_delete_ne).
  unfold writeFileSync.
  destruct (write_result env) as [[|n]|] eqn:Hw; simpl.
  - (* the open fails: nothing was touched *)
    unfold unlinkSync. destruct (files d !! tmp) eqn:Htmp; simpl.
    + destruct (unlink_fails env) eqn:Hu; simpl.
      * split_and!; try done.
        exists []. by rewrite app_nil_r.
      * split_and!; try done.
        -- exists [delete tmp (files d)]. split; [done |].
           apply Forall_singleton. left. apply Hdel.
        -- intros _. split; [apply Hdel |]. intros _. apply lookup_delete_eq.
    + split_and!; try done.
      exists []. by rewrite app_nil_r.
  - (* the write fails half-way: the temporary file is partial *)
    unfold unlinkSync. simpl. rewrite lookup_insert_eq. simpl.
    destruct (unlink_fails env) eqn:Hu; simpl.
    + split_and!; try done.
      * eexists [_; _]. rewrite <- app_assoc. split; [done |].
        repeat apply Forall_cons_2; [| | apply Forall_nil_2];
          left; by rewrite ?Hstore.
      * intros _. split; [by rewrite !Hstore | done].
    + split_and!; try done.
      * eexists [_; _; _]. rewrite <- !app_assoc. split; [done |].
        repeat apply Forall_cons_2; [| | | apply Forall_nil_2];
          left; by rewrite ?Hdel, ?Hstore.
      * intros _. split; [by rewrite Hdel, !Hstore |].
        intros _. apply lookup_delete_eq.
  - (* the write succeeds *)
    unfold renameSync. simpl. rewrite lookup_insert_eq. simpl.
    destruct (rename_fails env) eqn:Hr; simpl.
    + unfold unlinkSync. simpl. rewrite lookup_insert_eq. simpl.
      destruct (unlink_fails env) eqn:Hu; simpl.
      * split_and!; try done.
        -- eexists [_; _]. rewrite <- app_assoc. split; [done |].
           repeat apply Forall_cons_2; [| | apply Forall_nil_2];
             left; by rewrite ?Hstore.
        -- intros _. split; [by rewrite !Hstore | done].
      * split_and!; try done.
        -- eexists [_; _; _]. rewrite <- !app_assoc. split; [done |].
           repeat apply Forall_cons_2; [| | | apply Forall_nil_2];
             left; by rewrite ?Hdel, ?Hstore.
        -- intros _. split; [by rewrite Hdel, !Hstore |].
           intros _. apply lookup_delete_eq.
    + split_and!; try done.
      * eexists [_; _; _]. rewrite <- !app_assoc. split; [done |].
        repeat apply Forall_cons_2; [| | | apply Forall_nil_2].
        -- left. by rewrite ?Hstore.
        -- left. by rewrite ?Hstore.
        -- right. apply lookup_insert_eq.
      * intros _ _. split; [apply lookup_insert_eq |].
        rewrite lookup_insert_ne by done. apply lookup_delete_eq.
      * intros [? | ?]; done.
Qed.

(** Writing the store file in place does leave it partial when the write
    fails: the history of the disk tells the two designs apart. *)
Lemma saveSessions_in_place_partial env sessions d n :
  write_result env = Some (WriteFailsAfter n) →
  files (snd (saveSessions_in_place STORE_PATH sessions_t JSON_stringify
                env sessions d)) !! STORE_PATH
  = Some (String.substring 0 n (JSON_stringify sessions)).
Proof.
  intros Hw. unfold saveSessions_in_place, writeFileSync. rewrite Hw. simpl.
  by rewrite lookup_insert_eq.
Qed.
End StoreFacts.

(** C10 as stated fails: the write breaks off after one character and the
    clean-up unlink fails too; the error is swallowed and the partial
    temporary file stays on the disk. *)
Lemma saveSessions_leaves_tmp_file :
  let env := {| Store.write_result := Some (Store.WriteFailsAfter 1);
                Store.rename_fails := false; Store.unlink_fails := true |} in
  let d := {| Store.files := {["sessions.json" := "[]"]}; Store.history := [] |} in
  let r := Store.saveSessions "sessions.json" (list string)
             (λ l, "[" +:+ String.concat "," l +:+ "]")
             env "0f8fad5b-d9cb-469f-a165-70867728950e" ["s1"] d in
  fst r = Ok tt
  ∧ Store.write_result env ≠ None
  ∧ Store.files (snd r) !! "sessions.json.tmp.0f8fad5b" = Some "[".
Proof. vm_compute. repeat split; congruence. Qed.

(** ** The ring buffer *)

Section RingBuffer.

Definition consistent (b : list string * Z) : Prop :=
  snd b = total_length (fst b).

Lemma chunk_length_nonneg c : 0 ≤ chunk_length c.
Proof. unfold chunk_length. lia. Qed.

Lemma total_length_nonneg l : 0 ≤ total_length l.
Proof.
  induction l as [|c l IH]; simpl; [lia |].
  pose proof (chunk_length_nonneg c). lia.
Qed.

Lemma total_length_app l1 l2 :
  total_length (l1 ++ l2) = total_length l1 + total_length l2.
Proof. induction l1 as [|c l1 IH]; simpl; lia. Qed.

(** The loop: what it keeps is a suffix, fits, and nothing more was
    dropped than needed (the last chunk dropped would not have fitted). *)
Lemma trim_spec buf n :
  n = total_length buf →
  ∃ dropped,
    buf = dropped ++ fst (trim buf n)
    ∧ snd (trim buf n) = total_length (fst (trim buf n))
    ∧ snd (trim buf n) ≤ MAX_BUFFER_SIZE
    ∧ (n ≤ MAX_BUFFER_SIZE → dropped = [])
    ∧ (∀ front d, dropped = front ++ [d] →
         MAX_BUFFER_SIZE < chunk_length d + snd (trim buf n)).
Proof.
  revert n. induction buf as [|c buf IH]; intros n Hn; simpl.
  - exists []. simpl in Hn. subst n. simpl.
    repeat split; try done.
    intros front d Hd. by destruct front.
  - destruct (MAX_BUFFER_SIZE <? n) eqn:Hcmp.
    + apply Z.ltb_lt in Hcmp.
      destruct (IH (n - chunk_length c)) as (dropped & Hb & Hs & Hle & Hnone & Hlast).
      { simpl in Hn. lia. }
      exists (c :: dropped). repeat split; try done.
      * simpl. by rewrite <- Hb.
      * intros ?. lia.
      * intros front d Hd.
        destruct dropped as [|d0 dropped'].
        -- destruct front as [|? [|? ?]]; simpl in Hd; [| done | done].
           injection Hd as ->.
           set (t := trim buf _) in *. simpl in Hb, Hn.
           rewrite Hs, <- Hb. lia.
        -- destruct front as [|c' front]; simpl in Hd; [done |].
           injection Hd as _ Hd. by apply (Hlast front).
    + apply Z.ltb_ge in Hcmp. exists []. simpl.
      repeat split; try done.
      intros front d Hd. by destruct front.
Qed.

Definition appends (chunks : list string) : list string * Z :=
  fold_left (λ b chunk, pushToBuffer chunk b) chunks ([], 0).

Lemma appends_snoc chunks chunk :
  appends (chunks ++ [chunk]) = pushToBuffer chunk (appends chunks).
Proof. unfold appends. by rewrite fold_left_app. Qed.

Lemma pushToBuffer_consistent chunk b :
  consistent b → consistent (pushToBuffer chunk b).
Proof.
  unfold consistent, pushToBuffer. intros Hb.
  destruct (trim_spec (fst b ++ [chunk]) (snd b + chunk_length chunk))
    as (? & _ & Hs & _); [| done].
  rewrite total_length_app, Hb. simpl. lia.
Qed.

Lemma appends_consistent chunks : consistent (appends chunks).
Proof.
  induction chunks as [|chunk chunks IH] using rev_ind; [done |].
  rewrite appends_snoc. by apply pushToBuffer_consistent.
Qed.

(** C2: after every sequence of appends the recorded size is the total
    size of the chunks held and is at most 1,048,576; an append keeps
    the old chunks and the new one in order, minus a prefix of whole
    chunks, which is empty when the total already fits and is otherwise
    no longer than needed; [pushToBuffer] is a total function. *)
Theorem ring_buffer_bounded (chunks : list string) (chunk : string) :
  let before := appends chunks in
  let after := appends (chunks ++ [chunk]) in
  MAX_BUFFER_SIZE = 1048576
  ∧ snd before = total_length (fst before)
  ∧ 0 ≤ snd after ≤ MAX_BUFFER_SIZE
  ∧ snd after = total_length (fst after)
  ∧ ∃ dropped,
      fst before ++ [chunk] = dropped ++ fst after
      ∧ (snd before + chunk_length chunk ≤ MAX_BUFFER_SIZE → dropped = [])
      ∧ (∀ front d, dropped = front ++ [d] →
           MAX_BUFFER_SIZE < chunk_length d + snd after).
Proof.
  intros before after. subst before after.
  rewrite appends_snoc.
  pose proof (appends_consistent chunks) as Hc. unfold consistent in Hc.
  set (b := appends chunks) in *.
  unfold pushToBuffer.
  destruct (trim_spec (fst b ++ [chunk]) (snd b + chunk_length chunk))
    as (dropped & Hb & Hs & Hle & Hnone & Hlast).
  { rewrite total_length_app, Hc. simpl. lia. }
  split; [done |]. split; [done |].
  split; [split; [| done] |].
  { rewrite Hs. apply total_length_nonneg. }
  split; [done |].
  exists dropped. done.
Qed.

(** The scenario of the test file: three chunks of 512 KB. *)
Lemma three_half_megabyte_chunks a b c :
  chunk_length a = 512 * 1024 → chunk_length b = 512 * 1024 →
  chunk_length c = 512 * 1024 →
  appends [a; b; c] = ([b; c], 1024 * 1024).
Proof.
  intros Ha Hb Hc. unfold appends, pushToBuffer. simpl.
  rewrite Ha. simpl. rewrite Hb. simpl. rewrite Hc, Ha. simpl. done.
Qed.

End RingBuffer.

(** ** The exit path of a session process *)

Section Kill.

Lemma proc_exit_exited p : alive (fst (proc_exit p)) = false.
Proof. unfold proc_exit. by destruct (alive p) eqn:H. Qed.

Lemma kill_unknown id (m : PtyManager) : m !! id = None → kill id m = (m, []).
Proof. unfold kill. by intros ->. Qed.

Lemma kill_exited id (m : PtyManager) p :
  m !! id = Some p → alive p = false → kill id m = (m, []).
Proof.
  intros Hp Ha. unfold kill, proc_exit. rewrite Hp, Ha.
  by rewrite insert_id.
Qed.

Lemma kill_running id (m : PtyManager) p :
  m !! id = Some p → alive p = true →
  kill id m = (<[id := set_alive false p]> m, exitListeners p).
Proof. intros Hp Ha. unfold kill, proc_exit. by rewrite Hp, Ha. Qed.

(** C5: for a running session, [kill] followed by [kill], and a natural
    exit followed by [kill], make every registered exit callback due
    exactly once: the first call hands out the callbacks, the second one
    none, and leaves the manager as it is. *)
Theorem kill_idempotent id (m : PtyManager) p :
  m !! id = Some p → alive p = true →
  let '(m1, due1) := kill id m in
  let '(m2, due2) := kill id m1 in
  let '(m1', due1') := natural_exit id m in
  let '(m2', due2') := kill id m1' in
  due1 = exitListeners p ∧ due2 = [] ∧ m2 = m1 ∧ isAlive id m2 = false
  ∧ due1' = exitListeners p ∧ due2' = [] ∧ m2' = m1'.
Proof.
  intros Hp Ha. unfold natural_exit.
  rewrite (kill_running id m p Hp Ha).
  rewrite (kill_exited id _ (set_alive false p)); [| apply lookup_insert_eq | done].
  unfold isAlive. rewrite lookup_insert_eq. done.
Qed.

Lemma kill_idempotent_witness :
  let p := proc_onExit (ExitHandler "s1")
             (new_process {| opt_cwd := "/"; opt_shell := None; opt_args := [];
                             opt_resumeId := None |} true) in
  let m : PtyManager := {["s1" := p]} in
  let '(m1, due1) := kill "s1" m in
  let '(m2, due2) := kill "s1" m1 in
  let '(m1', due1') := natural_exit "s1" m in
  let '(m2', due2') := kill "s1" m1' in
  due1 = exitListeners p ∧ due2 = [] ∧ m2 = m1 ∧ isAlive "s1" m2 = false
  ∧ due1' = exitListeners p ∧ due2' = [] ∧ m2' = m1'.
Proof.
  intros p m.
  apply (kill_idempotent "s1" m p); [apply lookup_singleton_eq | reflexivity].
Defined.

End Kill.
(** ** Records and the monad *)

Section Basics.

Lemma set_manager_same st (f : PtyManager → PtyManager) :
  f (manager st) = manager st → set_manager f st = st.
Proof. destruct st; unfold set_manager; simpl. by intros ->. Qed.

Lemma set_conns_same st (f : gmap nat connection → gmap nat connection) :
  f (conns st) = conns st → set_conns f st = st.
Proof. destruct st; unfold set_conns; simpl. by intros ->. Qed.

Lemma set_heap_same st (f : gmap nat closure → gmap nat closure) :
  f (heap st) = heap st → set_heap f st = st.
Proof. destruct st; unfold set_heap; simpl. by intros ->. Qed.

(** Sequencing after a step that returned normally. *)
Lemma bind_ok {A B} (m : M A) (k : A → M B) st a st' :
  m st = (Ok a, st') → (m ≫= k) st = k a st'.
Proof. unfold mbind, M_bind. by intros ->. Qed.

Lemma bind_throw {A B} (m : M A) (k : A → M B) st e st' :
  m st = (Throw e, st') → (m ≫= k) st = (Throw e, st').
Proof. unfold mbind, M_bind. by intros ->. Qed.

End Basics.

(** ** Unknown session ids *)

Section UnknownId.

(** C4: on an id the manager does not know, [write], [resize] and [kill]
    leave the manager as it is and make no callback due, [isAlive] is
    false, [getBuffer] is empty; the server's calls of them return
    normally with the state unchanged, and so does an attach message
    naming that id, whatever the connection was attached to. *)
Theorem unknown_id_is_noop (st : Server) (id : string)
    (data cols rows : option json) (c : nat) (members : list (string * json)) :
  manager st !! id = None →
  write id data (manager st) = manager st
  ∧ resize id cols rows (manager st) = manager st
  ∧ kill id (manager st) = (manager st, [])
  ∧ isAlive id (manager st) = false
  ∧ getBuffer id (manager st) = []
  ∧ manager_write id data st = (Ok tt, st)
  ∧ manager_resize id cols rows st = (Ok tt, st)
  ∧ manager_kill id st = (Ok tt, st)
  ∧ (member "type" members = Some (JStr "attach") →
     member "sessionId" members = Some (JStr id) →
     on_message c (Json (JObj members)) st = (Ok tt, st)).
Proof.
  intros Hid.
  assert (Hw : write id data (manager st) = manager st)
    by (by apply alter_id').
  assert (Hr : resize id cols rows (manager st) = manager st)
    by (by apply alter_id').
  split_and!; try done.
  - unfold kill. by rewrite Hid.
  - unfold isAlive. by rewrite Hid.
  - unfold getBuffer. by rewrite Hid.
  - unfold manager_write, modify. by rewrite set_manager_same.
  - unfold manager_resize, modify. by rewrite set_manager_same.
  - unfold manager_kill, with_manager, kill, mbind, M_bind. rewrite Hid. simpl.
    by rewrite set_manager_same.
  - intros Hty Hsid.
    unfold on_message, mbind, M_bind, lift. simpl. rewrite Hty. simpl.
    unfold on_attach, mbind, M_bind, lift, gets, getProcess. simpl.
    rewrite Hsid. by rewrite Hid.
Qed.

Lemma unknown_id_is_noop_witness :
  let st := reach false stored_demo (λ _, true)
              [WsConnection 0 []; WsMessage 0 (attach_message "s0" 80 24);
               PtyData "s0" "A"] in
  attached_of 0 st = Some "s0" ∧ listener_of 0 st = Some 1%nat
  ∧ on_message 0 (Json (JObj [("type", JStr "attach"); ("sessionId", JStr "gone")])) st
    = (Ok tt, st)
  ∧ manager_write "gone" (Some (JStr "ls")) st = (Ok tt, st)
  ∧ manager_resize "gone" (Some (JNum 80)) (Some (JNum 24)) st = (Ok tt, st)
  ∧ manager_kill "gone" st = (Ok tt, st).
Proof.
  intros st.
  destruct (unknown_id_is_noop st "gone" (Some (JStr "ls")) (Some (JNum 80))
              (Some (JNum 24)) 0%nat
              [("type", JStr "attach"); ("sessionId", JStr "gone")])
    as (_ & _ & _ & _ & _ & Hw & Hr & Hk & Ha).
  - vm_compute. reflexivity.
  - split; [vm_compute; reflexivity |]. split; [vm_compute; reflexivity |].
    split; [apply Ha; reflexivity |]. split; [exact Hw |].
    split; [exact Hr | exact Hk].
Defined.

(** An attach whose session id is not a string finds no process either. *)
Lemma attach_non_string_id st c members :
  member "type" members = Some (JStr "attach") →
  (∀ id, member "sessionId" members ≠ Some (JStr id)) →
  on_message c (Json (JObj members)) st = (Ok tt, st).
Proof.
  intros Hty Hsid.
  unfold on_message, mbind, M_bind, lift. simpl. rewrite Hty. simpl.
  unfold on_attach, mbind, M_bind, lift. simpl.
  destruct (member "sessionId" members) as [[]|]; try done.
  by destruct (Hsid s).
Qed.

End UnknownId.

(** ** Messages the handler does not understand *)

Section BadMessages.

Lemma on_message_malformed st c : on_message c Malformed st = (Ok tt, st).
Proof. done. Qed.

Lemma on_message_other_type st c v :
  v ≠ JNull →
  (∀ ty, get_prop v "type" = Ok ty →
         type_is ty "attach" = false ∧ type_is ty "input" = false
         ∧ type_is ty "resize" = false) →
  on_message c (Json v) st = (Ok tt, st).
Proof.
  intros Hv Hty. unfold on_message, mbind, M_bind, lift. simpl.
  destruct (get_prop v "type") as [ty|e] eqn:Hget.
  - destruct (Hty ty eq_refl) as (-> & -> & ->). done.
  - by destruct v.
Qed.

(** C9 fails on the payload [null]: it is valid JSON, [JSON.parse] returns
    [null], and reading [msg.type] throws a TypeError that nothing in the
    handler catches. *)
Theorem on_message_null_throws st c :
  on_message c (Json JNull) st = (Throw TypeError, st).
Proof. done. Qed.

Lemma step_null_message_throws :
  let st := snd (step (WsConnection 0 []) (initial true)) in
  fst (step (WsMessage 0 (Json JNull)) st) = Throw TypeError.
Proof. vm_compute. done. Qed.

End BadMessages.
(** ** Rules for [wp] *)

Section Rules.
Context {A B : Type}.
Implicit Types (Q : A → Server → Prop) (E : exn → Server → Prop).

Lemma wp_ret (a : A) Q E st : Q a st → wp (mret a) Q E st.
Proof. done. Qed.

Lemma wp_bind (m : M A) (k : A → M B) (Q : B → Server → Prop) E st :
  wp m (λ a, wp (k a) Q E) E st → wp (m ≫= k) Q E st.
Proof.
  unfold wp, mbind, M_bind. by destruct (m st) as [[a|e] st'].
Qed.

Lemma wp_gets (f : Server → A) Q E st : Q (f st) st → wp (gets f) Q E st.
Proof. done. Qed.

Lemma wp_lift (r : outcome A) Q E st :
  match r with Ok a => Q a st | Throw e => E e st end → wp (lift r) Q E st.
Proof. done. Qed.

Lemma wp_throw e Q E st : E e st → wp (throw e) Q E st.
Proof. done. Qed.

Lemma wp_try_catch (m : M A) h Q E st :
  wp m Q (λ e, wp (h e) Q E) st → wp (try_catch m h) Q E st.
Proof.
  unfold wp, try_catch. by destruct (m st) as [[a|e] st'].
Qed.

Lemma wp_mono (m : M A) Q Q' E E' st :
  wp m Q E st → (∀ a s, Q a s → Q' a s) → (∀ e s, E e s → E' e s) →
  wp m Q' E' st.
Proof.
  unfold wp. destruct (m st) as [[a|e] st']; eauto.
Qed.

Lemma wp_with_manager (f : PtyManager → PtyManager * A) Q E st :
  Q (snd (f (manager st))) (set_manager (λ _, fst (f (manager st))) st) →
  wp (with_manager f) Q E st.
Proof.
  unfold wp, with_manager. by destruct (f (manager st)).
Qed.

End Rules.

Lemma wp_modify f (Q : unit → Server → Prop) E st :
  Q tt (f st) → wp (modify f) Q E st.
Proof. done. Qed.

Lemma wp_when (b : bool) m (Q : unit → Server → Prop) E st :
  (b = true → wp m Q E st) → (b = false → Q tt st) → wp (when b m) Q E st.
Proof. intros Ht Hf. destruct b; simpl; [by apply Ht | by apply Hf]. Qed.

(** A loop, with an invariant over the elements still to come. *)
Lemma wp_for_of {A} (l : list A) (body : A → M unit)
    (I : list A → Server → Prop) E st :
  I l st →
  (∀ x rest s, I (x :: rest) s → wp (body x) (λ _, I rest) E s) →
  wp (for_of l body) (λ _, I []) E st.
Proof.
  intros HI Hbody. revert st HI.
  induction l as [|x l IH]; intros st HI; simpl.
  - done.
  - apply wp_bind. eapply wp_mono; [by apply Hbody | | done].
    intros ? s Hs. by apply IH.
Qed.

(** A loop whose body keeps a state invariant. *)
Lemma wp_for_of_inv {A} (l : list A) (body : A → M unit)
    (I : Server → Prop) E st :
  I st →
  (∀ x s, x ∈ l → I s → wp (body x) (λ _, I) E s) →
  wp (for_of l body) (λ _, I) E st.
Proof.
  intros HI Hbody.
  eapply wp_mono;
    [apply (wp_for_of l body (λ rest s, I s ∧ ∀ x, x ∈ rest → x ∈ l)) | |].
  - split; [done | auto].
  - intros x rest s [Hs Hin]. eapply wp_mono; [apply Hbody | |].
    + apply Hin. left.
    + done.
    + intros ? s' Hs'. split; [done |]. intros y Hy. apply Hin. by right.
    + done.
  - intros ? s [Hs _]. done.
  - done.
Qed.

(** ** Sending *)

(** What [safeSend] makes of a connection. *)
Definition after_send (data : message) (k : connection) : connection :=
  if (readyState (ws k) =? 1)%nat
  then set_ws (snd (socket_send data (ws k))) k
  else k.

Lemma alter_lookup_insert {V} (f : V → V) (m : gmap nat V) i x :
  m !! i = Some x → alter f i m = <[i := f x]> m.
Proof.
  intros Hx. apply map_eq. intros j.
  destruct (decide (i = j)) as [-> | Hne].
  - by rewrite lookup_alter_eq, lookup_insert_eq, Hx.
  - by rewrite lookup_alter_ne, lookup_insert_ne.
Qed.

Lemma set_conns_to st f m :
  f (conns st) = m → set_conns f st = set_conns (λ _, m) st.
Proof. unfold set_conns. by intros ->. Qed.

Lemma safeSend_eq c data st :
  safeSend c data st = (Ok tt, set_conns (alter (after_send data) c) st).
Proof.
  destruct (conns st !! c) as [k|] eqn:Hk.
  - rewrite (set_conns_to st _ _ (alter_lookup_insert _ _ _ _ Hk)).
    unfold safeSend, mbind, M_bind, gets, readyState_of, after_send.
    rewrite Hk.
    destruct (readyState (ws k) =? 1)%nat eqn:Hopen.
    + unfold try_catch, ws_send. rewrite Hk. unfold socket_send.
      destruct (sendFaults (ws k)) as [|[] later]; simpl; done.
    + simpl. rewrite set_conns_same; [done |]. by apply insert_id.
  - rewrite set_conns_same by (by apply alter_id').
    unfold safeSend, mbind, M_bind, gets, readyState_of. by rewrite Hk.
Qed.

Lemma wp_safeSend c data (Q : unit → Server → Prop) E st :
  Q tt (set_conns (alter (after_send data) c) st) → wp (safeSend c data) Q E st.
Proof. unfold wp. by rewrite safeSend_eq. Qed.

Lemma after_send_attached data k :
  attachedSessionId (after_send data k) = attachedSessionId k.
Proof. unfold after_send. by destruct (readyState (ws k) =? 1)%nat. Qed.

Lemma after_send_listener data k :
  dataListener (after_send data k) = dataListener k.
Proof. unfold after_send. by destruct (readyState (ws k) =? 1)%nat. Qed.

Lemma after_send_healthy data k :
  healthy k →
  healthy (after_send data k)
  ∧ received (ws (after_send data k)) = received (ws k) ++ [data].
Proof.
  intros [Hopen Hfaults]. unfold after_send, healthy, socket_send.
  rewrite Hopen. simpl.
  destruct (sendFaults (ws k)) as [|b later]; simpl.
  - done.
  - apply Forall_cons in Hfaults as [-> Hlater]. done.
Qed.
(** ** The invariant under the elementary state changes *)

Section WfSteps.
Implicit Types (st : Server) (c fn : nat) (id : string).

Lemma wf_initial tm : wf (initial tm).
Proof.
  constructor; simpl.
  - intros a [? H]. by rewrite lookup_empty in H.
  - intros id p H. by rewrite lookup_empty in H.
  - intros id p H. by rewrite lookup_empty in H.
  - intros id fn (p & H & _). simpl in H. by rewrite lookup_empty in H.
  - intros c id fn [(p & H & _) _]. simpl in H. by rewrite lookup_empty in H.
  - intros c k fn H. by rewrite lookup_empty in H.
  - intros s H. by apply elem_of_nil in H.
  - intros id p id' a H. by rewrite lookup_empty in H.
Qed.

Lemma wf_set_persisted st l : wf st → wf (set_persisted l st).
Proof. intros [Wheap Wnodup Wids Wfresh Wcur Wown Wsess Wclean]. by constructor. Qed.

Lemma wf_set_clients st f : wf st → wf (set_clients f st).
Proof. intros [Wheap Wnodup Wids Wfresh Wcur Wown Wsess Wclean]. by constructor. Qed.

Lemma wf_set_sessions st f :
  wf st → (∀ s, s ∈ f (sessions st) → session_id s ≠ "") →
  wf (set_sessions f st).
Proof. intros [Wheap Wnodup Wids Wfresh Wcur Wown Wsess Wclean] Hf. by constructor. Qed.

(** A change of a connection that keeps its two variables. *)
Lemma wf_set_conns_alter st g c :
  wf st →
  (∀ k, attachedSessionId (g k) = attachedSessionId k
        ∧ dataListener (g k) = dataListener k) →
  wf (set_conns (alter g c) st).
Proof.
  intros [Wheap Wnodup Wids Wfresh Wcur Wown Wsess Wclean] Hg. constructor; unfold listens, registered; simpl; try done.
  - intros c' id fn Hl.
    destruct (Wcur c' id fn Hl) as (k & Hk & Ha & Hd).
    destruct (decide (c = c')) as [-> | Hne].
    + exists (g k). rewrite lookup_alter_eq, Hk. simpl.
      destruct (Hg k) as [-> ->]. done.
    + exists k. by rewrite lookup_alter_ne.
  - intros c' k fn Hk Hd.
    destruct (decide (c = c')) as [-> | Hne].
    + rewrite lookup_alter_eq in Hk.
      destruct (conns st !! c') as [k0|] eqn:Hk0; [| done].
      simpl in Hk. injection Hk as <-.
      destruct (Hg k0) as [_ Hd']. rewrite Hd' in Hd. eauto.
    + rewrite lookup_alter_ne in Hk by done. eauto.
Qed.

(** A new manager whose listeners were all registered before. *)
Lemma wf_set_manager st (m' : PtyManager) :
  wf st →
  (∀ id p', m' !! id = Some p' →
     id ≠ "" ∧ NoDup (dataListeners p')
     ∧ (∀ fn, fn ∈ dataListeners p' → registered st id fn)
     ∧ (∀ id' a, CaptureCleanup id' a ∈ exitListeners p' →
                 is_capture (heap st !! a))) →
  wf (set_manager (λ _, m') st).
Proof.
  intros [Wheap Wnodup Wids Wfresh Wcur Wown Wsess Wclean] Hm. constructor; unfold listens, registered; simpl; try done.
  - intros id p' Hp. by destruct (Hm id p' Hp) as (_ & ? & _).
  - intros id p' Hp. by destruct (Hm id p' Hp) as (? & _).
  - intros id fn (p' & Hp & Hfn). destruct (Hm id p' Hp) as (_ & _ & Hreg & _).
    eauto.
  - intros c id fn [(p' & Hp & Hfn) Hown].
    destruct (Hm id p' Hp) as (_ & _ & Hreg & _).
    apply Wcur. split; [by apply Hreg | done].
  - intros id p' id' a Hp Hcb. destruct (Hm id p' Hp) as (_ & _ & _ & Hc). eauto.
Qed.

(** Allocation never touches an address in use. *)
Lemma wf_new_closure st cl :
  wf st →
  wf (set_nextRef (S (nextRef st)) (set_heap (<[nextRef st := cl]>) st)).
Proof.
  intros [Wheap Wnodup Wids Wfresh Wcur Wown Wsess Wclean]. constructor; unfold listens, registered; simpl; try done.
  - intros a Ha. destruct (decide (nextRef st = a)) as [<- | Hne]; [lia |].
    rewrite lookup_insert_ne in Ha by done. apply Wheap in Ha. lia.
  - intros id fn Hreg. apply Wfresh in Hreg. lia.
  - intros c id fn [Hreg Hown]. apply Wcur. split; [done |].
    pose proof (Wfresh _ _ Hreg).
    rewrite lookup_insert_ne in Hown by lia. done.
  - intros c k fn Hk Hd. pose proof (Wown c k fn Hk Hd) as Hown.
    assert (fn < nextRef st)%nat.
    { apply Wheap. unfold owned_by in Hown. by destruct (heap st !! fn). }
    rewrite lookup_insert_ne by lia. done.
  - intros id p id' a Hp Hcb. pose proof (Wclean id p id' a Hp Hcb) as Hcap.
    assert (a < nextRef st)%nat.
    { apply Wheap. unfold is_capture in Hcap. by destruct (heap st !! a). }
    rewrite lookup_insert_ne by lia. done.
Qed.

(** A closure of an attach changes its captured variables, not its owner. *)
Lemma wf_set_heap_listener st fn c sid r pd r' pd' :
  wf st →
  heap st !! fn = Some (DataListener c sid r pd) →
  wf (set_heap (<[fn := DataListener c sid r' pd']>) st).
Proof.
  intros [Wheap Wnodup Wids Wfresh Wcur Wown Wsess Wclean] Hfn. constructor; unfold listens, registered; simpl; try done.
  - intros a Ha. destruct (decide (fn = a)) as [<- | Hne].
    + apply Wheap. by rewrite Hfn.
    + rewrite lookup_insert_ne in Ha by done. by apply Wheap.
  - intros c' id a [Hreg Hown]. apply Wcur. split; [done |].
    destruct (decide (fn = a)) as [<- | Hne].
    + rewrite lookup_insert_eq in Hown. by rewrite Hfn.
    + by rewrite lookup_insert_ne in Hown.
  - intros c' k a Hk Hd. pose proof (Wown c' k a Hk Hd) as Hown.
    destruct (decide (fn = a)) as [<- | Hne].
    + rewrite lookup_insert_eq. by rewrite Hfn in Hown.
    + by rewrite lookup_insert_ne.
  - intros id p id' a Hp Hcb. pose proof (Wclean id p id' a Hp Hcb) as Hcap.
    destruct (decide (fn = a)) as [<- | Hne].
    + by rewrite Hfn in Hcap.
    + by rewrite lookup_insert_ne.
Qed.

(** The variables of a connection that listens nowhere may be set to any
    session and to any closure it owns. *)
Lemma wf_set_vars st c g :
  wf st →
  (∀ id fn, ¬ listens st c id fn) →
  (∀ k fn, conns st !! c = Some k → dataListener (g k) = Some fn →
           owned_by c (heap st !! fn)) →
  wf (set_conns (alter g c) st).
Proof.
  intros [Wheap Wnodup Wids Wfresh Wcur Wown Wsess Wclean] Hnone Hg.
  constructor; unfold listens, registered; simpl; try done.
  - intros c' id fn Hl.
    destruct (decide (c = c')) as [-> | Hne]; [by destruct (Hnone id fn) |].
    rewrite lookup_alter_ne by done. eauto.
  - intros c' k fn Hk Hd.
    destruct (decide (c = c')) as [-> | Hne].
    + rewrite lookup_alter_eq in Hk.
      destruct (conns st !! c') as [k0|] eqn:Hk0; [| done].
      simpl in Hk. injection Hk as <-. eauto.
    + rewrite lookup_alter_ne in Hk by done. eauto.
Qed.

(** The invariant looks at the heap through [kind] only. *)
Lemma wf_set_heap_kinds st f :
  wf st →
  (∀ a, kind (f (heap st) !! a) = kind (heap st !! a)) →
  wf (set_heap f st).
Proof.
  intros [Wheap Wnodup Wids Wfresh Wcur Wown Wsess Wclean] Hk.
  assert (Hsome : ∀ a, is_Some (f (heap st) !! a) → is_Some (heap st !! a)).
  { intros a Ha. specialize (Hk a).
    destruct (heap st !! a); [done |].
    destruct Ha as [cl Hcl]. rewrite Hcl in Hk. by destruct cl. }
  assert (Hownk : ∀ c x y, kind x = kind y → owned_by c x → owned_by c y).
  { intros c [[]|] [[]|]; simpl; intros [=]; congruence. }
  assert (Hcapk : ∀ x y, kind x = kind y → is_capture x → is_capture y).
  { intros [[]|] [[]|]; simpl; intros [=]; done. }
  constructor; unfold listens, registered; simpl; try done.
  - intros a Ha. apply Wheap. by apply Hsome.
  - intros c id fn [Hreg Hown]. apply Wcur. split; [done |].
    by apply (Hownk c _ _ (Hk fn)).
  - intros c k fn Hc Hd. apply (Hownk c (heap st !! fn)); [by rewrite Hk |].
    by apply (Wown c k).
  - intros id p id' a Hp Hcb. apply (Hcapk (heap st !! a)); [by rewrite Hk |].
    by apply (Wclean id p id').
Qed.

Lemma elem_of_addListener fn a p :
  a ∈ dataListeners (proc_addListener fn p) ↔ a = fn ∨ a ∈ dataListeners p.
Proof.
  unfold proc_addListener. case_bool_decide as Hin; simpl.
  - split; [auto |]. intros [-> | ?]; done.
  - rewrite elem_of_app, list_elem_of_singleton. tauto.
Qed.

Lemma NoDup_addListener fn p :
  NoDup (dataListeners p) → NoDup (dataListeners (proc_addListener fn p)).
Proof.
  intros Hnd. unfold proc_addListener. case_bool_decide as Hin; simpl; [done |].
  apply NoDup_app. split_and!; [done | | apply NoDup_singleton].
  intros x Hx Hx'. apply list_elem_of_singleton in Hx' as ->. done.
Qed.

(** Registering an allocated closure: one owned by a connection must be
    the listener of that connection, attached to that session. *)
Lemma wf_onData st id fn :
  wf st →
  (fn < nextRef st)%nat →
  (∀ c, owned_by c (heap st !! fn) →
        ∃ k, conns st !! c = Some k ∧ attachedSessionId k = Some id
             ∧ dataListener k = Some fn) →
  wf (set_manager (onData id fn) st).
Proof.
  intros [Wheap Wnodup Wids Wfresh Wcur Wown Wsess Wclean] Hlt Hnew. constructor; unfold listens, registered; simpl; try done.
  - intros id' p' Hp. unfold onData in Hp.
    destruct (decide (id = id')) as [<- | Hne].
    + rewrite lookup_alter_eq in Hp.
      destruct (manager st !! id) as [p|] eqn:Hp0; [| done].
      simpl in Hp. injection Hp as <-. apply NoDup_addListener. eauto.
    + rewrite lookup_alter_ne in Hp by done. eauto.
  - intros id' p' Hp. unfold onData in Hp.
    destruct (decide (id = id')) as [<- | Hne].
    + rewrite lookup_alter_eq in Hp.
      destruct (manager st !! id) as [p|] eqn:Hp0; [| done]. eauto.
    + rewrite lookup_alter_ne in Hp by done. eauto.
  - intros id' a (p' & Hp & Ha). unfold onData in Hp.
    destruct (decide (id = id')) as [<- | Hne].
    + rewrite lookup_alter_eq in Hp.
      destruct (manager st !! id) as [p|] eqn:Hp0; [| done].
      simpl in Hp. injection Hp as <-.
      apply elem_of_addListener in Ha as [-> | Ha]; [done |].
      apply (Wfresh id). by exists p.
    + rewrite lookup_alter_ne in Hp by done. apply (Wfresh id'). by exists p'.
  - intros c id' a [(p' & Hp & Ha) Ho]. unfold onData in Hp.
    destruct (decide (id = id')) as [<- | Hne].
    + rewrite lookup_alter_eq in Hp.
      destruct (manager st !! id) as [p|] eqn:Hp0; [| done].
      simpl in Hp. injection Hp as <-.
      apply elem_of_addListener in Ha as [-> | Ha]; [by apply Hnew |].
      apply Wcur. split; [by exists p | done].
    + rewrite lookup_alter_ne in Hp by done.
      apply Wcur. split; [by exists p' | done].
  - intros id' p' id'' a Hp Hcb. unfold onData in Hp.
    destruct (decide (id = id')) as [<- | Hne].
    + rewrite lookup_alter_eq in Hp.
      destruct (manager st !! id) as [p|] eqn:Hp0; [| done].
      simpl in Hp. injection Hp as <-.
      unfold proc_addListener in Hcb. case_bool_decide; simpl in Hcb; eauto.
    + rewrite lookup_alter_ne in Hp by done. eauto.
Qed.

End WfSteps.
(** ** The watched connection under the elementary state changes *)

Section LiveSteps.
Implicit Types (st : Server) (c fn : nat) (id sid : string)
  (w : option (nat * string * nat)) (S : list message).

Lemma same_kinds_refl st : same_kinds st st.
Proof. done. Qed.

Lemma same_kinds_trans st1 st2 st3 :
  same_kinds st1 st2 → same_kinds st2 st3 → same_kinds st1 st3.
Proof. intros H12 H23 a. by rewrite H23, H12. Qed.

Lemma same_kinds_heap st st' : heap st' = heap st → same_kinds st st'.
Proof. intros H a. by rewrite H. Qed.

Lemma owned_by_kind c x : owned_by c x ↔ kind x = Some (Some c).
Proof.
  destruct x as [[]|]; simpl; split; try done; [by intros -> | by intros [= ->]].
Qed.

Lemma is_capture_kind x : is_capture x ↔ kind x = Some None.
Proof. destruct x as [[]|]; simpl; split; done. Qed.

Lemma same_kinds_owned st st' c a :
  same_kinds st st' → owned_by c (heap st' !! a) ↔ owned_by c (heap st !! a).
Proof. intros H. by rewrite !owned_by_kind, H. Qed.

Lemma same_kinds_capture st st' a :
  same_kinds st st' → is_capture (heap st' !! a) ↔ is_capture (heap st !! a).
Proof. intros H. by rewrite !is_capture_kind, H. Qed.

(** Nothing the watched connection depends on has changed. *)
Lemma live_frame c sid fn st st' :
  live c sid fn st →
  conns st' !! c = conns st !! c →
  heap st' !! fn = heap st !! fn →
  (registered st sid fn → registered st' sid fn) →
  live c sid fn st' ∧ stream c st' = stream c st.
Proof.
  intros [Hc Hcl Hreg] Hconn Hheap Hkeep. split.
  - constructor; [by rewrite Hconn | by rewrite Hheap | auto].
  - unfold stream. by rewrite Hconn.
Qed.

Lemma inv_frame w S st st' :
  inv w S st → wf st' →
  (∀ c sid fn, w = Some (c, sid, fn) →
     conns st' !! c = conns st !! c ∧ heap st' !! fn = heap st !! fn
     ∧ (registered st sid fn → registered st' sid fn)) →
  inv w S st'.
Proof.
  intros [Hwf Hw] Hwf' Hsame. split; [done |].
  destruct w as [[[c sid] fn]|]; [| done].
  destruct Hw as [Hlive <-].
  destruct (Hsame c sid fn eq_refl) as (? & ? & ?).
  by apply (live_frame c sid fn st st').
Qed.

(** A closure of the watched connection that is still in use is its
    current listener. *)
Definition current_only w st (a : nat) : Prop :=
  ∀ c sid fn, w = Some (c, sid, fn) → owned_by c (heap st !! a) → a = fn.

Lemma inv_listens_current w S st id a :
  inv w S st → registered st id a → current_only w st a.
Proof.
  intros [Hwf Hw] Hreg c sid fn -> Hown. destruct Hw as [[Hc _ _] _].
  destruct Hc as (k & Hk & _ & _ & Hd).
  destruct (wf_current st Hwf c id a) as (k' & Hk' & _ & Hd'); [done |].
  congruence.
Qed.

Lemma inv_registered_session w S st c sid fn id :
  inv w S st → w = Some (c, sid, fn) → registered st id fn → id = sid.
Proof.
  intros [Hwf Hw] -> Hreg. destruct Hw as [[Hc Hcl _] _].
  destruct Hc as (k & Hk & _ & Ha & _). destruct Hcl as [pd Hpd].
  destruct (wf_current st Hwf c id fn) as (k' & Hk' & Ha' & _).
  { split; [done |]. by rewrite Hpd. }
  congruence.
Qed.

(** A message to any connection, except a stream message to the watched
    one. *)
Lemma inv_send w S st c' data :
  inv w S st →
  (∀ c sid fn, w = Some (c, sid, fn) → c' = c → is_stream data = false) →
  inv w S (set_conns (alter (after_send data) c') st).
Proof.
  intros [Hwf Hw] Hmsg. split.
  - apply wf_set_conns_alter; [done |]. intros k.
    by rewrite after_send_attached, after_send_listener.
  - destruct w as [[[c sid] fn]|]; [| done]. destruct Hw as [[Hc Hcl Hreg] HS].
    destruct (decide (c' = c)) as [-> | Hne].
    + destruct Hc as (k & Hk & Hh & Ha & Hd).
      destruct (after_send_healthy data k Hh) as [Hh' Hrecv].
      split.
      * constructor; [| done | done].
        exists (after_send data k). simpl. rewrite lookup_alter_eq, Hk. simpl.
        by rewrite after_send_attached, after_send_listener.
      * unfold stream in *. simpl. rewrite lookup_alter_eq, Hk in *. simpl.
        rewrite Hrecv, filter_app, filter_cons_False, filter_nil, app_nil_r; [done |].
        rewrite (Hmsg c sid fn); done.
    + subst S. apply (live_frame c sid fn st); [done | | done | done].
      simpl. by rewrite lookup_alter_ne.
Qed.

(** A stream message to the watched connection is appended to what it
    has seen. *)
Lemma inv_send_stream c sid fn S st data :
  inv (Some (c, sid, fn)) S st → is_stream data = true →
  inv (Some (c, sid, fn)) (S ++ [data]) (set_conns (alter (after_send data) c) st).
Proof.
  intros [Hwf [[Hc Hcl Hreg] HS]] Hmsg. split.
  - apply wf_set_conns_alter; [done |]. intros k.
    by rewrite after_send_attached, after_send_listener.
  - destruct Hc as (k & Hk & Hh & Ha & Hd).
    destruct (after_send_healthy data k Hh) as [Hh' Hrecv].
    split.
    + constructor; [| done | done].
      exists (after_send data k). simpl. rewrite lookup_alter_eq, Hk. simpl.
      by rewrite after_send_attached, after_send_listener.
    + unfold stream in *. simpl. rewrite lookup_alter_eq, Hk in *. simpl.
      rewrite Hrecv, filter_app, filter_cons_True, filter_nil by done.
      by rewrite HS.
Qed.

Lemma inv_set_persisted w S st l : inv w S st → inv w S (set_persisted l st).
Proof.
  intros H. apply (inv_frame w S st); [done | | done].
  apply wf_set_persisted. by destruct H.
Qed.

Lemma inv_set_clients w S st f : inv w S st → inv w S (set_clients f st).
Proof.
  intros H. apply (inv_frame w S st); [done | | done].
  apply wf_set_clients. by destruct H.
Qed.

Lemma elem_of_update_session id f l s :
  s ∈ update_session id f l → ∃ s0, s0 ∈ l ∧ (s = s0 ∨ s = f s0).
Proof.
  unfold update_session. intros (s0 & -> & Hs0)%list_elem_of_fmap.
  exists s0. split; [done |]. destruct (String.eqb _ _); auto.
Qed.

Lemma inv_update_session w S st id f :
  inv w S st → (∀ s, session_id (f s) = session_id s) →
  inv w S (set_sessions (update_session id f) st).
Proof.
  intros H Hf. apply (inv_frame w S st); [done | | done].
  destruct H as [Hwf _]. apply wf_set_sessions; [done |].
  intros s (s0 & Hs0 & [-> | ->])%elem_of_update_session.
  - by apply (wf_sessions st Hwf).
  - rewrite Hf. by apply (wf_sessions st Hwf).
Qed.

End LiveSteps.
(** ** The manager's updates *)

Section ManagerSteps.
Implicit Types (st : Server) (c fn : nat) (id sid : string)
  (w : option (nat * string * nat)) (S : list message) (m : PtyManager).

Lemma alter_lookup_insert_str {V} (f : V → V) (m : gmap string V) i x :
  m !! i = Some x → alter f i m = <[i := f x]> m.
Proof.
  intros Hx. apply map_eq. intros j.
  destruct (decide (i = j)) as [-> | Hne].
  - by rewrite lookup_alter_eq, lookup_insert_eq, Hx.
  - by rewrite lookup_alter_ne, lookup_insert_ne.
Qed.

Lemma kill_alter id m : fst (kill id m) = alter (λ p, fst (proc_exit p)) id m.
Proof.
  unfold kill. destruct (m !! id) as [p|] eqn:Hp.
  - rewrite (alter_lookup_insert_str _ _ _ _ Hp). by destruct (proc_exit p).
  - by rewrite alter_id'.
Qed.

Lemma kill_due id m cb :
  cb ∈ snd (kill id m) → ∃ p, m !! id = Some p ∧ cb ∈ exitListeners p.
Proof.
  unfold kill, proc_exit. destruct (m !! id) as [p|] eqn:Hp.
  - destruct (alive p); simpl; [eauto |]. intros H. inversion H.
  - simpl. intros H. inversion H.
Qed.

Definition pushed (chunk : string) (p : PtyProcess) : PtyProcess :=
  if alive p then proc_pushToBuffer chunk p else p.

Lemma output_alter id chunk m : fst (output id chunk m) = alter (pushed chunk) id m.
Proof.
  unfold output, pushed. destruct (m !! id) as [p|] eqn:Hp.
  - rewrite (alter_lookup_insert_str _ _ _ _ Hp).
    destruct (alive p); simpl; [done | by rewrite insert_id].
  - by rewrite alter_id'.
Qed.

Lemma output_listeners id chunk m :
  snd (output id chunk m)
  = match m !! id with
    | Some p => if alive p then dataListeners p else []
    | None => []
    end.
Proof. unfold output. destruct (m !! id) as [p|]; [by destruct (alive p) | done]. Qed.

(** A change of one process that adds no listener and no exit callback. *)
Definition shrinks (g : PtyProcess → PtyProcess) : Prop :=
  ∀ p, (∀ a, a ∈ dataListeners (g p) → a ∈ dataListeners p)
       ∧ (NoDup (dataListeners p) → NoDup (dataListeners (g p)))
       ∧ (∀ cb, cb ∈ exitListeners (g p) → cb ∈ exitListeners p).

Lemma shrinks_same g :
  (∀ p, dataListeners (g p) = dataListeners p
        ∧ exitListeners (g p) = exitListeners p) →
  shrinks g.
Proof. intros Hg p. destruct (Hg p) as [-> ->]. done. Qed.

Lemma shrinks_write data : shrinks (proc_write data).
Proof. apply shrinks_same. intros p. unfold proc_write. by destruct (alive p). Qed.

Lemma shrinks_resize cols rows : shrinks (proc_resize cols rows).
Proof. apply shrinks_same. intros p. unfold proc_resize. by destruct (alive p). Qed.

Lemma shrinks_exit : shrinks (λ p, fst (proc_exit p)).
Proof. apply shrinks_same. intros p. unfold proc_exit. by destruct (alive p). Qed.

Lemma shrinks_pushed chunk : shrinks (pushed chunk).
Proof. apply shrinks_same. intros p. unfold pushed. by destruct (alive p). Qed.

Lemma shrinks_removeListener a : shrinks (proc_removeListener a).
Proof.
  intros p. unfold proc_removeListener. simpl. split_and!; [| | done].
  - intros b Hb. by apply list_elem_of_filter in Hb as [_ ?].
  - apply NoDup_filter.
Qed.

Lemma wf_alter_proc st id g :
  wf st → shrinks g → wf (set_manager (alter g id) st).
Proof.
  intros Hwf Hg.
  change (set_manager (alter g id) st)
    with (set_manager (λ _, alter g id (manager st)) st).
  apply wf_set_manager; [done |]. intros id' p' Hp'.
  assert (∃ p, manager st !! id' = Some p ∧ (p' = p ∨ p' = g p)) as (p & Hp & Hpp).
  { destruct (decide (id = id')) as [<- | Hne].
    - rewrite lookup_alter_eq in Hp'.
      destruct (manager st !! id) as [p|]; [| done]. simpl in Hp'.
      injection Hp' as <-. eauto.
    - rewrite lookup_alter_ne in Hp' by done. eauto. }
  destruct (Hg p) as (Hin & Hnd & Hcb).
  split_and!.
  - by apply (wf_ids st Hwf id' p).
  - destruct Hpp as [-> | ->]; [| apply Hnd]; by apply (wf_nodup st Hwf id').
  - intros a Ha. exists p. split; [done |]. destruct Hpp as [-> | ->]; auto.
  - intros id'' a Ha. apply (wf_cleanup st Hwf id' p id''); [done |].
    destruct Hpp as [-> | ->]; auto.
Qed.

Lemma registered_alter st id g sid fn :
  registered st sid fn →
  (id = sid → ∀ p, fn ∈ dataListeners p → fn ∈ dataListeners (g p)) →
  registered (set_manager (alter g id) st) sid fn.
Proof.
  intros (p & Hp & Hfn) Hkeep. unfold registered. simpl.
  destruct (decide (id = sid)) as [-> | Hne].
  - exists (g p). rewrite lookup_alter_eq, Hp. split; [done |]. by apply Hkeep.
  - exists p. by rewrite lookup_alter_ne.
Qed.

Lemma inv_alter_proc w S st id g :
  inv w S st → shrinks g →
  (∀ c sid fn, w = Some (c, sid, fn) → id = sid →
     ∀ p, fn ∈ dataListeners p → fn ∈ dataListeners (g p)) →
  inv w S (set_manager (alter g id) st).
Proof.
  intros Hinv Hg Hkeep. apply (inv_frame w S st); [done | |].
  - apply wf_alter_proc; [by destruct Hinv | done].
  - intros c sid fn Hw. split_and!; [done | done |].
    intros Hreg. apply registered_alter; [done |]. by apply (Hkeep c sid fn).
Qed.

Lemma inv_alter_same w S st id g :
  inv w S st →
  (∀ p, dataListeners (g p) = dataListeners p
        ∧ exitListeners (g p) = exitListeners p) →
  inv w S (set_manager (alter g id) st).
Proof.
  intros Hinv Hg. apply inv_alter_proc; [done | by apply shrinks_same |].
  intros c sid fn _ _ p Hfn. by destruct (Hg p) as [-> _].
Qed.

Lemma inv_offData w S st id a :
  inv w S st →
  (∀ c sid fn, w = Some (c, sid, fn) → a ≠ fn) →
  inv w S (set_manager (offData id a) st).
Proof.
  intros Hinv Hne. apply inv_alter_proc; [done | apply shrinks_removeListener |].
  intros c sid fn Hw _ p Hfn. unfold proc_removeListener. simpl.
  apply list_elem_of_filter. split; [| done].
  intros Heq. by apply (Hne c sid fn).
Qed.

End ManagerSteps.
(** ** The callbacks keep the invariant *)

Section Callbacks.
Implicit Types (st : Server) (c fn : nat) (id sid : string)
  (w : option (nat * string * nat)) (S : list message).

(** The invariant holds again and no closure changed hands. *)
Definition keeps w S st : unit → Server → Prop :=
  λ _ s, inv w S s ∧ same_kinds st s.

Lemma keeps_trans w S S' st s (m : M unit) :
  same_kinds st s →
  wp m (keeps w S' s) never s → wp m (keeps w S' st) never s.
Proof.
  intros Hk H. eapply wp_mono; [exact H | | done].
  intros ? s' [Hinv Hk']. split; [done |]. by eapply same_kinds_trans.
Qed.

Definition not_to_viewer w (c' : nat) (data : message) : Prop :=
  ∀ c sid fn, w = Some (c, sid, fn) → c' = c → is_stream data = false.

Lemma keeps_safeSend w S st c' data :
  inv w S st → not_to_viewer w c' data →
  wp (safeSend c' data) (keeps w S st) never st.
Proof.
  intros Hinv Hmsg. apply wp_safeSend. split; [by apply inv_send | done].
Qed.

Lemma keeps_send_all w S st (l : list nat) data :
  inv w S st → is_stream data = false →
  wp (for_of l (λ c', safeSend c' data)) (keeps w S st) never st.
Proof.
  intros Hinv Hmsg.
  apply (wp_for_of_inv l _ (λ s, inv w S s ∧ same_kinds st s)); [done |].
  intros c' s _ [Hs Hk]. apply (keeps_trans w S S); [done |].
  apply keeps_safeSend; [done |]. by intros ? ? ? _ _.
Qed.

Lemma keeps_broadcastSessions w S st :
  inv w S st → wp broadcastSessions (keeps w S st) never st.
Proof.
  intros Hinv. unfold broadcastSessions.
  apply wp_bind, wp_gets, wp_bind, wp_gets.
  by apply keeps_send_all.
Qed.

Lemma keeps_persist w S st :
  inv w S st → wp persist (keeps w S st) never st.
Proof.
  intros Hinv. unfold persist. apply wp_bind, wp_gets.
  apply wp_when; intros _; [apply wp_modify |]; split; try done.
  by apply inv_set_persisted.
Qed.

(** [a ;; b] for two handlers that keep the invariant. *)
Lemma keeps_seq w S st (m1 m2 : M unit) :
  wp m1 (keeps w S st) never st →
  (∀ s, inv w S s → wp m2 (keeps w S s) never s) →
  wp (m1 ;; m2) (keeps w S st) never st.
Proof.
  intros H1 H2. apply wp_bind. eapply wp_mono; [exact H1 | | done].
  intros ? s [Hs Hk]. apply (keeps_trans w S S); [done |]. by apply H2.
Qed.

Lemma keeps_modify w S st f :
  inv w S (f st) → heap (f st) = heap st →
  wp (modify f) (keeps w S st) never st.
Proof. intros Hinv Hheap. apply wp_modify. split; [done |]. by apply same_kinds_heap. Qed.

Lemma keeps_call_exit w S st cb :
  inv w S st →
  (∀ id a, cb = CaptureCleanup id a → is_capture (heap st !! a)) →
  wp (call_exit cb) (keeps w S st) never st.
Proof.
  intros Hinv Hcap. destruct cb as [id | id a]; simpl.
  - apply keeps_seq.
    { apply keeps_modify; [| done]. by apply inv_update_session. }
    intros s1 H1. apply keeps_seq; [by apply keeps_persist |].
    intros s2 H2. apply keeps_seq; [by apply keeps_broadcastSessions |].
    intros s3 H3. apply wp_bind, wp_gets. by apply keeps_send_all.
  - apply keeps_modify; [| done]. apply inv_offData; [done |].
    intros c sid fn -> ->. destruct Hinv as [_ [[_ [pd Hpd] _] _]].
    specialize (Hcap id fn eq_refl). by rewrite Hpd in Hcap.
Qed.

Lemma keeps_exit_loop w S st due :
  inv w S st →
  (∀ id a, CaptureCleanup id a ∈ due → is_capture (heap st !! a)) →
  wp (for_of due call_exit) (keeps w S st) never st.
Proof.
  intros Hinv Hcap.
  apply (wp_for_of_inv due _ (λ s, inv w S s ∧ same_kinds st s)); [done |].
  intros cb s Hcb [Hs Hk]. apply (keeps_trans w S S); [done |].
  apply keeps_call_exit; [done |]. intros id a ->.
  apply (same_kinds_capture st s a Hk). by apply (Hcap id).
Qed.

(** A listener other than the one of the watched connection. *)
Lemma keeps_call_listener w S st a data :
  inv w S st → current_only w st a →
  (∀ c sid fn, w = Some (c, sid, fn) → a ≠ fn) →
  wp (call_listener a data) (keeps w S st) never st.
Proof.
  intros Hinv Hcur Hne. unfold call_listener. apply wp_bind, wp_gets.
  destruct (heap st !! a) as [[c' sid' replaying pd | id]|] eqn:Ha.
  - destruct replaying.
    + apply wp_modify. split.
      * apply (inv_frame w S st); [done | |].
        -- apply (wf_set_heap_listener st a c' sid' true pd); [by destruct Hinv | done].
        -- intros c sid fn Hw. simpl. split_and!; [done | | done].
           rewrite lookup_insert_ne; [done |]. by apply (Hne c sid fn).
      * intros b. simpl. destruct (decide (a = b)) as [<- | Hb].
        -- by rewrite lookup_insert_eq, Ha.
        -- by rewrite lookup_insert_ne.
    + apply keeps_safeSend; [done |]. intros c sid fn Hw ->.
      destruct (Hne c sid fn Hw). apply (Hcur c sid fn Hw). by rewrite Ha.
  - destruct (uuid_match data) as [token|]; [| by apply wp_ret].
    apply keeps_seq.
    { apply keeps_modify; [| done]. by apply inv_update_session. }
    intros s1 H1. apply keeps_seq.
    { apply keeps_modify; [| done]. by apply inv_offData. }
    intros s2 H2. apply keeps_seq; [by apply keeps_persist |].
    intros s3 H3. by apply keeps_broadcastSessions.
  - by apply wp_ret.
Qed.

(** The listener of the watched connection forwards the chunk. *)
Lemma keeps_call_listener_own c sid fn S st data :
  inv (Some (c, sid, fn)) S st →
  wp (call_listener fn data)
     (keeps (Some (c, sid, fn)) (S ++ [MsgOutput sid data]) st) never st.
Proof.
  intros Hinv. unfold call_listener. apply wp_bind, wp_gets.
  destruct Hinv as [Hwf [[Hc [pd Hpd] Hreg] HS]]. rewrite Hpd.
  apply wp_safeSend. split; [| done].
  apply inv_send_stream; [| done]. split; [done |]. split; [| done].
  constructor; eauto.
Qed.

Lemma keeps_listener_loop w S st ls data :
  inv w S st →
  (∀ a, a ∈ ls → current_only w st a) →
  (∀ c sid fn, w = Some (c, sid, fn) → fn ∉ ls) →
  wp (for_of ls (λ a, call_listener a data)) (keeps w S st) never st.
Proof.
  intros Hinv Hcur Hne.
  apply (wp_for_of_inv ls _ (λ s, inv w S s ∧ same_kinds st s)); [done |].
  intros a s Ha [Hs Hk]. apply (keeps_trans w S S); [done |].
  apply keeps_call_listener; [done | |].
  - intros c sid fn Hw Hown. apply (Hcur a Ha c sid fn Hw).
    by apply (same_kinds_owned st s c a Hk).
  - intros c sid fn Hw ->. by apply (Hne c sid fn Hw).
Qed.

Lemma keeps_listener_loop_own c sid fn S st ls data :
  inv (Some (c, sid, fn)) S st →
  (∀ a, a ∈ ls → current_only (Some (c, sid, fn)) st a) →
  NoDup ls → fn ∈ ls →
  wp (for_of ls (λ a, call_listener a data))
     (keeps (Some (c, sid, fn)) (S ++ [MsgOutput sid data]) st) never st.
Proof.
  intros Hinv Hcur Hnd Hfn.
  set (w := Some (c, sid, fn)).
  set (T := S ++ [MsgOutput sid data]).
  eapply wp_mono;
    [apply (wp_for_of ls _
       (λ rest s, NoDup rest ∧ (∀ a, a ∈ rest → a ∈ ls) ∧ same_kinds st s
                  ∧ inv w (if decide (fn ∈ rest) then S else T) s)) | |].
  - split_and!; [done | done | done |]. by rewrite decide_True.
  - intros a rest s (Hnd' & Hsub & Hk & Hs).
    apply NoDup_cons in Hnd' as [Hnotin Hnd'].
    destruct (decide (a = fn)) as [-> | Hafn].
    + rewrite decide_True in Hs by left. rewrite (decide_False (P := fn ∈ rest)) by done.
      eapply wp_mono; [by apply keeps_call_listener_own | | done].
      intros ? s' [Hs' Hk']. split_and!; [done | | | done].
      * intros b Hb. apply Hsub. by right.
      * by eapply same_kinds_trans.
    + assert (Hsame : (if decide (fn ∈ a :: rest) then S else T)
                      = (if decide (fn ∈ rest) then S else T)).
      { destruct (decide (fn ∈ rest)) as [Hin | Hout].
        - rewrite decide_True; [done | by right].
        - rewrite decide_False; [done |]. intros [?|?]%elem_of_cons; done. }
      rewrite Hsame in Hs.
      eapply wp_mono; [apply keeps_call_listener; [exact Hs | |] | | done].
      * intros c0 sid0 fn0 Hw Hown.
        refine (Hcur a _ c0 sid0 fn0 Hw _); [apply Hsub; left |].
        by apply (same_kinds_owned st s c0 a Hk).
      * intros c0 sid0 fn0 [= <- <- <-]. done.
      * intros ? s' [Hs' Hk']. split_and!; [done | | | done].
        -- intros b Hb. apply Hsub. by right.
        -- by eapply same_kinds_trans.
  - intros ? s (_ & _ & Hk & Hs). rewrite decide_False in Hs; [done |].
    intros H. inversion H.
  - done.
Qed.

End Callbacks.
(** ** The events keep the invariant *)

Section Events.
Implicit Types (st : Server) (c fn : nat) (id sid : string)
  (w : option (nat * string * nat)) (S : list message).

(** What an event adds to the stream of the watched connection. *)
Definition emitted w (ev : event) st : list message :=
  match w, ev with
  | Some (c, sid, fn), PtyData id data =>
      if bool_decide (id = sid) && isAlive sid (manager st)
      then [MsgOutput sid data] else []
  | _, _ => []
  end.

Lemma pushed_listeners data p :
  dataListeners (pushed data p) = dataListeners p
  ∧ exitListeners (pushed data p) = exitListeners p.
Proof. unfold pushed. by destruct (alive p). Qed.

Lemma step_data w S st id data :
  inv w S st →
  wp (step (PtyData id data))
     (λ _ s, inv w (S ++ emitted w (PtyData id data) st) s) never st.
Proof.
  intros Hinv. unfold step. apply wp_bind, wp_with_manager.
  rewrite output_alter, output_listeners.
  change (set_manager (λ _, alter (pushed data) id (manager st)) st)
    with (set_manager (alter (pushed data) id) st).
  set (st1 := set_manager (alter (pushed data) id) st).
  assert (H1 : inv w S st1) by (apply inv_alter_same; [done | apply pushed_listeners]).
  assert (Hquiet : wp (for_of [] (λ a, call_listener a data))
                      (λ _ s, inv w (S ++ []) s) never st1).
  { simpl. apply wp_ret. by rewrite app_nil_r. }
  destruct (manager st !! id) as [p|] eqn:Hp.
  2:{ destruct w as [[[c sid] fn]|]; simpl; [| done].
      unfold isAlive. case_bool_decide as Hid; [subst; rewrite Hp |]; done. }
  destruct (alive p) eqn:Halive.
  2:{ destruct w as [[[c sid] fn]|]; simpl; [| done].
      unfold isAlive. case_bool_decide as Hid; [subst; rewrite Hp, Halive |]; done. }
  assert (Hreg1 : ∀ a, a ∈ dataListeners p → registered st1 id a).
  { intros a Ha. exists (pushed data p). unfold st1. simpl.
    rewrite lookup_alter_eq, Hp. split; [done |].
    by rewrite (proj1 (pushed_listeners data p)). }
  assert (Hcur : ∀ a, a ∈ dataListeners p → current_only w st1 a).
  { intros a Ha. apply (inv_listens_current w S st1 id); auto. }
  destruct w as [[[c sid] fn]|]; simpl.
  - unfold isAlive. case_bool_decide as Hid.
    + subst id. rewrite Hp, Halive. simpl.
      eapply wp_mono; [apply keeps_listener_loop_own; [done | done | |] | | done].
      * apply (wf_nodup st (proj1 Hinv) sid p Hp).
      * destruct Hinv as [_ [[_ _ (p' & Hp' & Hfn)] _]]. congruence.
      * by intros ? s [Hs _].
    + simpl. rewrite app_nil_r.
      eapply wp_mono; [apply keeps_listener_loop; [done | done |] | | done].
      * intros c0 sid0 fn0 [= <- <- <-] Hfn. apply Hid.
        apply (inv_registered_session _ S st c sid fn id Hinv eq_refl).
        by exists p.
      * by intros ? s [Hs _].
  - rewrite app_nil_r.
    eapply wp_mono; [apply keeps_listener_loop; [done | done | done] | | done].
    by intros ? s [Hs _].
Qed.

Lemma inv_kill w S st id :
  inv w S st →
  wp (manager_kill id) (keeps w S st) never st.
Proof.
  intros Hinv. unfold manager_kill. apply wp_bind, wp_with_manager.
  rewrite kill_alter.
  change (set_manager (λ _, alter (λ p, (proc_exit p).1) id (manager st)) st)
    with (set_manager (alter (λ p, (proc_exit p).1) id) st).
  set (st1 := set_manager _ st).
  assert (H1 : inv w S st1).
  { apply inv_alter_same; [done |]. intros p. unfold proc_exit. by destruct (alive p). }
  apply (keeps_trans w S S st st1); [done |].
  apply keeps_exit_loop; [done |].
  intros id' a (p & Hp & Hcb)%kill_due.
  apply (wf_cleanup st (proj1 Hinv) id p id' a Hp Hcb).
Qed.

Lemma step_exit w S st id :
  inv w S st → wp (step (PtyExit id)) (λ _ s, inv w S s) never st.
Proof.
  intros Hinv. eapply wp_mono; [apply (inv_kill w S st id Hinv) | | done].
  by intros ? s [Hs _].
Qed.

Lemma readyState_vars n k :
  attachedSessionId (set_readyState n k) = attachedSessionId k
  ∧ dataListener (set_readyState n k) = dataListener k.
Proof. done. Qed.

(** The socket of a connection other than the watched one changes state. *)
Lemma inv_set_readyState w S st c' n :
  inv w S st →
  (∀ c sid fn, w = Some (c, sid, fn) → c' ≠ c) →
  inv w S (set_conns (alter (set_readyState n) c') st).
Proof.
  intros Hinv Hne. apply (inv_frame w S st); [done | |].
  - apply wf_set_conns_alter; [by destruct Hinv | apply readyState_vars].
  - intros c sid fn Hw. simpl. split_and!; [| done | done].
    rewrite lookup_alter_ne; [done |]. by apply (Hne c sid fn).
Qed.

Lemma attached_of_Some st c' id :
  attached_of c' st = Some id →
  ∃ k, conns st !! c' = Some k ∧ attachedSessionId k = Some id.
Proof.
  unfold attached_of. destruct (conns st !! c') as [k|]; simpl; [eauto | done].
Qed.

Lemma listener_of_Some st c' a :
  listener_of c' st = Some a →
  ∃ k, conns st !! c' = Some k ∧ dataListener k = Some a.
Proof.
  unfold listener_of. destruct (conns st !! c') as [k|]; simpl; [eauto | done].
Qed.

(** The listener variable of another connection is not the closure of the
    watched one. *)
Lemma other_listener w S st c' a :
  inv w S st → listener_of c' st = Some a →
  (∀ c sid fn, w = Some (c, sid, fn) → c' ≠ c) →
  ∀ c sid fn, w = Some (c, sid, fn) → a ≠ fn.
Proof.
  intros [Hwf Hw] (k & Hk & Hd)%listener_of_Some Hne c sid fn -> ->.
  destruct Hw as [[_ [pd Hpd] _] _].
  pose proof (wf_own st Hwf c' k fn Hk Hd) as Hown. rewrite Hpd in Hown.
  simpl in Hown. by apply (Hne c sid fn).
Qed.

Lemma step_close w S st c' :
  inv w S st →
  (∀ c sid fn, w = Some (c, sid, fn) → c' ≠ c) →
  wp (step (WsClose c')) (λ _ s, inv w S s) never st.
Proof.
  intros Hinv Hne. unfold step, on_close.
  apply wp_bind, wp_modify, wp_bind, wp_modify, wp_bind, wp_gets, wp_bind, wp_gets.
  set (st1 := set_clients _ _).
  assert (H1 : inv w S st1).
  { apply inv_set_clients. by apply inv_set_readyState. }
  destruct (attached_of c' st1) as [id|] eqn:Hatt; [| by apply wp_ret].
  destruct (listener_of c' st1) as [a|] eqn:Hlis; [| by apply wp_ret].
  apply wp_when; intros _; [| done].
  apply wp_modify. apply inv_offData; [done |].
  by apply (other_listener w S st1 c' a).
Qed.

Lemma step_readyState w S st c' n :
  inv w S st →
  (∀ c sid fn, w = Some (c, sid, fn) → c' ≠ c) →
  wp (step (WsReadyState c' n)) (λ _ s, inv w S s) never st.
Proof. intros Hinv Hne. apply wp_modify. by apply inv_set_readyState. Qed.

Lemma inv_on_input w S st c' members :
  inv w S st → wp (on_input c' (JObj members)) (λ _ s, inv w S s) never st.
Proof.
  intros Hinv. unfold on_input. apply wp_bind, wp_gets.
  destruct (attached_of c' st) as [id|]; [| by apply wp_ret].
  apply wp_when; intros _; [| done].
  apply wp_bind, wp_lift. simpl. apply wp_modify.
  apply inv_alter_same; [done |]. intros p. unfold proc_write. by destruct (alive p).
Qed.

Lemma inv_on_resize w S st c' members :
  inv w S st → wp (on_resize c' (JObj members)) (λ _ s, inv w S s) never st.
Proof.
  intros Hinv. unfold on_resize. apply wp_bind, wp_gets.
  destruct (attached_of c' st) as [id|]; [| by apply wp_ret].
  apply wp_when; intros _; [| done].
  apply wp_bind, wp_lift. simpl. apply wp_bind, wp_lift. simpl.
  apply wp_when; intros _; [| done]. apply wp_modify.
  apply inv_alter_same; [done |]. intros p. unfold proc_resize. by destruct (alive p).
Qed.

(** A socket not seen before is accepted. *)
Lemma inv_on_connection w S st c' faults :
  inv w S st → conns st !! c' = None →
  wp (on_connection c' faults) (λ _ s, inv w S s) never st.
Proof.
  intros Hinv Hfresh. unfold on_connection.
  apply wp_bind, wp_modify, wp_bind, wp_modify, wp_bind, wp_gets.
  set (st1 := set_conns _ _).
  assert (H1 : inv w S st1).
  { apply (inv_frame w S st); [done | |].
    - destruct Hinv as [[Wheap Wnodup Wids Wfresh Wcur Wown Wsess Wclean] _].
      constructor; unfold listens, registered; simpl; try done.
      + intros c id fn Hl. destruct (Wcur c id fn Hl) as (k & Hk & ?).
        exists k. rewrite lookup_insert_ne; [done |]. congruence.
      + intros c k fn Hk Hd. destruct (decide (c' = c)) as [-> | Hc].
        * rewrite lookup_insert_eq in Hk. injection Hk as <-. done.
        * rewrite lookup_insert_ne in Hk by done. eauto.
    - intros c sid fn ->. simpl. split_and!; [| done | done].
      destruct Hinv as [_ [[(k & Hk & _) _ _] _]].
      rewrite lookup_insert_ne; [done |]. congruence. }
  apply wp_safeSend. apply inv_send; [done |]. by intros ? ? ? _ _.
Qed.

End Events.
(** ** The attach handshake *)

Section Attach.
Implicit Types (st s : Server) (c fn : nat) (id sid : string)
  (w : option (nat * string * nat)) (S : list message).

(** An attach of [c'] to [sid'] under way: the closure is allocated and
    registered, with an empty queue; [T], when given, is the stream the
    connection, which is healthy, has received. *)
Record attaching (c' : nat) (sid' : string) (fn' : nat) (replaying : bool)
    (T : option (list message)) (s : Server) : Prop := {
  att_registered : registered s sid' fn';
  att_closure : heap s !! fn' = Some (DataListener c' sid' replaying []);
  att_conn : ∃ k, conns s !! c' = Some k ∧ attachedSessionId k = Some sid'
                  ∧ dataListener k = Some fn'
                  ∧ match T with
                    | Some T => healthy k ∧ stream c' s = T
                    | None => True
                    end;
}.

Definition others w (c' : nat) : Prop :=
  ∀ c sid fn, w = Some (c, sid, fn) → c' ≠ c.

Lemma attaching_live c' sid' fn' T s :
  attaching c' sid' fn' false (Some T) s → live c' sid' fn' s ∧ stream c' s = T.
Proof.
  intros [Hreg Hcl (k & Hk & Ha & Hd & Hh & HT)]. split; [| done].
  constructor; eauto 10.
Qed.

Lemma attaching_send w S s c' sid' fn' r T data :
  inv w S s → others w c' → attaching c' sid' fn' r T s →
  is_stream data = true →
  let s1 := set_conns (alter (after_send data) c') s in
  inv w S s1 ∧ attaching c' sid' fn' r ((λ T, T ++ [data]) <$> T) s1.
Proof.
  intros Hinv Hw [Hreg Hcl (k & Hk & Ha & Hd & HT)] Hmsg s1. split.
  - apply inv_send; [done |]. intros c sid fn Hc ->. by destruct (Hw c sid fn).
  - constructor; [done | done |].
    exists (after_send data k). unfold s1. simpl. rewrite lookup_alter_eq, Hk. simpl.
    rewrite after_send_attached, after_send_listener.
    split_and!; [done | done | done |].
    destruct T as [T|]; simpl; [| done]. destruct HT as [Hh HT].
    destruct (after_send_healthy data k Hh) as [Hh' Hrecv]. split; [done |].
    unfold stream in *. simpl. rewrite lookup_alter_eq, Hk in *. simpl.
    rewrite Hrecv, filter_app, filter_cons_True, filter_nil by done.
    by rewrite HT.
Qed.

(** The replay loop. *)
Lemma replay_loop w S c' sid' fn' r (chunks : list string) :
  others w c' →
  ∀ T s, inv w S s → attaching c' sid' fn' r T s →
  wp (for_of chunks (λ chunk, safeSend c' (MsgOutput sid' chunk)))
     (λ _ s', inv w S s'
              ∧ attaching c' sid' fn' r
                  ((λ T, T ++ map (MsgOutput sid') chunks) <$> T) s')
     never s.
Proof.
  intros Hw. induction chunks as [|chunk chunks IH]; intros T s Hinv Hatt; simpl.
  - apply wp_ret. split; [done |]. destruct T; simpl; [by rewrite app_nil_r | done].
  - apply wp_bind, wp_safeSend.
    destruct (attaching_send w S s c' sid' fn' r T (MsgOutput sid' chunk))
      as [H1 A1]; [done.. |].
    eapply wp_mono; [by apply (IH _ _ H1 A1) | | done].
    intros ? s' [H' A']. split; [done |].
    destruct T; simpl in *; [by rewrite <- app_assoc in A' | done].
Qed.

Lemma not_listens_frame s s' c' :
  (∀ id b, ¬ listens s c' id b) →
  (∀ id b, registered s' id b → registered s id b) →
  (∀ b, owned_by c' (heap s' !! b) → owned_by c' (heap s !! b)) →
  ∀ id b, ¬ listens s' c' id b.
Proof. intros Hnl Hreg Hown id b [Hr Ho]. apply (Hnl id b). split; auto. Qed.

(** After the first step of an attach the connection listens nowhere. *)
Lemma detach_spec w S st c' :
  inv w S st → others w c' →
  wp (detach_previous c')
     (λ _ s, inv w S s
             ∧ (∀ id b, ¬ listens s c' id b)
             ∧ nextRef s = nextRef st
             ∧ (∀ k, conns st !! c' = Some k →
                  ∃ k1, conns s !! c' = Some k1 ∧ ws k1 = ws k)
             ∧ (∀ id p, manager st !! id = Some p →
                  ∃ p1, manager s !! id = Some p1 ∧ buffer p1 = buffer p))
     never st.
Proof.
  intros Hinv Hw. unfold detach_previous.
  apply wp_bind, wp_gets, wp_bind, wp_gets.
  pose proof (proj1 Hinv) as Hwf.
  assert (Hstay : (∀ id b, ¬ listens st c' id b) →
    inv w S st ∧ (∀ id b, ¬ listens st c' id b) ∧ nextRef st = nextRef st
    ∧ (∀ k, conns st !! c' = Some k → ∃ k1, conns st !! c' = Some k1 ∧ ws k1 = ws k)
    ∧ (∀ id p, manager st !! id = Some p →
         ∃ p1, manager st !! id = Some p1 ∧ buffer p1 = buffer p)) by eauto 10.
  destruct (attached_of c' st) as [prev|] eqn:Hatt.
  2:{ destruct (listener_of c' st); apply wp_ret, Hstay; intros id b Hl;
      destruct (wf_current st Hwf c' id b Hl) as (k & Hk & Ha & _);
      unfold attached_of in Hatt; rewrite Hk in Hatt; simpl in Hatt; congruence. }
  destruct (listener_of c' st) as [a|] eqn:Hlis.
  2:{ apply wp_ret, Hstay. intros id b Hl.
      destruct (wf_current st Hwf c' id b Hl) as (k & Hk & _ & Hd).
      unfold listener_of in Hlis. rewrite Hk in Hlis. simpl in Hlis. congruence. }
  apply attached_of_Some in Hatt as (k & Hk & Ha).
  apply listener_of_Some in Hlis as (k' & Hk' & Hd).
  assert (k' = k) as -> by congruence.
  assert (Honly : ∀ id b, listens st c' id b → id = prev ∧ b = a).
  { intros id b Hl. destruct (wf_current st Hwf c' id b Hl) as (k1 & Hk1 & Ha1 & Hd1).
    split; congruence. }
  apply wp_when; simpl.
  2:{ intros Hempty. apply Hstay. intros id b Hl.
      destruct (Honly id b Hl) as [-> ->]. destruct Hl as [(p & Hp & _) _].
      apply (wf_ids st Hwf prev p Hp).
      apply negb_false_iff in Hempty. by apply String.eqb_eq in Hempty. }
  intros _. apply wp_bind, wp_modify, wp_modify.
  set (s1 := set_manager (offData prev a) st).
  assert (H1 : inv w S s1).
  { apply inv_offData; [done |]. apply (other_listener w S st c' a); [done | | done].
    unfold listener_of. by rewrite Hk. }
  assert (Hnl1 : ∀ id b, ¬ listens s1 c' id b).
  { intros id b [(p1 & Hp1 & Hb) Hown]. unfold s1, offData in Hp1. simpl in Hp1.
    destruct (decide (prev = id)) as [<- | Hne].
    - rewrite lookup_alter_eq in Hp1.
      destruct (manager st !! prev) as [p|] eqn:Hp; [| done].
      simpl in Hp1. injection Hp1 as <-. unfold proc_removeListener in Hb.
      simpl in Hb. apply list_elem_of_filter in Hb as [Hba Hb].
      destruct (Honly prev b) as [_ ->]; [| done].
      split; [by exists p | done].
    - rewrite lookup_alter_ne in Hp1 by done.
      destruct (Honly id b) as [-> _]; [| done].
      split; [by exists p1 | done]. }
  split_and!.
  - apply (inv_frame w S s1); [done | |].
    + apply wf_set_vars; [by destruct H1 | done | done].
    + intros c sid fn Hc. simpl. split_and!; [| done | done].
      rewrite lookup_alter_ne; [done |]. by apply (Hw c sid fn).
  - done.
  - done.
  - intros k0 Hk0. simpl. rewrite lookup_alter_eq, Hk0. simpl. eauto.
  - intros id p Hp. simpl. unfold offData.
    destruct (decide (prev = id)) as [<- | Hne].
    + rewrite lookup_alter_eq, Hp. simpl. eauto.
    + rewrite lookup_alter_ne by done. eauto.
Qed.

Lemma wp_new_closure cl (Q : nat → Server → Prop) E st :
  Q (nextRef st) (set_nextRef (S (nextRef st)) (set_heap (<[nextRef st := cl]>) st)) →
  wp (new_closure cl) Q E st.
Proof. done. Qed.


Lemma registered_onData s id a sid fn :
  registered s sid fn → registered (set_manager (onData id a) s) sid fn.
Proof.
  intros (p & Hp & Hfn). unfold registered, onData. simpl.
  destruct (decide (id = sid)) as [-> | Hne].
  - exists (proc_addListener a p). rewrite lookup_alter_eq, Hp. split; [done |].
    apply elem_of_addListener. by right.
  - exists p. by rewrite lookup_alter_ne.
Qed.

Lemma registered_alter_inv s id g sid fn :
  (∀ p, dataListeners (g p) = dataListeners p) →
  registered (set_manager (alter g id) s) sid fn → registered s sid fn.
Proof.
  intros Hg (p' & Hp' & Hfn). unfold registered. simpl in Hp'.
  destruct (decide (id = sid)) as [-> | Hne].
  - rewrite lookup_alter_eq in Hp'.
    destruct (manager s !! sid) as [p|] eqn:Hp; simpl in Hp'; [| done].
    injection Hp' as <-. exists p. by rewrite <- Hg.
  - rewrite lookup_alter_ne in Hp' by done. by exists p'.
Qed.

Lemma kind_stop_replaying (h : gmap nat closure) fn a :
  kind (alter stop_replaying fn h !! a) = kind (h !! a).
Proof.
  destruct (decide (fn = a)) as [<- | Hne].
  - rewrite lookup_alter_eq. by destruct (h !! fn) as [[]|].
  - by rewrite lookup_alter_ne.
Qed.

Lemma healthy_ws k k' : ws k' = ws k → healthy k → healthy k'.
Proof. unfold healthy. by intros ->. Qed.

(** The attach of [c'] to an existing session: the invariant of every
    other watched connection is kept, and [c'] ends up registered through a
    fresh closure in forwarding mode, having received the chunks of the
    buffer and the replay-done marker, in this order. *)
Lemma on_attach_spec w S st c' members sid' p k T :
  inv w S st → others w c' →
  member "sessionId" members = Some (JStr sid') →
  manager st !! sid' = Some p →
  conns st !! c' = Some k →
  match T with Some T => healthy k ∧ stream c' st = T | None => True end →
  wp (on_attach c' (JObj members))
     (λ _ s, inv w S s
             ∧ attaching c' sid' (nextRef st) false
                 ((λ T, T ++ map (MsgOutput sid') (buffer p) ++ [MsgReplayDone sid'])
                    <$> T) s)
     never st.
Proof.
  intros Hinv Hw Hsid Hp Hk HT. unfold on_attach.
  apply wp_bind, wp_lift. simpl. rewrite Hsid.
  apply wp_bind, wp_lift. simpl. apply wp_bind, wp_lift. simpl.
  apply wp_bind, wp_gets. unfold getProcess. rewrite Hp.
  apply wp_bind. eapply wp_mono; [by apply (detach_spec w S st c') | | done].
  intros ? s0 (H0 & Hnl0 & Hnext0 & Hk0 & Hp0).
  destruct (Hk0 k Hk) as (k0 & Hk0' & Hws0).
  destruct (Hp0 sid' p Hp) as (p0 & Hp0' & Hbuf0).
  clear Hk0 Hp0.
  (* attachedSessionId = sessionId *)
  apply wp_bind, wp_modify.
  set (s1 := set_conns (alter (set_attachedSessionId (Some sid')) c') s0).
  assert (H1 : inv w S s1).
  { apply (inv_frame w S s0); [done | |].
    - apply wf_set_vars; [by destruct H0 | done |].
      intros k1 b Hk1 Hb. by apply (wf_own s0 (proj1 H0) c' k1 b).
    - intros c sid fn Hc. simpl. split_and!; [| done | done].
      rewrite lookup_alter_ne; [done |]. by apply (Hw c sid fn). }
  assert (Hnl1 : ∀ id b, ¬ listens s1 c' id b) by exact Hnl0.
  assert (Hk1 : conns s1 !! c' = Some (set_attachedSessionId (Some sid') k0)).
  { unfold s1. simpl. by rewrite lookup_alter_eq, Hk0'. }
  (* resize *)
  apply wp_bind.
  eapply (wp_mono _ (λ _ s2, inv w S s2 ∧ (∀ id b, ¬ listens s2 c' id b)
            ∧ nextRef s2 = nextRef st ∧ conns s2 = conns s1 ∧ heap s2 = heap s1
            ∧ ∃ p2, manager s2 !! sid' = Some p2 ∧ buffer p2 = buffer p));
    [| | done].
  { apply wp_when; intros _.
    - apply wp_modify. split_and!; try done.
      + apply inv_alter_same; [done |]. intros q. unfold proc_resize. by destruct (alive q).
      + intros id b [Hreg Hown]. apply (Hnl1 id b). split; [| done].
        apply (registered_alter_inv s1 sid' (proc_resize (member "cols" members)
                 (member "rows" members))); [| done].
        intros q. unfold proc_resize. by destruct (alive q).
      + simpl. unfold resize. rewrite lookup_alter_eq.
        change (manager s1) with (manager s0). rewrite Hp0'. simpl.
        eexists. split; [done |]. unfold proc_resize. by destruct (alive p0).
    - split_and!; try done. by exists p0. }
  intros ? s2 (H2 & Hnl2 & Hnext2 & Hconns2 & Hheap2 & p2 & Hp2 & Hbuf2).
  (* the listener closure *)
  apply wp_bind, wp_new_closure.
  apply wp_bind, wp_modify, wp_bind, wp_modify.
  rewrite Hnext2.
  set (fn' := nextRef st).
  set (s3 := set_nextRef (Datatypes.S fn')
               (set_heap (<[fn' := DataListener c' sid' true []]>) s2)).
  set (s4 := set_conns (alter (set_dataListener (Some fn')) c') s3).
  set (s5 := set_manager (onData sid' fn') s4).
  pose proof (proj1 H2) as Hwf2.
  assert (Hlt : ∀ b, is_Some (heap s2 !! b) → b ≠ fn').
  { intros b Hb. apply (wf_heap s2 Hwf2) in Hb. unfold fn'. lia. }
  assert (H3 : inv w S s3).
  { apply (inv_frame w S s2); [done | |].
    - unfold s3, fn'. rewrite <- Hnext2. by apply wf_new_closure.
    - intros c sid fn ->. simpl. split_and!; [done | | done].
      destruct H2 as [_ [[_ [pd Hpd] _] _]].
      rewrite lookup_insert_ne; [done |]. intros Heq. apply (Hlt fn); [| done].
      by rewrite Hpd. }
  assert (Hnl3 : ∀ id b, ¬ listens s3 c' id b).
  { intros id b [Hreg Hown]. apply (Hnl2 id b). split; [done |].
    unfold s3 in Hown. simpl in Hown.
    rewrite lookup_insert_ne in Hown; [done |].
    intros <-. apply (wf_fresh s2 Hwf2) in Hreg. unfold fn' in Hreg. lia. }
  assert (H4 : inv w S s4).
  { apply (inv_frame w S s3); [done | |].
    - apply wf_set_vars; [by destruct H3 | done |].
      intros k1 b _ [= <-]. unfold s3. simpl. by rewrite lookup_insert_eq.
    - intros c sid fn Hc. simpl. split_and!; [| done | done].
      rewrite lookup_alter_ne; [done |]. by apply (Hw c sid fn). }
  assert (Hk4 : conns s4 !! c'
                = Some (set_dataListener (Some fn') (set_attachedSessionId (Some sid') k0))).
  { unfold s4, s3. simpl. by rewrite lookup_alter_eq, Hconns2, Hk1. }
  assert (H5 : inv w S s5).
  { apply (inv_frame w S s4); [done | |].
    - apply wf_onData; [by destruct H4 | simpl; lia |].
      intros c Hown. unfold s4, s3 in Hown. simpl in Hown.
      rewrite lookup_insert_eq in Hown. simpl in Hown. subst c.
      eexists. split; [exact Hk4 | done].
    - intros c sid fn Hc. split_and!; [done | done |]. apply registered_onData. }
  assert (A5 : attaching c' sid' fn' true T s5).
  { constructor.
    - unfold registered, s5, onData. simpl. eexists.
      rewrite lookup_alter_eq, Hp2. split; [done |].
      apply elem_of_addListener. by left.
    - unfold s5, s4, s3. simpl. by rewrite lookup_insert_eq.
    - eexists. split; [exact Hk4 |]. split_and!; [done | done |].
      destruct T as [T|]; [| done]. destruct HT as [Hh HT]. split.
      + apply (healthy_ws k); [| done]. simpl. done.
      + unfold stream in *. change (conns s5) with (conns s4).
        rewrite Hk4. rewrite Hk in HT. simpl. by rewrite Hws0. }
  (* replay *)
  apply wp_bind, wp_gets.
  assert (Hbuf5 : getBuffer sid' (manager s5) = buffer p).
  { unfold getBuffer, s5, onData. simpl. rewrite lookup_alter_eq, Hp2. simpl.
    unfold proc_addListener. by case_bool_decide. }
  rewrite Hbuf5.
  apply wp_bind.
  eapply wp_mono; [apply (replay_loop w S c' sid' fn' true (buffer p) Hw T s5 H5 A5) | | done].
  intros ? s6 [H6 A6].
  apply wp_bind, wp_safeSend.
  destruct (attaching_send w S s6 c' sid' fn' true _ (MsgReplayDone sid') H6 Hw A6 eq_refl)
    as [H7 A7].
  set (s7 := set_conns (alter (after_send (MsgReplayDone sid')) c') s6) in *.
  (* switch to live *)
  apply wp_bind, wp_modify.
  set (s8 := set_heap (alter stop_replaying fn') s7).
  assert (H8 : inv w S s8).
  { apply (inv_frame w S s7); [done | |].
    - apply wf_set_heap_kinds; [by destruct H7 |]. intros b. apply kind_stop_replaying.
    - intros c sid fn ->. simpl. split_and!; [done | | done].
      rewrite lookup_alter_ne; [done |]. intros <-.
      destruct H7 as [_ [[_ [pd Hpd] _] _]]. destruct A7 as [_ Hcl _].
      rewrite Hcl in Hpd. injection Hpd as <-. by apply (Hw c' sid fn'). }
  assert (A8 : attaching c' sid' fn' false
                 ((λ T, T ++ map (MsgOutput sid') (buffer p) ++ [MsgReplayDone sid'])
                    <$> T) s8).
  { destruct A7 as [Hreg Hcl Hconn]. constructor; [done | |].
    - change (heap s8 !! fn') with (alter stop_replaying fn' (heap s7) !! fn').
      by rewrite lookup_alter_eq, Hcl.
    - destruct Hconn as (k7 & Hk7 & Ha7 & Hd7 & HT7). exists k7.
      split_and!; [done | done | done |].
      destruct T as [T|]; simpl in *; [| done]. by rewrite app_assoc. }
  apply wp_bind, wp_gets.
  assert (Hpending : pendingData_of fn' s8 = []).
  { unfold pendingData_of. by rewrite (att_closure _ _ _ _ _ _ A8). }
  rewrite Hpending. simpl. by apply wp_ret.
Qed.

End Attach.
(** ** Spawning, and the REST handlers *)

Section Spawn.
Implicit Types (st s : Server) (c fn : nat) (id sid : string)
  (w : option (nat * string * nat)) (S : list message).

Definition elsewhere w id : Prop :=
  ∀ c sid fn, w = Some (c, sid, fn) → id ≠ sid.

(** A process is stored under [id]: one without listeners or callbacks. *)
Lemma inv_insert_process w S st id opts started :
  inv w S st → id ≠ "" → elsewhere w id →
  inv w S (set_manager (λ _, <[id := new_process opts started]> (manager st)) st).
Proof.
  intros Hinv Hid Hw. apply (inv_frame w S st); [done | |].
  - destruct Hinv as [Hwf _]. apply wf_set_manager; [done |].
    intros id' p' Hp'. destruct (decide (id = id')) as [<- | Hne].
    + rewrite lookup_insert_eq in Hp'. injection Hp' as <-. simpl.
      split_and!; [done | apply NoDup_nil_2 | |].
      * intros a H. inversion H.
      * intros id' a H. inversion H.
    + rewrite lookup_insert_ne in Hp' by done.
      split_and!.
      * by apply (wf_ids st Hwf id' p').
      * by apply (wf_nodup st Hwf id' p').
      * intros a Ha. by exists p'.
      * intros id'' a Ha. by apply (wf_cleanup st Hwf id' p' id'').
  - intros c sid fn Hc. split_and!; [done | done |].
    intros (p & Hp & Hfn). exists p. simpl.
    rewrite lookup_insert_ne; [done |]. by apply (Hw c sid fn).
Qed.

Lemma inv_onExit w S st id cb :
  inv w S st →
  (∀ id' a, cb = CaptureCleanup id' a → is_capture (heap st !! a)) →
  inv w S (set_manager (onExit id cb) st).
Proof.
  intros Hinv Hcb. apply (inv_frame w S st); [done | |].
  - destruct Hinv as [Hwf _].
    change (set_manager (onExit id cb) st)
      with (set_manager (λ _, onExit id cb (manager st)) st).
    apply wf_set_manager; [done |]. intros id' p' Hp'. unfold onExit in Hp'.
    assert (∃ p, manager st !! id' = Some p ∧ (p' = p ∨ p' = proc_onExit cb p))
      as (p & Hp & Hpp).
    { destruct (decide (id = id')) as [<- | Hne].
      - rewrite lookup_alter_eq in Hp'.
        destruct (manager st !! id) as [p|]; simpl in Hp'; [| done].
        injection Hp' as <-. eauto.
      - rewrite lookup_alter_ne in Hp' by done. eauto. }
    split_and!.
    + by apply (wf_ids st Hwf id' p).
    + destruct Hpp as [-> | ->]; by apply (wf_nodup st Hwf id' p).
    + intros a Ha. exists p. split; [done |]. by destruct Hpp as [-> | ->].
    + intros id'' a Ha. destruct Hpp as [-> | ->].
      * by apply (wf_cleanup st Hwf id' p id'').
      * simpl in Ha. apply elem_of_app in Ha as [Ha | Ha].
        -- by apply (wf_cleanup st Hwf id' p id'').
        -- apply list_elem_of_singleton in Ha. by apply (Hcb id'' a).
  - intros c sid fn Hc. split_and!; [done | done |].
    intros Hreg. apply registered_alter; [done |]. intros _ p Hfn. done.
Qed.

Lemma wp_weaken {A} (m : M A) (Q : A → Server → Prop) E st :
  wp m Q never st → wp m Q E st.
Proof. intros H. eapply wp_mono; [exact H | done | by intros ? ? []]. Qed.

Lemma keeps_inv w S st (m : M unit) E :
  wp m (keeps w S st) never st → wp m (λ _ s, inv w S s) E st.
Proof. intros H. eapply wp_mono; [exact H | by intros ? ? [? _] | by intros ? ? []]. Qed.

(** [spawnSession]: the invariant holds whether it returns or throws. *)
Lemma inv_spawnSession w S st (s : session) started :
  inv w S st → session_id s ≠ "" → elsewhere w (session_id s) →
  wp (spawnSession s started) (λ _ s', inv w S s') (λ _ s', inv w S s') st.
Proof.
  intros Hinv Hid Hw. unfold spawnSession. apply wp_bind, wp_gets.
  set (opts := if testMode st then _ else _).
  apply wp_bind, wp_try_catch.
  match goal with |- wp _ ?Q _ _ => set (Qnext := Q) end.
  assert (Hcatch : ∀ e s1, inv w S s1 →
    wp (modify (set_sessions (update_session (session_id s) (set_session_status exited)))
        ;; persist ;; broadcastSessions ;; throw e) Qnext (λ _ s', inv w S s') s1).
  { intros e s1 H1. apply wp_bind, wp_modify. apply wp_bind.
    eapply wp_mono;
      [apply (keeps_inv w S _ _ never), keeps_persist; by apply inv_update_session
      | | done].
    intros ? s2 H2. apply wp_bind.
    eapply wp_mono;
      [apply (keeps_inv w S _ _ never), keeps_broadcastSessions; exact H2 | | done].
    intros ? s3 H3. by apply wp_throw. }
  assert (Hnext : ∀ s1, inv w S s1 → Qnext tt s1).
  { intros s1 H1. unfold Qnext. apply wp_bind, wp_modify.
    set (s2 := set_manager _ s1).
    assert (H2 : inv w S s2) by (by apply inv_onExit).
    apply wp_when; intros _; [| done].
    apply wp_bind, wp_new_closure, wp_bind, wp_modify, wp_modify.
    set (cap := nextRef s2).
    set (s3 := set_nextRef _ _). set (s4 := set_manager _ s3).
    pose proof (proj1 H2) as Hwf2.
    assert (H3 : inv w S s3).
    { apply (inv_frame w S s2); [done | by apply wf_new_closure |].
      intros c sid fn ->. simpl. split_and!; [done | | done].
      destruct H2 as [_ [[_ [pd Hpd] _] _]].
      rewrite lookup_insert_ne; [done |]. intros Heq.
      assert (fn < nextRef s2)%nat; [| unfold cap in Heq; lia].
      apply (wf_heap s2 Hwf2). by rewrite Hpd. }
    assert (H4 : inv w S s4).
    { apply (inv_frame w S s3); [done | |].
      - apply wf_onData; [by destruct H3 | simpl; unfold cap; lia |].
        intros c Hown. unfold s3 in Hown. simpl in Hown.
        by rewrite lookup_insert_eq in Hown.
      - intros c sid fn Hc. split_and!; [done | done |]. apply registered_onData. }
    apply inv_onExit; [done |]. intros id' a [= <- <-].
    unfold s4, s3. simpl. by rewrite lookup_insert_eq. }
  unfold wp at 1. unfold manager_spawn, spawn.
  destruct (isAlive (session_id s) (manager st)) eqn:Hlive.
  - apply Hcatch. by rewrite set_manager_same.
  - destruct started.
    + apply Hnext. by apply inv_insert_process.
    + apply Hcatch. by apply inv_insert_process.
Qed.

Lemma inv_try_spawn w S st (s : session) started :
  inv w S st → session_id s ≠ "" → elsewhere w (session_id s) →
  wp (spawned ← try_catch (spawnSession s started ;; mret true) (λ _, mret false);
      when spawned broadcastSessions)
     (λ _ s', inv w S s') never st.
Proof.
  intros Hinv Hid Hw. apply wp_bind, wp_try_catch, wp_bind.
  eapply wp_mono; [by apply inv_spawnSession | |].
  - intros ? s1 H1. apply wp_ret. simpl.
    by apply (keeps_inv w S s1), keeps_broadcastSessions.
  - intros e s1 H1. by apply wp_ret.
Qed.

Lemma inv_api_create w S st uuid name cwd now started :
  inv w S st → uuid ≠ "" → elsewhere w uuid →
  wp (api_create uuid name cwd now started) (λ _ s', inv w S s') never st.
Proof.
  intros Hinv Hid Hw. unfold api_create. apply wp_bind, wp_modify.
  set (session := {| session_id := uuid |}). set (st1 := set_sessions _ st).
  assert (H1 : inv w S st1).
  { apply (inv_frame w S st); [done | | done].
    destruct Hinv as [Hwf _]. apply wf_set_sessions; [done |].
    intros x [Hs | Hs]%elem_of_app.
    - by apply (wf_sessions st Hwf).
    - apply list_elem_of_singleton in Hs as ->. done. }
  apply wp_bind.
  eapply wp_mono; [apply (keeps_inv w S st1 _ never), keeps_persist, H1 | | done].
  intros ? s2 H2. by apply inv_try_spawn.
Qed.

Lemma find_session id (l : list session) (x : session) :
  find (λ y : session, String.eqb (session_id y) id) l = Some x →
  x ∈ l ∧ session_id x = id.
Proof.
  intros H. apply find_some in H as [Hin Heq].
  split; [by apply list_elem_of_In | by apply String.eqb_eq].
Qed.

Lemma inv_api_restart w S st id started :
  inv w S st → elsewhere w id →
  wp (api_restart id started) (λ _ s', inv w S s') never st.
Proof.
  intros Hinv Hw. unfold api_restart. apply wp_bind, wp_gets.
  destruct (find _ (sessions st)) as [session|] eqn:Hfind; [| by apply wp_ret].
  apply find_session in Hfind as [Hin Hsid].
  assert (Hid : session_id session ≠ "") by (by apply (wf_sessions st (proj1 Hinv))).
  apply wp_bind, wp_gets, wp_bind.
  eapply (wp_mono _ (λ _ s1, inv w S s1)); [| | done].
  { apply wp_when; intros _; [| done]. by apply keeps_inv, inv_kill. }
  intros ? s1 H1. apply wp_bind, wp_modify, wp_bind.
  eapply wp_mono;
    [apply (keeps_inv w S _ _ never), keeps_persist; by apply inv_update_session
    | | done].
  intros ? s2 H2. apply inv_try_spawn; [done | done |]. by rewrite Hsid.
Qed.

Lemma elem_of_remove_session id (l : list session) (x : session) :
  x ∈ remove_session id l → x ∈ l.
Proof.
  induction l as [|x0 l IH]; simpl; [done |].
  destruct (String.eqb (session_id x0) id).
  - intros H. by right.
  - intros [-> | H]%elem_of_cons; [left | right; auto].
Qed.

Lemma inv_api_delete w S st id :
  inv w S st → wp (api_delete id) (λ _ s', inv w S s') never st.
Proof.
  intros Hinv. unfold api_delete. apply wp_bind, wp_gets.
  destruct (find _ (sessions st)) as [session|]; [| by apply wp_ret].
  apply wp_bind.
  eapply wp_mono; [apply (keeps_inv w S st _ never), inv_kill, Hinv | | done].
  intros ? s1 H1. apply wp_bind, wp_modify, wp_bind.
  eapply wp_mono; [apply (keeps_inv w S _ _ never), keeps_persist | | done].
  { apply (inv_frame w S s1); [done | | done].
    destruct H1 as [Hwf _]. apply wf_set_sessions; [done |].
    intros x Hs%elem_of_remove_session. by apply (wf_sessions s1 Hwf). }
  intros ? s2 H2. by apply keeps_inv, keeps_broadcastSessions.
Qed.

End Spawn.
(** ** Every event keeps the invariant *)

Section Steps.
Implicit Types (st s : Server) (c fn : nat) (id sid : string)
  (w : option (nat * string * nat)) (S : list message).

(** An attach by a connection other than the watched one. *)
Lemma inv_on_attach w S st c' members :
  inv w S st → others w c' → is_Some (conns st !! c') →
  wp (on_attach c' (JObj members)) (λ _ s, inv w S s) never st.
Proof.
  intros Hinv Hw [k Hk].
  destruct (member "sessionId" members) as [v|] eqn:Hsid.
  2:{ unfold on_attach. apply wp_bind, wp_lift. simpl. rewrite Hsid.
      apply wp_bind, wp_lift. simpl. apply wp_bind, wp_lift. simpl. by apply wp_ret. }
  assert (Hskip : (∀ sid', v ≠ JStr sid') →
                  wp (on_attach c' (JObj members)) (λ _ s, inv w S s) never st).
  { intros Hv. unfold on_attach. apply wp_bind, wp_lift. simpl. rewrite Hsid.
    apply wp_bind, wp_lift. simpl. apply wp_bind, wp_lift. simpl.
    destruct v; try by apply wp_ret. by destruct (Hv s). }
  destruct v as [| | |sid'| |]; try (apply Hskip; done).
  destruct (manager st !! sid') as [p|] eqn:Hp.
  - eapply wp_mono;
      [apply (on_attach_spec w S st c' members sid' p k None); done | | done].
    by intros ? s [Hs _].
  - unfold on_attach. apply wp_bind, wp_lift. simpl. rewrite Hsid.
    apply wp_bind, wp_lift. simpl. apply wp_bind, wp_lift. simpl.
    apply wp_bind, wp_gets. unfold getProcess. rewrite Hp. by apply wp_ret.
Qed.

Lemma inv_on_message w S st c' raw :
  inv w S st → is_Some (conns st !! c') →
  (∀ c sid fn, w = Some (c, sid, fn) → c' = c → is_attach raw = false) →
  wp (on_message c' raw) (λ _ s, inv w S s) (λ _ s, s = st) st.
Proof.
  intros Hinv Hk Hcalm. unfold on_message.
  destruct raw as [|v]; simpl; [by apply wp_ret |].
  apply wp_bind, wp_lift.
  destruct v as [| | | | |members]; simpl; try done.
  destruct (type_is (member "type" members) "attach") eqn:Hattach.
  - apply wp_weaken, inv_on_attach; [done | | done].
    intros c sid fn Hc ->. specialize (Hcalm c sid fn Hc eq_refl).
    simpl in Hcalm. congruence.
  - destruct (type_is (member "type" members) "input").
    + by apply wp_weaken, inv_on_input.
    + destruct (type_is (member "type" members) "resize"); [| done].
      by apply wp_weaken, inv_on_resize.
Qed.

Lemma step_inv w S st ev :
  inv w S st → event_ok ev →
  (∀ c sid fn, w = Some (c, sid, fn) → calm c sid ev) →
  wp (step ev) (λ _ s, inv w (S ++ emitted w ev st) s)
     (λ _ s, s = st ∧ emitted w ev st = []) st.
Proof.
  intros Hinv Hok Hcalm.
  assert (Hnil : ∀ s, (∀ data id, ev ≠ PtyData id data) →
                      inv w S s → inv w (S ++ emitted w ev st) s).
  { intros s Hev Hs. unfold emitted. destruct w as [[[c sid] fn]|];
      destruct ev; rewrite ?app_nil_r; try done. by destruct (Hev data sessionId). }
  assert (Hquiet : (∀ data id, ev ≠ PtyData id data) →
                   wp (step ev) (λ _ s, inv w S s) never st →
                   wp (step ev) (λ _ s, inv w (S ++ emitted w ev st) s)
                      (λ _ s, s = st ∧ emitted w ev st = []) st).
  { intros Hev H. eapply wp_mono; [exact H | | by intros ? ? []].
    intros ? s Hs. by apply Hnil. }
  destruct ev as [c' faults | c' n | c' raw | c' | id data | id
                  | uuid name cwd now started | id started | id].
  - apply Hquiet; [done |]. unfold step. apply wp_bind, wp_gets.
    case_bool_decide as Hknown; [by apply wp_ret |].
    apply inv_on_connection; [done |].
    destruct (conns st !! c') eqn:Hc; [| done]. destruct Hknown. eauto.
  - apply Hquiet; [done |]. apply step_readyState; [done |].
    intros c sid fn Hc. apply (Hcalm c sid fn Hc).
  - unfold step. apply wp_bind, wp_gets.
    case_bool_decide as Hknown.
    + eapply wp_mono; [apply (inv_on_message w S st c' raw); [done | done |] | |].
      * intros c sid fn Hc. apply (Hcalm c sid fn Hc).
      * intros ? s Hs. by apply Hnil.
      * intros e s ->. split; [done |]. unfold emitted. by destruct w as [[[] ?]|].
    + apply wp_ret. by apply Hnil.
  - apply Hquiet; [done |]. apply step_close; [done |].
    intros c sid fn Hc. apply (Hcalm c sid fn Hc).
  - apply wp_weaken, step_data. done.
  - apply Hquiet; [done |]. by apply step_exit.
  - apply Hquiet; [done |]. apply inv_api_create; [done | done |].
    intros c sid fn Hc. by destruct (Hcalm c sid fn Hc).
  - apply Hquiet; [done |]. apply inv_api_restart; [done |].
    intros c sid fn Hc. apply (Hcalm c sid fn Hc).
  - apply Hquiet; [done |]. by apply inv_api_delete.
Qed.

Lemma produced_cons sid ev evs st :
  produced sid (ev :: evs) st
  = match ev with
    | PtyData id data =>
        if bool_decide (id = sid) && isAlive sid (manager st) then [data] else []
    | _ => []
    end ++
    match step ev st with
    | (Ok _, st') => produced sid evs st'
    | (Throw _, _) => []
    end.
Proof. done. Qed.

Lemma emitted_produced c sid fn ev st :
  emitted (Some (c, sid, fn)) ev st
  = map (MsgOutput sid)
      match ev with
      | PtyData id data =>
          if bool_decide (id = sid) && isAlive sid (manager st) then [data] else []
      | _ => []
      end.
Proof. destruct ev; simpl; try done. by destruct (_ && _). Qed.

(** A run keeps the server well formed. *)
Lemma run_wf evs st :
  wf st → Forall event_ok evs → wf (snd (run evs st)).
Proof.
  revert st. induction evs as [|ev evs IH]; intros st Hwf Hok; [done |].
  apply Forall_cons in Hok as [Hev Hok].
  pose proof (step_inv None [] st ev (conj Hwf I) Hev) as Hstep.
  unfold wp in Hstep. simpl. unfold mbind, M_bind.
  destruct (step ev st) as [[[]|e] s1]; simpl.
  - apply IH; [| done]. apply Hstep. done.
  - destruct Hstep as [-> _]; done.
Qed.

(** A calm run keeps the watched connection live, and it receives the
    chunks its session produces, in order, and no other stream message. *)
Lemma run_live c sid fn evs :
  ∀ S st,
  inv (Some (c, sid, fn)) S st → Forall (calm c sid) evs →
  inv (Some (c, sid, fn)) (S ++ map (MsgOutput sid) (produced sid evs st))
      (snd (run evs st)).
Proof.
  induction evs as [|ev evs IH]; intros S st Hinv Hcalm.
  - simpl. by rewrite app_nil_r.
  - apply Forall_cons in Hcalm as [Hev Hcalm].
    assert (Hok : event_ok ev).
    { destruct ev; simpl in *; try done. by destruct Hev. }
    assert (Hc : ∀ c0 sid0 fn0, Some (c, sid, fn) = Some (c0, sid0, fn0) →
                 calm c0 sid0 ev) by (by intros ? ? ? [= <- <- <-]).
    pose proof (step_inv (Some (c, sid, fn)) S st ev Hinv Hok Hc) as Hstep.
    rewrite produced_cons, map_app, app_assoc, <- (emitted_produced c sid fn).
    set (E := emitted _ ev st) in *.
    unfold wp in Hstep.
    change (run (ev :: evs) st) with ((step ev ≫= λ _, run evs) st).
    unfold mbind, M_bind.
    destruct (step ev st) as [[[]|e] s1].
    + by apply IH.
    + destruct Hstep as [-> ->]. simpl. by rewrite !app_nil_r.
Qed.

End Steps.
(** ** The attach protocol *)

Section AttachProtocol.
Implicit Types (st s : Server) (c fn : nat) (id sid : string).

(** The resume loop of [createServer] keeps the invariant. *)
Lemma resume_sessions_wf started st :
  wf st → wp (resume_sessions started) (λ _ s, wf s) never st.
Proof.
  intros Hwf. unfold resume_sessions. apply wp_bind, wp_gets.
  apply wp_when; intros _; [| done]. apply wp_bind, wp_gets, wp_bind.
  eapply wp_mono;
    [apply (wp_for_of_inv (sessions st) _ (inv None [])) | | done].
  - done.
  - intros x s Hx Hs.
    apply wp_when; intros _; [| done]. apply wp_try_catch.
    eapply wp_mono; [apply (inv_spawnSession None [] s x) | done |]; try done.
    + by apply (wf_sessions st Hwf).
    + intros e s' Hs'. apply wp_modify. by apply inv_update_session.
  - intros ? s Hs.
    eapply wp_mono; [apply (keeps_persist None [] s Hs) | | done].
    by intros ? s' [[Hs' _] _].
Qed.

(** [createServer] returns, with a well-formed server. *)
Lemma createServer_wf tm loaded started :
  stored_ok loaded →
  fst (createServer tm loaded started) = Ok tt
  ∧ wf (snd (createServer tm loaded started)).
Proof.
  intros Hok. unfold createServer.
  set (st0 := {| testMode := tm |}).
  assert (Hwf : wf st0).
  { constructor; simpl.
    - intros a [? H]. by rewrite lookup_empty in H.
    - intros id p H. by rewrite lookup_empty in H.
    - intros id p H. by rewrite lookup_empty in H.
    - intros id fn (p & H & _). simpl in H. by rewrite lookup_empty in H.
    - intros c id fn [(p & H & _) _]. simpl in H. by rewrite lookup_empty in H.
    - intros c k fn H. by rewrite lookup_empty in H.
    - intros s H. destruct tm; [by apply elem_of_nil in H |].
      by apply (proj1 (Forall_forall _ _) Hok).
    - intros id p id' a H. by rewrite lookup_empty in H. }
  pose proof (resume_sessions_wf started st0 Hwf) as H. unfold wp in H.
  by destruct (resume_sessions started st0) as [[[]|e] s].
Qed.

Lemma reach_wf tm loaded started evs :
  stored_ok loaded → Forall event_ok evs → wf (reach tm loaded started evs).
Proof.
  intros Hst Hok. apply run_wf; [by apply createServer_wf | done].
Qed.

Lemma step_attach_spec st c members sid p k :
  wf st →
  member "type" members = Some (JStr "attach") →
  member "sessionId" members = Some (JStr sid) →
  manager st !! sid = Some p →
  conns st !! c = Some k →
  ∀ T, match T with Some T => healthy k ∧ stream c st = T | None => True end →
  wp (step (WsMessage c (Json (JObj members))))
     (λ _ s, wf s
             ∧ attaching c sid (nextRef st) false
                 ((λ T, T ++ map (MsgOutput sid) (buffer p) ++ [MsgReplayDone sid])
                    <$> T) s)
     never st.
Proof.
  intros Hwf Hty Hsid Hp Hk T HT. unfold step. apply wp_bind, wp_gets.
  rewrite bool_decide_true by eauto.
  unfold on_message. simpl. apply wp_bind, wp_lift. simpl. rewrite Hty. simpl.
  eapply wp_mono;
    [apply (on_attach_spec None [] st c members sid p k T); try done | | done].
  by intros ? s [[Hs _] Ha].
Qed.

(** C1: in a server started on a store whose ids are not empty, a
    connection that is open and whose sends succeed attaches to an
    existing session: the handler returns normally, and from then on, for
    as long as the connection neither attaches again nor closes and the
    process is not replaced, the output and replay-done messages it has
    received are: what it had received before, then every chunk of the
    ring buffer in order, tagged with the session id, then one
    replay-done marker, then every chunk the process has put out since,
    each once, in order. *)
Theorem attach_replay_then_live (tm : bool) (loaded : list session)
    (started : string → bool) (before after : list event)
    (c : nat) (members : list (string * json)) (sid : string) :
  stored_ok loaded →
  Forall event_ok before →
  member "type" members = Some (JStr "attach") →
  member "sessionId" members = Some (JStr sid) →
  let st := reach tm loaded started before in
  let st1 := snd (step (WsMessage c (Json (JObj members))) st) in
  is_Some (getProcess sid (manager st)) →
  open_and_sound c st →
  Forall (calm c sid) after →
  fst (step (WsMessage c (Json (JObj members))) st) = Ok tt
  ∧ stream c (snd (run after st1))
    = stream c st
      ++ map (MsgOutput sid) (getBuffer sid (manager st))
      ++ [MsgReplayDone sid]
      ++ map (MsgOutput sid) (produced sid after st1).
Proof.
  intros Hst Hok Hty Hsid st st1 [p Hp] (k & Hk & Hh) Hcalm. subst st1.
  pose proof (reach_wf tm loaded started before Hst Hok) as Hwf. fold st in Hwf.
  unfold getProcess in Hp.
  pose proof (step_attach_spec st c members sid p k Hwf Hty Hsid Hp Hk
                (Some (stream c st)) (conj Hh eq_refl)) as Hstep.
  unfold wp in Hstep.
  destruct (step (WsMessage c (Json (JObj members))) st) as [[[]|e] st1];
    [| done].
  destruct Hstep as [Hwf1 Hatt]. simpl in Hatt.
  apply attaching_live in Hatt as [Hlive Hstream].
  split; [done |]. simpl.
  pose proof (run_live c sid (nextRef st) after _ st1
                (conj Hwf1 (conj Hlive Hstream)) Hcalm) as [_ [_ Hfinal]].
  rewrite Hfinal. unfold getBuffer. rewrite Hp. by rewrite <- !app_assoc.
Qed.

Lemma attach_replay_then_live_witness :
  let before := [PtyData "s0" "A"; ApiCreate "s1" "demo" "/tmp" "now" true;
                 PtyData "s0" "B"; PtyData "s1" "other"; PtyData "s0" "C";
                 WsConnection 0 []] in
  let after := [PtyData "s0" "D"; WsMessage 0 Malformed; PtyData "s1" "other";
                PtyData "s0" "E"] in
  stream 0 (snd (run after (snd (step (WsMessage 0 (attach_message "s0" 80 24))
                                      (reach false stored_demo (λ _, true)
                                         before)))))
  = [MsgOutput "s0" "A"; MsgOutput "s0" "B"; MsgOutput "s0" "C";
     MsgReplayDone "s0"; MsgOutput "s0" "D"; MsgOutput "s0" "E"].
Proof.
  intros before after.
  destruct (attach_replay_then_live false stored_demo (λ _, true) before after
              0%nat
              [("type", JStr "attach"); ("sessionId", JStr "s0");
               ("cols", JNum 80); ("rows", JNum 24)] "s0") as [_ H].
  - repeat constructor; simpl; congruence.
  - repeat constructor. simpl. congruence.
  - reflexivity.
  - reflexivity.
  - vm_compute. eexists. reflexivity.
  - vm_compute. eexists. split; [reflexivity |]. split; [reflexivity | constructor].
  - repeat constructor; simpl; congruence.
  - unfold attach_message. rewrite H. vm_compute. reflexivity.
Defined.

(** C3: in every state reached by a server started on a store whose ids
    are not empty, a connection is registered as an output listener at
    most once, on at most one session; right after
    an attach to an existing session it is registered on that session
    only, through the closure just built; and from then on a connection
    that is open and sound receives the chunks of that session and no
    output of any other. *)
Theorem one_listener_per_connection (tm : bool) (loaded : list session)
    (started : string → bool) (before after : list event)
    (c : nat) (members : list (string * json)) (sid : string) :
  stored_ok loaded →
  Forall event_ok before →
  member "type" members = Some (JStr "attach") →
  member "sessionId" members = Some (JStr sid) →
  is_Some (getProcess sid (manager (reach tm loaded started before))) →
  is_Some (conns (reach tm loaded started before) !! c) →
  let st := reach tm loaded started before in
  let st1 := snd (step (WsMessage c (Json (JObj members))) st) in
  (∀ c' id1 fn1 id2 fn2,
     listens st c' id1 fn1 → listens st c' id2 fn2 → id1 = id2 ∧ fn1 = fn2)
  ∧ (∀ id p, manager st !! id = Some p → NoDup (dataListeners p))
  ∧ (∀ id fn, listens st1 c id fn ↔ id = sid ∧ fn = nextRef st)
  ∧ (open_and_sound c st → Forall (calm c sid) after →
       stream c (snd (run after st1))
       = stream c st1 ++ map (MsgOutput sid) (produced sid after st1)).
Proof.
  intros Hst Hok Hty Hsid [p Hp] [k Hk] st st1.
  pose proof (reach_wf tm loaded started before Hst Hok) as Hwf. fold st in Hwf.
  unfold getProcess in Hp. fold st in Hp, Hk.
  assert (Hone : ∀ s, wf s → ∀ c' id1 fn1 id2 fn2,
            listens s c' id1 fn1 → listens s c' id2 fn2 → id1 = id2 ∧ fn1 = fn2).
  { intros s Hs c' id1 fn1 id2 fn2 H1 H2.
    destruct (wf_current s Hs c' id1 fn1 H1) as (k1 & Hk1 & Ha1 & Hd1).
    destruct (wf_current s Hs c' id2 fn2 H2) as (k2 & Hk2 & Ha2 & Hd2).
    split; congruence. }
  split; [by apply Hone |]. split; [apply (wf_nodup st Hwf) |].
  assert (Hstep : ∀ T,
            match T with Some T => healthy k ∧ stream c st = T | None => True end →
            wf st1 ∧ attaching c sid (nextRef st) false
              ((λ T, T ++ map (MsgOutput sid) (buffer p) ++ [MsgReplayDone sid])
                 <$> T) st1).
  { intros T HT.
    pose proof (step_attach_spec st c members sid p k Hwf Hty Hsid Hp Hk T HT) as H.
    unfold wp in H. unfold st1.
    by destruct (step (WsMessage c (Json (JObj members))) st) as [[[]|e] s1]. }
  split.
  - destruct (Hstep None I) as [Hwf1 [Hreg Hcl _]].
    assert (Hl : listens st1 c sid (nextRef st)).
    { split; [done |]. by rewrite Hcl. }
    intros id fn. split.
    + intros H. by apply (Hone st1 Hwf1 c).
    + by intros [-> ->].
  - intros (k' & Hk' & Hh) Hcalm. assert (k' = k) as -> by congruence.
    destruct (Hstep (Some (stream c st)) (conj Hh eq_refl)) as [Hwf1 Hatt].
    simpl in Hatt. apply attaching_live in Hatt as [Hlive Hstream].
    by pose proof (run_live c sid (nextRef st) after _ st1
                     (conj Hwf1 (conj Hlive eq_refl)) Hcalm) as [_ [_ Hfinal]].
Qed.

Lemma one_listener_per_connection_witness :
  let before := [ApiCreate "s2" "two" "/tmp" "now" true;
                 WsConnection 0 []; WsMessage 0 (attach_message "s0" 80 24);
                 PtyData "s0" "A"] in
  let after := [PtyData "s0" "B"; PtyData "s2" "C"; PtyData "s0" "D"] in
  let st1 := snd (step (WsMessage 0 (attach_message "s2" 80 24))
                       (reach false stored_demo (λ _, true) before)) in
  stream 0 (snd (run after st1)) = stream 0 st1 ++ [MsgOutput "s2" "C"].
Proof.
  intros before after st1.
  destruct (one_listener_per_connection false stored_demo (λ _, true) before
              after 0%nat
              [("type", JStr "attach"); ("sessionId", JStr "s2");
               ("cols", JNum 80); ("rows", JNum 24)] "s2") as (_ & _ & _ & H).
  - repeat constructor; simpl; congruence.
  - repeat constructor; simpl; congruence.
  - reflexivity.
  - reflexivity.
  - vm_compute. eexists. reflexivity.
  - vm_compute. eexists. reflexivity.
  - unfold st1, attach_message. rewrite H.
    + vm_compute. reflexivity.
    + vm_compute. eexists. split; [reflexivity |]. split; [reflexivity | constructor].
    + repeat constructor; simpl; congruence.
Defined.

End AttachProtocol.
(** ** What a handler leaves untouched *)

Section Preserves.
Context {X : Type} (f : Server → X).

(** [m] returns or throws in a state with the same [f]. *)
Definition preserves {A} (m : M A) : Prop := ∀ st, f (snd (m st)) = f st.

Lemma preserves_ret {A} (a : A) : preserves (mret a).
Proof. done. Qed.

Lemma preserves_bind {A B} (m : M A) (k : A → M B) :
  preserves m → (∀ a, preserves (k a)) → preserves (m ≫= k).
Proof.
  intros Hm Hk st. unfold mbind, M_bind. specialize (Hm st).
  destruct (m st) as [[a|e] s1]; simpl in *; [| done].
  by rewrite Hk.
Qed.

Lemma preserves_gets {A} (g : Server → A) : preserves (gets g).
Proof. done. Qed.

Lemma preserves_lift {A} (r : outcome A) : preserves (lift r).
Proof. done. Qed.

Lemma preserves_throw {A} e : preserves (throw (A := A) e).
Proof. done. Qed.

Lemma preserves_modify g : (∀ st, f (g st) = f st) → preserves (modify g).
Proof. intros H st. apply H. Qed.

Lemma preserves_when b m : preserves m → preserves (when b m).
Proof. intros H. by destruct b. Qed.

Lemma preserves_try_catch {A} (m : M A) h :
  preserves m → (∀ e, preserves (h e)) → preserves (try_catch m h).
Proof.
  intros Hm Hh st. unfold try_catch. specialize (Hm st).
  destruct (m st) as [[a|e] s1]; simpl in *; [done |]. by rewrite Hh.
Qed.

Lemma preserves_for_of {A} (l : list A) body :
  (∀ x, preserves (body x)) → preserves (for_of l body).
Proof.
  intros Hbody. induction l as [|x l IH]; simpl; [done |].
  apply preserves_bind; auto.
Qed.

(** [f] does not look at the sockets. *)
Hypothesis blind : ∀ g c st,
  (∀ k, attachedSessionId (g k) = attachedSessionId k
        ∧ dataListener (g k) = dataListener k) →
  f (set_conns (alter g c) st) = f st.

Lemma preserves_safeSend c data : preserves (safeSend c data).
Proof.
  intros st. rewrite safeSend_eq. simpl. apply blind. intros k.
  by rewrite after_send_attached, after_send_listener.
Qed.

Lemma preserves_broadcastSessions : preserves broadcastSessions.
Proof.
  apply preserves_bind; [done |]. intros msg.
  apply preserves_bind; [done |]. intros cl.
  apply preserves_for_of. intros c. apply preserves_safeSend.
Qed.

Hypothesis blind_persisted : ∀ l st, f (set_persisted l st) = f st.
Hypothesis blind_sessions : ∀ g st, f (set_sessions g st) = f st.

Lemma preserves_persist : preserves persist.
Proof.
  apply preserves_bind; [done |]. intros tm. apply preserves_when.
  apply preserves_modify. intros st. apply blind_persisted.
Qed.

Hypothesis blind_manager : ∀ g st, f (set_manager g st) = f st.

Lemma preserves_call_exit cb : preserves (call_exit cb).
Proof.
  destruct cb as [id | id a]; simpl.
  - apply preserves_bind; [by apply preserves_modify |]. intros _.
    apply preserves_bind; [apply preserves_persist |]. intros _.
    apply preserves_bind; [apply preserves_broadcastSessions |]. intros _.
    apply preserves_bind; [done |]. intros cl.
    apply preserves_for_of. intros c. apply preserves_safeSend.
  - by apply preserves_modify.
Qed.

Lemma preserves_with_manager {A} (g : PtyManager → PtyManager * A) :
  preserves (with_manager g).
Proof.
  intros st. unfold with_manager. destruct (g (manager st)). apply blind_manager.
Qed.

Lemma preserves_exit id : preserves (step (PtyExit id)).
Proof.
  apply preserves_bind; [apply preserves_with_manager |]. intros due.
  apply preserves_for_of, preserves_call_exit.
Qed.

Hypothesis blind_heap : ∀ g st, f (set_heap g st) = f st.

Lemma preserves_call_listener a data : preserves (call_listener a data).
Proof.
  apply preserves_bind; [done |]. intros [[c sid [] pd | id]|].
  - by apply preserves_modify.
  - apply preserves_safeSend.
  - destruct (uuid_match data); [| done].
    apply preserves_bind; [by apply preserves_modify |]. intros _.
    apply preserves_bind; [by apply preserves_modify |]. intros _.
    apply preserves_bind; [apply preserves_persist |]. intros _.
    apply preserves_broadcastSessions.
  - done.
Qed.

Lemma preserves_data id data : preserves (step (PtyData id data)).
Proof.
  apply preserves_bind; [apply preserves_with_manager |]. intros ls.
  apply preserves_for_of. intros a. apply preserves_call_listener.
Qed.

End Preserves.

Section PreservedParts.
Implicit Types (st : Server) (c : nat).

Lemma attached_of_alter g c c' st :
  (∀ k, attachedSessionId (g k) = attachedSessionId k
        ∧ dataListener (g k) = dataListener k) →
  attached_of c (set_conns (alter g c') st) = attached_of c st.
Proof.
  intros Hg. unfold attached_of. simpl.
  destruct (decide (c' = c)) as [-> | Hne].
  - rewrite lookup_alter_eq. destruct (conns st !! c) as [k|]; simpl; [| done].
    by destruct (Hg k) as [-> _].
  - by rewrite lookup_alter_ne.
Qed.

Lemma listener_of_alter g c c' st :
  (∀ k, attachedSessionId (g k) = attachedSessionId k
        ∧ dataListener (g k) = dataListener k) →
  listener_of c (set_conns (alter g c') st) = listener_of c st.
Proof.
  intros Hg. unfold listener_of. simpl.
  destruct (decide (c' = c)) as [-> | Hne].
  - rewrite lookup_alter_eq. destruct (conns st !! c) as [k|]; simpl; [| done].
    by destruct (Hg k) as [_ ->].
  - by rewrite lookup_alter_ne.
Qed.

(** The process exit leaves the two variables of every connection and
    every closure as they are. *)
Lemma exit_keeps_attached id c : preserves (attached_of c) (step (PtyExit id)).
Proof. apply preserves_exit; try done. intros g c' st. apply attached_of_alter. Qed.

Lemma exit_keeps_listener id c : preserves (listener_of c) (step (PtyExit id)).
Proof. apply preserves_exit; try done. intros g c' st. apply listener_of_alter. Qed.

Lemma exit_keeps_heap id : preserves heap (step (PtyExit id)).
Proof. by apply preserves_exit. Qed.

Lemma exit_keeps_clients id : preserves clients (step (PtyExit id)).
Proof. by apply preserves_exit. Qed.

Lemma data_keeps_attached id data c :
  preserves (attached_of c) (step (PtyData id data)).
Proof. apply preserves_data; try done. intros g c' st. apply attached_of_alter. Qed.

Lemma data_keeps_listener id data c :
  preserves (listener_of c) (step (PtyData id data)).
Proof. apply preserves_data; try done. intros g c' st. apply listener_of_alter. Qed.

End PreservedParts.
(** ** Listeners of connections stay registered *)

Section Steady.
Implicit Types (st s : Server) (c fn a : nat) (id sid : string).

(** [p'] is [p], short of capture listeners at most. *)
Definition same_process st (p p' : PtyProcess) : Prop :=
  alive p' = alive p ∧ buffer p' = buffer p ∧ bufferSize p' = bufferSize p
  ∧ exitListeners p' = exitListeners p
  ∧ ∀ a, a ∈ dataListeners p → ¬ is_capture (heap st !! a) → a ∈ dataListeners p'.

(** No closure changed hands and every process is as it was, short of
    capture listeners at most. *)
Definition steady st s : Prop :=
  same_kinds st s
  ∧ ∀ id p, manager st !! id = Some p →
      ∃ p', manager s !! id = Some p' ∧ same_process st p p'.

Lemma steady_refl st : steady st st.
Proof. split; [done |]. intros id p Hp. exists p. by repeat split. Qed.

Lemma steady_trans st s1 s2 : steady st s1 → steady s1 s2 → steady st s2.
Proof.
  intros [Hk1 H1] [Hk2 H2]. split; [by eapply same_kinds_trans |].
  intros id p Hp. destruct (H1 id p Hp) as (p1 & Hp1 & Ha1 & Hb1 & Hs1 & He1 & Hl1).
  destruct (H2 id p1 Hp1) as (p2 & Hp2 & Ha2 & Hb2 & Hs2 & He2 & Hl2).
  exists p2. split; [done |]. repeat split; try congruence.
  intros a Ha Hcap. apply Hl2; [by apply Hl1 |].
  by rewrite (same_kinds_capture st s1 a Hk1).
Qed.

Lemma steady_same st s : manager s = manager st → heap s = heap st → steady st s.
Proof.
  intros Hm Hh. split; [by apply same_kinds_heap |].
  intros id p Hp. exists p. rewrite Hm. by repeat split.
Qed.

Lemma steady_registered st s id a :
  steady st s → registered st id a → ¬ is_capture (heap st !! a) →
  registered s id a.
Proof.
  intros [_ H] (p & Hp & Ha) Hcap. destruct (H id p Hp) as (p' & Hp' & _ & _ & _ & _ & Hl).
  exists p'. split; [done |]. by apply Hl.
Qed.

Lemma steady_listens st s c id a :
  steady st s → listens st c id a → listens s c id a.
Proof.
  intros Hst [Hreg Hown]. split.
  - apply (steady_registered st); [done | done |].
    intros Hcap. destruct (heap st !! a) as [[]|]; done.
  - by apply (proj2 (same_kinds_owned st s c a (proj1 Hst))).
Qed.

Definition stays st : unit → Server → Prop := λ _ s, steady st s.

Lemma stays_seq st (m1 m2 : M unit) :
  wp m1 (stays st) never st →
  (∀ s, wp m2 (stays s) never s) →
  wp (m1 ;; m2) (stays st) never st.
Proof.
  intros H1 H2. apply wp_bind. eapply wp_mono; [exact H1 | | done].
  intros ? s Hs. eapply wp_mono; [apply H2 | | done].
  intros ? s' Hs'. by eapply steady_trans.
Qed.

Lemma stays_loop {A} st (l : list A) body :
  (∀ x s, x ∈ l → steady st s → wp (body x) (stays s) never s) →
  wp (for_of l body) (stays st) never st.
Proof.
  intros Hbody. apply (wp_for_of_inv l body (steady st)); [apply steady_refl |].
  intros x s Hx Hs. eapply wp_mono; [by apply Hbody | | done].
  intros ? s' Hs'. by eapply steady_trans.
Qed.

Lemma stays_safeSend st c data : wp (safeSend c data) (stays st) never st.
Proof. apply wp_safeSend. by apply steady_same. Qed.

Lemma stays_send_all st (l : list nat) data :
  wp (for_of l (λ c, safeSend c data)) (stays st) never st.
Proof. apply stays_loop. intros c s _ _. apply stays_safeSend. Qed.

Lemma stays_broadcastSessions st : wp broadcastSessions (stays st) never st.
Proof.
  unfold broadcastSessions. apply wp_bind, wp_gets, wp_bind, wp_gets.
  apply stays_send_all.
Qed.

Lemma stays_persist st : wp persist (stays st) never st.
Proof.
  unfold persist. apply wp_bind, wp_gets.
  apply wp_when; intros _; [apply wp_modify |]; by apply steady_same.
Qed.

Lemma stays_offData st id a :
  is_capture (heap st !! a) → steady st (set_manager (offData id a) st).
Proof.
  intros Hcap. split; [done |]. intros id' p Hp. simpl. unfold offData.
  destruct (decide (id = id')) as [<- | Hne].
  - exists (proc_removeListener a p). rewrite lookup_alter_eq, Hp.
    split; [done |]. repeat split. intros b Hb Hncap. simpl.
    apply list_elem_of_filter. split; [| done]. by intros ->.
  - exists p. rewrite lookup_alter_ne by done. by repeat split.
Qed.

(** Calling any listener with a chunk returns normally. *)
Lemma stays_call_listener st a data :
  wp (call_listener a data) (stays st) never st.
Proof.
  unfold call_listener. apply wp_bind, wp_gets.
  destruct (heap st !! a) as [[c sid replaying pd | id]|] eqn:Ha.
  - destruct replaying; [| apply stays_safeSend].
    apply wp_modify. split.
    + intros b. simpl. destruct (decide (a = b)) as [<- | Hb].
      * by rewrite lookup_insert_eq, Ha.
      * by rewrite lookup_insert_ne.
    + intros id p Hp. exists p. by repeat split.
  - destruct (uuid_match data) as [token|]; [| apply wp_ret, steady_refl].
    apply wp_bind, wp_modify, wp_bind, wp_modify.
    set (s1 := set_sessions _ st). set (s2 := set_manager _ s1).
    assert (H2 : steady st s2).
    { apply (steady_trans st s1); [by apply steady_same |].
      apply stays_offData. unfold s1. simpl. by rewrite Ha. }
    eapply wp_mono; [apply stays_seq; [apply stays_persist |] | | done].
    + intros s3. apply stays_broadcastSessions.
    + intros ? s4 H4. by eapply steady_trans.
  - apply wp_ret, steady_refl.
Qed.

(** A chunk is put out: after the push to the ring buffer nothing but
    the sockets, the queues of replaying closures and capture listeners
    changes, and no exception escapes. *)
Lemma stays_data st id data :
  wp (step (PtyData id data))
     (stays (set_manager (alter (pushed data) id) st)) never st.
Proof.
  unfold step. apply wp_bind, wp_with_manager.
  rewrite output_alter.
  change (set_manager (λ _, alter (pushed data) id (manager st)) st)
    with (set_manager (alter (pushed data) id) st).
  apply stays_loop. intros a s _ _. apply stays_call_listener.
Qed.

Lemma stays_call_exit st cb :
  (∀ id a, cb = CaptureCleanup id a → is_capture (heap st !! a)) →
  wp (call_exit cb) (stays st) never st.
Proof.
  intros Hcap. destruct cb as [id | id a]; simpl.
  - apply stays_seq; [apply wp_modify; by apply steady_same |]. intros s1.
    apply stays_seq; [apply stays_persist |]. intros s2.
    apply stays_seq; [apply stays_broadcastSessions |]. intros s3.
    apply wp_bind, wp_gets. apply stays_send_all.
  - apply wp_modify. apply stays_offData. by apply (Hcap id a).
Qed.

(** A process exits: after the state change nothing but the sockets, the
    session records and capture listeners changes. *)
Lemma stays_exit st id :
  wf st →
  wp (step (PtyExit id))
     (stays (set_manager (alter (λ p, fst (proc_exit p)) id) st)) never st.
Proof.
  intros Hwf. unfold step. apply wp_bind, wp_with_manager.
  unfold natural_exit. rewrite kill_alter.
  change (set_manager (λ _, alter (λ p, (proc_exit p).1) id (manager st)) st)
    with (set_manager (alter (λ p, (proc_exit p).1) id) st).
  apply stays_loop. intros cb s Hcb Hs. apply stays_call_exit.
  intros id' a ->. apply kill_due in Hcb as (p & Hp & Hcb).
  apply (same_kinds_capture _ s a (proj1 Hs)). simpl.
  by apply (wf_cleanup st Hwf id p id').
Qed.

Lemma listens_alter_same st c sid fn id g :
  (∀ p, dataListeners (g p) = dataListeners p) →
  listens st c sid fn → listens (set_manager (alter g id) st) c sid fn.
Proof.
  intros Hg [Hreg Hown]. split; [| done].
  apply registered_alter; [done |]. intros _ p Hfn. by rewrite Hg.
Qed.

End Steady.
(** ** A failing send *)

Section SendFailure.
Implicit Types (st s : Server) (c fn a : nat) (id sid : string).

(** [ws.send] throws; [safeSend] returns normally, the peer has received
    nothing more, and the fault is used up. *)
Lemma safeSend_swallows st c k later data :
  conns st !! c = Some k → readyState (ws k) = 1%nat →
  sendFaults (ws k) = true :: later →
  fst (ws_send c data st) = Throw WsSendError
  ∧ fst (safeSend c data st) = Ok tt
  ∧ ∃ k', conns (snd (safeSend c data st)) !! c = Some k'
          ∧ received (ws k') = received (ws k)
          ∧ sendFaults (ws k') = later
          ∧ attachedSessionId k' = attachedSessionId k
          ∧ dataListener k' = dataListener k.
Proof.
  intros Hk Hopen Hfaults. split_and!.
  - unfold ws_send, socket_send. by rewrite Hk, Hfaults.
  - by rewrite safeSend_eq.
  - rewrite safeSend_eq. simpl. rewrite lookup_alter_eq, Hk. simpl.
    eexists. split; [done |]. unfold after_send, socket_send.
    rewrite Hopen, Hfaults. done.
Qed.

(** C8: in a server started on a store whose ids are not empty, with a
    socket whose next send throws, [ws.send] does throw and [safeSend]
    swallows it; when a session then puts out a chunk the
    handler returns normally, the chunk is in the ring buffer of the
    process, which is still running, every connection registered as a
    listener is registered as before, and every other connection that is
    live on the session has received the chunk. *)
Theorem send_failure_is_contained (tm : bool) (loaded : list session)
    (started : string → bool) (before : list event)
    (sid : string) (data : string) (c : nat) (k : connection)
    (later : list bool) (m : message) :
  stored_ok loaded →
  Forall event_ok before →
  conns (reach tm loaded started before) !! c = Some k →
  readyState (ws k) = 1%nat →
  sendFaults (ws k) = true :: later →
  let st := reach tm loaded started before in
  let st' := snd (step (PtyData sid data) st) in
  fst (ws_send c m st) = Throw WsSendError
  ∧ fst (safeSend c m st) = Ok tt
  ∧ fst (step (PtyData sid data) st) = Ok tt
  ∧ (∀ c' id fn, listens st c' id fn → listens st' c' id fn)
  ∧ (∀ p, manager st !! sid = Some p → alive p = true →
       isAlive sid (manager st') = true
       ∧ getBuffer sid (manager st')
         = fst (pushToBuffer data (buffer p, bufferSize p)))
  ∧ (∀ c' fn', live c' sid fn' st → isAlive sid (manager st) = true →
       stream c' st' = stream c' st ++ [MsgOutput sid data]).
Proof.
  intros Hst Hok Hk Hopen Hfaults st st'.
  pose proof (reach_wf tm loaded started before Hst Hok) as Hwf. fold st in Hwf, Hk.
  destruct (safeSend_swallows st c k later m Hk Hopen Hfaults) as (Hthrow & Hsafe & _).
  split; [done |]. split; [done |].
  pose proof (stays_data st sid data) as Hstays. unfold wp in Hstays.
  set (st1 := set_manager (alter (pushed data) sid) st) in *.
  assert (Hres : fst (step (PtyData sid data) st) = Ok tt ∧ steady st1 st').
  { unfold st'. by destruct (step (PtyData sid data) st) as [[[]|e] s]. }
  destruct Hres as [Hret Hsteady].
  split; [done |]. split_and!.
  - intros c' id fn Hl. apply (steady_listens st1); [done |].
    apply listens_alter_same; [| done]. intros p. apply pushed_listeners.
  - intros p Hp Halive.
    destruct (proj2 Hsteady sid (pushed data p)) as (p' & Hp' & Ha & Hb & _).
    { unfold st1. simpl. by rewrite lookup_alter_eq, Hp. }
    unfold isAlive, getBuffer. rewrite Hp', Ha, Hb.
    unfold pushed. rewrite Halive. simpl. by rewrite Halive.
  - intros c' fn' Hlive Halive.
    pose proof (step_data (Some (c', sid, fn')) (stream c' st) st sid data
                  (conj Hwf (conj Hlive eq_refl))) as Hstep.
    unfold wp in Hstep. fold st' in Hstep. unfold st' in *.
    destruct (step (PtyData sid data) st) as [[[]|e] s]; [| done].
    destruct Hstep as [_ [_ Hs]]. simpl in Hs |- *. rewrite Hs.
    by rewrite bool_decide_true, Halive.
Qed.

Lemma send_failure_is_contained_witness :
  let before := [WsConnection 0 [false; false; true; true];
                 WsMessage 0 (attach_message "s0" 80 24);
                 WsConnection 1 []; WsMessage 1 (attach_message "s0" 80 24)] in
  let st := reach false stored_demo (λ _, true) before in
  let st' := snd (step (PtyData "s0" "x") st) in
  fst (step (PtyData "s0" "x") st) = Ok tt
  ∧ stream 0 st' = [MsgReplayDone "s0"]
  ∧ stream 1 st' = [MsgReplayDone "s0"; MsgOutput "s0" "x"]
  ∧ getBuffer "s0" (manager st') = ["x"].
Proof.
  intros before st st'.
  pose proof (λ k later, send_failure_is_contained false stored_demo (λ _, true)
                before "s0" "x" 0%nat k later (MsgOutput "s0" "x")) as H.
  edestruct H as (_ & _ & Hret & _ & _ & _).
  - repeat constructor; simpl; congruence.
  - repeat constructor; simpl; congruence.
  - vm_compute. reflexivity.
  - reflexivity.
  - reflexivity.
  - split; [exact Hret |]. clear H Hret. vm_compute. repeat split.
Defined.

End SendFailure.
(** ** The exit notification *)

Section ExitNotification.
Implicit Types (st s : Server) (c fn a : nat) (id sid : string)
  (more old : list message).

(** Since [st], the sound connection [c] has received the messages
    [more], and the set of clients is as it was. *)
Definition grown c more st s : Prop :=
  clients s = clients st
  ∧ ∃ k k', conns st !! c = Some k ∧ conns s !! c = Some k' ∧ healthy k'
            ∧ received (ws k') = received (ws k) ++ more.

Lemma grown_start st c : open_and_sound c st → grown c [] st st.
Proof.
  intros (k & Hk & Hh). split; [done |]. exists k, k. by rewrite app_nil_r.
Qed.

Lemma grown_send c c' data more st s :
  grown c more st s →
  grown c (if decide (c' = c) then more ++ [data] else more) st
    (set_conns (alter (after_send data) c') s).
Proof.
  intros [Hcl (k & k' & Hk & Hk' & Hh & Hrecv)]. split; [done |].
  destruct (decide (c' = c)) as [-> | Hne].
  - destruct (after_send_healthy data k' Hh) as [Hh' Hr'].
    exists k, (after_send data k'). simpl. rewrite lookup_alter_eq, Hk'. simpl.
    split_and!; [done | done | done |]. by rewrite Hr', Hrecv, app_assoc.
  - exists k, k'. simpl. by rewrite lookup_alter_ne.
Qed.

Lemma grown_frame c more st s s' :
  grown c more st s → clients s' = clients s → conns s' = conns s →
  grown c more st s'.
Proof. intros [Hcl H] Hc Hconns. split; [congruence |]. by rewrite Hconns. Qed.

(** [more] holds the messages of [old] and, once nobody is left to be
    served, the message [data]. *)
Definition served c (data : message) (old : list message) (rest : list nat)
    st s : Prop :=
  ∃ more, grown c more st s ∧ (∀ m, m ∈ old → m ∈ more)
          ∧ (c ∈ rest ∨ data ∈ more).

Lemma send_all_served c data old st s0 (l : list nat) more0 :
  grown c more0 st s0 → (∀ m, m ∈ old → m ∈ more0) →
  wp (for_of l (λ c', safeSend c' data))
     (λ _ s, ∃ more, grown c more st s ∧ (∀ m, m ∈ old → m ∈ more)
                     ∧ (c ∈ l → data ∈ more))
     never s0.
Proof.
  intros Hg Hold.
  eapply wp_mono;
    [apply (wp_for_of l _ (λ rest s,
       ∃ more, grown c more st s ∧ (∀ m, m ∈ old → m ∈ more)
               ∧ (c ∈ l → c ∈ rest ∨ data ∈ more))) | |].
  - exists more0. split_and!; [done | done | by left].
  - intros c' rest s (more & Hgs & Holds & Hc). apply wp_safeSend.
    eexists. split; [by apply grown_send |].
    destruct (decide (c' = c)) as [-> | Hne].
    + split.
      * intros m Hm. apply elem_of_app. left. by apply Holds.
      * intros _. right. apply elem_of_app. right. left.
    + split; [done |]. intros Hin. destruct (Hc Hin) as [Hr | Hd]; [| by right].
      apply elem_of_cons in Hr as [-> | Hr]; [done | by left].
  - intros ? s (more & Hgs & Holds & Hc). exists more.
    split_and!; [done | done |]. intros Hin.
    destruct (Hc Hin) as [Hr | Hd]; [inversion Hr | done].
  - done.
Qed.

Lemma persist_conns st : conns (snd (persist st)) = conns st
                         ∧ clients (snd (persist st)) = clients st
                         ∧ fst (persist st) = Ok tt.
Proof. unfold persist, mbind, M_bind, gets. simpl. by destruct (testMode st). Qed.

(** A call of an exit callback: the connection stays sound, keeps what it
    has received, and after the handler of [spawnSession] it has received
    the exited message of the session. *)
Lemma call_exit_served c old st s0 cb more0 :
  grown c more0 st s0 → (∀ m, m ∈ old → m ∈ more0) →
  wp (call_exit cb)
     (λ _ s, ∃ more, grown c more st s ∧ (∀ m, m ∈ old → m ∈ more)
                     ∧ ∀ id, cb = ExitHandler id → c ∈ clients st →
                             MsgExited id ∈ more)
     never s0.
Proof.
  intros Hg Hold. destruct cb as [id | id a]; simpl.
  - apply wp_bind, wp_modify, wp_bind.
    set (s1 := set_sessions _ s0).
    assert (Hg1 : grown c more0 st s1) by (by apply (grown_frame c more0 st s0)).
    pose proof (persist_conns s1) as (Hpc & Hpl & Hpr).
    unfold wp at 1. destruct (persist s1) as [[[]|e] s2]; simpl in *; [| done].
    assert (Hg2 : grown c more0 st s2) by (by apply (grown_frame c more0 st s1)).
    apply wp_bind. unfold broadcastSessions. apply wp_bind, wp_gets, wp_bind, wp_gets.
    eapply wp_mono; [by apply (send_all_served c _ old st s2 _ more0) | | done].
    intros ? s3 (more3 & Hg3 & Hold3 & _).
    apply wp_bind, wp_gets.
    eapply wp_mono; [by apply (send_all_served c _ old st s3 _ more3) | | done].
    intros ? s4 (more4 & Hg4 & Hold4 & Hin4). exists more4.
    split_and!; [done | done |]. intros id' [= <-] Hc. apply Hin4.
    by rewrite (proj1 Hg3).
  - apply wp_modify. exists more0. split_and!; [| done | done].
    by apply (grown_frame c more0 st s0).
Qed.

Lemma exit_loop_served c st id (due : list exit_callback) s0 :
  grown c [] st s0 → c ∈ clients st →
  wp (for_of due call_exit)
     (λ _ s, ∃ more, grown c more st s
                     ∧ (ExitHandler id ∈ due → MsgExited id ∈ more))
     never s0.
Proof.
  intros Hg Hc.
  eapply wp_mono;
    [apply (wp_for_of due _ (λ rest s,
       ∃ more, grown c more st s
               ∧ (ExitHandler id ∈ due →
                  ExitHandler id ∈ rest ∨ MsgExited id ∈ more))) | |].
  - exists []. split; [done |]. by left.
  - intros cb rest s (more & Hgs & Hdone).
    eapply wp_mono; [by apply (call_exit_served c more st s cb more) | | done].
    intros ? s' (more' & Hg' & Hold' & Hnew). exists more'. split; [done |].
    intros Hin. destruct (Hdone Hin) as [Hr | Hd]; [| right; by apply Hold'].
    apply elem_of_cons in Hr as [<- | Hr]; [right | by left].
    by apply Hnew.
  - intros ? s (more & Hgs & Hdone). exists more. split; [done |].
    intros Hin. destruct (Hdone Hin) as [Hr | Hd]; [inversion Hr | done].
  - done.
Qed.

End ExitNotification.
(** ** The capture of the resume token *)

Section Capture.
Implicit Types (st s : Server) (c fn a cap : nat) (id sid : string)
  (L : list nat).

(** The session [sid] runs outside test mode; [L] are the listeners of its
    process, and [cap], if among them, is the one capture listener. *)
Record capturing sid cap L s : Prop := {
  cap_mode : testMode s = false;
  cap_closure : heap s !! cap = Some (CaptureListener sid);
  cap_process : ∃ p, manager s !! sid = Some p ∧ alive p = true
                     ∧ dataListeners p = L;
  cap_nodup : NoDup L;
  cap_others : ∀ a, a ∈ L → a ≠ cap → ¬ is_capture (heap s !! a);
}.

(** The effect of the capture callback on the session records. *)
Definition captured sid (token : string) (l : list session) : list session :=
  update_session sid (set_claudeSessionId (Some token)) l.

(** In the course of one output event: [fired] tells whether the capture
    callback has run; the records and the saves are those of [s0] unless
    it has. *)
Definition cap_state sid cap L s0 (token : string) (fired : bool) s : Prop :=
  capturing sid cap (if fired then filter (λ g, g ≠ cap) L else L) s
  ∧ same_kinds s0 s
  ∧ sessions s = (if fired then captured sid token (sessions s0) else sessions s0)
  ∧ persisted s = (if fired then persisted s0 ++ [captured sid token (sessions s0)]
                   else persisted s0).

Lemma capturing_conns sid cap L s g :
  capturing sid cap L s → capturing sid cap L (set_conns g s).
Proof. intros []. by constructor. Qed.

Lemma cap_state_conns sid cap L s0 token fired s g :
  cap_state sid cap L s0 token fired s →
  cap_state sid cap L s0 token fired (set_conns g s).
Proof.
  intros (Hc & Hk & Hs & Hp). split_and!; try done. by apply capturing_conns.
Qed.

Lemma cap_state_send_all sid cap L s0 token fired s (l : list nat) data :
  cap_state sid cap L s0 token fired s →
  wp (for_of l (λ c, safeSend c data)) (λ _, cap_state sid cap L s0 token fired)
     never s.
Proof.
  intros H. apply (wp_for_of_inv l _ (cap_state sid cap L s0 token fired)); [done |].
  intros c s' _ Hs'. apply wp_safeSend. by apply cap_state_conns.
Qed.

(** A listener that is not the capture listener. *)
Lemma cap_state_other sid cap L s0 token fired s a data :
  cap_state sid cap L s0 token fired s →
  ¬ is_capture (heap s !! a) →
  wp (call_listener a data) (λ _, cap_state sid cap L s0 token fired) never s.
Proof.
  intros H Hncap. unfold call_listener. apply wp_bind, wp_gets.
  destruct (heap s !! a) as [[c sid' replaying pd | id]|] eqn:Ha; [| done | done].
  destruct replaying; [| apply wp_safeSend; by apply cap_state_conns].
  apply wp_modify. destruct H as ([Hm Hcl Hp Hnd Ho] & Hk & Hs & Hpers).
  assert (Hkind : ∀ b, kind (<[a := DataListener c sid' true (pd ++ [data])]>
                               (heap s) !! b) = kind (heap s !! b)).
  { intros b. destruct (decide (a = b)) as [<- | Hb].
    - by rewrite lookup_insert_eq, Ha.
    - by rewrite lookup_insert_ne. }
  split_and!; try done.
  - constructor; simpl; try done.
    + rewrite lookup_insert_ne; [done |]. intros ->. congruence.
    + intros b Hb Hbc. rewrite is_capture_kind, Hkind, <- is_capture_kind. auto.
  - intros b. simpl. by rewrite Hkind, Hk.
Qed.

(** The capture listener on a chunk with a token. *)
Lemma cap_state_fire sid cap L s0 token s data :
  cap_state sid cap L s0 token false s →
  uuid_match data = Some token →
  wp (call_listener cap data) (λ _, cap_state sid cap L s0 token true) never s.
Proof.
  intros ([Hm Hcl (p & Hp & Halive & HL) Hnd Ho] & Hk & Hs & Hpers) Htok.
  unfold call_listener. apply wp_bind, wp_gets. rewrite Hcl, Htok.
  apply wp_bind, wp_modify, wp_bind, wp_modify, wp_bind.
  unfold persist. apply wp_bind, wp_gets. simpl. rewrite Hm. simpl.
  apply wp_modify. unfold broadcastSessions. apply wp_bind, wp_gets, wp_bind, wp_gets.
  apply cap_state_send_all. simpl.
  split_and!; simpl.
  - constructor; simpl; try done.
    + exists (proc_removeListener cap p). unfold offData.
      rewrite lookup_alter_eq, Hp. simpl. by rewrite HL.
    + by apply NoDup_filter.
    + intros a [Hne Ha]%list_elem_of_filter _. by apply Ho.
  - done.
  - by rewrite Hs.
  - by rewrite Hpers, Hs.
Qed.

(** The capture listener on a chunk without a token. *)
Lemma cap_state_miss sid cap L s0 token fired s data :
  cap_state sid cap L s0 token fired s →
  uuid_match data = None →
  wp (call_listener cap data) (λ _, cap_state sid cap L s0 token fired) never s.
Proof.
  intros H Hnone. unfold call_listener. apply wp_bind, wp_gets.
  destruct H as ([Hm Hcl Hp Hnd Ho] & Hk & Hs & Hpers). rewrite Hcl, Hnone.
  apply wp_ret. split_and!; try done; by constructor.
Qed.

Lemma filter_ne_id cap L : cap ∉ L → filter (λ g, g ≠ cap) L = L.
Proof.
  intros Hout. induction L as [|a L IH]; [done |].
  apply not_elem_of_cons in Hout as [Hne Hout].
  rewrite filter_cons_True by done. by rewrite IH.
Qed.

(** The loop over the listeners of the process on one chunk. *)
Lemma cap_state_loop sid cap L s0 token data (ls : list nat) :
  NoDup ls →
  (∀ a, a ∈ ls → a ≠ cap → ¬ is_capture (heap s0 !! a)) →
  ∀ fired s,
  cap_state sid cap L s0 token fired s →
  (fired = true → cap ∉ ls) →
  match uuid_match data with Some t => t = token | None => True end →
  wp (for_of ls (λ a, call_listener a data))
     (λ _, cap_state sid cap L s0 token
             (fired || bool_decide (cap ∈ ls ∧ uuid_match data = Some token)))
     never s.
Proof.
  intros Hnd Hothers. induction ls as [|a ls IH]; intros fired s H Hfired Htok.
  - apply wp_ret. rewrite bool_decide_false; [by rewrite orb_false_r |].
    intros [Hin _]. inversion Hin.
  - apply NoDup_cons in Hnd as [Hnotin Hnd]. cbn [for_of]. apply wp_bind.
    assert (Hothers' : ∀ b, b ∈ ls → b ≠ cap → ¬ is_capture (heap s0 !! b)).
    { intros b Hb. apply Hothers. by right. }
    destruct (decide (a = cap)) as [-> | Hne].
    + destruct fired; [destruct (Hfired eq_refl); left |].
      destruct (uuid_match data) as [t|] eqn:Hm.
      * subst t.
        eapply wp_mono; [by apply cap_state_fire | | done].
        intros ? s1 H1. eapply wp_mono; [apply (IH Hnd Hothers' true s1 H1) | | done].
        -- done.
        -- done.
        -- intros ? s2 H2. simpl in H2. rewrite bool_decide_true; [done |].
           split; [left | done].
      * eapply wp_mono; [by apply cap_state_miss | | done].
        intros ? s1 H1. eapply wp_mono; [apply (IH Hnd Hothers' false s1 H1) | | done].
        -- done.
        -- done.
        -- intros ? s2 H2. simpl in H2 |- *.
           rewrite bool_decide_false in H2 by (by intros [_ ?]).
           rewrite bool_decide_false by (by intros [_ ?]). done.
    + eapply wp_mono; [apply (cap_state_other sid cap L s0 token fired s a data H) | | done].
      * destruct H as (_ & Hk & _). rewrite (same_kinds_capture s0 s a Hk).
        apply Hothers; [left | done].
      * intros ? s1 H1. eapply wp_mono; [apply (IH Hnd Hothers' fired s1 H1) | | done].
        -- intros Hf. specialize (Hfired Hf). by apply not_elem_of_cons in Hfired as [_ ?].
        -- done.
        -- intros ? s2 H2.
           assert (Heq : bool_decide (cap ∈ a :: ls ∧ uuid_match data = Some token)
                         = bool_decide (cap ∈ ls ∧ uuid_match data = Some token)).
           { apply bool_decide_ext. rewrite elem_of_cons. split.
             - intros [[Heq | Hin] Hm]; [by destruct Hne | done].
             - intros [Hin Hm]. split; [by right | done]. }
           by rewrite Heq.
Qed.

(** One output event of the session. *)
Lemma capture_step sid cap L st data :
  capturing sid cap L st →
  wp (step (PtyData sid data))
     (λ _ s,
        match uuid_match data with
        | Some token =>
            if decide (cap ∈ L)
            then capturing sid cap (filter (λ g, g ≠ cap) L) s
                 ∧ sessions s = captured sid token (sessions st)
                 ∧ persisted s = persisted st ++ [sessions s]
            else capturing sid cap L s
                 ∧ sessions s = sessions st ∧ persisted s = persisted st
        | None => capturing sid cap L s
                  ∧ sessions s = sessions st ∧ persisted s = persisted st
        end) never st.
Proof.
  intros [Hm Hcl (p & Hp & Halive & HL) Hnd Ho].
  unfold step. apply wp_bind, wp_with_manager.
  rewrite output_alter, output_listeners, Hp, Halive, HL.
  change (set_manager (λ _, alter (pushed data) sid (manager st)) st)
    with (set_manager (alter (pushed data) sid) st).
  set (st1 := set_manager (alter (pushed data) sid) st).
  set (token := default "" (uuid_match data)).
  assert (H1 : cap_state sid cap L st1 token false st1).
  { split_and!; try done. constructor; try done.
    exists (pushed data p). unfold st1. simpl. rewrite lookup_alter_eq, Hp.
    split; [done |]. unfold pushed. rewrite Halive. simpl. by rewrite Halive. }
  eapply wp_mono;
    [apply (cap_state_loop sid cap L st1 token data L Hnd Ho false st1 H1) | | done].
  - done.
  - unfold token. by destruct (uuid_match data).
  - intros ? s (Hc & _ & Hs & Hpers). simpl in *. unfold token in *.
    destruct (uuid_match data) as [t|]; simpl in *.
    + destruct (decide (cap ∈ L)) as [Hin | Hout].
      * rewrite bool_decide_true in * by done. by rewrite Hpers, Hs.
      * rewrite bool_decide_false in * by (by intros [? _]). done.
    + rewrite bool_decide_false in * by (by intros [_ ?]). done.
Qed.

Lemma capture_quiet_run sid cap L (chunks : list string) :
  (cap ∈ L → Forall (λ chunk, uuid_match chunk = None) chunks) →
  ∀ st, capturing sid cap L st →
  fst (run (map (PtyData sid) chunks) st) = Ok tt
  ∧ capturing sid cap L (snd (run (map (PtyData sid) chunks) st))
  ∧ sessions (snd (run (map (PtyData sid) chunks) st)) = sessions st
  ∧ persisted (snd (run (map (PtyData sid) chunks) st)) = persisted st.
Proof.
  induction chunks as [|chunk chunks IH]; intros Hnone st Hcap; [done |].
  pose proof (capture_step sid cap L st chunk Hcap) as Hstep.
  unfold wp in Hstep. cbn [map run]. unfold mbind, M_bind.
  destruct (step (PtyData sid chunk) st) as [[[]|e] s1]; [| done].
  assert (H1 : capturing sid cap L s1 ∧ sessions s1 = sessions st
               ∧ persisted s1 = persisted st).
  { destruct (uuid_match chunk) as [token|] eqn:Hm; [| done].
    destruct (decide (cap ∈ L)) as [Hin | Hout]; [| done].
    specialize (Hnone Hin). apply Forall_cons in Hnone as [Hn _]. congruence. }
  destruct H1 as (Hc1 & Hs1 & Hp1).
  destruct (IH (λ Hin, proj2 (proj1 (Forall_cons _ _ _) (Hnone Hin))) s1 Hc1)
    as (Hr & Hc & Hs & Hp).
  split_and!; [done | done | congruence | congruence].
Qed.

Lemma elem_of_captured sid token (l : list session) (x : session) :
  x ∈ captured sid token l → session_id x = sid →
  claudeSessionId x = Some token.
Proof.
  unfold captured, update_session. intros (x0 & -> & Hx0)%list_elem_of_fmap.
  destruct (String.eqb (session_id x0) sid) eqn:Heq; [done |].
  intros Hid. apply String.eqb_neq in Heq. done.
Qed.

(** C6: a session runs outside test mode with its capture listener
    registered. Output without a token changes neither the session
    records nor what is saved, and the listener stays. The first chunk
    with a token records the leftmost token of that chunk as the resume
    token of the session, saves the records once, and unregisters the
    listener. Whatever the session puts out afterwards, the records and
    the saves stay as they are and the listener stays unregistered. *)
Theorem capture_fires_once sid cap L st (quiet : list string) (chunk token : string)
    (later : list string) :
  capturing sid cap L st → cap ∈ L →
  Forall (λ chunk, uuid_match chunk = None) quiet →
  uuid_match chunk = Some token →
  let st1 := snd (run (map (PtyData sid) quiet) st) in
  let st2 := snd (step (PtyData sid chunk) st1) in
  let st3 := snd (run (map (PtyData sid) later) st2) in
  (sessions st1 = sessions st ∧ persisted st1 = persisted st
   ∧ registered st1 sid cap)
  ∧ (fst (step (PtyData sid chunk) st1) = Ok tt
     ∧ sessions st2 = captured sid token (sessions st)
     ∧ persisted st2 = persisted st ++ [sessions st2]
     ∧ ¬ registered st2 sid cap)
  ∧ (fst (run (map (PtyData sid) later) st2) = Ok tt
     ∧ sessions st3 = sessions st2 ∧ persisted st3 = persisted st2
     ∧ ¬ registered st3 sid cap
     ∧ ∀ x : session, x ∈ sessions st3 → session_id x = sid →
                      claudeSessionId x = Some token).
Proof.
  intros Hcap Hin Hquiet Htok st1 st2 st3.
  destruct (capture_quiet_run sid cap L quiet (λ _, Hquiet) st Hcap)
    as (_ & Hc1 & Hs1 & Hp1). fold st1 in Hc1, Hs1, Hp1.
  pose proof (capture_step sid cap L st1 chunk Hc1) as Hstep.
  unfold wp in Hstep.
  assert (H2 : fst (step (PtyData sid chunk) st1) = Ok tt
               ∧ capturing sid cap (filter (λ g, g ≠ cap) L) st2
               ∧ sessions st2 = captured sid token (sessions st1)
               ∧ persisted st2 = persisted st1 ++ [sessions st2]).
  { unfold st2. destruct (step (PtyData sid chunk) st1) as [[[]|e] s]; [| done].
    simpl in *. rewrite Htok, decide_True in Hstep by done. done. }
  destruct H2 as (Hr2 & Hc2 & Hs2 & Hp2).
  assert (Hgone : ∀ s, capturing sid cap (filter (λ g, g ≠ cap) L) s →
                       ¬ registered s sid cap).
  { intros s [_ _ (p & Hp & _ & HL) _ _] (p' & Hp' & Hcap').
    assert (p' = p) as -> by congruence. rewrite HL in Hcap'.
    by apply list_elem_of_filter in Hcap' as [? _]. }
  destruct (capture_quiet_run sid cap (filter (λ g, g ≠ cap) L) later) with (st := st2)
    as (Hr3 & Hc3 & Hs3 & Hp3); [| done |].
  { intros [? _]%list_elem_of_filter. done. }
  fold st3 in Hc3, Hs3, Hp3.
  split_and!; try done.
  - destruct Hc1 as [_ _ (p & Hp & _ & HL) _ _]. exists p. by rewrite HL.
  - by rewrite Hs2, Hs1.
  - by rewrite Hp2, Hp1.
  - by apply Hgone.
  - by apply Hgone.
  - intros x Hx Hid. rewrite Hs3, Hs2 in Hx.
    exact (elem_of_captured sid token _ x Hx Hid).
Qed.

(** [spawnSession], through POST /api/sessions, sets this situation up. *)
Lemma create_capturing st uuid name cwd now :
  testMode st = false → isAlive uuid (manager st) = false →
  capturing uuid (nextRef st) [nextRef st]
    (snd (step (ApiCreate uuid name cwd now true) st)).
Proof.
  intros Hm Hdead.
  assert (H : wp (step (ApiCreate uuid name cwd now true))
                (λ _, capturing uuid (nextRef st) [nextRef st]) never st).
  { unfold step, api_create. apply wp_bind, wp_modify, wp_bind.
    unfold persist. apply wp_bind, wp_gets. simpl. rewrite Hm. simpl.
    apply wp_modify, wp_bind, wp_try_catch, wp_bind.
    unfold spawnSession. apply wp_bind, wp_gets. simpl. rewrite Hm. simpl.
    apply wp_bind, wp_try_catch.
    unfold wp at 1. unfold manager_spawn, spawn. simpl. rewrite Hdead. simpl.
    apply wp_bind, wp_modify. simpl.
    apply wp_bind, wp_new_closure, wp_bind, wp_modify, wp_modify. simpl.
    apply wp_ret. simpl.
    unfold broadcastSessions. apply wp_bind, wp_gets, wp_bind, wp_gets.
    apply (wp_for_of_inv _ _ (capturing uuid (nextRef st) [nextRef st])).
    - constructor; simpl.
      + done.
      + by rewrite lookup_insert_eq.
      + unfold onExit, onData. eexists.
        rewrite !lookup_alter_eq, lookup_insert_eq. simpl. done.
      + apply NoDup_singleton.
      + intros a ->%list_elem_of_singleton. done.
    - intros c s _ Hs. apply wp_safeSend. by apply capturing_conns. }
  unfold wp in H.
  by destruct (step (ApiCreate uuid name cwd now true) st) as [[[]|e] s].
Qed.

Lemma capture_fires_once_witness :
  let st := snd (step (WsMessage 0 (attach_message "s1" 80 24))
                   (reach false [] (λ _, true)
                      [ApiCreate "s1" "demo" "/tmp" "now" true;
                       WsConnection 0 []])) in
  let chunk := "resume 01234567-89ab-cdef-0123-456789abcdef or 11111111-89ab-cdef-0123-456789abcdef" in
  let st3 := snd (run (map (PtyData "s1")
                         ["22222222-89ab-cdef-0123-456789abcdef"])
                   (snd (step (PtyData "s1" chunk)
                           (snd (run (map (PtyData "s1") ["hello"]) st))))) in
  sessions st3
  = captured "s1" "01234567-89ab-cdef-0123-456789abcdef" (sessions st)
  ∧ persisted st3 = persisted st ++ [sessions st3]
  ∧ ¬ registered st3 "s1" 0.
Proof.
  intros st chunk st3.
  destruct (capture_fires_once "s1" 0%nat [0%nat; 1%nat] st ["hello"] chunk
              "01234567-89ab-cdef-0123-456789abcdef"
              ["22222222-89ab-cdef-0123-456789abcdef"])
    as (_ & (_ & Hs2 & Hp2 & _) & (_ & Hs3 & Hp3 & Hgone & _)).
  - constructor.
    + vm_compute. reflexivity.
    + vm_compute. reflexivity.
    + vm_compute. eexists. split; [reflexivity |]. split; reflexivity.
    + apply NoDup_cons. split; [| apply NoDup_singleton].
      intros Hin. apply list_elem_of_singleton in Hin. discriminate Hin.
    + intros a Ha Hne. apply elem_of_cons in Ha as [-> | Ha].
      * exfalso. apply Hne. reflexivity.
      * apply list_elem_of_singleton in Ha as ->. clear.
        vm_compute. intros [].
  - left.
  - apply Forall_cons. split; [vm_compute; reflexivity | apply Forall_nil_2].
  - vm_compute. reflexivity.
  - split; [exact (eq_trans Hs3 Hs2) |]. split; [| exact Hgone].
    exact (eq_trans Hp3 (eq_trans Hp2 (f_equal (λ l, persisted st ++ [l])
                                          (eq_sym Hs3)))).
Defined.

End Capture.

(** ** store.js: saving and loading *)

Section StoreRoundTrip.
Import Store.
Variable STORE_PATH : string.
Variable sessions_t : Type.
Variable JSON_stringify : sessions_t → string.
Variable JSON_parse : string → option sessions_t.
Variable empty : sessions_t.

(** [JSON.parse] reads back what [JSON.stringify] wrote. *)
Hypothesis parse_stringify : ∀ v, JSON_parse (JSON_stringify v) = Some v.

(** Neither the write nor the rename of a save fails. *)
Definition save_succeeds (env : fs_env) : bool :=
  match write_result env with
  | None => negb (rename_fails env)
  | Some _ => false
  end.

(** A sequence of [saveSessions] calls, each with the behaviour of the
    operating system during the call, the random suffix and the list. *)
Fixpoint save_all (calls : list (fs_env * string * sessions_t)) (d : disk) : disk :=
  match calls with
  | [] => d
  | (env, uuid, v) :: rest =>
      save_all rest (snd (saveSessions STORE_PATH sessions_t JSON_stringify env uuid v d))
  end.

(** The list of the last call that succeeded, [before] when none did. *)
Fixpoint last_saved (calls : list (fs_env * string * sessions_t))
    (before : option sessions_t) : option sessions_t :=
  match calls with
  | [] => before
  | (env, _, v) :: rest =>
      last_saved rest (if save_succeeds env then Some v else before)
  end.

Lemma loadSessions_store_file read_fails d d' :
  files d' !! STORE_PATH = files d !! STORE_PATH →
  loadSessions STORE_PATH sessions_t JSON_parse empty read_fails d'
  = loadSessions STORE_PATH sessions_t JSON_parse empty read_fails d.
Proof. intros H. unfold loadSessions, readFileSync. by rewrite H. Qed.

Lemma saveSessions_store_file env uuid v d :
  files (snd (saveSessions STORE_PATH sessions_t JSON_stringify env uuid v d))
    !! STORE_PATH
  = if save_succeeds env then Some (JSON_stringify v) else files d !! STORE_PATH.
Proof.
  pose proof (tmp_path_neq STORE_PATH uuid) as Hne.
  unfold saveSessions, save_succeeds, writeFileSync, renameSync, unlinkSync.
  destruct (write_result env) as [[|n]|]; simpl.
  - destruct (files d !! tmp_path STORE_PATH uuid); simpl; [| done].
    destruct (unlink_fails env); simpl; [done |]. by rewrite lookup_delete_ne.
  - rewrite lookup_insert_eq. simpl.
    destruct (unlink_fails env); simpl;
      by rewrite ?lookup_delete_ne, ?lookup_insert_ne by done.
  - rewrite lookup_insert_eq. simpl.
    destruct (rename_fails env); simpl.
    + rewrite lookup_insert_eq. simpl.
      destruct (unlink_fails env); simpl;
        by rewrite ?lookup_delete_ne, ?lookup_insert_ne by done.
    + by rewrite lookup_insert_eq.
Qed.

Lemma loadSessions_saved read_fails d v :
  files d !! STORE_PATH = Some (JSON_stringify v) →
  loadSessions STORE_PATH sessions_t JSON_parse empty read_fails d
  = if read_fails then (empty, true) else (v, false).
Proof.
  intros H. unfold loadSessions, readFileSync. rewrite H.
  destruct read_fails; simpl; [done |]. by rewrite parse_stringify.
Qed.

(** X1: after any sequence of saves, each of which may fail at the write,
    at the rename or at the clean-up, a load that can read the store file
    returns the list of the last save that succeeded, without a warning;
    when no save succeeded it returns what it returned before the first
    save. *)
Theorem load_returns_last_saved (calls : list (fs_env * string * sessions_t))
    (d : disk) :
  loadSessions STORE_PATH sessions_t JSON_parse empty false (save_all calls d)
  = match last_saved calls None with
    | Some v => (v, false)
    | None => loadSessions STORE_PATH sessions_t JSON_parse empty false d
    end.
Proof.
  assert (Hgen : ∀ calls d before,
    match before with
    | Some v => files d !! STORE_PATH = Some (JSON_stringify v)
    | None => True
    end →
    loadSessions STORE_PATH sessions_t JSON_parse empty false (save_all calls d)
    = match last_saved calls before with
      | Some v => (v, false)
      | None => loadSessions STORE_PATH sessions_t JSON_parse empty false d
      end).
  { clear calls d. induction calls as [|[[env uuid] v] calls IH]; intros d before Hb.
    - simpl. destruct before as [v|]; [| done]. by rewrite (loadSessions_saved _ _ v).
    - simpl.
      pose proof (saveSessions_store_file env uuid v d) as Hs.
      destruct (save_succeeds env).
      + rewrite (IH _ (Some v)) by done.
        destruct (last_saved calls (Some v)) eqn:Hl; [done |].
        (* a later call cannot forget what was saved *)
        exfalso. clear -Hl. revert Hl. generalize v.
        induction calls as [|[[env' ?] v'] calls IH']; intros v0; simpl; [done |].
        destruct (save_succeeds env'); apply IH'.
      + rewrite (IH _ before).
        * destruct (last_saved calls before); [done |].
          by apply loadSessions_store_file.
        * destruct before; [| done]. by rewrite Hs. }
  by apply Hgen.
Qed.

End StoreRoundTrip.

Lemma load_returns_last_saved_witness :
  Store.loadSessions "sessions.json" string Some "[]" false
    (save_all "sessions.json" string id
       [({| Store.write_result := None; Store.rename_fails := false;
            Store.unlink_fails := false |}, "0f8fad5b", "[1]");
        ({| Store.write_result := Some (Store.WriteFailsAfter 3);
            Store.rename_fails := false; Store.unlink_fails := true |},
         "9a7c1e22", "[1,2]")]
       {| Store.files := ∅; Store.history := [] |})
  = ("[1]", false).
Proof.
  exact (load_returns_last_saved "sessions.json" string id Some "[]"
           (λ _, eq_refl)
           [({| Store.write_result := None; Store.rename_fails := false;
                Store.unlink_fails := false |}, "0f8fad5b", "[1]");
            ({| Store.write_result := Some (Store.WriteFailsAfter 3);
                Store.rename_fails := false; Store.unlink_fails := true |},
             "9a7c1e22", "[1,2]")]
           {| Store.files := ∅; Store.history := [] |}).
Defined.

(** ** server.js: the resume-token pattern *)

Section UuidPattern.
Local Arguments String.append : simpl nomatch.

(** [n] hexadecimal digits. *)
Definition hex_string (n : nat) (h : string) : Prop :=
  String.length h = n ∧ ∀ a, In a (list_ascii_of_string h) → is_hex a = true.

(** 8-4-4-4-12 hexadecimal digits, separated by dashes. *)
Definition uuid_shape (t : string) : Prop :=
  ∃ h1 h2 h3 h4 h5,
    t = h1 +:+ "-" +:+ h2 +:+ "-" +:+ h3 +:+ "-" +:+ h4 +:+ "-" +:+ h5
    ∧ hex_string 8 h1 ∧ hex_string 4 h2 ∧ hex_string 4 h3
    ∧ hex_string 4 h4 ∧ hex_string 12 h5.

Lemma hex_run_spec n s rest :
  hex_run n s = Some rest ↔ ∃ h, s = h +:+ rest ∧ hex_string n h.
Proof.
  revert s. induction n as [|n IH]; intros s; simpl.
  - split.
    + intros [= ->]. exists "". by repeat split.
    + intros (h & -> & Hlen & _). destruct h; [done | discriminate].
  - destruct s as [|a s].
    + split; [done |]. intros (h & Heq & Hlen & _).
      destruct h; simpl in *; discriminate.
    + destruct (is_hex a) eqn:Ha.
      * rewrite IH. split.
        -- intros (h & -> & Hlen & Hhex). exists (String a h).
           split; [done |]. split; [simpl; by rewrite Hlen |].
           intros b [<- | Hb]; [done | by apply Hhex].
        -- intros (h & Heq & Hlen & Hhex). destruct h as [|b h]; [discriminate |].
           simpl in Heq. injection Heq as <- ->. exists h.
           split; [done |]. split; [simpl in Hlen; lia |].
           intros c Hc. apply Hhex. by right.
      * split; [done |]. intros (h & Heq & Hlen & Hhex).
        destruct h as [|b h]; [discriminate |].
        simpl in Heq. injection Heq as <- ->.
        rewrite Hhex in Ha; [done | by left].
Qed.

Lemma dash_hex_run_spec n s rest :
  dash_hex_run n s = Some rest ↔ ∃ h, s = "-" +:+ h +:+ rest ∧ hex_string n h.
Proof.
  unfold dash_hex_run, dash. destruct s as [|a s]; simpl.
  - split; [done |]. by intros (h & ? & _).
  - destruct (Ascii.eqb_spec a "-") as [-> | Hne]; simpl.
    + rewrite hex_run_spec. split.
      * intros (h & -> & Hh). by exists h.
      * intros (h & [= ->] & Hh). by exists h.
    + split; [done |]. intros (h & [= -> _] & _). done.
Qed.

Lemma length_append (s t : string) :
  String.length (s +:+ t) = (String.length s + String.length t)%nat.
Proof. induction s as [|a s IH]; simpl; [done | by rewrite IH]. Qed.

Lemma append_assoc (s t u : string) : (s +:+ t) +:+ u = s +:+ (t +:+ u).
Proof. induction s as [|a s IH]; simpl; [done | by rewrite IH]. Qed.

Lemma uuid_shape_length t : uuid_shape t → String.length t = 36%nat.
Proof.
  intros (h1 & h2 & h3 & h4 & h5 & -> & [L1 _] & [L2 _] & [L3 _] & [L4 _] & [L5 _]).
  rewrite !length_append. simpl. lia.
Qed.

Lemma substring_prefix (t rest : string) :
  String.substring 0 (String.length t) (t +:+ rest) = t.
Proof. induction t as [|a t IH]; simpl; [by destruct rest | by rewrite IH]. Qed.

Lemma uuid_at_spec s :
  uuid_at s = true ↔ ∃ t rest, s = t +:+ rest ∧ uuid_shape t.
Proof.
  unfold uuid_at. split.
  - destruct (hex_run 8 s) as [s1|] eqn:H1; simpl; [| done].
    destruct (dash_hex_run 4 s1) as [s2|] eqn:H2; simpl; [| done].
    destruct (dash_hex_run 4 s2) as [s3|] eqn:H3; simpl; [| done].
    destruct (dash_hex_run 4 s3) as [s4|] eqn:H4; simpl; [| done].
    destruct (dash_hex_run 12 s4) as [s5|] eqn:H5; simpl; [| done].
    intros _.
    apply hex_run_spec in H1 as (h1 & -> & Hh1).
    apply dash_hex_run_spec in H2 as (h2 & -> & Hh2).
    apply dash_hex_run_spec in H3 as (h3 & -> & Hh3).
    apply dash_hex_run_spec in H4 as (h4 & -> & Hh4).
    apply dash_hex_run_spec in H5 as (h5 & -> & Hh5).
    exists (h1 +:+ "-" +:+ h2 +:+ "-" +:+ h3 +:+ "-" +:+ h4 +:+ "-" +:+ h5), s5.
    split.
    + rewrite !append_assoc. simpl. by rewrite ?append_assoc.
    + exists h1, h2, h3, h4, h5. done.
  - intros (t & rest & -> & h1 & h2 & h3 & h4 & h5 & -> & Hh1 & Hh2 & Hh3 & Hh4 & Hh5).
    assert (H1 : hex_run 8 ((h1 +:+ "-" +:+ h2 +:+ "-" +:+ h3 +:+ "-" +:+ h4
                             +:+ "-" +:+ h5) +:+ rest)
                 = Some ("-" +:+ h2 +:+ "-" +:+ h3 +:+ "-" +:+ h4 +:+ "-" +:+ h5
                         +:+ rest)).
    { apply hex_run_spec. exists h1. split; [| done].
      rewrite !append_assoc. simpl. by rewrite ?append_assoc. }
    rewrite H1. cbn [mbind option_bind].
    assert (H2 : ∀ n h tail, hex_string n h →
                 dash_hex_run n ("-" +:+ h +:+ tail) = Some tail).
    { intros n h tail Hh. apply dash_hex_run_spec. by exists h. }
    rewrite (H2 4%nat h2) by done. cbn [mbind option_bind].
    rewrite (H2 4%nat h3) by done. cbn [mbind option_bind].
    rewrite (H2 4%nat h4) by done. cbn [mbind option_bind].
    by rewrite (H2 12%nat h5).
Qed.

(** X2: the token [spawnSession] captures from a chunk is the leftmost
    substring of the chunk that consists of 8, 4, 4, 4 and 12 hexadecimal
    digits (of either case) separated by dashes, 36 characters in all; a
    chunk without such a substring yields no token. *)
Theorem uuid_match_leftmost (data : string) :
  match uuid_match data with
  | Some token =>
      uuid_shape token ∧ String.length token = 36%nat
      ∧ ∃ pre post, data = pre +:+ token +:+ post
          ∧ ∀ pre' t' post', data = pre' +:+ t' +:+ post' → uuid_shape t' →
              (String.length pre ≤ String.length pre')%nat
  | None => ∀ pre t post, data = pre +:+ t +:+ post → ¬ uuid_shape t
  end.
Proof.
  induction data as [|a data IH].
  - simpl. intros pre t post Heq Ht. apply uuid_shape_length in Ht.
    destruct pre; [| discriminate]. destruct t; [| discriminate]. discriminate.
  - cbn [uuid_match]. destruct (uuid_at (String a data)) eqn:Hat.
    + apply uuid_at_spec in Hat as (t & rest & Heq & Ht).
      pose proof (uuid_shape_length t Ht) as Hlen.
      rewrite Heq, <- Hlen, substring_prefix.
      split_and!; [done | done |].
      exists "", rest. split; [done |]. intros; simpl; lia.
    + assert (Hhere : ∀ t post, String a data = t +:+ post → ¬ uuid_shape t).
      { intros t post Heq Ht. rewrite <- not_true_iff_false in Hat. apply Hat.
        apply uuid_at_spec. by exists t, post. }
      destruct (uuid_match data) as [token|].
      * destruct IH as (Ht & Hlen & pre & post & -> & Hleft).
        split_and!; [done | done |].
        exists (String a pre), post. split; [done |].
        intros pre' t' post' Heq Ht'. destruct pre' as [|b pre'].
        -- by destruct (Hhere t' post' Heq).
        -- simpl in Heq. injection Heq as _ Heq. simpl.
           specialize (Hleft pre' t' post' Heq Ht'). lia.
      * intros pre t post Heq Ht. destruct pre as [|b pre].
        -- by destruct (Hhere t post Heq).
        -- simpl in Heq. injection Heq as _ Heq. by apply (IH pre t post).
Qed.

End UuidPattern.

(** ** server.js: records, processes and the store stay in step *)

Section Vital.
Implicit Types (st s : Server) (c fn a : nat) (id : string).

(** What the session list, the store and the REST handlers depend on: of
    a process, whether it runs and its exit callbacks. *)
Definition life (p : PtyProcess) : bool * list exit_callback :=
  (alive p, exitListeners p).

Definition lives st : gmap string (bool * list exit_callback) :=
  life <$> manager st.

Definition vital st :=
  (testMode st, sessions st, persisted st, lives st).

Lemma lives_alter (g : PtyProcess → PtyProcess) id (m : PtyManager) :
  (∀ p, life (g p) = life p) → life <$> alter g id m = life <$> m.
Proof.
  intros Hg. apply map_eq. intros i. rewrite !lookup_fmap.
  destruct (decide (i = id)) as [-> | Hne].
  - rewrite lookup_alter_eq. destruct (m !! id); simpl; [| done]. by rewrite Hg.
  - by rewrite lookup_alter_ne.
Qed.

Lemma lives_lookup (m m' : PtyManager) id p' :
  life <$> m' = life <$> m → m' !! id = Some p' →
  ∃ p, m !! id = Some p ∧ life p = life p'.
Proof.
  intros H Hp'. apply (f_equal (.!! id)) in H. rewrite !lookup_fmap, Hp' in H.
  destruct (m !! id) as [p|]; simpl in H; [| done]. injection H as H1 H2.
  exists p. split; [done |]. unfold life. by rewrite H1, H2.
Qed.

Lemma lives_isAlive (m m' : PtyManager) id :
  life <$> m' = life <$> m → isAlive id m' = isAlive id m.
Proof.
  intros H. apply (f_equal (.!! id)) in H. rewrite !lookup_fmap in H.
  unfold isAlive. destruct (m' !! id) as [p'|], (m !! id) as [p|]; simpl in H;
    try done. by injection H as -> _.
Qed.

Lemma vital_alter st (g : PtyProcess → PtyProcess) id :
  (∀ p, life (g p) = life p) → vital (set_manager (alter g id) st) = vital st.
Proof. intros Hg. unfold vital, lives. simpl. by rewrite lives_alter. Qed.

Lemma life_removeListener a p : life (proc_removeListener a p) = life p.
Proof. done. Qed.

Lemma life_addListener a p : life (proc_addListener a p) = life p.
Proof. unfold life, proc_addListener. by case_bool_decide. Qed.

Lemma life_resize cols rows p : life (proc_resize cols rows p) = life p.
Proof. unfold life, proc_resize. destruct (alive p) eqn:H; simpl; by rewrite ?H. Qed.

Lemma life_write data p : life (proc_write data p) = life p.
Proof. unfold life, proc_write. destruct (alive p) eqn:H; simpl; by rewrite ?H. Qed.

Lemma life_pushed chunk p : life (pushed chunk p) = life p.
Proof. unfold life, pushed. destruct (alive p) eqn:H; simpl; by rewrite ?H. Qed.

Lemma vital_conns st g : vital (set_conns g st) = vital st.
Proof. done. Qed.

Lemma vital_safeSend c data : preserves vital (safeSend c data).
Proof. apply preserves_safeSend. intros. apply vital_conns. Qed.

Lemma vital_send_all {A} (l : list A) (c : A → nat) (data : A → message) :
  preserves vital (for_of l (λ x, safeSend (c x) (data x))).
Proof. apply preserves_for_of. intros x. apply vital_safeSend. Qed.

Lemma vital_broadcastSessions : preserves vital broadcastSessions.
Proof. apply preserves_broadcastSessions. intros. apply vital_conns. Qed.

Lemma vital_offData id a : preserves vital (manager_offData id a).
Proof.
  apply preserves_modify. intros st. apply vital_alter, life_removeListener.
Qed.

Lemma vital_onData id a : preserves vital (manager_onData id a).
Proof.
  apply preserves_modify. intros st. apply vital_alter, life_addListener.
Qed.

Lemma vital_resize id cols rows : preserves vital (manager_resize id cols rows).
Proof. apply preserves_modify. intros st. apply vital_alter, life_resize. Qed.

Lemma vital_write id data : preserves vital (manager_write id data).
Proof. apply preserves_modify. intros st. apply vital_alter, life_write. Qed.

Lemma vital_detach_previous c : preserves vital (detach_previous c).
Proof.
  apply preserves_bind; [done |]. intros attached.
  apply preserves_bind; [done |]. intros listener.
  destruct attached as [previous|], listener as [fn|]; try done.
  apply preserves_when, preserves_bind; [apply vital_offData |]. intros _.
  by apply preserves_modify.
Qed.

Lemma vital_on_attach c msg : preserves vital (on_attach c msg).
Proof.
  apply preserves_bind; [done |]. intros sessionId.
  apply preserves_bind; [done |]. intros cols.
  apply preserves_bind; [done |]. intros rows.
  destruct sessionId as [[| | |sessionId| |]|]; try done.
  apply preserves_bind; [done |]. intros [p|]; [| done].
  apply preserves_bind; [apply vital_detach_previous |]. intros _.
  apply preserves_bind; [by apply preserves_modify |]. intros _.
  apply preserves_bind; [apply preserves_when, vital_resize |]. intros _.
  apply preserves_bind; [done |]. intros fn.
  apply preserves_bind; [by apply preserves_modify |]. intros _.
  apply preserves_bind; [apply vital_onData |]. intros _.
  apply preserves_bind; [done |]. intros buffer.
  apply preserves_bind;
    [apply preserves_for_of; intros chunk; apply vital_safeSend |]. intros _.
  apply preserves_bind; [apply vital_safeSend |]. intros _.
  apply preserves_bind; [by apply preserves_modify |]. intros _.
  apply preserves_bind; [done |]. intros pendingData.
  apply preserves_for_of. intros data. apply vital_safeSend.
Qed.

Lemma vital_on_input c msg : preserves vital (on_input c msg).
Proof.
  apply preserves_bind; [done |]. intros [id|]; [| done].
  apply preserves_when, preserves_bind; [done |]. intros data. apply vital_write.
Qed.

Lemma vital_on_resize c msg : preserves vital (on_resize c msg).
Proof.
  apply preserves_bind; [done |]. intros [id|]; [| done].
  apply preserves_when, preserves_bind; [done |]. intros cols.
  apply preserves_bind; [done |]. intros rows.
  apply preserves_when, vital_resize.
Qed.

Lemma vital_on_message c raw : preserves vital (on_message c raw).
Proof.
  unfold on_message. destruct (JSON_parse raw) as [msg|]; [| done].
  apply preserves_bind; [done |]. intros ty.
  destruct (type_is ty "attach"); [apply vital_on_attach |].
  destruct (type_is ty "input"); [apply vital_on_input |].
  destruct (type_is ty "resize"); [apply vital_on_resize | done].
Qed.

End Vital.

Section Coherence.
Implicit Types (st s : Server) (c fn a : nat) (id : string)
  (used : list string) (b : bool).

(** The ids in [used] are the ones handed out so far. Every process and
    every record carries one of them, no two records share one, the exit
    callbacks of a process are the ones [spawnSession] registered for it,
    a running process has its exit handler, the record of a running
    process says [running], and nothing is saved in test mode. *)
Record sound used st : Prop := {
  sound_procs : ∀ id, is_Some (manager st !! id) → id ∈ used;
  sound_ids : ∀ x, x ∈ sessions st → session_id x ∈ used;
  sound_nodup : NoDup (map session_id (sessions st));
  sound_own : ∀ id p cb, manager st !! id = Some p → cb ∈ exitListeners p →
    cb = ExitHandler id ∨ ∃ a, cb = CaptureCleanup id a;
  sound_exit : ∀ id p, manager st !! id = Some p → alive p = true →
    ExitHandler id ∈ exitListeners p;
  sound_status : ∀ x, x ∈ sessions st →
    isAlive (session_id x) (manager st) = true → status x = running;
  sound_test : testMode st = true → persisted st = [];
}.

(** Outside test mode the last list handed to [saveSessions] is the
    current one. *)
Definition saved st : Prop :=
  testMode st = false → last (persisted st) = Some (sessions st).

Definition coherent b used st : Prop :=
  sound used st ∧ (b = true → saved st).

Lemma sound_same used st s :
  sessions s = sessions st → lives s = lives st →
  testMode s = testMode st → persisted s = persisted st →
  sound used st → sound used s.
Proof.
  intros Hs Hl Htm Hpers [Hprocs Hids Hnodup Hown Hexit Hstatus Htest].
  constructor; rewrite ?Hs, ?Htm, ?Hpers; try done.
  - intros id [p' Hp']. destruct (lives_lookup _ _ id p' Hl Hp') as (p & Hp & _).
    apply Hprocs. eauto.
  - intros id p' cb Hp' Hcb.
    destruct (lives_lookup _ _ id p' Hl Hp') as (p & Hp & [= Ha He]).
    apply (Hown id p); [done |]. by rewrite He.
  - intros id p' Hp' Ha'.
    destruct (lives_lookup _ _ id p' Hl Hp') as (p & Hp & [= Ha He]).
    rewrite <- He. apply Hexit; [done |]. by rewrite Ha.
  - intros x Hx. rewrite (lives_isAlive _ _ _ Hl). by apply Hstatus.
Qed.

Lemma coherent_vital b used st s :
  vital s = vital st → coherent b used st → coherent b used s.
Proof.
  intros [= Htm Hs Hp Hl] [Hsound Hsaved]. split.
  - by apply (sound_same used st).
  - intros Hb. unfold saved. rewrite Htm, Hs, Hp. by apply Hsaved.
Qed.

Lemma sound_weaken used used' st :
  (∀ id, id ∈ used → id ∈ used') → sound used st → sound used' st.
Proof.
  intros Hsub [Hprocs Hids Hnodup Hown Hexit Hstatus Htest].
  constructor; try done; intros; apply Hsub; auto.
Qed.

Lemma map_id_update_session id (f : session → session) l :
  (∀ x, session_id (f x) = session_id x) →
  map session_id (update_session id f l) = map session_id l.
Proof.
  intros Hf. unfold update_session. rewrite map_map. apply map_ext.
  intros x. destruct (String.eqb _ _); [apply Hf | done].
Qed.

Lemma elem_of_update_session_inv id (f : session → session) l x :
  x ∈ update_session id f l →
  ∃ x0, x0 ∈ l ∧ ((x = x0 ∧ session_id x0 ≠ id) ∨ (x = f x0 ∧ session_id x0 = id)).
Proof.
  unfold update_session. intros (x0 & -> & Hx0)%list_elem_of_fmap.
  exists x0. split; [done |].
  destruct (String.eqb_spec (session_id x0) id); auto.
Qed.

Lemma others_update_session id (f : session → session) l :
  (∀ x, session_id (f x) = session_id x) →
  filter (λ x, session_id x ≠ id) (update_session id f l)
  = filter (λ x, session_id x ≠ id) l.
Proof.
  intros Hf. induction l as [|x l IH]; [done |].
  change (update_session id f (x :: l))
    with ((if String.eqb (session_id x) id then f x else x) :: update_session id f l).
  rewrite !filter_cons, IH.
  destruct (String.eqb_spec (session_id x) id) as [Heq | Hne].
  - rewrite !decide_False; [done | by intros H | rewrite Hf; by intros H].
  - by rewrite !decide_True.
Qed.

Lemma sound_update_session used st id (f : session → session) :
  (∀ x, session_id (f x) = session_id x) →
  (∀ x, x ∈ sessions st → session_id x = id →
        isAlive id (manager st) = true → status (f x) = running) →
  sound used st → sound used (set_sessions (update_session id f) st).
Proof.
  intros Hf Hrun [Hprocs Hids Hnodup Hown Hexit Hstatus Htest].
  constructor; simpl; try done.
  - intros x (x0 & Hx0 & [[-> _] | [-> _]])%elem_of_update_session_inv;
      rewrite ?Hf; by apply Hids.
  - by rewrite map_id_update_session.
  - intros x (x0 & Hx0 & [[-> _] | [-> Hid]])%elem_of_update_session_inv.
    + by apply Hstatus.
    + rewrite Hf, Hid. by apply Hrun.
Qed.

Lemma wp_and {A} (m : M A) (Q1 Q2 : A → Server → Prop) E1 E2 st :
  wp m Q1 E1 st → wp m Q2 E2 st →
  wp m (λ x s, Q1 x s ∧ Q2 x s) (λ e s, E1 e s ∧ E2 e s) st.
Proof. unfold wp. by destruct (m st) as [[]]. Qed.

Lemma wp_keeps {A X} (f : Server → X) (m : M A) st :
  preserves f m → wp m (λ _ s, f s = f st) (λ _ s, f s = f st) st.
Proof. intros H. unfold wp. specialize (H st). by destruct (m st) as [[]]. Qed.

(** Sending changes nothing but the sockets, and never throws. *)
Definition but_conns st :=
  (testMode st, manager st, heap st, nextRef st, sessions st, clients st,
   persisted st).

Definition quiet st : unit → Server → Prop := λ _ s, but_conns s = but_conns st.

Lemma quiet_vital st s : but_conns s = but_conns st → vital s = vital st.
Proof. intros [= Htm Hm _ _ Hs _ Hp]. unfold vital, lives. congruence. Qed.

Lemma quiet_manager st s : but_conns s = but_conns st → manager s = manager st.
Proof. by intros [= _ ? _ _ _ _ _]. Qed.

Lemma quiet_safeSend st c data : wp (safeSend c data) (quiet st) never st.
Proof.
  eapply wp_mono;
    [exact (wp_and _ _ _ _ _ _ (stays_safeSend st c data)
              (wp_keeps but_conns _ st (preserves_safeSend but_conns
                                          (λ _ _ _ _, eq_refl) c data)))
    | by intros ? ? [_ ?] | by intros ? ? [[] _]].
Qed.

Lemma quiet_send_all st (l : list nat) data :
  wp (for_of l (λ c, safeSend c data)) (quiet st) never st.
Proof.
  eapply wp_mono;
    [exact (wp_and _ _ _ _ _ _ (stays_send_all st l data)
              (wp_keeps but_conns _ st
                 (preserves_for_of but_conns l _
                    (λ c, preserves_safeSend but_conns (λ _ _ _ _, eq_refl) c data))))
    | by intros ? ? [_ ?] | by intros ? ? [[] _]].
Qed.

Lemma quiet_broadcastSessions st : wp broadcastSessions (quiet st) never st.
Proof.
  eapply wp_mono;
    [exact (wp_and _ _ _ _ _ _ (stays_broadcastSessions st)
              (wp_keeps but_conns _ st
                 (preserves_broadcastSessions but_conns (λ _ _ _ _, eq_refl))))
    | by intros ? ? [_ ?] | by intros ? ? [[] _]].
Qed.

Lemma vital_sessions st s : vital s = vital st → sessions s = sessions st.
Proof. by intros [= _ ? _ _]. Qed.

Lemma vital_lives st s : vital s = vital st → lives s = lives st.
Proof. by intros [= _ _ _ ?]. Qed.

Lemma coh_persist used st :
  sound used st →
  wp persist (λ _ s, coherent true used s ∧ sessions s = sessions st
                     ∧ manager s = manager st) never st.
Proof.
  intros Hs. unfold persist. apply wp_bind, wp_gets.
  destruct (testMode st) eqn:Htm; simpl.
  - apply wp_ret. split_and!; try done. split; [done |]. intros _ Hf. congruence.
  - apply wp_modify. split_and!; try done. split.
    + destruct Hs. constructor; simpl; try done. congruence.
    + intros _ _. simpl. apply last_snoc.
Qed.

(** What an exit callback does to the session list. *)
Definition after_exit (l : list session) (cb : exit_callback) : list session :=
  match cb with
  | ExitHandler id => update_session id (set_session_status exited) l
  | CaptureCleanup _ _ => l
  end.

Definition own_exit id (cb : exit_callback) : Prop :=
  cb = ExitHandler id ∨ ∃ a, cb = CaptureCleanup id a.

Lemma coh_call_exit b used st id cb :
  coherent b used st → isAlive id (manager st) = false → own_exit id cb →
  wp (call_exit cb)
     (λ _ s, coherent b used s ∧ lives s = lives st
             ∧ sessions s = after_exit (sessions st) cb) never st.
Proof.
  intros [Hsound Hsaved] Hdead [-> | [a ->]]; simpl.
  - apply wp_bind, wp_modify. set (st1 := set_sessions _ st).
    assert (H1 : sound used st1).
    { apply sound_update_session; [done | | done]. intros; congruence. }
    apply wp_bind. eapply wp_mono; [by apply coh_persist | | done].
    intros ? s2 (H2 & Hs2 & Hm2). simpl in Hs2, Hm2.
    apply wp_bind. eapply wp_mono; [apply quiet_broadcastSessions | | done].
    intros ? s3 H3. apply wp_bind, wp_gets.
    eapply wp_mono; [apply quiet_send_all | | done].
    intros ? s4 H4. unfold quiet in *.
    assert (H : vital s4 = vital s2) by (apply quiet_vital; congruence).
    split_and!.
    + apply (coherent_vital true used s2) in H as [? ?]; [| done].
      split; [done | auto].
    + rewrite (vital_lives _ _ H). unfold lives. by rewrite Hm2.
    + by rewrite (vital_sessions _ _ H).
  - apply wp_modify. split_and!; [| | done].
    + apply (coherent_vital b used st); [| done]. apply vital_alter, life_removeListener.
    + unfold lives. simpl. unfold offData. apply lives_alter, life_removeListener.
Qed.

Lemma coh_exit_loop b used id (due : list exit_callback) st :
  coherent b used st → isAlive id (manager st) = false → Forall (own_exit id) due →
  wp (for_of due call_exit)
     (λ _ s, coherent b used s ∧ lives s = lives st
             ∧ sessions s = foldl after_exit (sessions st) due) never st.
Proof.
  revert st. induction due as [|cb due IH]; intros st Hcoh Hdead Hown; simpl.
  - by apply wp_ret.
  - apply Forall_cons in Hown as [Hcb Hown].
    apply wp_bind. eapply wp_mono; [by apply (coh_call_exit b used st id) | | done].
    intros ? s1 (H1 & Hl1 & Hs1). simpl.
    eapply wp_mono; [apply IH; [done | | done] | | done].
    + unfold lives in Hl1. by rewrite (lives_isAlive _ _ _ Hl1).
    + intros ? s2 (H2 & Hl2 & Hs2). split_and!; [done | congruence |].
      by rewrite Hs2, Hs1.
Qed.

(** The process of [id] after [kill(id)] or its exit. *)
Definition ended (p : PtyProcess) : PtyProcess := fst (proc_exit p).

Lemma kill_ended id (m : PtyManager) : fst (kill id m) = alter ended id m.
Proof. apply kill_alter. Qed.

Lemma isAlive_ended id (m : PtyManager) : isAlive id (alter ended id m) = false.
Proof.
  unfold isAlive. rewrite lookup_alter_eq. destruct (m !! id) as [p|]; simpl; [| done].
  apply proc_exit_exited.
Qed.

Lemma isAlive_alter_ne id id' g (m : PtyManager) :
  id' ≠ id → isAlive id' (alter g id m) = isAlive id' m.
Proof. intros Hne. unfold isAlive. by rewrite lookup_alter_ne. Qed.

Lemma ended_life p :
  exitListeners (ended p) = exitListeners p
  ∧ (alive (ended p) = true → alive p = true).
Proof.
  unfold ended, proc_exit. destruct (alive p) eqn:Ha; simpl; [done |].
  by rewrite Ha.
Qed.

Lemma sound_ended used st id :
  sound used st → sound used (set_manager (λ _, alter ended id (manager st)) st).
Proof.
  intros [Hprocs Hids Hnodup Hown Hexit Hstatus Htest].
  assert (Hlook : ∀ id' p', alter ended id (manager st) !! id' = Some p' →
    ∃ p, manager st !! id' = Some p ∧ exitListeners p' = exitListeners p
         ∧ (alive p' = true → alive p = true)).
  { intros id' p'. destruct (decide (id' = id)) as [-> | Hne].
    - rewrite lookup_alter_eq. destruct (manager st !! id) as [p|]; simpl; [| done].
      intros [= <-]. exists p. split; [done |]. apply ended_life.
    - rewrite lookup_alter_ne by done. intros Hp'. exists p'. done. }
  constructor; simpl; try done.
  - intros id' [p' Hp']. destruct (Hlook id' p' Hp') as (p & Hp & _).
    apply Hprocs. eauto.
  - intros id' p' cb Hp' Hcb. destruct (Hlook id' p' Hp') as (p & Hp & He & _).
    apply (Hown id' p); [done |]. by rewrite <- He.
  - intros id' p' Hp' Ha'. destruct (Hlook id' p' Hp') as (p & Hp & He & Ha).
    rewrite He. apply Hexit; auto.
  - intros x Hx Hlive. apply Hstatus; [done |].
    unfold isAlive in *.
    destruct (alter ended id (manager st) !! session_id x) as [p'|] eqn:Hp';
      [| done].
    destruct (Hlook _ p' Hp') as (p & -> & _ & Ha). auto.
Qed.

Lemma coh_manager_kill b used st id :
  coherent b used st →
  wp (manager_kill id)
     (λ _ s, coherent b used s
             ∧ lives s = life <$> alter ended id (manager st)
             ∧ sessions s = foldl after_exit (sessions st) (snd (kill id (manager st))))
     never st.
Proof.
  intros [Hsound Hsaved]. unfold manager_kill.
  apply wp_bind, wp_with_manager. rewrite kill_ended.
  set (st1 := set_manager _ st).
  eapply wp_mono; [apply (coh_exit_loop b used id _ st1) | | done].
  - split; [by apply sound_ended | done].
  - apply isAlive_ended.
  - apply Forall_forall. intros cb (p & Hp & Hcb)%kill_due.
    by apply (sound_own used st Hsound id p).
  - intros ? s (H & Hl & Hs). done.
Qed.

Lemma coh_call_listener b used st fn data :
  coherent b used st →
  wp (call_listener fn data) (λ _ s, coherent b used s ∧ lives s = lives st)
     never st.
Proof.
  intros Hcoh. unfold call_listener. apply wp_bind, wp_gets.
  destruct (heap st !! fn) as [[c sid [] pd | id]|] eqn:Hfn.
  - apply wp_modify. split; [| done]. by apply (coherent_vital b used st).
  - eapply wp_mono; [apply quiet_safeSend | | done].
    intros ? s Hs%quiet_vital. split; [by apply (coherent_vital b used st) |].
    by apply vital_lives.
  - destruct (uuid_match data) as [token|]; [| by apply wp_ret].
    destruct Hcoh as [Hsound Hsaved].
    apply wp_bind, wp_modify. set (st1 := set_sessions _ st).
    assert (H1 : sound used st1).
    { apply sound_update_session; [done | | done].
      intros x Hx <- Hlive. simpl. by apply (sound_status used st Hsound x). }
    apply wp_bind, wp_modify. set (st2 := set_manager _ st1).
    assert (H2 : sound used st2).
    { apply (sound_same used st1); [done | | done | done | done].
      unfold lives. simpl. apply lives_alter, life_removeListener. }
    apply wp_bind. eapply wp_mono; [by apply coh_persist | | done].
    intros ? s3 (H3 & Hs3 & Hm3).
    eapply wp_mono; [apply quiet_broadcastSessions | | done].
    intros ? s4 H4%quiet_vital. split.
    + apply (coherent_vital true used s3) in H4 as [? ?]; [| done].
      split; auto.
    + rewrite (vital_lives _ _ H4). unfold lives. rewrite Hm3. simpl.
      apply lives_alter, life_removeListener.
  - by apply wp_ret.
Qed.

Lemma coh_data b used st id data :
  coherent b used st →
  wp (step (PtyData id data)) (λ _ s, coherent b used s ∧ lives s = lives st)
     never st.
Proof.
  intros Hcoh. unfold step. apply wp_bind, wp_with_manager. rewrite output_alter.
  set (st1 := set_manager _ st).
  assert (Hv : vital st1 = vital st) by apply vital_alter, life_pushed.
  eapply wp_mono;
    [apply (wp_for_of_inv _ _ (λ s, coherent b used s ∧ lives s = lives st)) | | done].
  - split; [by apply (coherent_vital b used st) | by apply vital_lives].
  - intros fn s _ [Hs Hl].
    eapply wp_mono; [by apply coh_call_listener | | done].
    intros ? s' [Hs' Hl']. split; [done | congruence].
  - done.
Qed.

(** The options [spawnSession] passes to [manager.spawn]. *)
Definition spawnOpts (tm : bool) (x : session) : spawn_options :=
  if tm then
    {| opt_cwd := session_cwd x; opt_shell := Some "/bin/bash";
       opt_args := ["-c"; "sleep 3600"]; opt_resumeId := None |}
  else
    {| opt_cwd := session_cwd x; opt_shell := None; opt_args := [];
       opt_resumeId := if truthy_string (claudeSessionId x)
                       then claudeSessionId x else None |}.

Lemma lookup_onExit id cb (m : PtyManager) id' :
  onExit id cb m !! id'
  = if decide (id' = id) then proc_onExit cb <$> m !! id else m !! id'.
Proof.
  unfold onExit. destruct (decide (id' = id)) as [-> | Hne].
  - by rewrite lookup_alter_eq.
  - by rewrite lookup_alter_ne.
Qed.

Lemma sound_onExit used st id cb :
  sound used st → own_exit id cb → sound used (set_manager (onExit id cb) st).
Proof.
  intros [Hprocs Hids Hnodup Hown Hexit Hstatus Htest] Hcb.
  assert (Hlook : ∀ id' p', onExit id cb (manager st) !! id' = Some p' →
    ∃ p, manager st !! id' = Some p ∧ alive p' = alive p
         ∧ (∀ x, x ∈ exitListeners p → x ∈ exitListeners p')
         ∧ (∀ x, x ∈ exitListeners p' → x ∈ exitListeners p ∨ (x = cb ∧ id' = id))).
  { intros id' p'. rewrite lookup_onExit. destruct (decide (id' = id)) as [-> | Hne].
    - destruct (manager st !! id) as [p|]; simpl; [| done].
      intros [= <-]. exists p. simpl. split_and!; try done.
      + intros x Hx. apply elem_of_app. by left.
      + intros x [Hx | Hx%list_elem_of_singleton]%elem_of_app; auto.
    - intros Hp'. exists p'. split_and!; auto. }
  constructor; simpl; try done.
  - intros id' [p' Hp']. destruct (Hlook id' p' Hp') as (p & Hp & _).
    apply Hprocs. eauto.
  - intros id' p' x Hp' Hx. destruct (Hlook id' p' Hp') as (p & Hp & _ & _ & He).
    destruct (He x Hx) as [Hx' | [-> ->]]; [by apply (Hown id' p) | done].
  - intros id' p' Hp' Ha'. destruct (Hlook id' p' Hp') as (p & Hp & Ha & He & _).
    apply He, Hexit; [done | congruence].
  - intros x Hx Hlive. apply Hstatus; [done |].
    unfold isAlive in *.
    destruct (onExit id cb (manager st) !! session_id x) as [p'|] eqn:Hp'; [| done].
    destruct (Hlook _ p' Hp') as (p & -> & Ha & _). congruence.
Qed.

Lemma sound_started used st id opts :
  sound used st → id ∈ used →
  (∀ x, x ∈ sessions st → session_id x = id → status x = running) →
  sound used
    (set_manager (onExit id (ExitHandler id))
       (set_manager (λ _, <[id := new_process opts true]> (manager st)) st)).
Proof.
  intros [Hprocs Hids Hnodup Hown Hexit Hstatus Htest] Hid Hrun.
  assert (Hlook : ∀ id' p',
    onExit id (ExitHandler id) (<[id := new_process opts true]> (manager st)) !! id'
      = Some p' →
    (id' = id ∧ exitListeners p' = [ExitHandler id])
    ∨ (id' ≠ id ∧ manager st !! id' = Some p')).
  { intros id' p'. rewrite lookup_onExit. destruct (decide (id' = id)) as [-> | Hne].
    - rewrite lookup_insert_eq. simpl. intros [= <-]. by left.
    - rewrite lookup_insert_ne by done. by right. }
  constructor; simpl; try done.
  - intros id' [p' Hp']. destruct (Hlook id' p' Hp') as [[-> _] | [_ Hp]]; [done |].
    apply Hprocs. eauto.
  - intros id' p' x Hp' Hx. destruct (Hlook id' p' Hp') as [[-> He] | [_ Hp]].
    + rewrite He in Hx. apply list_elem_of_singleton in Hx as ->. by left.
    + by apply (Hown id' p').
  - intros id' p' Hp' Ha'. destruct (Hlook id' p' Hp') as [[-> He] | [_ Hp]].
    + rewrite He. apply list_elem_of_singleton. done.
    + by apply Hexit.
  - intros x Hx Hlive. destruct (decide (session_id x = id)) as [Heq | Hne].
    + by apply Hrun.
    + apply Hstatus; [done |]. unfold isAlive in *.
      by rewrite lookup_onExit, decide_False, lookup_insert_ne in Hlive.
Qed.

Lemma sound_not_started used st id opts :
  sound used st → id ∈ used →
  sound used (set_manager (λ _, <[id := new_process opts false]> (manager st)) st).
Proof.
  intros [Hprocs Hids Hnodup Hown Hexit Hstatus Htest] Hid.
  constructor; simpl; try done.
  - intros id' [p' Hp']. destruct (decide (id' = id)) as [-> | Hne]; [done |].
    rewrite lookup_insert_ne in Hp' by done. apply Hprocs. eauto.
  - intros id' p' x Hp' Hx. destruct (decide (id' = id)) as [-> | Hne].
    + rewrite lookup_insert_eq in Hp'. injection Hp' as <-. inversion Hx.
    + rewrite lookup_insert_ne in Hp' by done. by apply (Hown id' p').
  - intros id' p' Hp' Ha'. destruct (decide (id' = id)) as [-> | Hne].
    + rewrite lookup_insert_eq in Hp'. by injection Hp' as <-.
    + rewrite lookup_insert_ne in Hp' by done. by apply Hexit.
  - intros x Hx Hlive. apply Hstatus; [done |]. unfold isAlive in *.
    destruct (decide (session_id x = id)) as [Heq | Hne].
    + rewrite Heq, lookup_insert_eq in Hlive. done.
    + by rewrite lookup_insert_ne in Hlive.
Qed.

(** [spawnSession] for a session whose process does not run: it returns
    with the process running, or throws with the records of the session
    marked exited and saved. *)
Lemma coh_spawnSession b used st (x : session) started :
  coherent b used st → session_id x ∈ used →
  isAlive (session_id x) (manager st) = false →
  (∀ y, y ∈ sessions st → session_id y = session_id x → status y = running) →
  wp (spawnSession x started)
     (λ _ s, started = true ∧ coherent b used s ∧ sessions s = sessions st
             ∧ (∀ id, id ≠ session_id x → manager s !! id = manager st !! id)
             ∧ ∃ p, manager s !! session_id x = Some p ∧ alive p = true
                    ∧ options p = spawnOpts (testMode st) x ∧ buffer p = [])
     (λ e s, started = false ∧ e = SpawnError ∧ coherent true used s
             ∧ sessions s = update_session (session_id x)
                              (set_session_status exited) (sessions st)
             ∧ (∀ id, id ≠ session_id x → manager s !! id = manager st !! id)
             ∧ isAlive (session_id x) (manager s) = false) st.
Proof.
  intros [Hsound Hsaved] Hid Hdead Hrun. unfold spawnSession.
  apply wp_bind, wp_gets. fold (spawnOpts (testMode st) x).
  set (opts := spawnOpts (testMode st) x).
  apply wp_bind, wp_try_catch. unfold wp at 1. unfold manager_spawn, spawn.
  rewrite Hdead. destruct started.
  - (* the process starts *)
    apply wp_bind, wp_modify. set (st2 := set_manager _ _).
    assert (H2 : sound used st2) by (by apply sound_started).
    assert (Hp2 : manager st2 !! session_id x
                  = Some (proc_onExit (ExitHandler (session_id x))
                            (new_process opts true))).
    { unfold st2. simpl. rewrite lookup_onExit, decide_True by done.
      by rewrite lookup_insert_eq. }
    assert (Ho2 : ∀ id, id ≠ session_id x → manager st2 !! id = manager st !! id).
    { intros id Hne. unfold st2. simpl.
      by rewrite lookup_onExit, decide_False, lookup_insert_ne. }
    apply wp_when; intros Htm.
    + apply wp_bind, wp_new_closure, wp_bind, wp_modify, wp_modify.
      set (cap := nextRef st2). set (st3 := set_nextRef _ _).
      set (st4 := set_manager _ st3).
      assert (H4 : sound used st4).
      { apply (sound_same used st2); [done | | done | done | done].
        unfold lives. simpl. apply lives_alter, life_addListener. }
      split_and!; [done | | done | |].
      * split; [apply sound_onExit; [done | right; eauto] |]. done.
      * intros id Hne. simpl. rewrite lookup_onExit, decide_False by done.
        unfold onData. rewrite lookup_alter_ne by done. by apply Ho2.
      * eexists. split.
        -- simpl. rewrite lookup_onExit, decide_True by done.
           unfold onData. rewrite lookup_alter_eq.
           simpl in Hp2. rewrite Hp2. simpl. reflexivity.
        -- unfold proc_addListener. simpl. done.
    + split_and!; [done | by split | done | done |]. eauto.
  - (* the process does not start *)
    set (st1 := set_manager _ st).
    assert (H1 : sound used st1) by (by apply sound_not_started).
    assert (Hd1 : isAlive (session_id x) (manager st1) = false).
    { unfold isAlive. simpl. by rewrite lookup_insert_eq. }
    apply wp_bind, wp_modify. set (st2 := set_sessions _ st1).
    assert (H2 : sound used st2).
    { apply sound_update_session; [done | | done]. intros; congruence. }
    apply wp_bind. eapply wp_mono; [by apply coh_persist | | done].
    intros ? s3 (H3 & Hs3 & Hm3).
    apply wp_bind. eapply wp_mono; [apply quiet_broadcastSessions | | done].
    intros ? s4 H4. pose proof (quiet_vital _ _ H4) as Hv. apply wp_throw.
    split_and!; [done | done | by apply (coherent_vital true used s3) | | |].
    + by rewrite (vital_sessions _ _ Hv), Hs3.
    + intros id Hne. rewrite (quiet_manager _ _ H4), Hm3. simpl.
      by rewrite lookup_insert_ne.
    + by rewrite (quiet_manager _ _ H4), Hm3.
Qed.


Lemma testMode_persist : preserves testMode persist.
Proof. by apply preserves_persist. Qed.

Lemma testMode_manager_kill id : preserves testMode (manager_kill id).
Proof. by apply (preserves_exit testMode). Qed.

Lemma testMode_broadcastSessions : preserves testMode broadcastSessions.
Proof. by apply preserves_broadcastSessions. Qed.

Lemma testMode_spawnSession x started : preserves testMode (spawnSession x started).
Proof.
  apply preserves_bind; [done |]. intros tm.
  apply preserves_bind.
  - apply preserves_try_catch.
    + intros st. unfold manager_spawn. by destruct (spawn _ _ _ _).
    + intros e. apply preserves_bind; [by apply preserves_modify |]. intros _.
      apply preserves_bind; [apply testMode_persist |]. intros _.
      apply preserves_bind; [apply testMode_broadcastSessions | done].
  - intros _. apply preserves_bind; [by apply preserves_modify |]. intros _.
    apply preserves_when.
    apply preserves_bind; [done |]. intros cap.
    apply preserves_bind; [by apply preserves_modify |]. intros _.
    by apply preserves_modify.
Qed.

Lemma update_session_absent id (f : session → session) l :
  id ∉ map session_id l → update_session id f l = l.
Proof.
  intros Hid. unfold update_session. rewrite <- (map_id l) at 2.
  apply map_ext_in. intros x Hx.
  destruct (String.eqb_spec (session_id x) id) as [Heq | Hne]; [| done].
  destruct Hid. rewrite <- Heq. apply list_elem_of_In. by apply in_map.
Qed.

Lemma update_session_app id (f : session → session) l k :
  update_session id f (l ++ k) = update_session id f l ++ update_session id f k.
Proof. apply map_app. Qed.

Lemma update_session_twice id (v w : session_status) l :
  update_session id (set_session_status v) (update_session id (set_session_status w) l)
  = update_session id (set_session_status v) l.
Proof.
  unfold update_session. rewrite map_map. apply map_ext. intros x.
  destruct (String.eqb (session_id x) id) eqn:Heq; simpl; by rewrite Heq.
Qed.

Lemma update_session_after_exits id v l (due : list exit_callback) :
  Forall (own_exit id) due →
  update_session id (set_session_status v) (foldl after_exit l due)
  = update_session id (set_session_status v) l.
Proof.
  revert l. induction due as [|cb due IH]; intros l Hown; [done |].
  apply Forall_cons in Hown as [Hcb Hown]. simpl. rewrite IH by done.
  destruct Hcb as [-> | [a ->]]; simpl; [apply update_session_twice | done].
Qed.

Lemma others_after_exits id l (due : list exit_callback) :
  Forall (own_exit id) due →
  filter (λ x, session_id x ≠ id) (foldl after_exit l due)
  = filter (λ x, session_id x ≠ id) l.
Proof.
  revert l. induction due as [|cb due IH]; intros l Hown; [done |].
  apply Forall_cons in Hown as [Hcb Hown]. simpl. rewrite IH by done.
  destruct Hcb as [-> | [a ->]]; simpl; [by apply others_update_session | done].
Qed.

Lemma others_absent id l :
  id ∉ map session_id l → filter (λ x, session_id x ≠ id) l = l.
Proof.
  induction l as [|x l IH]; [done |]. simpl.
  intros [Hx Hl]%not_elem_of_cons. rewrite filter_cons, decide_True by done.
  by rewrite IH.
Qed.

Lemma remove_session_others id l :
  NoDup (map session_id l) →
  remove_session id l = filter (λ x, session_id x ≠ id) l.
Proof.
  induction l as [|x l IH]; intros Hnd; [done |].
  simpl in Hnd. apply NoDup_cons in Hnd as [Hx Hnd]. simpl. rewrite filter_cons.
  destruct (String.eqb_spec (session_id x) id) as [Heq | Hne].
  - rewrite decide_False by (by intros H). rewrite others_absent; [done |].
    by rewrite <- Heq.
  - rewrite decide_True by done. by rewrite IH.
Qed.

Lemma sound_append used st (x : session) :
  sound used st → session_id x ∉ used →
  sound (session_id x :: used) (set_sessions (λ l, l ++ [x]) st).
Proof.
  intros [Hprocs Hids Hnodup Hown Hexit Hstatus Htest] Hfresh.
  assert (Hdead : isAlive (session_id x) (manager st) = false).
  { unfold isAlive. destruct (manager st !! session_id x) eqn:Hp; [| done].
    destruct Hfresh. apply Hprocs. eauto. }
  constructor; simpl; try done.
  - intros id Hid. right. auto.
  - intros y [Hy | ->%list_elem_of_singleton]%elem_of_app; [right; auto | left].
  - rewrite map_app. apply NoDup_app. split_and!; [done | | apply NoDup_singleton].
    intros id Hid ->%list_elem_of_singleton. apply Hfresh.
    apply list_elem_of_In, in_map_iff in Hid as (y & <- & Hy).
    apply Hids. by apply list_elem_of_In.
  - intros y [Hy | ->%list_elem_of_singleton]%elem_of_app; [by apply Hstatus |].
    congruence.
Qed.

(** The part of [app.post('/api/sessions')] that follows the validation. *)
Definition create_session (x : session) (started : bool) : M response :=
  modify (set_sessions (λ l, l ++ [x])) ;;
  persist ;;
  failure ← try_spawnSession x started;
  match failure with
  | Some e => json_response 500 (SpawnFailed e)
  | None => broadcastSessions ;; json_response 201 (SessionBody x true)
  end.

Definition created (x : session) (started : bool) st (res : response) s : Prop :=
  if started then
    res = {| res_status := 201; res_body := SessionBody x true |}
    ∧ sessions s = sessions st ++ [x]
    ∧ ∃ p, manager s !! session_id x = Some p ∧ alive p = true
           ∧ options p = spawnOpts (testMode st) x ∧ buffer p = []
  else
    res = {| res_status := 500; res_body := SpawnFailed SpawnError |}
    ∧ sessions s = sessions st ++ [set_session_status exited x]
    ∧ isAlive (session_id x) (manager s) = false.

Lemma coh_create_session b used st (x : session) started :
  coherent b used st → session_id x ∉ used → status x = running →
  wp (create_session x started)
     (λ res s, coherent true (session_id x :: used) s ∧ created x started st res s)
     never st.
Proof.
  intros [Hsound Hsaved] Hfresh Hrun. unfold create_session.
  apply wp_bind, wp_modify. set (st1 := set_sessions _ st).
  assert (H1 : sound (session_id x :: used) st1) by (by apply sound_append).
  apply wp_bind.
  eapply wp_mono;
    [exact (wp_and _ _ _ _ _ _ (coh_persist _ st1 H1)
              (wp_keeps testMode _ st1 testMode_persist)) | | by intros ? ? [[] _]].
  intros ? s2 [(H2 & Hs2 & Hm2) Htm2]. simpl in Hs2, Hm2, Htm2.
  assert (Habsent : session_id x ∉ map session_id (sessions st)).
  { intros Hin. apply Hfresh.
    apply list_elem_of_In, in_map_iff in Hin as (y & <- & Hy).
    apply (sound_ids used st Hsound). by apply list_elem_of_In. }
  assert (Hdead : isAlive (session_id x) (manager s2) = false).
  { rewrite Hm2. unfold isAlive.
    destruct (manager st !! session_id x) eqn:Hp; [| done].
    destruct Hfresh. apply (sound_procs used st Hsound). eauto. }
  unfold try_spawnSession. apply wp_bind, wp_try_catch, wp_bind.
  eapply wp_mono;
    [apply (coh_spawnSession true (session_id x :: used) s2 x started) | |];
    [done | by left | done | | |].
  - rewrite Hs2. intros y [Hy | ->%list_elem_of_singleton]%elem_of_app Hid; [| done].
    destruct Habsent. rewrite <- Hid. apply list_elem_of_In, in_map.
    by apply list_elem_of_In.
  - intros ? s3 (-> & H3 & Hs3 & _ & p & Hp & Ha & Ho & Hb). apply wp_ret. simpl.
    apply wp_bind. eapply wp_mono; [apply quiet_broadcastSessions | | done].
    intros ? s4 H4. apply wp_ret. unfold quiet in H4.
    pose proof (quiet_vital _ _ H4) as Hv.
    split; [by apply (coherent_vital true _ s3) |]. unfold created.
    split_and!; [done | by rewrite (vital_sessions _ _ Hv), Hs3, Hs2 |].
    exists p. rewrite (quiet_manager _ _ H4), <- Htm2. done.
  - intros e s3 (-> & -> & H3 & Hs3 & _ & Hd3). apply wp_ret. simpl. apply wp_ret.
    split; [done |]. unfold created. split_and!; [done | | done].
    rewrite Hs3, Hs2. simpl. rewrite update_session_app.
    rewrite update_session_absent by done. simpl.
    by rewrite String.eqb_refl.
Qed.

End Coherence.

(** ** server.js: which handlers can throw *)

Section Returns.
Implicit Types (st s : Server) (c fn a : nat) (id : string).

(** [m] returns from every state. *)
Definition returns {A} (m : M A) : Prop := ∀ st, ∃ x, fst (m st) = Ok x.

Lemma returns_ret {A} (x : A) : returns (mret x).
Proof. intros st. by exists x. Qed.

Lemma returns_bind {A B} (m : M A) (k : A → M B) :
  returns m → (∀ x, returns (k x)) → returns (m ≫= k).
Proof.
  intros Hm Hk st. unfold mbind, M_bind. destruct (Hm st) as [x Hx].
  destruct (m st) as [[x'|e] s1]; simpl in Hx; [| done]. apply Hk.
Qed.

Lemma returns_gets {A} (f : Server → A) : returns (gets f).
Proof. intros st. by eexists. Qed.

Lemma returns_modify f : returns (modify f).
Proof. intros st. by eexists. Qed.

Lemma returns_when b m : returns m → returns (when b m).
Proof. intros H. destruct b; [done | apply returns_ret]. Qed.

Lemma returns_for_of {A} (l : list A) body :
  (∀ x, returns (body x)) → returns (for_of l body).
Proof.
  intros H. induction l as [|x l IH]; simpl; [apply returns_ret |].
  apply returns_bind; auto.
Qed.

Lemma returns_try_catch {A} (m : M A) h :
  (∀ e, returns (h e)) → returns (try_catch m h).
Proof.
  intros Hh st. unfold try_catch. destruct (m st) as [[x|e] s1]; [by exists x |].
  apply Hh.
Qed.

Lemma returns_with_manager {A} (f : PtyManager → PtyManager * A) :
  returns (with_manager f).
Proof. intros st. unfold with_manager. destruct (f (manager st)). by eexists. Qed.

Lemma returns_new_closure cl : returns (new_closure cl).
Proof. intros st. by eexists. Qed.

Lemma returns_safeSend c data : returns (safeSend c data).
Proof.
  apply returns_bind; [apply returns_gets |]. intros state.
  destruct (state =? 1)%nat; [| apply returns_ret].
  apply returns_try_catch. intros e. apply returns_ret.
Qed.

Lemma returns_broadcastSessions : returns broadcastSessions.
Proof.
  apply returns_bind; [apply returns_gets |]. intros msg.
  apply returns_bind; [apply returns_gets |]. intros cl.
  apply returns_for_of. intros c. apply returns_safeSend.
Qed.

Lemma returns_persist : returns persist.
Proof.
  apply returns_bind; [apply returns_gets |]. intros tm.
  apply returns_when, returns_modify.
Qed.

Lemma returns_call_exit cb : returns (call_exit cb).
Proof.
  destruct cb as [id | id a]; simpl; [| apply returns_modify].
  apply returns_bind; [apply returns_modify |]. intros _.
  apply returns_bind; [apply returns_persist |]. intros _.
  apply returns_bind; [apply returns_broadcastSessions |]. intros _.
  apply returns_bind; [apply returns_gets |]. intros cl.
  apply returns_for_of. intros c. apply returns_safeSend.
Qed.

Lemma returns_call_listener fn data : returns (call_listener fn data).
Proof.
  apply returns_bind; [apply returns_gets |]. intros [[c sid [] pd | id]|].
  - apply returns_modify.
  - apply returns_safeSend.
  - destruct (uuid_match data); [| apply returns_ret].
    apply returns_bind; [apply returns_modify |]. intros _.
    apply returns_bind; [apply returns_modify |]. intros _.
    apply returns_bind; [apply returns_persist |]. intros _.
    apply returns_broadcastSessions.
  - apply returns_ret.
Qed.

Lemma returns_manager_kill id : returns (manager_kill id).
Proof.
  apply returns_bind; [apply returns_with_manager |]. intros due.
  apply returns_for_of, returns_call_exit.
Qed.

Lemma returns_try_spawnSession x started : returns (try_spawnSession x started).
Proof. apply returns_try_catch. intros e. apply returns_ret. Qed.

Lemma returns_detach_previous c : returns (detach_previous c).
Proof.
  apply returns_bind; [apply returns_gets |]. intros attached.
  apply returns_bind; [apply returns_gets |]. intros listener.
  destruct attached as [previous|], listener as [fn|]; try apply returns_ret.
  apply returns_when, returns_bind; [apply returns_modify |]. intros _.
  apply returns_modify.
Qed.

Lemma returns_lift_get_prop members key :
  returns (lift (get_prop (JObj members) key)).
Proof. intros st. by eexists. Qed.

Lemma returns_on_attach c members : returns (on_attach c (JObj members)).
Proof.
  apply returns_bind; [apply returns_lift_get_prop |]. intros sessionId.
  apply returns_bind; [apply returns_lift_get_prop |]. intros cols.
  apply returns_bind; [apply returns_lift_get_prop |]. intros rows.
  destruct sessionId as [[| | |sessionId| |]|]; try apply returns_ret.
  apply returns_bind; [apply returns_gets |]. intros [p|]; [| apply returns_ret].
  apply returns_bind; [apply returns_detach_previous |]. intros _.
  apply returns_bind; [apply returns_modify |]. intros _.
  apply returns_bind; [apply returns_when, returns_modify |]. intros _.
  apply returns_bind; [apply returns_new_closure |]. intros fn.
  apply returns_bind; [apply returns_modify |]. intros _.
  apply returns_bind; [apply returns_modify |]. intros _.
  apply returns_bind; [apply returns_gets |]. intros buffer.
  apply returns_bind;
    [apply returns_for_of; intros chunk; apply returns_safeSend |]. intros _.
  apply returns_bind; [apply returns_safeSend |]. intros _.
  apply returns_bind; [apply returns_modify |]. intros _.
  apply returns_bind; [apply returns_gets |]. intros pendingData.
  apply returns_for_of. intros data. apply returns_safeSend.
Qed.

Lemma returns_on_input c members : returns (on_input c (JObj members)).
Proof.
  apply returns_bind; [apply returns_gets |]. intros [id|]; [| apply returns_ret].
  apply returns_when, returns_bind; [apply returns_lift_get_prop |]. intros data.
  apply returns_modify.
Qed.

Lemma returns_on_resize c members : returns (on_resize c (JObj members)).
Proof.
  apply returns_bind; [apply returns_gets |]. intros [id|]; [| apply returns_ret].
  apply returns_when, returns_bind; [apply returns_lift_get_prop |]. intros cols.
  apply returns_bind; [apply returns_lift_get_prop |]. intros rows.
  apply returns_when, returns_modify.
Qed.

(** The message handler returns on every frame but the text [null]. *)
Lemma returns_on_message c raw : raw ≠ Json JNull → returns (on_message c raw).
Proof.
  intros Hraw. unfold on_message. destruct raw as [|v]; simpl; [apply returns_ret |].
  destruct v as [| | | | |members]; try done;
    try (intros st; by exists tt).
  apply returns_bind; [apply returns_lift_get_prop |]. intros ty.
  destruct (type_is ty "attach"); [apply returns_on_attach |].
  destruct (type_is ty "input"); [apply returns_on_input |].
  destruct (type_is ty "resize"); [apply returns_on_resize | apply returns_ret].
Qed.

Lemma returns_on_close c : returns (on_close c).
Proof.
  apply returns_bind; [apply returns_modify |]. intros _.
  apply returns_bind; [apply returns_gets |]. intros attached.
  apply returns_bind; [apply returns_gets |]. intros listener.
  destruct attached as [id|], listener as [fn|]; try apply returns_ret.
  apply returns_when, returns_modify.
Qed.

Lemma returns_on_connection c faults : returns (on_connection c faults).
Proof.
  apply returns_bind; [apply returns_modify |]. intros _.
  apply returns_bind; [apply returns_modify |]. intros _.
  apply returns_bind; [apply returns_gets |]. intros msg. apply returns_safeSend.
Qed.

Lemma returns_api_create uuid name cwd now started :
  returns (api_create uuid name cwd now started).
Proof.
  apply returns_bind; [apply returns_modify |]. intros _.
  apply returns_bind; [apply returns_persist |]. intros _.
  apply returns_bind;
    [apply returns_try_catch; intros e; apply returns_ret |]. intros spawned.
  apply returns_when, returns_broadcastSessions.
Qed.

Lemma returns_api_restart id started : returns (api_restart id started).
Proof.
  apply returns_bind; [apply returns_gets |]. intros [x|]; [| apply returns_ret].
  apply returns_bind; [apply returns_gets |]. intros live.
  apply returns_bind; [apply returns_when, returns_manager_kill |]. intros _.
  apply returns_bind; [apply returns_modify |]. intros _.
  apply returns_bind; [apply returns_persist |]. intros _.
  apply returns_bind;
    [apply returns_try_catch; intros e; apply returns_ret |]. intros spawned.
  apply returns_when, returns_broadcastSessions.
Qed.

Lemma returns_api_delete id : returns (api_delete id).
Proof.
  apply returns_bind; [apply returns_gets |]. intros [x|]; [| apply returns_ret].
  apply returns_bind; [apply returns_manager_kill |]. intros _.
  apply returns_bind; [apply returns_modify |]. intros _.
  apply returns_bind; [apply returns_persist |]. intros _.
  apply returns_broadcastSessions.
Qed.

(** X3: the handler of an event throws in one case only: a connection the
    server knows sends the text [null], which [JSON.parse] accepts and
    whose [type] cannot be read; the exception is a TypeError and the
    state of the server is as before. *)
Theorem step_throws_on_null_only (ev : event) (st : Server) (e : exn) (s : Server) :
  step ev st = (Throw e, s) ↔
  ∃ c, ev = WsMessage c (Json JNull) ∧ is_Some (conns st !! c)
       ∧ e = TypeError ∧ s = st.
Proof.
  split.
  - intros Hstep.
    assert (Hret : returns (step ev) → False).
    { intros H. destruct (H st) as [x Hx]. by rewrite Hstep in Hx. }
    destruct ev as [c faults | c n | c raw | c | id data | id
                    | uuid name cwd now started | id started | id];
      try (destruct Hret; fail).
    + destruct Hret. apply returns_bind; [apply returns_gets |].
      intros []; [apply returns_ret | apply returns_on_connection].
    + destruct Hret. apply returns_modify.
    + unfold step in Hstep.
      change ((gets (λ st, bool_decide (is_Some (conns st !! c))) ≫= λ known : bool,
               if known then on_message c raw else mret tt) st = (Throw e, s))
        in Hstep.
      unfold mbind, M_bind, gets in Hstep.
      case_bool_decide as Hknown; [| done].
      assert (Hraw : raw = Json JNull ∨ raw ≠ Json JNull).
      { destruct raw as [|[]]; auto. }
      destruct Hraw as [-> | Hraw].
      * exists c. injection Hstep as <- <-. done.
      * destruct (returns_on_message c raw Hraw st) as [x Hx].
        by rewrite Hstep in Hx.
    + destruct Hret. apply returns_bind; [apply returns_modify |]. intros _.
      apply returns_on_close.
    + destruct Hret. apply returns_bind; [apply returns_with_manager |].
      intros ls. apply returns_for_of. intros fn. apply returns_call_listener.
    + destruct Hret. apply returns_manager_kill.
    + destruct Hret. apply returns_api_create.
    + destruct Hret. apply returns_api_restart.
    + destruct Hret. apply returns_api_delete.
  - intros (c & -> & Hknown & -> & ->). unfold step.
    change ((gets (λ st, bool_decide (is_Some (conns st !! c))) ≫= λ known : bool,
             if known then on_message c (Json JNull) else mret tt) st
            = (Throw TypeError, st)).
    unfold mbind, M_bind, gets. by rewrite bool_decide_true.
Qed.

End Returns.

(** ** server.js: the REST handlers *)

Section Rest.
Implicit Types (st s : Server) (c fn a : nat) (id : string)
  (used : list string) (b : bool).

Definition restarted (x : session) (started : bool) st (res : response) s : Prop :=
  if started then
    res = {| res_status := 200;
             res_body := SessionBody (set_session_status running x) true |}
    ∧ sessions s = update_session (session_id x) (set_session_status running)
                     (sessions st)
    ∧ ∃ p, manager s !! session_id x = Some p ∧ alive p = true
           ∧ options p = spawnOpts (testMode st) x ∧ buffer p = []
  else
    res = {| res_status := 500; res_body := SpawnFailed SpawnError |}
    ∧ sessions s = update_session (session_id x) (set_session_status exited)
                     (sessions st)
    ∧ isAlive (session_id x) (manager s) = false.

Definition not_found : response :=
  {| res_status := 404; res_body := ErrorBody "not found" |}.

Lemma coh_kill_if_alive used st id :
  coherent true used st →
  wp (when (isAlive id (manager st)) (manager_kill id))
     (λ _ s, coherent true used s ∧ isAlive id (manager s) = false
             ∧ testMode s = testMode st
             ∧ ∃ due, Forall (own_exit id) due
                      ∧ sessions s = foldl after_exit (sessions st) due)
     never st.
Proof.
  intros Hcoh.
  destruct (isAlive id (manager st)) eqn:Hlive; simpl.
  - eapply wp_mono;
      [exact (wp_and _ _ _ _ _ _ (coh_manager_kill true used st id Hcoh)
                (wp_keeps testMode _ st (testMode_manager_kill id)))
      | | by intros ? ? [[] _]].
    intros ? s [(H & Hl & Hs) Htm]. split_and!; [done | | done |].
    + unfold lives in Hl. rewrite (lives_isAlive _ _ _ Hl). apply isAlive_ended.
    + eexists. split; [| exact Hs].
      apply Forall_forall. intros cb (p & Hp & Hcb)%kill_due.
      by apply (sound_own used st (proj1 Hcoh) id p).
  - apply wp_ret. split_and!; try done. by exists [].
Qed.

Lemma coh_post_restart used st id started :
  coherent true used st →
  wp (post_restart id started)
     (λ res s, coherent true used s
               ∧ match find (λ y, String.eqb (session_id y) id) (sessions st) with
                 | None => res = not_found ∧ s = st
                 | Some x => restarted x started st res s
                 end) never st.
Proof.
  intros Hcoh. unfold post_restart. apply wp_bind, wp_gets.
  destruct (find _ (sessions st)) as [x|] eqn:Hfind; [| by apply wp_ret].
  destruct (find_session _ _ _ Hfind) as [Hx Hid].
  apply wp_bind, wp_gets, wp_bind.
  eapply wp_mono; [by apply (coh_kill_if_alive used st (session_id x)) | | done].
  intros ? s1 (H1 & Hd1 & Htm1 & due & Hdue & Hs1).
  apply wp_bind, wp_modify. set (st2 := set_sessions _ s1).
  assert (H2 : sound used st2).
  { apply sound_update_session; [done | done | apply H1]. }
  apply wp_bind.
  eapply wp_mono;
    [exact (wp_and _ _ _ _ _ _ (coh_persist _ st2 H2)
              (wp_keeps testMode _ st2 testMode_persist)) | | by intros ? ? [[] _]].
  intros ? s3 [(H3 & Hs3 & Hm3) Htm3]. simpl in Hs3, Hm3, Htm3.
  unfold try_spawnSession. apply wp_bind, wp_try_catch, wp_bind.
  eapply wp_mono; [apply (coh_spawnSession true used s3 x started) | |];
    [done | | by rewrite Hm3 | | |].
  - by apply (sound_ids used st (proj1 Hcoh)).
  - rewrite Hs3.
    intros y (y0 & Hy0 & [[-> Hne] | [-> _]])%elem_of_update_session_inv Hy; done.
  - intros ? s4 (-> & H4 & Hs4 & _ & p & Hp & Ha & Ho & Hb). apply wp_ret. simpl.
    apply wp_bind. eapply wp_mono; [apply quiet_broadcastSessions | | done].
    intros ? s5 H5. apply wp_ret. unfold quiet in H5.
    pose proof (quiet_vital _ _ H5) as Hv.
    split; [by apply (coherent_vital true _ s4) |]. unfold restarted.
    split_and!; [done | |].
    + rewrite (vital_sessions _ _ Hv), Hs4, Hs3, Hs1.
      by apply update_session_after_exits.
    + exists p. rewrite (quiet_manager _ _ H5). split_and!; try done. congruence.
  - intros e s4 (-> & -> & H4 & Hs4 & _ & Hd4). apply wp_ret. simpl. apply wp_ret.
    split; [done |]. unfold restarted. split_and!; [done | | done].
    rewrite Hs4, Hs3, update_session_twice, Hs1.
    by apply update_session_after_exits.
Qed.

Lemma NoDup_remove_session id l :
  NoDup (map session_id l) → NoDup (map session_id (remove_session id l)).
Proof.
  induction l as [|x l IH]; [done |]. simpl.
  intros [Hx Hl]%NoDup_cons. destruct (String.eqb (session_id x) id); [done |].
  simpl. apply NoDup_cons. split; [| auto].
  intros Hin. apply Hx.
  apply list_elem_of_In, in_map_iff in Hin as (y & <- & Hy).
  apply list_elem_of_In, in_map, list_elem_of_In. apply list_elem_of_In in Hy.
  by apply (elem_of_remove_session id).
Qed.

Lemma sound_remove_session used st id :
  sound used st → sound used (set_sessions (remove_session id) st).
Proof.
  intros [Hprocs Hids Hnodup Hown Hexit Hstatus Htest].
  constructor; simpl; try done.
  - intros x Hx%elem_of_remove_session. auto.
  - by apply NoDup_remove_session.
  - intros x Hx%elem_of_remove_session. auto.
Qed.

Definition deleted id st (res : response) s : Prop :=
  res = {| res_status := 200; res_body := OkBody |}
  ∧ sessions s = filter (λ y, session_id y ≠ id) (sessions st)
  ∧ isAlive id (manager s) = false.

Lemma coh_delete_session used st id :
  coherent true used st →
  wp (delete_session id)
     (λ res s, coherent true used s
               ∧ match find (λ y, String.eqb (session_id y) id) (sessions st) with
                 | None => res = not_found ∧ s = st
                 | Some _ => deleted id st res s
                 end) never st.
Proof.
  intros Hcoh. unfold delete_session. apply wp_bind, wp_gets.
  destruct (find _ (sessions st)) as [x|] eqn:Hfind; [| by apply wp_ret].
  destruct (find_session _ _ _ Hfind) as [Hx Hid]. rewrite Hid.
  apply wp_bind.
  eapply wp_mono; [by apply (coh_manager_kill true used st id) | | done].
  intros ? s1 (H1 & Hl1 & Hs1).
  assert (Hdue : Forall (own_exit id) (snd (kill id (manager st)))).
  { apply Forall_forall. intros cb (p & Hp & Hcb)%kill_due.
    by apply (sound_own used st (proj1 Hcoh) id p). }
  apply wp_bind, wp_modify. set (st2 := set_sessions _ s1).
  assert (H2 : sound used st2) by (apply sound_remove_session, H1).
  apply wp_bind. eapply wp_mono; [by apply coh_persist | | done].
  intros ? s3 (H3 & Hs3 & Hm3). simpl in Hs3, Hm3.
  apply wp_bind. eapply wp_mono; [apply quiet_broadcastSessions | | done].
  intros ? s4 H4. apply wp_ret. unfold quiet in H4.
  pose proof (quiet_vital _ _ H4) as Hv.
  split; [by apply (coherent_vital true _ s3) |]. unfold deleted.
  split_and!; [done | |].
  - rewrite (vital_sessions _ _ Hv), Hs3.
    rewrite remove_session_others by apply (sound_nodup used s1 (proj1 H1)).
    rewrite Hs1. by apply others_after_exits.
  - rewrite (quiet_manager _ _ H4), Hm3. unfold lives in Hl1.
    rewrite (lives_isAlive _ _ _ Hl1). apply isAlive_ended.
Qed.

End Rest.

(** ** server.js: the runs of the server *)

Section Runs.
Implicit Types (st s : Server) (c fn a : nat) (id : string)
  (used : list string) (b : bool).

Lemma returns_eq {A} (m : M A) st : returns m → ∃ x, m st = (Ok x, snd (m st)).
Proof.
  intros H. destruct (H st) as [x Hx]. exists x.
  destruct (m st); simpl in *; by subst.
Qed.

(** The handlers that serve the events of a run are the REST handlers,
    short of the response. *)
Lemma api_create_eq uuid name cwd now started st :
  api_create uuid name cwd now started st
  = (Ok tt, snd (create_session
                   {| session_id := uuid; session_name := name; session_cwd := cwd;
                      claudeSessionId := None; status := running;
                      createdAt := now |} started st)).
Proof.
  unfold api_create, create_session, try_spawnSession, json_response.
  unfold mbind, M_bind, modify, try_catch, mret, M_ret.
  set (x := {| session_id := uuid |}). set (st1 := set_sessions _ st).
  destruct (returns_eq persist st1 returns_persist) as [[] ->].
  destruct (spawnSession x started (persist st1).2) as [[[]|e] s3]; simpl; [| done].
  by destruct (returns_eq broadcastSessions s3 returns_broadcastSessions) as [[] ->].
Qed.

Lemma bind_gets {A B} (f : Server → A) (k : A → M B) st :
  (gets f ≫= k) st = k (f st) st.
Proof. done. Qed.

Lemma api_restart_eq id started st :
  api_restart id started st = (Ok tt, snd (post_restart id started st)).
Proof.
  unfold api_restart, post_restart, try_spawnSession, json_response.
  rewrite !bind_gets.
  destruct (find _ (sessions st)) as [x|] eqn:Hfind; [| done].
  destruct (find_session _ _ _ Hfind) as [_ ->].
  rewrite !bind_gets.
  unfold mbind, M_bind, modify, try_catch, mret, M_ret.
  set (live := isAlive _ _).
  destruct (returns_eq (when live (manager_kill id)) st
              (returns_when _ _ (returns_manager_kill _))) as [[] ->].
  set (st1 := set_sessions _ _).
  destruct (returns_eq persist st1 returns_persist) as [[] ->].
  destruct (spawnSession x started (persist st1).2) as [[[]|e] s3]; simpl; [| done].
  by destruct (returns_eq broadcastSessions s3 returns_broadcastSessions) as [[] ->].
Qed.

Lemma api_delete_eq id st :
  api_delete id st = (Ok tt, snd (delete_session id st)).
Proof.
  unfold api_delete, delete_session, json_response.
  rewrite !bind_gets.
  destruct (find _ (sessions st)) as [x|] eqn:Hfind; [| done].
  destruct (find_session _ _ _ Hfind) as [_ ->].
  unfold mbind, M_bind, modify, mret, M_ret.
  destruct (returns_eq (manager_kill id) st (returns_manager_kill _))
    as [[] ->].
  set (st1 := set_sessions _ _).
  destruct (returns_eq persist st1 returns_persist) as [[] ->].
  by destruct (returns_eq broadcastSessions (persist st1).2
                 returns_broadcastSessions) as [[] ->].
Qed.

Lemma wp_snd {A} (m : M A) (Q : A → Server → Prop) (P : Server → Prop) st :
  wp m Q never st → (∀ x s, Q x s → P s) → P (snd (m st)).
Proof. unfold wp. destruct (m st) as [[x|e] s]; simpl; [eauto | done]. Qed.

(** [crypto.randomUUID()] hands out an id it has not handed out before. *)
Definition fresh used (ev : event) : Prop :=
  match ev with
  | ApiCreate uuid _ _ _ _ => uuid ∉ used
  | _ => True
  end.

Definition hand_out used (ev : event) : list string :=
  match ev with
  | ApiCreate uuid _ _ _ _ => uuid :: used
  | _ => used
  end.

Fixpoint fresh_ids used (evs : list event) : Prop :=
  match evs with
  | [] => True
  | ev :: rest => fresh used ev ∧ fresh_ids (hand_out used ev) rest
  end.

Lemma vital_step_ws (ev : event) :
  match ev with
  | WsConnection _ _ | WsReadyState _ _ | WsMessage _ _ | WsClose _ => True
  | _ => False
  end →
  preserves vital (step ev).
Proof.
  destruct ev as [c faults | c n | c raw | c | | | | |]; try done; intros _.
  - apply preserves_bind; [done |]. intros []; [done |].
    apply preserves_bind; [by apply preserves_modify |]. intros _.
    apply preserves_bind; [by apply preserves_modify |]. intros _.
    apply preserves_bind; [done |]. intros msg. apply vital_safeSend.
  - apply preserves_bind; [done |]. intros []; [apply vital_on_message | done].
  - apply preserves_bind; [by apply preserves_modify |]. intros _.
    apply preserves_bind; [by apply preserves_modify |]. intros _.
    apply preserves_bind; [done |]. intros attached.
    apply preserves_bind; [done |]. intros listener.
    destruct attached as [id|], listener as [fn|]; try done.
    apply preserves_when, vital_offData.
Qed.

Lemma coh_step used st ev :
  coherent true used st → fresh used ev →
  wp (step ev) (λ _ s, coherent true (hand_out used ev) s)
     (λ _ s, coherent true used s) st.
Proof.
  intros Hcoh Hfresh.
  assert (Hws : preserves vital (step ev) →
                wp (step ev) (λ _ s, coherent true used s)
                   (λ _ s, coherent true used s) st).
  { intros Hv. eapply wp_mono; [apply (wp_keeps vital _ st Hv) | |];
      intros ? s Hs; by apply (coherent_vital true used st). }
  destruct ev as [c faults | c n | c raw | c | id data | id
                  | uuid name cwd now started | id started | id];
    try (by apply Hws, vital_step_ws).
  - eapply wp_mono; [by apply coh_data | by intros ? ? [? _] | done].
  - eapply wp_mono;
      [by apply (coh_manager_kill true used st id) | by intros ? ? [? _] | done].
  - unfold wp, step. rewrite api_create_eq.
    eapply wp_snd; [by apply (coh_create_session true used st) |].
    by intros ? ? [? _].
  - unfold wp, step. rewrite api_restart_eq.
    eapply wp_snd; [by apply (coh_post_restart used st) |].
    by intros ? ? [? _].
  - unfold wp, step. rewrite api_delete_eq.
    eapply wp_snd; [by apply (coh_delete_session used st) |].
    by intros ? ? [? _].
Qed.

Lemma coh_run used evs st :
  coherent true used st → fresh_ids used evs →
  ∃ used', coherent true used' (snd (run evs st)).
Proof.
  revert used st. induction evs as [|ev evs IH]; intros used st Hcoh Hfresh.
  - by exists used.
  - destruct Hfresh as [Hev Hfresh].
    pose proof (coh_step used st ev Hcoh Hev) as Hstep. unfold wp in Hstep.
    simpl. unfold mbind, M_bind.
    destruct (step ev st) as [[[]|e] s1]; simpl.
    + by apply (IH (hand_out used ev)).
    + by exists used.
Qed.

End Runs.

(** ** server.js: the start of the server *)

Section Startup.
Implicit Types (st s : Server) (id : string) (used : list string).

(** A record the resume loop tries to start again. *)
Definition resumable (x : session) : bool :=
  is_running (status x) && truthy_string (claudeSessionId x).

(** The record the resume loop leaves behind. *)
Definition resumed (started : string → bool) (x : session) : session :=
  if resumable x && negb (started (session_id x))
  then set_session_status exited x else x.

Lemma update_session_here id (f : session → session) (l k : list session) x :
  session_id x = id → id ∉ map session_id l → id ∉ map session_id k →
  update_session id f (l ++ x :: k) = l ++ f x :: k.
Proof.
  intros Hx Hl Hk. rewrite update_session_app. simpl.
  rewrite !update_session_absent by done.
  apply String.eqb_eq in Hx. by rewrite Hx.
Qed.

Lemma NoDup_map_middle (l k : list session) x :
  NoDup (map session_id (l ++ x :: k)) →
  (session_id x ∉ map session_id l) ∧ (session_id x ∉ map session_id k).
Proof.
  rewrite map_app. simpl. intros (_ & Hlk & Hk)%NoDup_app.
  apply NoDup_cons in Hk as [Hk _]. split; [| done].
  intros Hin. apply (Hlk _ Hin). left.
Qed.

Lemma map_id_resumed started (l : list session) :
  map session_id (map (resumed started) l) = map session_id l.
Proof.
  rewrite map_map. apply map_ext. intros x. unfold resumed.
  by destruct (_ && _).
Qed.

Record resuming (started : string → bool) (loaded seen rest : list session)
    s : Prop := {
  resuming_split : loaded = seen ++ rest;
  resuming_sound : sound (map session_id loaded) s;
  resuming_mode : testMode s = false;
  resuming_sessions : sessions s = map (resumed started) seen ++ rest;
  resuming_none : ∀ id, id ∉ map session_id seen → manager s !! id = None;
  resuming_alive : ∀ x, x ∈ seen →
    isAlive (session_id x) (manager s) = resumable x && started (session_id x);
}.

Lemma resuming_step started loaded seen x rest s :
  NoDup (map session_id loaded) →
  resuming started loaded seen (x :: rest) s →
  wp (when (is_running (status x) && truthy_string (claudeSessionId x))
        (try_catch (spawnSession x (started (session_id x)))
           (λ _, modify (set_sessions
                           (update_session (session_id x)
                              (set_session_status exited))))))
     (λ _ s', resuming started loaded (seen ++ [x]) rest s') never s.
Proof.
  intros Hnd [Hsplit Hsound Hmode Hsess Hnone Halive].
  assert (Hmid := NoDup_map_middle seen rest x).
  rewrite <- Hsplit in Hmid. destruct (Hmid Hnd) as [Hdone Hrest].
  assert (Hsplit' : loaded = (seen ++ [x]) ++ rest) by (by rewrite <- app_assoc).
  assert (Hnone' : ∀ s', (∀ id, id ≠ session_id x → manager s' !! id = manager s !! id) →
            ∀ id, id ∉ map session_id (seen ++ [x]) → manager s' !! id = None).
  { intros s' Hothers id Hid. rewrite map_app in Hid. simpl in Hid.
    apply not_elem_of_app in Hid as [Hid Hne].
    apply not_elem_of_cons in Hne as [Hne _]. rewrite Hothers by done. auto. }
  assert (Hold : ∀ s', (∀ id, id ≠ session_id x → manager s' !! id = manager s !! id) →
            ∀ y, y ∈ seen →
            isAlive (session_id y) (manager s')
            = resumable y && started (session_id y)).
  { intros s' Hothers y Hy. rewrite <- (Halive y Hy). unfold isAlive.
    rewrite Hothers; [done |]. intros Heq. apply Hdone. rewrite <- Heq.
    apply list_elem_of_In, in_map. by apply list_elem_of_In. }
  fold (resumable x). apply wp_when; intros Hres.
  - assert (Hcoh : coherent false (map session_id loaded) s) by (by split).
    assert (Hin : session_id x ∈ map session_id loaded).
    { rewrite Hsplit, map_app. apply elem_of_app. right. left. }
    assert (Hdeadx : isAlive (session_id x) (manager s) = false).
    { unfold isAlive. by rewrite (Hnone _ Hdone). }
    assert (Hrunning : ∀ y, y ∈ sessions s → session_id y = session_id x →
                            status y = running).
    { rewrite Hsess. intros y [Hy | Hy]%elem_of_app Hid.
      - destruct Hdone. rewrite <- Hid, <- (map_id_resumed started).
        apply list_elem_of_In, in_map. by apply list_elem_of_In.
      - apply elem_of_cons in Hy as [-> | Hy].
        + unfold resumable in Hres. apply andb_true_iff in Hres as [Hres _].
          by destruct (status x).
        + destruct Hrest. rewrite <- Hid.
          apply list_elem_of_In, in_map. by apply list_elem_of_In. }
    apply wp_try_catch.
    eapply wp_mono;
      [exact (wp_and _ _ _ _ _ _
                (coh_spawnSession false (map session_id loaded) s x
                   (started (session_id x)) Hcoh Hin Hdeadx Hrunning)
                (wp_keeps testMode _ s (testMode_spawnSession x _))) | |].
    + intros ? s' [(Hst & [H' _] & Hs' & Hothers & p & Hp & Ha & _) Htm].
      assert (Hrx : resumed started x = x).
      { unfold resumed. by rewrite Hst, andb_false_r. }
      constructor; try done.
      * congruence.
      * rewrite Hs', Hsess, map_app. simpl. rewrite <- app_assoc. simpl.
        by rewrite Hrx.
      * by apply Hnone'.
      * intros y [Hy | ->%list_elem_of_singleton]%elem_of_app; [by apply Hold |].
        unfold isAlive. by rewrite Hp, Ha, Hres, Hst.
    + intros e s' [(Hst & _ & [H' _] & Hs' & Hothers & Hdead) Htm].
      apply wp_modify.
      assert (Hrx : resumed started x = set_session_status exited x).
      { unfold resumed. by rewrite Hst, Hres. }
      assert (Hlist : sessions s' = map (resumed started) (seen ++ [x]) ++ rest).
      { rewrite Hs', Hsess, map_app. simpl. rewrite <- app_assoc. simpl.
        rewrite Hrx.
        apply update_session_here; [done | by rewrite map_id_resumed | done]. }
      constructor; simpl; try done.
      * apply sound_update_session; [done | | done]. intros; congruence.
      * congruence.
      * by rewrite Hs', update_session_twice, <- Hs'.
      * by apply Hnone'.
      * intros y [Hy | ->%list_elem_of_singleton]%elem_of_app; [by apply Hold |].
        by rewrite Hdead, Hst, andb_false_r.
  - assert (Hrx : resumed started x = x) by (unfold resumed; by rewrite Hres).
    constructor; try done.
    + rewrite Hsess, map_app. simpl. rewrite <- app_assoc. simpl.
      by rewrite Hrx.
    + by apply Hnone'.
    + intros y [Hy | ->%list_elem_of_singleton]%elem_of_app; [by apply Halive |].
      rewrite Hres. unfold isAlive. by rewrite (Hnone _ Hdone).
Qed.

Lemma sound_fresh_server tm loaded :
  NoDup (map session_id loaded) →
  sound (map session_id loaded)
    {| testMode := tm; manager := ∅; heap := ∅; nextRef := 0%nat;
       sessions := if tm then [] else loaded;
       clients := []; conns := ∅; persisted := [] |}.
Proof.
  intros Hnd. constructor; simpl; try done.
  - intros id [p Hp]. by rewrite lookup_empty in Hp.
  - intros x Hx. destruct tm; [inversion Hx |].
    apply list_elem_of_In, in_map. by apply list_elem_of_In.
  - destruct tm; [constructor | done].
Qed.

Lemma resuming_all started loaded st :
  NoDup (map session_id loaded) →
  resuming started loaded [] loaded st →
  wp (for_of loaded (λ x,
        when (is_running (status x) && truthy_string (claudeSessionId x))
          (try_catch (spawnSession x (started (session_id x)))
             (λ _, modify (set_sessions
                             (update_session (session_id x)
                                (set_session_status exited)))))))
     (λ _ s, resuming started loaded loaded [] s) never st.
Proof.
  intros Hnd Hst.
  eapply wp_mono;
    [apply (wp_for_of _ _
              (λ rest s, ∃ seen, resuming started loaded seen rest s)) | | done].
  - by exists [].
  - intros x rest s [seen Hs].
    eapply wp_mono; [by apply (resuming_step started loaded seen x rest s) | | done].
    intros ? s' Hs'. by exists (seen ++ [x]).
  - intros ? s [seen Hs]. destruct Hs as [Hsplit Hsound Hmode Hsess Hnone Halive].
    rewrite app_nil_r in Hsplit. subst seen. constructor; try done.
    by rewrite app_nil_r.
Qed.

Lemma createServer_spec (loaded : list session) (started : string → bool) :
  NoDup (map session_id loaded) →
  ∃ s, createServer false loaded started = (Ok tt, s)
       ∧ sessions s = map (resumed started) loaded
       ∧ (∀ x, x ∈ loaded →
            isAlive (session_id x) (manager s)
            = resumable x && started (session_id x))
       ∧ last (persisted s) = Some (sessions s)
       ∧ coherent true (map session_id loaded) s.
Proof.
  intros Hnd. unfold createServer. set (st0 := {| testMode := false |}).
  assert (H0 : resuming started loaded [] loaded st0).
  { constructor; try done; [by apply (sound_fresh_server false) |].
    intros x Hx. inversion Hx. }
  assert (Hwp : wp (resume_sessions started)
            (λ _ s, sessions s = map (resumed started) loaded
                    ∧ (∀ x, x ∈ loaded →
                         isAlive (session_id x) (manager s)
                         = resumable x && started (session_id x))
                    ∧ last (persisted s) = Some (sessions s)
                    ∧ coherent true (map session_id loaded) s) never st0).
  { unfold resume_sessions. apply wp_bind, wp_gets. simpl.
    apply wp_bind, wp_gets, wp_bind.
    eapply wp_mono; [by apply (resuming_all started loaded st0) | | done].
    intros ? s1 [_ Hsound Hmode Hsess Hnone Halive].
    eapply wp_mono;
      [exact (wp_and _ _ _ _ _ _ (coh_persist _ s1 Hsound)
                (wp_keeps testMode _ s1 testMode_persist)) | | by intros ? ? [[] _]].
    intros ? s2 [(H2 & Hs2 & Hm2) Htm2]. split_and!; [| | | done].
    - by rewrite Hs2, Hsess, app_nil_r.
    - intros x Hx. rewrite Hm2. by apply Halive.
    - apply H2; [done | congruence]. }
  unfold wp in Hwp. destruct (resume_sessions started st0) as [[[]|e] s]; [| done].
  by exists s.
Qed.

(** X4: outside test mode [createServer] returns, and it has tried to resume
    exactly the loaded records that say [running] and carry a resume token
    that is not empty: the process of such a record runs, or it could not
    be started and the record is marked exited. Every other record is as it
    was loaded and has no process, also one that says [running] without a
    token. The list is saved at the end. *)
Theorem createServer_resumes (loaded : list session) (started : string → bool) :
  NoDup (map session_id loaded) →
  ∃ s, createServer false loaded started = (Ok tt, s)
       ∧ sessions s = map (resumed started) loaded
       ∧ (∀ x, x ∈ loaded →
            isAlive (session_id x) (manager s)
            = resumable x && started (session_id x))
       ∧ last (persisted s) = Some (sessions s).
Proof.
  intros Hnd.
  destruct (createServer_spec loaded started Hnd) as (s & Hs & H1 & H2 & H3 & _).
  by exists s.
Qed.

Lemma createServer_resumes_witness :
  ∃ s, createServer false
         [{| session_id := "a"; session_name := "one"; session_cwd := "/tmp";
             claudeSessionId := Some "0f8fad5b-d9cb-469f-a165-70867728950e";
             status := running; createdAt := "t" |};
          {| session_id := "b"; session_name := "two"; session_cwd := "/tmp";
             claudeSessionId := None; status := running; createdAt := "t" |}]
         (λ _, false) = (Ok tt, s)
       ∧ sessions s
         = map (resumed (λ _, false))
             [{| session_id := "a"; session_name := "one"; session_cwd := "/tmp";
                 claudeSessionId := Some "0f8fad5b-d9cb-469f-a165-70867728950e";
                 status := running; createdAt := "t" |};
              {| session_id := "b"; session_name := "two"; session_cwd := "/tmp";
                 claudeSessionId := None; status := running; createdAt := "t" |}]
       ∧ (∀ x, x ∈ [{| session_id := "a"; session_name := "one";
                       session_cwd := "/tmp";
                       claudeSessionId := Some "0f8fad5b-d9cb-469f-a165-70867728950e";
                       status := running; createdAt := "t" |};
                    {| session_id := "b"; session_name := "two";
                       session_cwd := "/tmp"; claudeSessionId := None;
                       status := running; createdAt := "t" |}] →
            isAlive (session_id x) (manager s)
            = resumable x && false)
       ∧ last (persisted s) = Some (sessions s).
Proof.
  apply (createServer_resumes _ (λ _, false)). simpl.
  apply NoDup_cons. split; [| apply NoDup_singleton].
  intros H%list_elem_of_singleton. discriminate H.
Defined.

Lemma createServer_test (loaded : list session) (started : string → bool) :
  createServer true loaded started = (Ok tt, initial true).
Proof. done. Qed.

(** The states of the server: [createServer] has returned, and then the
    events of a run have been served, each id that [crypto.randomUUID()]
    returned being a new one. *)
Definition reachable (st : Server) : Prop :=
  ∃ tm loaded started evs,
    NoDup (map session_id loaded)
    ∧ fresh_ids (map session_id loaded) evs
    ∧ st = snd (run evs (snd (createServer tm loaded started))).

Lemma reachable_coherent st : reachable st → ∃ used, coherent true used st.
Proof.
  intros (tm & loaded & started & evs & Hnd & Hfresh & ->).
  apply (coh_run (map session_id loaded)); [| done].
  destruct tm.
  - rewrite createServer_test. split; [| done].
    apply (sound_fresh_server true loaded Hnd).
  - destruct (createServer_spec loaded started Hnd)
      as (s & -> & _ & _ & _ & Hcoh). done.
Qed.

End Startup.

(** ** server.js: what holds in every state of the server *)

Section ReachableStates.
Implicit Types (st s : Server) (id : string) (used : list string).

(** A server in test mode that has accepted one connection and created one
    session, and a server outside test mode that has created one. *)
Definition demo_events : list event :=
  [WsConnection 0 []; ApiCreate "s1" "demo" "/tmp" "2026-01-01T00:00:00.000Z" true].

Definition demo (tm : bool) : Server :=
  snd (run demo_events (snd (createServer tm [] (λ _, true)))).

Lemma demo_reachable tm : reachable (demo tm).
Proof.
  exists tm, [], (λ _, true), demo_events. split_and!.
  - constructor.
  - simpl. split_and!; try done. intros H. inversion H.
  - done.
Qed.

Definition demo_session : session :=
  {| session_id := "s1"; session_name := "demo"; session_cwd := "/tmp";
     claudeSessionId := None; status := running;
     createdAt := "2026-01-01T00:00:00.000Z" |}.

Lemma demo_sessions tm : sessions (demo tm) = [demo_session].
Proof. destruct tm; vm_compute; reflexivity. Qed.

Lemma demo_alive tm : isAlive "s1" (manager (demo tm)) = true.
Proof. destruct tm; vm_compute; reflexivity. Qed.

(** X5: in every state of the server the record of a session whose process
    runs says [running]; a record that says [exited] has no running
    process. *)
Theorem running_process_running_record st (x : session) :
  reachable st → x ∈ sessions st →
  isAlive (session_id x) (manager st) = true → status x = running.
Proof.
  intros [used [Hsound _]]%reachable_coherent Hx Hlive.
  by apply (sound_status used st Hsound).
Qed.

Lemma running_process_running_record_witness :
  status demo_session = running.
Proof.
  apply (running_process_running_record (demo true) demo_session).
  - apply demo_reachable.
  - rewrite demo_sessions. left.
  - apply demo_alive.
Defined.

(** X6: after every handler the store is up to date: outside test mode the
    list passed to the last [saveSessions] call is the current session
    list; in test mode [saveSessions] is never called. *)
Theorem store_follows_sessions st :
  reachable st →
  if testMode st then persisted st = []
  else last (persisted st) = Some (sessions st).
Proof.
  intros [used [Hsound Hsaved]]%reachable_coherent.
  destruct (testMode st) eqn:Htm.
  - by apply (sound_test used st Hsound).
  - by apply Hsaved.
Qed.

Lemma store_follows_sessions_witness :
  if testMode (demo false) then persisted (demo false) = []
  else last (persisted (demo false)) = Some (sessions (demo false)).
Proof. apply (store_follows_sessions (demo false)), demo_reachable. Defined.

Lemma exits_mark_exited id (due : list exit_callback) (l : list session) :
  Forall (own_exit id) due →
  ExitHandler id ∈ due
  ∨ (∀ x, x ∈ l → session_id x = id → status x = exited) →
  ∀ x, x ∈ foldl after_exit l due → session_id x = id → status x = exited.
Proof.
  revert l. induction due as [|cb due IH]; intros l Hown Hl.
  - destruct Hl as [Hl | Hl]; [inversion Hl | done].
  - apply Forall_cons in Hown as [Hcb Hown]. simpl. apply IH; [done |].
    destruct Hcb as [-> | [a ->]]; simpl.
    + right. intros x (x0 & Hx0 & [[-> Hne] | [-> _]])%elem_of_update_session_inv Hid;
        done.
    + destruct Hl as [Hl | Hl]; [| by right].
      apply elem_of_cons in Hl as [Hl | Hl]; [done | by left].
Qed.

Lemma map_id_after_exits (due : list exit_callback) (l : list session) :
  map session_id (foldl after_exit l due) = map session_id l.
Proof.
  revert l. induction due as [|cb due IH]; intros l; [done |]. simpl.
  rewrite IH. destruct cb; simpl; [by apply map_id_update_session | done].
Qed.

(** X7: when the process of a session exits, the handler returns, the
    process no longer runs, every record of the session says [exited],
    the other records are as before, and outside test mode the list is
    saved. *)
Theorem exit_marks_record_exited st id :
  reachable st → isAlive id (manager st) = true →
  ∃ s, step (PtyExit id) st = (Ok tt, s)
       ∧ isAlive id (manager s) = false
       ∧ (∀ x, x ∈ sessions s → session_id x = id → status x = exited)
       ∧ filter (λ x, session_id x ≠ id) (sessions s)
         = filter (λ x, session_id x ≠ id) (sessions st)
       ∧ map session_id (sessions s) = map session_id (sessions st)
       ∧ (testMode s = false → last (persisted s) = Some (sessions s)).
Proof.
  intros [used Hcoh]%reachable_coherent Hlive.
  pose proof (coh_manager_kill true used st id Hcoh) as Hwp.
  change (manager_kill id) with (step (PtyExit id)) in Hwp. unfold wp in Hwp.
  destruct (step (PtyExit id) st) as [[[]|e] s]; [| done].
  destruct Hwp as ([Hsound Hsaved] & Hl & Hs).
  assert (Hdue : Forall (own_exit id) (snd (kill id (manager st)))).
  { apply Forall_forall. intros cb (p & Hp & Hcb)%kill_due.
    by apply (sound_own used st (proj1 Hcoh) id p). }
  exists s. split_and!; [done | | | | | by apply Hsaved].
  - unfold lives in Hl. rewrite (lives_isAlive _ _ _ Hl). apply isAlive_ended.
  - rewrite Hs. apply exits_mark_exited; [done |]. left.
    unfold isAlive in Hlive. unfold kill, proc_exit.
    destruct (manager st !! id) as [p|] eqn:Hp; [| done]. rewrite Hlive. simpl.
    by apply (sound_exit used st (proj1 Hcoh)).
  - rewrite Hs. by apply others_after_exits.
  - rewrite Hs. apply map_id_after_exits.
Qed.

Lemma exit_marks_record_exited_witness :
  ∃ s, step (PtyExit "s1") (demo false) = (Ok tt, s)
       ∧ isAlive "s1" (manager s) = false
       ∧ (∀ x, x ∈ sessions s → session_id x = "s1" → status x = exited)
       ∧ filter (λ x, session_id x ≠ "s1") (sessions s)
         = filter (λ x, session_id x ≠ "s1") (sessions (demo false))
       ∧ map session_id (sessions s) = map session_id (sessions (demo false))
       ∧ (testMode s = false → last (persisted s) = Some (sessions s)).
Proof.
  apply (exit_marks_record_exited (demo false) "s1");
    [apply demo_reachable | apply demo_alive].
Defined.

End ReachableStates.

(** ** server.js: the exit of a session with viewers *)

Section ExitOfAttached.
Implicit Types (st s : Server) (c fn a : nat) (id sid : string).

Lemma reach_reachable tm loaded started evs :
  NoDup (map session_id loaded) → fresh_ids (map session_id loaded) evs →
  reachable (reach tm loaded started evs).
Proof. intros Hnd Hfresh. by exists tm, loaded, started, evs. Qed.

(** The store a server leaves behind is one a server can start on: the
    list of the last save has ids that are not empty and no id twice. *)
Lemma reach_leaves_store tm loaded started evs (l : list session) :
  stored_ok loaded → NoDup (map session_id loaded) →
  Forall event_ok evs → fresh_ids (map session_id loaded) evs →
  last (persisted (reach tm loaded started evs)) = Some l →
  stored_ok l ∧ NoDup (map session_id l).
Proof.
  intros Hst Hnd Hok Hfresh Hlast.
  pose proof (reach_wf tm loaded started evs Hst Hok) as Hwf.
  destruct (reachable_coherent _ (reach_reachable tm loaded started evs Hnd Hfresh))
    as [used [Hsound Hsaved]].
  set (st := reach tm loaded started evs) in *.
  destruct (testMode st) eqn:Htm.
  - by rewrite (sound_test used st Hsound Htm) in Hlast.
  - rewrite (Hsaved eq_refl Htm) in Hlast. injection Hlast as <-. split.
    + apply Forall_forall. intros x Hx. by apply (wf_sessions st Hwf).
    + apply (sound_nodup used st Hsound).
Qed.

(** C7: in a server started on a store whose ids are not empty and
    distinct, when a process exits, the handler returns normally; the
    attached session id and the listener of every connection are
    unchanged, every closure is unchanged, and every connection registered
    as a listener stays registered; and when the process was running,
    every client that is open and sound has received the exited message
    of the session since. *)
Theorem exit_keeps_attachment (tm : bool) (loaded : list session)
    (started : string → bool) (before : list event) (id : string) :
  stored_ok loaded → NoDup (map session_id loaded) →
  Forall event_ok before → fresh_ids (map session_id loaded) before →
  let st := reach tm loaded started before in
  let st' := snd (step (PtyExit id) st) in
  fst (step (PtyExit id) st) = Ok tt
  ∧ (∀ c, attached_of c st' = attached_of c st
          ∧ listener_of c st' = listener_of c st)
  ∧ heap st' = heap st
  ∧ (∀ c sid fn, listens st c sid fn → listens st' c sid fn)
  ∧ (∀ c, isAlive id (manager st) = true →
       c ∈ clients st → open_and_sound c st →
       ∃ more, grown c more st st' ∧ MsgExited id ∈ more).
Proof.
  intros Hst Hnd Hok Hfresh st st'.
  pose proof (reach_wf tm loaded started before Hst Hok) as Hwf. fold st in Hwf.
  destruct (reachable_coherent _
              (reach_reachable tm loaded started before Hnd Hfresh))
    as [used [Hsound _]]. fold st in Hsound.
  pose proof (stays_exit st id Hwf) as Hstays. unfold wp in Hstays.
  set (st1 := set_manager (alter (λ p, fst (proc_exit p)) id) st) in *.
  assert (Hres : fst (step (PtyExit id) st) = Ok tt ∧ steady st1 st').
  { unfold st'. by destruct (step (PtyExit id) st) as [[[]|e] s]. }
  destruct Hres as [Hret Hsteady].
  split; [done |]. split_and!.
  - intros c. split; [apply exit_keeps_attached | apply exit_keeps_listener].
  - apply exit_keeps_heap.
  - intros c sid fn Hl. apply (steady_listens st1); [done |].
    apply listens_alter_same; [| done]. intros p. unfold proc_exit. by destruct (alive p).
  - intros c Hlive Hc Hsound_c. unfold isAlive in Hlive.
    destruct (manager st !! id) as [p|] eqn:Hp; [| done].
    pose proof (sound_exit used st Hsound id p Hp Hlive) as Hcb.
    assert (Hloop : wp (step (PtyExit id))
              (λ _ s, ∃ more, grown c more st s ∧ MsgExited id ∈ more) never st).
    { unfold step. apply wp_bind, wp_with_manager.
      unfold natural_exit. rewrite (kill_running id (manager st) p Hp Hlive). simpl.
      eapply wp_mono; [apply (exit_loop_served c st id) | | done].
      - apply (grown_frame c [] st st); [by apply grown_start | done | done].
      - done.
      - intros ? s (more & Hg & Hin). exists more. split; [done |]. by apply Hin. }
    unfold wp in Hloop. unfold st'.
    by destruct (step (PtyExit id) st) as [[[]|e] s].
Qed.

Lemma exit_keeps_attachment_witness :
  let before := [ApiCreate "s1" "demo" "/tmp" "now" true; WsConnection 0 [];
                 WsMessage 0 (attach_message "s0" 80 24)] in
  let st := reach false stored_demo (λ _, true) before in
  let st' := snd (step (PtyExit "s0") st) in
  attached_of 0 st' = Some "s0" ∧ listener_of 0 st' = Some 2%nat
  ∧ registered st' "s0" 2
  ∧ ∃ more, grown 0 more st st' ∧ MsgExited "s0" ∈ more.
Proof.
  intros before st st'.
  destruct (exit_keeps_attachment false stored_demo (λ _, true) before "s0")
    as (_ & Hvars & _ & Hlistens & Hsent).
  - repeat constructor; simpl; congruence.
  - apply NoDup_cons. split; [| apply NoDup_singleton].
    intros H%list_elem_of_singleton. discriminate H.
  - repeat constructor; simpl; congruence.
  - simpl. split_and!; try done.
    intros [H | [H | H]%elem_of_cons]%elem_of_cons;
      [discriminate H | discriminate H | inversion H].
  - destruct (Hvars 0%nat) as [Ha Hl]. fold st st' in Ha, Hl.
    split; [rewrite Ha; vm_compute; reflexivity |].
    split; [rewrite Hl; vm_compute; reflexivity |].
    split.
    + apply (Hlistens 0%nat "s0" 2%nat). split.
      * vm_compute. eexists. split; [reflexivity |]. repeat constructor.
      * vm_compute. reflexivity.
    + apply (Hsent 0%nat).
      * vm_compute. reflexivity.
      * vm_compute. repeat constructor.
      * vm_compute. eexists. split; [reflexivity |].
        split; [reflexivity | constructor].
Defined.

End ExitOfAttached.

(** ** server.js: the REST handlers, request by request *)

Section RestRequests.
Implicit Types (st s : Server) (id : string) (used : list string) (h : host).

(** The request carries a name of 1 to 100 code units and a path of 1 to
    1024 code units whose canonical form [cwd] is a directory. *)
Definition acceptable h (body : json) (name cwd : string) : Prop :=
  ∃ path,
    get_prop body "name" = Ok (Some (JStr name))
    ∧ get_prop body "cwd" = Ok (Some (JStr path))
    ∧ name ≠ "" ∧ (js_length name ≤ 100)%nat
    ∧ path ≠ "" ∧ (js_length path ≤ 1024)%nat
    ∧ cwd = path_resolve h (expand_home (homedir h) path)
    ∧ statSync h cwd = Some true.

Lemma bind_lift {A B} (x : A) (k : A → M B) st : (lift (Ok x) ≫= k) st = k x st.
Proof. done. Qed.

Lemma truthy_JStr v : truthy v = true → ∀ t, v = Some (JStr t) → t ≠ "".
Proof. intros Hv t -> ->. done. Qed.

Lemma not_string_within_false max v :
  not_string_within max v = false →
  ∃ t, v = Some (JStr t) ∧ (js_length t ≤ max)%nat.
Proof.
  destruct v as [[| | |t| |]|]; try done. unfold not_string_within.
  intros H%Nat.ltb_ge. eauto.
Qed.

(** A string of ASCII characters has as many code units as bytes; an
    accented letter of two bytes and a sign of three count for one, a
    character of four bytes for two. *)
Example js_length_beyond_ascii : js_length "aé€😀" = 5%nat.
Proof. reflexivity. Qed.

Example accented_name_within_limit :
  String.length "ééééééééééééééééééééééééééééééééééééééééééééééééééé" = 102%nat
  ∧ not_string_within MAX_NAME_LENGTH
      (Some (JStr "ééééééééééééééééééééééééééééééééééééééééééééééééééé")) = false.
Proof. split; reflexivity. Qed.

Lemma js_length_ascii (s : string) :
  Forall (λ a, (nat_of_ascii a < 128)%nat) (list_ascii_of_string s) →
  js_length s = String.length s.
Proof.
  induction s as [|a s IH]; [done |]. simpl.
  intros [Ha Hs]%Forall_cons. rewrite (IH Hs). unfold code_units.
  apply Nat.ltb_lt in Ha. by rewrite Ha.
Qed.

(** X8: [POST /api/sessions] answers 400 and leaves the server as it is
    whenever the request is not acceptable: the name or the path is
    missing, empty, not a string or too long, or the canonical path does
    not exist or is not a directory. *)
Theorem post_sessions_rejects h (body : json) (uuid now : string)
    (started : bool) st :
  body ≠ JNull → (∀ name cwd, ¬ acceptable h body name cwd) →
  ∃ error,
    post_sessions h body uuid now started st
    = (Ok {| res_status := 400; res_body := ErrorBody error |}, st).
Proof.
  intros Hbody Hbad.
  assert (Hprops : ∃ name cwd, get_prop body "name" = Ok name
                               ∧ get_prop body "cwd" = Ok cwd).
  { destruct body; try done; by eexists _, _. }
  destruct Hprops as (name & cwd & Hname & Hcwd).
  unfold post_sessions. rewrite Hname, bind_lift, Hcwd, bind_lift.
  destruct (truthy name) eqn:Htn; simpl; [| by eexists].
  destruct (truthy cwd) eqn:Htc; simpl; [| by eexists].
  destruct (not_string_within MAX_NAME_LENGTH name) eqn:Hn; [by eexists |].
  destruct (not_string_within MAX_CWD_LENGTH cwd) eqn:Hc; [by eexists |].
  apply not_string_within_false in Hn as (n & -> & Hn).
  apply not_string_within_false in Hc as (c & -> & Hc).
  destruct (statSync h _) as [[]|] eqn:Hstat; try by eexists.
  destruct (Hbad n (path_resolve h (expand_home (homedir h) c))).
  exists c. split_and!; try done.
  - by apply (truthy_JStr _ Htn).
  - by apply (truthy_JStr _ Htc).
Qed.

Lemma post_sessions_rejects_witness :
  ∃ error,
    post_sessions {| homedir := "/home/me"; path_resolve := id;
                     statSync := λ _, Some true |}
      (JObj [("name", JStr "demo"); ("cwd", JNum 7)]) "s1" "now" true (initial true)
    = (Ok {| res_status := 400; res_body := ErrorBody error |}, initial true).
Proof.
  apply post_sessions_rejects; [done |].
  intros name cwd (path & _ & Hcwd & _). discriminate Hcwd.
Defined.

Lemma post_sessions_accepts h body uuid now started st name cwd :
  acceptable h body name cwd →
  post_sessions h body uuid now started st
  = create_session {| session_id := uuid; session_name := name;
                      session_cwd := cwd; claudeSessionId := None;
                      status := running; createdAt := now |} started st.
Proof.
  intros (path & Hname & Hpath & Hn & Hnl & Hp & Hpl & -> & Hstat).
  unfold post_sessions. rewrite Hname, bind_lift, Hpath, bind_lift. simpl.
  apply String.eqb_neq in Hn as ->. apply String.eqb_neq in Hp as ->. simpl.
  apply Nat.ltb_ge in Hnl. apply Nat.ltb_ge in Hpl.
  unfold MAX_NAME_LENGTH, MAX_CWD_LENGTH. rewrite Hnl, Hpl, Hstat. done.
Qed.

Lemma sound_shrink used used' st :
  sound used st →
  (∀ id, is_Some (manager st !! id) → id ∈ used') →
  (∀ x, x ∈ sessions st → session_id x ∈ used') →
  sound used' st.
Proof. intros [Hprocs Hids Hnodup Hown Hexit Hstatus Htest] ? ?. by constructor. Qed.

(** X9: in a state of the server, [POST /api/sessions] with an acceptable
    request and an id no record and no process carries appends one record
    with that id, the name, the canonical path, no resume token and the
    creation time. When the process starts the answer is 201 with the
    record and [alive: true], the record says [running] and its process
    runs in the canonical path with an empty replay buffer; when it does
    not start the answer is 500, and the record stays in the list, marked
    exited. Outside test mode the list is saved. *)
Theorem post_sessions_creates h (body : json) (uuid now name cwd : string)
    (started : bool) st :
  reachable st → acceptable h body name cwd →
  (∀ x, x ∈ sessions st → session_id x ≠ uuid) → manager st !! uuid = None →
  let x := {| session_id := uuid; session_name := name; session_cwd := cwd;
              claudeSessionId := None; status := running; createdAt := now |} in
  ∃ res s,
    post_sessions h body uuid now started st = (Ok res, s)
    ∧ (if started then
         res = {| res_status := 201; res_body := SessionBody x true |}
         ∧ sessions s = sessions st ++ [x]
         ∧ ∃ p, manager s !! uuid = Some p ∧ alive p = true
                ∧ opt_cwd (options p) = cwd ∧ buffer p = []
       else
         res = {| res_status := 500; res_body := SpawnFailed SpawnError |}
         ∧ sessions s = sessions st ++ [set_session_status exited x]
         ∧ isAlive uuid (manager s) = false)
    ∧ (testMode s = false → last (persisted s) = Some (sessions s)).
Proof.
  intros [used [Hsound Hsaved]]%reachable_coherent Hok Hrecords Hprocess x.
  rewrite (post_sessions_accepts _ _ _ _ _ _ name cwd Hok). fold x.
  set (used' := filter (λ i, i ≠ uuid) used).
  assert (Hcoh : coherent true used' st).
  { split; [| done]. apply (sound_shrink used); [done | |].
    - intros i Hi. apply list_elem_of_filter. split.
      + intros ->. rewrite Hprocess in Hi. by destruct Hi.
      + by apply (sound_procs used st Hsound).
    - intros y Hy. apply list_elem_of_filter. split.
      + by apply Hrecords.
      + by apply (sound_ids used st Hsound). }
  assert (Hfresh : session_id x ∉ used').
  { intros [Hne _]%list_elem_of_filter. done. }
  pose proof (coh_create_session true used' st x started Hcoh Hfresh eq_refl) as Hwp.
  unfold wp in Hwp. destruct (create_session x started st) as [[res|e] s]; [| done].
  destruct Hwp as [[_ Hsaved'] Hcreated]. exists res, s.
  split_and!; [done | | by apply Hsaved'].
  unfold created in Hcreated. destruct started; [| done].
  destruct Hcreated as (-> & Hs & p & Hp & Ha & Ho & Hb).
  split_and!; [done | done |]. exists p. split_and!; try done.
  rewrite Ho. unfold spawnOpts. by destruct (testMode st).
Qed.

Lemma post_sessions_creates_witness :
  ∃ res s,
    post_sessions {| homedir := "/home/me"; path_resolve := id;
                     statSync := λ _, Some true |}
      (JObj [("name", JStr "two"); ("cwd", JStr "~/work")]) "s2" "now" false
      (demo false) = (Ok res, s)
    ∧ (res = {| res_status := 500; res_body := SpawnFailed SpawnError |}
       ∧ sessions s
         = sessions (demo false)
           ++ [set_session_status exited
                 {| session_id := "s2"; session_name := "two";
                    session_cwd := "/home/me/work"; claudeSessionId := None;
                    status := running; createdAt := "now" |}]
       ∧ isAlive "s2" (manager s) = false)
    ∧ (testMode s = false → last (persisted s) = Some (sessions s)).
Proof.
  apply (post_sessions_creates
           {| homedir := "/home/me"; path_resolve := id;
              statSync := λ _, Some true |}
           (JObj [("name", JStr "two"); ("cwd", JStr "~/work")])
           "s2" "now" "two" "/home/me/work" false (demo false)).
  - apply demo_reachable.
  - exists "~/work". split_and!; try done; simpl; lia.
  - rewrite demo_sessions. intros x ->%list_elem_of_singleton. done.
  - vm_compute. reflexivity.
Defined.

Lemma find_absent id (l : list session) :
  (∀ x, x ∈ l → session_id x ≠ id) →
  find (λ y, String.eqb (session_id y) id) l = None.
Proof.
  intros Hl. induction l as [|y l IH]; [done |]. simpl.
  destruct (String.eqb_spec (session_id y) id) as [Heq | Hne].
  - destruct (Hl y); [left | done].
  - apply IH. intros x Hx. apply Hl. by right.
Qed.

Lemma find_unique (l : list session) (x : session) :
  NoDup (map session_id l) → x ∈ l →
  find (λ y, String.eqb (session_id y) (session_id x)) l = Some x.
Proof.
  induction l as [|y l IH]; intros Hnd Hx; [inversion Hx |].
  simpl in Hnd. apply NoDup_cons in Hnd as [Hy Hnd]. simpl.
  apply elem_of_cons in Hx as [-> | Hx]; [by rewrite String.eqb_refl |].
  destruct (String.eqb_spec (session_id y) (session_id x)) as [Heq | Hne]; [| auto].
  destruct Hy. rewrite Heq. apply list_elem_of_In, in_map. by apply list_elem_of_In.
Qed.

(** X10: in a state of the server, [POST /api/sessions/:id/restart] answers
    404 and changes nothing when no record has the id. Otherwise the
    process of the session is killed if it runs and started anew: when it
    starts, the answer is 200 with the record and [alive: true], the
    record says [running], and the new process runs in the directory of
    the record with an empty replay buffer and, outside test mode, with
    the resume token of the record if it has one; when it does not start,
    the answer is 500 and the record says [exited]. No other record
    changes, and outside test mode the list is saved. *)
Theorem post_restart_restarts st id (started : bool) :
  reachable st →
  ((∀ x, x ∈ sessions st → session_id x ≠ id) →
     post_restart id started st
     = (Ok {| res_status := 404; res_body := ErrorBody "not found" |}, st))
  ∧ ∀ x, x ∈ sessions st → session_id x = id →
      ∃ res s,
        post_restart id started st = (Ok res, s)
        ∧ (if started then
             res = {| res_status := 200;
                      res_body := SessionBody (set_session_status running x) true |}
             ∧ sessions s
               = update_session id (set_session_status running) (sessions st)
             ∧ ∃ p, manager s !! id = Some p ∧ alive p = true ∧ buffer p = []
                    ∧ opt_cwd (options p) = session_cwd x
                    ∧ (testMode st = false →
                         opt_resumeId (options p)
                         = if truthy_string (claudeSessionId x)
                           then claudeSessionId x else None)
           else
             res = {| res_status := 500; res_body := SpawnFailed SpawnError |}
             ∧ sessions s
               = update_session id (set_session_status exited) (sessions st)
             ∧ isAlive id (manager s) = false)
        ∧ (testMode s = false → last (persisted s) = Some (sessions s)).
Proof.
  intros [used Hcoh]%reachable_coherent.
  pose proof (coh_post_restart used st id started Hcoh) as Hwp. unfold wp in Hwp.
  split.
  - intros Hnone. rewrite (find_absent id _ Hnone) in Hwp.
    destruct (post_restart id started st) as [[res|e] s]; [| done].
    by destruct Hwp as (_ & -> & ->).
  - intros x Hx <-.
    rewrite (find_unique _ x (sound_nodup used st (proj1 Hcoh)) Hx) in Hwp.
    destruct (post_restart (session_id x) started st) as [[res|e] s]; [| done].
    destruct Hwp as [[_ Hsaved] Hres]. exists res, s.
    split_and!; [done | | by apply Hsaved].
    unfold restarted in Hres. destruct started; [| done].
    destruct Hres as (-> & Hs & p & Hp & Ha & Ho & Hb).
    split_and!; [done | done |]. exists p. split_and!; try done.
    + rewrite Ho. unfold spawnOpts. by destruct (testMode st).
    + intros Htm. by rewrite Ho, Htm.
Qed.

Lemma post_restart_restarts_witness :
  ∃ res s,
    post_restart "s1" true (demo false) = (Ok res, s)
    ∧ (res = {| res_status := 200;
                res_body := SessionBody (set_session_status running demo_session)
                              true |}
       ∧ sessions s
         = update_session "s1" (set_session_status running) (sessions (demo false))
       ∧ ∃ p, manager s !! "s1" = Some p ∧ alive p = true ∧ buffer p = []
              ∧ opt_cwd (options p) = session_cwd demo_session
              ∧ (testMode (demo false) = false →
                   opt_resumeId (options p)
                   = if truthy_string (claudeSessionId demo_session)
                     then claudeSessionId demo_session else None))
    ∧ (testMode s = false → last (persisted s) = Some (sessions s)).
Proof.
  apply (proj2 (post_restart_restarts (demo false) "s1" true
                  (demo_reachable false)) demo_session).
  - rewrite demo_sessions. left.
  - reflexivity.
Defined.

(** X11: in a state of the server, [DELETE /api/sessions/:id] answers 404
    and changes nothing when no record has the id. Otherwise it answers
    200, the record with the id is gone while every other record is kept
    as it was and in its place, the process of the session does not run
    any more, and outside test mode the list is saved. *)
Theorem delete_session_removes st id :
  reachable st →
  ((∀ x, x ∈ sessions st → session_id x ≠ id) →
     delete_session id st
     = (Ok {| res_status := 404; res_body := ErrorBody "not found" |}, st))
  ∧ ∀ x, x ∈ sessions st → session_id x = id →
      ∃ s,
        delete_session id st = (Ok {| res_status := 200; res_body := OkBody |}, s)
        ∧ sessions s = filter (λ y, session_id y ≠ id) (sessions st)
        ∧ isAlive id (manager s) = false
        ∧ (testMode s = false → last (persisted s) = Some (sessions s)).
Proof.
  intros [used Hcoh]%reachable_coherent.
  pose proof (coh_delete_session used st id Hcoh) as Hwp. unfold wp in Hwp.
  split.
  - intros Hnone. rewrite (find_absent id _ Hnone) in Hwp.
    destruct (delete_session id st) as [[res|e] s]; [| done].
    by destruct Hwp as (_ & -> & ->).
  - intros x Hx <-.
    rewrite (find_unique _ x (sound_nodup used st (proj1 Hcoh)) Hx) in Hwp.
    destruct (delete_session (session_id x) st) as [[res|e] s]; [| done].
    destruct Hwp as [[_ Hsaved] (-> & Hs & Hdead)]. exists s.
    split_and!; [done | done | done | by apply Hsaved].
Qed.

Lemma delete_session_removes_witness :
  ∃ s,
    delete_session "s1" (demo false)
    = (Ok {| res_status := 200; res_body := OkBody |}, s)
    ∧ sessions s = filter (λ y, session_id y ≠ "s1") (sessions (demo false))
    ∧ isAlive "s1" (manager s) = false
    ∧ (testMode s = false → last (persisted s) = Some (sessions s)).
Proof.
  apply (proj2 (delete_session_removes (demo false) "s1" (demo_reachable false))
           demo_session).
  - rewrite demo_sessions. left.
  - reflexivity.
Defined.

End RestRequests.

(** ** server.js: the close of a connection *)

Section Close.
Implicit Types (st s : Server) (c fn a : nat) (id sid : string).

Lemma owned_by_two c c' (x : option closure) :
  owned_by c x → owned_by c' x → c = c'.
Proof. destruct x as [[]|]; simpl; try done. congruence. Qed.

Lemma close_spec st c :
  wf st →
  wp (step (WsClose c))
     (λ _ s, (c ∉ clients s)
             ∧ (∀ id fn, ¬ listens s c id fn)
             ∧ (∀ c' id fn, c' ≠ c → listens s c' id fn ↔ listens st c' id fn))
     never st.
Proof.
  intros Hwf. unfold step, on_close.
  apply wp_bind, wp_modify, wp_bind, wp_modify, wp_bind, wp_gets, wp_bind, wp_gets.
  set (s1 := set_clients _ _).
  assert (Hclients : c ∉ clients s1).
  { unfold s1. simpl. intros [Hne _]%list_elem_of_filter. done. }
  assert (Hatt : attached_of c s1 = attached_of c st).
  { apply (attached_of_alter (set_readyState 3) c c st). intros k.
    apply readyState_vars. }
  assert (Hlis : listener_of c s1 = listener_of c st).
  { apply (listener_of_alter (set_readyState 3) c c st). intros k.
    apply readyState_vars. }
  assert (Hsame : ∀ c' id fn, listens s1 c' id fn ↔ listens st c' id fn) by done.
  rewrite Hatt, Hlis.
  assert (Hnone : (∀ id fn, ¬ listens st c id fn) →
            (c ∉ clients s1) ∧ (∀ id fn, ¬ listens s1 c id fn)
            ∧ (∀ c' id fn, c' ≠ c → listens s1 c' id fn ↔ listens st c' id fn)).
  { intros Hnl. split_and!; [done | | done]. intros id fn. by rewrite Hsame. }
  destruct (attached_of c st) as [id0|] eqn:Ha.
  2:{ destruct (listener_of c st); apply wp_ret, Hnone; intros id fn Hl;
      destruct (wf_current st Hwf c id fn Hl) as (k & Hk & Hka & _);
      unfold attached_of in Ha; rewrite Hk in Ha; simpl in Ha; congruence. }
  destruct (listener_of c st) as [fn0|] eqn:Hl.
  2:{ apply wp_ret, Hnone. intros id fn Hls.
      destruct (wf_current st Hwf c id fn Hls) as (k & Hk & _ & Hd).
      unfold listener_of in Hl. rewrite Hk in Hl. simpl in Hl. congruence. }
  apply attached_of_Some in Ha as (k & Hk & Hka).
  apply listener_of_Some in Hl as (k' & Hk' & Hkd).
  assert (k' = k) as -> by congruence.
  assert (Honly : ∀ id fn, listens st c id fn → id = id0 ∧ fn = fn0).
  { intros id fn Hls.
    destruct (wf_current st Hwf c id fn Hls) as (k1 & Hk1 & Ha1 & Hd1).
    split; congruence. }
  apply wp_when; simpl.
  2:{ intros Hempty. apply Hnone. intros id fn Hls.
      destruct (Honly id fn Hls) as [-> ->]. destruct Hls as [(p & Hp & _) _].
      apply (wf_ids st Hwf id0 p Hp).
      apply negb_false_iff in Hempty. by apply String.eqb_eq in Hempty. }
  intros _. apply wp_modify. split_and!; [done | |].
  - intros id fn [(p1 & Hp1 & Hfn) Hown]. simpl in Hp1, Hown. unfold offData in Hp1.
    destruct (decide (id0 = id)) as [<- | Hne].
    + rewrite lookup_alter_eq in Hp1.
      destruct (manager st !! id0) as [p|] eqn:Hp; [| done].
      simpl in Hp1. injection Hp1 as <-. unfold proc_removeListener in Hfn.
      simpl in Hfn. apply list_elem_of_filter in Hfn as [Hne Hfn].
      destruct (Honly id0 fn) as [_ ->]; [| done].
      split; [by exists p | done].
    + rewrite lookup_alter_ne in Hp1 by done.
      destruct (Honly id fn) as [-> _]; [| done].
      split; [by exists p1 | done].
  - intros c' id fn Hc'. split.
    + intros [(p1 & Hp1 & Hfn) Hown]. simpl in Hp1, Hown. unfold offData in Hp1.
      split; [| done].
      destruct (decide (id0 = id)) as [<- | Hne].
      * rewrite lookup_alter_eq in Hp1.
        destruct (manager st !! id0) as [p|] eqn:Hp; [| done].
        simpl in Hp1. injection Hp1 as <-. exists p. split; [done |].
        unfold proc_removeListener in Hfn. simpl in Hfn.
        by apply list_elem_of_filter in Hfn as [_ Hfn].
      * rewrite lookup_alter_ne in Hp1 by done. by exists p1.
    + intros [Hreg Hown]. split; [| done].
      apply (registered_alter s1 id0 (proc_removeListener fn0) id fn); [done |].
      intros _ p Hfn. simpl. apply list_elem_of_filter. split; [| done].
      intros ->. apply Hc'.
      apply (owned_by_two c' c (heap st !! fn0)); [done |].
      by apply (wf_own st Hwf c k fn0).
Qed.

(** X12: in a server started on a store whose ids are not empty, when a
    connection closes, the server drops it from the set it broadcasts to
    and removes its output listener: afterwards the connection listens to
    no process, while the listeners of every other connection are where
    they were. *)
Theorem close_unregisters (tm : bool) (loaded : list session)
    (started : string → bool) (evs : list event) (c : nat) :
  stored_ok loaded →
  Forall event_ok evs →
  let st := reach tm loaded started evs in
  ∃ s, step (WsClose c) st = (Ok tt, s)
       ∧ (c ∉ clients s)
       ∧ (∀ id fn, ¬ listens s c id fn)
       ∧ (∀ c' id fn, c' ≠ c → listens s c' id fn ↔ listens st c' id fn).
Proof.
  intros Hst Hok st.
  pose proof (close_spec st c (reach_wf tm loaded started evs Hst Hok)) as Hwp.
  unfold wp in Hwp. destruct (step (WsClose c) st) as [[[]|e] s]; [| done].
  by exists s.
Qed.

Lemma close_unregisters_witness :
  let st := reach false stored_demo (λ _, true)
              [ApiCreate "s1" "demo" "/tmp" "now" true; WsConnection 0 [];
               WsMessage 0 (attach_message "s0" 80 24); WsConnection 1 [];
               WsMessage 1 (attach_message "s0" 80 24)] in
  listens st 0 "s0" 2
  ∧ ∃ s, step (WsClose 0) st = (Ok tt, s)
         ∧ (0%nat ∉ clients s)
         ∧ (∀ id fn, ¬ listens s 0 id fn)
         ∧ (∀ c' id fn, c' ≠ 0%nat → listens s c' id fn ↔ listens st c' id fn).
Proof.
  intros st. split.
  - split; [| by vm_compute]. vm_compute. eexists. split; [reflexivity |].
    repeat constructor.
  - apply close_unregisters; repeat apply Forall_cons_2; try done.
Defined.

End Close.

(** ** server.js: what the handlers leave alone in a connection *)

Section ConnectionsOnly.
Context {X : Type} (f : Server → X).

(** [f] looks at the connections only, and neither at what was sent on a
    socket nor at the listener variable. *)
Hypothesis f_conns : ∀ st st', conns st' = conns st → f st' = f st.
Hypothesis f_safeSend : ∀ c' data, preserves f (safeSend c' data).
Hypothesis f_listener : ∀ c' l st,
  f (set_conns (alter (set_dataListener l) c') st) = f st.

Lemma only_modify g : (∀ st, conns (g st) = conns st) → preserves f (modify g).
Proof. intros Hg. apply preserves_modify. intros st. by apply f_conns. Qed.

Lemma only_broadcastSessions : preserves f broadcastSessions.
Proof.
  apply preserves_bind; [done |]. intros msg.
  apply preserves_bind; [done |]. intros cl.
  apply preserves_for_of. intros c'. apply f_safeSend.
Qed.

Lemma only_persist : preserves f persist.
Proof.
  apply preserves_bind; [done |]. intros tm. by apply preserves_when, only_modify.
Qed.

Lemma only_call_exit cb : preserves f (call_exit cb).
Proof.
  destruct cb as [id | id a]; simpl; [| by apply only_modify].
  apply preserves_bind; [by apply only_modify |]. intros _.
  apply preserves_bind; [apply only_persist |]. intros _.
  apply preserves_bind; [apply only_broadcastSessions |]. intros _.
  apply preserves_bind; [done |]. intros cl.
  apply preserves_for_of. intros c'. apply f_safeSend.
Qed.

Lemma only_with_manager {A} (g : PtyManager → PtyManager * A) :
  preserves f (with_manager g).
Proof.
  intros st. unfold with_manager. destruct (g (manager st)). by apply f_conns.
Qed.

Lemma only_manager_kill id : preserves f (manager_kill id).
Proof.
  apply preserves_bind; [apply only_with_manager |]. intros due.
  apply preserves_for_of, only_call_exit.
Qed.

Lemma only_call_listener a data : preserves f (call_listener a data).
Proof.
  apply preserves_bind; [done |]. intros [[c' sid [] pd | id]|].
  - by apply only_modify.
  - apply f_safeSend.
  - destruct (uuid_match data); [| done].
    apply preserves_bind; [by apply only_modify |]. intros _.
    apply preserves_bind; [by apply only_modify |]. intros _.
    apply preserves_bind; [apply only_persist |]. intros _.
    apply only_broadcastSessions.
  - done.
Qed.

Lemma only_spawnSession x started : preserves f (spawnSession x started).
Proof.
  apply preserves_bind; [done |]. intros tm.
  apply preserves_bind.
  - apply preserves_try_catch.
    + intros st. unfold manager_spawn. destruct (spawn _ _ _ _). by apply f_conns.
    + intros e. apply preserves_bind; [by apply only_modify |]. intros _.
      apply preserves_bind; [apply only_persist |]. intros _.
      apply preserves_bind; [apply only_broadcastSessions | done].
  - intros _. apply preserves_bind; [by apply only_modify |]. intros _.
    apply preserves_when.
    apply preserves_bind; [intros st; by apply f_conns |]. intros cap.
    apply preserves_bind; [by apply only_modify |]. intros _.
    by apply only_modify.
Qed.

Lemma only_try_spawn x started :
  preserves f (spawned ← try_catch (spawnSession x started ;; mret true)
                            (λ _, mret false);
               when spawned broadcastSessions).
Proof.
  apply preserves_bind.
  - apply preserves_try_catch; [| done].
    apply preserves_bind; [apply only_spawnSession | done].
  - intros spawned. apply preserves_when, only_broadcastSessions.
Qed.

Lemma only_detach_previous c' : preserves f (detach_previous c').
Proof.
  apply preserves_bind; [done |]. intros attached.
  apply preserves_bind; [done |]. intros listener.
  destruct attached as [previous|], listener as [fn|]; try done.
  apply preserves_when, preserves_bind; [by apply only_modify |]. intros _.
  apply preserves_modify. intros st. apply f_listener.
Qed.

(** An attach request that names a process: what is left of it for [f] is
    the assignment to [attachedSessionId]. *)
Lemma only_on_attach_found c' members sid p st :
  member "sessionId" members = Some (JStr sid) →
  manager st !! sid = Some p →
  f (snd (on_attach c' (JObj members) st))
  = f (set_conns (alter (set_attachedSessionId (Some sid)) c')
         (snd (detach_previous c' st))).
Proof.
  intros Hsid Hp. unfold on_attach. cbn [get_prop].
  rewrite !bind_lift, Hsid, bind_gets. unfold getProcess. rewrite Hp.
  destruct (returns_eq _ st (returns_detach_previous c')) as [[] Heq].
  unfold mbind at 1, M_bind at 1. rewrite Heq.
  unfold mbind at 1, M_bind at 1, modify at 1.
  match goal with
  | |- f (snd (?m ?s)) = _ => enough (H : preserves f m) by apply H
  end.
  apply preserves_bind; [by apply preserves_when, only_modify |]. intros _.
  apply preserves_bind; [intros s; by apply f_conns |]. intros fn.
  apply preserves_bind; [apply preserves_modify; intros s; apply f_listener |].
  intros _.
  apply preserves_bind; [by apply only_modify |]. intros _.
  apply preserves_bind; [done |]. intros buffer.
  apply preserves_bind;
    [apply preserves_for_of; intros chunk; apply f_safeSend |]. intros _.
  apply preserves_bind; [apply f_safeSend |]. intros _.
  apply preserves_bind; [by apply only_modify |]. intros _.
  apply preserves_bind; [done |]. intros pendingData.
  apply preserves_for_of. intros data. apply f_safeSend.
Qed.

(** An attach of a connection whose attachment [f] does not look at. *)
Lemma only_on_attach c' msg :
  (∀ a st, f (set_conns (alter (set_attachedSessionId a) c') st) = f st) →
  preserves f (on_attach c' msg).
Proof.
  intros Hatt st. destruct msg as [| | | | |members]; try done.
  destruct (member "sessionId" members) as [[| | |sid| |]|] eqn:Hsid;
    try (unfold on_attach; cbn [get_prop]; by rewrite !bind_lift, Hsid).
  destruct (manager st !! sid) as [p|] eqn:Hp.
  - by rewrite (only_on_attach_found _ _ _ _ _ Hsid Hp), Hatt, only_detach_previous.
  - unfold on_attach. cbn [get_prop].
    rewrite !bind_lift, Hsid, bind_gets. unfold getProcess. by rewrite Hp.
Qed.

Lemma only_on_input c' msg : preserves f (on_input c' msg).
Proof.
  apply preserves_bind; [done |]. intros [id|]; [| done].
  apply preserves_when, preserves_bind; [done |]. intros data.
  by apply only_modify.
Qed.

Lemma only_on_resize c' msg : preserves f (on_resize c' msg).
Proof.
  apply preserves_bind; [done |]. intros [id|]; [| done].
  apply preserves_when, preserves_bind; [done |]. intros cols.
  apply preserves_bind; [done |]. intros rows.
  by apply preserves_when, only_modify.
Qed.

Lemma only_on_message c' raw :
  (∀ a st, f (set_conns (alter (set_attachedSessionId a) c') st) = f st) →
  preserves f (on_message c' raw).
Proof.
  intros Hatt. unfold on_message. destruct (JSON_parse raw) as [msg|]; [| done].
  apply preserves_bind; [done |]. intros ty.
  destruct (type_is ty "attach"); [by apply only_on_attach |].
  destruct (type_is ty "input"); [apply only_on_input |].
  destruct (type_is ty "resize"); [apply only_on_resize | done].
Qed.

(** A message that is no attach request. *)
Lemma only_on_message_other c' raw :
  is_attach raw = false → preserves f (on_message c' raw).
Proof.
  intros Hraw. destruct raw as [|msg]; [done |].
  destruct msg as [| | | | |members]; try done.
  intros st. unfold on_message, mbind, M_bind, lift. simpl in *. rewrite Hraw.
  destruct (type_is _ "input"); [apply only_on_input |].
  destruct (type_is _ "resize"); [apply only_on_resize | done].
Qed.

Lemma only_on_close c' : preserves f (on_close c').
Proof.
  apply preserves_bind; [by apply only_modify |]. intros _.
  apply preserves_bind; [done |]. intros attached.
  apply preserves_bind; [done |]. intros listener.
  destruct attached as [id|], listener as [fn|]; try done.
  by apply preserves_when, only_modify.
Qed.

(** The events that come from the processes and from the REST API. *)
Lemma only_step_inner ev :
  match ev with
  | PtyData _ _ | PtyExit _ | ApiCreate _ _ _ _ _ | ApiRestart _ _ | ApiDelete _ =>
      True
  | _ => False
  end →
  preserves f (step ev).
Proof.
  destruct ev as [| | | | id data | id | uuid name cwd now started | id started | id];
    try done; intros _.
  - apply preserves_bind; [apply only_with_manager |]. intros ls.
    apply preserves_for_of. intros a. apply only_call_listener.
  - apply only_manager_kill.
  - apply preserves_bind; [by apply only_modify |]. intros _.
    apply preserves_bind; [apply only_persist |]. intros _. apply only_try_spawn.
  - apply preserves_bind; [done |]. intros [x|]; [| done].
    apply preserves_bind; [done |]. intros live.
    apply preserves_bind; [apply preserves_when, only_manager_kill |]. intros _.
    apply preserves_bind; [by apply only_modify |]. intros _.
    apply preserves_bind; [apply only_persist |]. intros _. apply only_try_spawn.
  - apply preserves_bind; [done |]. intros [x|]; [| done].
    apply preserves_bind; [apply only_manager_kill |]. intros _.
    apply preserves_bind; [by apply only_modify |]. intros _.
    apply preserves_bind; [apply only_persist |]. intros _.
    apply only_broadcastSessions.
Qed.

End ConnectionsOnly.

(** ** server.js: nothing is sent on a socket that is not open *)

Section NotOpen.
Implicit Types (st s : Server) (c fn a : nat) (id sid : string).
Variable c : nat.

(** What the peer of [c] has received, for a socket that is not open. *)
Definition delivered_while_shut st : option (list message) :=
  k ← conns st !! c;
  if (readyState (ws k) =? 1)%nat then None else Some (received (ws k)).

Local Abbreviation f := delivered_while_shut.

Lemma shut_alter (g : connection → connection) c' st :
  (∀ k, readyState (ws (g k)) = readyState (ws k)
        ∧ ((readyState (ws k) =? 1)%nat = false →
           received (ws (g k)) = received (ws k))) →
  f (set_conns (alter g c') st) = f st.
Proof.
  intros Hg. unfold delivered_while_shut. simpl.
  destruct (decide (c' = c)) as [-> | Hne]; [| by rewrite lookup_alter_ne].
  rewrite lookup_alter_eq. destruct (conns st !! c) as [k|]; simpl; [| done].
  destruct (Hg k) as [-> Hr].
  destruct (readyState (ws k) =? 1)%nat; [done |]. by rewrite Hr.
Qed.

Lemma shut_safeSend c' data : preserves f (safeSend c' data).
Proof.
  intros st. rewrite safeSend_eq. simpl. apply shut_alter. intros k.
  unfold after_send, socket_send.
  destruct (readyState (ws k) =? 1)%nat eqn:Hopen; [| done].
  split; [| done]. by destruct (sendFaults (ws k)) as [|[] ?].
Qed.

Lemma shut_conns st st' : conns st' = conns st → f st' = f st.
Proof. unfold delivered_while_shut. by intros ->. Qed.

Lemma shut_vars (g : connection → connection) c' st :
  (∀ k, ws (g k) = ws k) → f (set_conns (alter g c') st) = f st.
Proof. intros Hg. apply shut_alter. intros k. by rewrite Hg. Qed.

Lemma shut_listener c' l st :
  f (set_conns (alter (set_dataListener l) c') st) = f st.
Proof. by apply shut_vars. Qed.

Lemma shut_set_readyState n c' st r :
  WsReadyState c' n ≠ WsReadyState c 1 →
  f st = Some r → f (set_conns (alter (set_readyState n) c') st) = Some r.
Proof.
  intros Hne Hr. unfold delivered_while_shut in *. simpl.
  destruct (decide (c' = c)) as [-> | Hc]; [| by rewrite lookup_alter_ne].
  rewrite lookup_alter_eq. destruct (conns st !! c) as [k|]; simpl in *; [| done].
  destruct (readyState (ws k) =? 1)%nat; [done |].
  destruct (n =? 1)%nat eqn:Hn; [| done].
  apply Nat.eqb_eq in Hn as ->. done.
Qed.

Lemma shut_step ev st r :
  ev ≠ WsReadyState c 1 →
  f st = Some r → f (snd (step ev st)) = Some r.
Proof.
  intros Hev Hr.
  assert (Hp : preserves f (step ev) → f (snd (step ev st)) = Some r).
  { intros H. by rewrite H. }
  destruct ev as [c' faults | c' n | c' raw | c' | id data | id
                  | uuid name cwd now started | id started | id];
    try (by apply Hp, (only_step_inner f shut_conns shut_safeSend)).
  - unfold step, mbind, M_bind, gets. case_bool_decide as Hknown; [done |].
    assert (c' ≠ c) as Hne.
    { intros ->. unfold delivered_while_shut in Hr.
      destruct (conns st !! c) eqn:Hc; [| done]. destruct Hknown. eauto. }
    pose proof (shut_safeSend c' (sessions_message
      (set_conns (<[c':={| ws := {| readyState := 1; sendFaults := faults;
                                   received := [] |};
                          attachedSessionId := None; dataListener := None |}]>)
         (set_clients (λ l, l ++ [c']) st)))) as Hsend.
    unfold on_connection, mbind, M_bind, modify, gets.
    rewrite Hsend. unfold delivered_while_shut in *. simpl.
    by rewrite lookup_insert_ne.
  - by apply shut_set_readyState.
  - apply Hp. apply preserves_bind; [done |]. intros []; [| done].
    apply (only_on_message f shut_conns shut_safeSend shut_listener).
    intros a st'. by apply shut_vars.
  - unfold step, mbind at 1, M_bind, modify.
    rewrite (only_on_close f shut_conns). apply shut_set_readyState; [done | done].
Qed.

End NotOpen.

(** X13: nothing is delivered on a socket that is not open: once the ready
    state of the socket of a connection is not 1, what its peer has
    received stays as it is, whatever the server goes on to do, for as
    long as the socket is not opened again. *)
Theorem nothing_sent_unless_open (c : nat) (st : Server) (evs : list event)
    (r : list message) :
  delivered_while_shut c st = Some r →
  Forall (λ ev, ev ≠ WsReadyState c 1) evs →
  delivered_while_shut c (snd (run evs st)) = Some r.
Proof.
  revert st. induction evs as [|ev evs IH]; intros st Hr Hevs; [done |].
  apply Forall_cons in Hevs as [Hev Hevs].
  pose proof (shut_step c ev st r Hev Hr) as Hstep.
  simpl. unfold mbind, M_bind. destruct (step ev st) as [[[]|e] s1]; simpl in *.
  - by apply IH.
  - done.
Qed.

Lemma nothing_sent_unless_open_witness :
  delivered_while_shut 0
    (snd (run [ApiCreate "s1" "demo" "/tmp" "now" true; PtyExit "s1"]
            (snd (run [WsConnection 0 []; WsClose 0] (initial true)))))
  = Some [MsgSessions []].
Proof.
  apply nothing_sent_unless_open.
  - vm_compute. reflexivity.
  - repeat apply Forall_cons_2; try done.
Defined.

(** ** server.js: the session list a client holds *)

Section Informed.
Implicit Types (st s : Server) (fn a : nat) (id sid : string) (b : bool)
  (used : list string).
Variable c : nat.

Definition is_list (m : message) : bool :=
  match m with
  | MsgSessions _ => true
  | _ => false
  end.

(** The last session list a connection has received. *)
Definition last_list (k : connection) : option message :=
  last (filter (λ m, is_list m = true) (received (ws k))).

(** Connection [c] is served, its socket is open and sound, and (with [b])
    the last session list it has received is the current one. *)
Definition informed b st : Prop :=
  c ∈ clients st
  ∧ ∃ k, conns st !! c = Some k ∧ healthy k
         ∧ (b = true → last_list k = Some (sessions_message st)).

Definition view st := (clients st, ws <$> conns st !! c, sessions_message st).

Lemma informed_view b st s : view s = view st → informed b st → informed b s.
Proof.
  intros Hv [Hc (k & Hk & Hh & Hlast)].
  pose proof (f_equal (λ v, v.1.1) Hv) as Hcl.
  pose proof (f_equal (λ v, v.1.2) Hv) as Hws.
  pose proof (f_equal snd Hv) as Hmsg. simpl in Hcl, Hws, Hmsg. clear Hv.
  split; [by rewrite Hcl |].
  rewrite Hk in Hws. destruct (conns s !! c) as [k'|]; [| done].
  simpl in Hws. injection Hws as Hws. exists k'.
  split_and!; [done | by apply (healthy_ws k) |].
  intros Hb. unfold last_list. rewrite Hws, Hmsg. by apply Hlast.
Qed.

Lemma informed_weaken b b' st :
  (b' = true → b = true) → informed b st → informed b' st.
Proof.
  intros Hb [Hc (k & Hk & Hh & Hlast)]. split; [done |]. exists k. auto.
Qed.

Lemma informed_dirty b st s :
  clients s = clients st → conns s = conns st → informed b st → informed false s.
Proof.
  intros Hcl Hco [Hc (k & Hk & Hh & _)]. split; [by rewrite Hcl |].
  exists k. rewrite Hco. done.
Qed.

Lemma sessions_message_lives st s :
  sessions s = sessions st → lives s = lives st →
  sessions_message s = sessions_message st.
Proof.
  intros Hs Hl. unfold sessions_message. rewrite Hs. f_equal.
  apply map_ext. intros x. unfold lives in Hl. by rewrite (lives_isAlive _ _ _ Hl).
Qed.

Lemma view_same st s :
  clients s = clients st → ws <$> conns s !! c = ws <$> conns st !! c →
  sessions s = sessions st → lives s = lives st → view s = view st.
Proof.
  intros Hcl Hws Hs Hl. unfold view. by rewrite Hcl, Hws, (sessions_message_lives st s).
Qed.

Lemma view_quiet_manager st (g : PtyProcess → PtyProcess) id :
  (∀ p, life (g p) = life p) → view (set_manager (alter g id) st) = view st.
Proof.
  intros Hg. apply view_same; try done. unfold lives. simpl. by apply lives_alter.
Qed.

Lemma view_vars st (g : connection → connection) c' :
  (∀ k, ws (g k) = ws k) → view (set_conns (alter g c') st) = view st.
Proof.
  intros Hg. apply view_same; try done. simpl.
  destruct (decide (c' = c)) as [-> | Hne]; [| by rewrite lookup_alter_ne].
  rewrite lookup_alter_eq. destruct (conns st !! c); simpl; [| done]. by rewrite Hg.
Qed.

Lemma last_list_send data k :
  healthy k →
  last_list (after_send data k)
  = if is_list data then Some data else last_list k.
Proof.
  intros Hh. destruct (after_send_healthy data k Hh) as [_ Hr].
  unfold last_list. rewrite Hr, filter_app, filter_cons, filter_nil.
  destruct (is_list data) eqn:Hd.
  - rewrite decide_True by done. apply last_snoc.
  - rewrite decide_False by done. by rewrite app_nil_r.
Qed.

Lemma informed_safeSend b st c' data :
  informed b st →
  (b = true → c' = c → is_list data = true → data = sessions_message st) →
  wp (safeSend c' data)
     (λ _ s, informed b s ∧ but_conns s = but_conns st
             ∧ (c' = c → data = sessions_message st → informed true s))
     never st.
Proof.
  intros [Hc (k & Hk & Hh & Hlast)] Hdata. unfold wp. rewrite safeSend_eq.
  destruct (decide (c' = c)) as [-> | Hne].
  - destruct (after_send_healthy data k Hh) as [Hh' _].
    pose proof (last_list_send data k Hh) as Hl.
    assert (Hk' : conns (set_conns (alter (after_send data) c) st) !! c
                  = Some (after_send data k)).
    { simpl. by rewrite lookup_alter_eq, Hk. }
    split_and!; [| done |].
    + split; [done |]. exists (after_send data k). split_and!; [done | done |].
      intros Hb. rewrite Hl. destruct (is_list data) eqn:Hd.
      * f_equal. by apply Hdata.
      * by apply Hlast.
    + intros _ ->. split; [done |]. exists (after_send (sessions_message st) k).
      split_and!; [done | done |]. intros _. by rewrite Hl.
  - assert (Hk' : conns (set_conns (alter (after_send data) c') st) !! c = Some k).
    { simpl. by rewrite lookup_alter_ne. }
    split_and!; [| done | done]. split; [done |]. exists k. done.
Qed.

(** A loop that sends messages that are not session lists. *)
Lemma informed_send_others {A} b st (l : list A) (to : A → nat) (data : A → message) :
  (∀ x, is_list (data x) = false) → informed b st →
  wp (for_of l (λ x, safeSend (to x) (data x)))
     (λ _ s, informed b s ∧ but_conns s = but_conns st) never st.
Proof.
  intros Hdata Hst.
  eapply wp_mono;
    [apply (wp_for_of_inv _ _ (λ s, informed b s ∧ but_conns s = but_conns st))
    | done | done]; [done |].
  intros x s _ [Hs Hb].
  eapply wp_mono; [apply (informed_safeSend b s (to x) (data x) Hs) | | done].
  - intros _ _ Hl. by rewrite Hdata in Hl.
  - intros ? s' (Hs' & Hb' & _). split; [done | congruence].
Qed.

Lemma but_conns_message st s :
  but_conns s = but_conns st → sessions_message s = sessions_message st.
Proof. intros [= _ Hm _ _ Hs _ _]. unfold sessions_message. by rewrite Hm, Hs. Qed.

Lemma but_conns_clients st s : but_conns s = but_conns st → clients s = clients st.
Proof. by intros [= _ _ _ _ _ ? _]. Qed.

Lemma informed_broadcastSessions b st :
  informed b st →
  wp broadcastSessions (λ _ s, informed true s ∧ but_conns s = but_conns st)
     never st.
Proof.
  intros Hst. unfold broadcastSessions. apply wp_bind, wp_gets, wp_bind, wp_gets.
  eapply wp_mono;
    [apply (wp_for_of _ _
              (λ rest s, but_conns s = but_conns st ∧ informed b s
                         ∧ (c ∉ rest → informed true s))) | |  done].
  - split_and!; [done | done |]. intros Hc. by destruct Hst.
  - intros x rest s (Hb & Hs & Hdone).
    pose proof (but_conns_message st s Hb) as Hmsg.
    destruct (decide (x = c)) as [-> | Hne].
    + eapply wp_mono;
        [apply (informed_safeSend b s c (sessions_message st) Hs) | | done].
      * intros _ _ _. done.
      * intros ? s' (Hs' & Hb' & Hnow). split_and!; [congruence | done |].
        intros _. apply Hnow; [done | done].
    + assert (Hin : c ∉ rest → c ∉ x :: rest).
      { intros Hr [-> | Hx]%elem_of_cons; done. }
      destruct (decide (c ∈ rest)) as [Hrest | Hrest].
      * eapply wp_mono;
          [apply (informed_safeSend b s x (sessions_message st) Hs) | | done].
        -- intros _ ->. done.
        -- intros ? s' (Hs' & Hb' & _). split_and!; [congruence | done | done].
      * eapply wp_mono;
          [apply (informed_safeSend true s x (sessions_message st)
                    (Hdone (Hin Hrest))) | | done].
        -- intros _ ->. done.
        -- intros ? s' (Hs' & Hb' & _). split_and!; [congruence | | done].
           by apply (informed_weaken true).
  - intros ? s (Hb & _ & Hdone). split; [| done]. apply Hdone. inversion 1.
Qed.

Lemma informed_persist b st :
  informed b st → wp persist (λ _ s, informed b s) never st.
Proof.
  intros Hst. unfold persist. apply wp_bind, wp_gets.
  apply wp_when; intros _; [| done]. apply wp_modify. by apply (informed_view b st).
Qed.

Definition is_handler (cb : exit_callback) : bool :=
  match cb with
  | ExitHandler _ => true
  | CaptureCleanup _ _ => false
  end.

Lemma informed_call_exit b st cb :
  informed b st →
  wp (call_exit cb) (λ _ s, informed (b || is_handler cb) s) never st.
Proof.
  intros Hst. destruct cb as [id | id a]; simpl.
  - apply wp_bind, wp_modify. set (st1 := set_sessions _ st).
    assert (H1 : informed false st1) by (by apply (informed_dirty b st)).
    apply wp_bind. eapply wp_mono; [by apply (informed_persist false) | | done].
    intros ? s2 H2.
    apply wp_bind. eapply wp_mono; [by apply (informed_broadcastSessions false) | | done].
    intros ? s3 [H3 _]. apply wp_bind, wp_gets.
    eapply wp_mono;
      [apply (informed_send_others true s3 _ (λ c', c') (λ _, MsgExited id));
         [done | done] | | done].
    intros ? s4 [H4 _]. by rewrite orb_true_r.
  - apply wp_modify. rewrite orb_false_r.
    apply (informed_view b st); [| done].
    apply view_quiet_manager, life_removeListener.
Qed.

Lemma informed_exit_loop b st (due : list exit_callback) :
  informed b st →
  wp (for_of due call_exit) (λ _ s, informed (b || existsb is_handler due) s)
     never st.
Proof.
  revert b st. induction due as [|cb due IH]; intros b st Hst; simpl.
  - apply wp_ret. by rewrite orb_false_r.
  - apply wp_bind. eapply wp_mono; [by apply informed_call_exit | | done].
    intros ? s1 H1.
    eapply wp_mono; [exact (IH (b || is_handler cb) s1 H1) | | done].
    intros ? s2 H2. simpl in H2. by rewrite orb_assoc.
Qed.

Lemma informed_manager_kill b st id :
  informed b st →
  wp (manager_kill id)
     (λ _ s, informed (match manager st !! id with
                       | Some p => if alive p
                                   then existsb is_handler (exitListeners p)
                                   else b
                       | None => b
                       end) s) never st.
Proof.
  intros Hst. unfold manager_kill. apply wp_bind, wp_with_manager.
  unfold kill, proc_exit. destruct (manager st !! id) as [p|] eqn:Hp.
  - destruct (alive p) eqn:Ha; simpl.
    + eapply wp_mono; [apply (informed_exit_loop false) | | done]; [| done].
      by apply (informed_dirty b st).
    + apply wp_ret. rewrite set_manager_same; [done |]. by apply insert_id.
  - simpl. apply wp_ret. by rewrite set_manager_same.
Qed.

Lemma informed_kill b st id :
  informed b st → wp (manager_kill id) (λ _ s, informed false s) never st.
Proof.
  intros Hst. eapply wp_mono; [by apply (informed_manager_kill b) | | done].
  intros ? s Hs. by apply (informed_weaken _ false) in Hs.
Qed.

(** The exit of a process in a state of the server: its exit handler is
    among the callbacks. *)
Lemma informed_exit b used st id :
  sound used st → informed b st →
  wp (manager_kill id) (λ _ s, informed b s) never st.
Proof.
  intros Hsound Hst. eapply wp_mono; [by apply (informed_manager_kill b) | | done].
  intros ? s Hs. destruct (manager st !! id) as [p|] eqn:Hp; [| done].
  destruct (alive p) eqn:Ha; [| done].
  apply (informed_weaken _ b) in Hs; [done |]. intros _.
  apply existsb_exists. exists (ExitHandler id). split; [| done].
  apply list_elem_of_In. by apply (sound_exit used st Hsound).
Qed.

Lemma informed_call_listener b st a data :
  informed b st → wp (call_listener a data) (λ _ s, informed b s) never st.
Proof.
  intros Hst. unfold call_listener. apply wp_bind, wp_gets.
  destruct (heap st !! a) as [[c' sid [] pd | id]|].
  - apply wp_modify. by apply (informed_view b st).
  - eapply wp_mono; [by apply (informed_safeSend b) | by intros ? ? [? _] | done].
  - destruct (uuid_match data) as [token|]; [| by apply wp_ret].
    apply wp_bind, wp_modify. set (st1 := set_sessions _ st).
    assert (H1 : informed false st1) by (by apply (informed_dirty b st)).
    apply wp_bind, wp_modify. set (st2 := set_manager _ st1).
    assert (H2 : informed false st2) by (by apply (informed_dirty false st1)).
    apply wp_bind. eapply wp_mono; [by apply (informed_persist false) | | done].
    intros ? s3 H3.
    eapply wp_mono; [by apply (informed_broadcastSessions false) | | done].
    intros ? s4 [H4 _]. by apply (informed_weaken true).
  - by apply wp_ret.
Qed.

Lemma informed_data b st id data :
  informed b st → wp (step (PtyData id data)) (λ _ s, informed b s) never st.
Proof.
  intros Hst. unfold step. apply wp_bind, wp_with_manager. rewrite output_alter.
  apply wp_for_of_inv.
  - apply (informed_view b st); [| done]. apply view_quiet_manager, life_pushed.
  - intros a s _ Hs. by apply informed_call_listener.
Qed.

Lemma informed_spawnSession b st (x : session) started :
  informed b st →
  wp (spawnSession x started) (λ _ s, informed false s) (λ _ s, informed true s) st.
Proof.
  intros Hst. unfold spawnSession. apply wp_bind, wp_gets.
  set (opts := if testMode st then _ else _).
  apply wp_bind, wp_try_catch. unfold wp at 1. unfold manager_spawn.
  destruct (spawn (session_id x) opts started (manager st)) as [[[]|e] m'].
  - set (st1 := set_manager _ st).
    assert (H1 : informed false st1) by (by apply (informed_dirty b st)).
    apply wp_bind, wp_modify. set (st2 := set_manager _ st1).
    assert (H2 : informed false st2) by (by apply (informed_dirty false st1)).
    apply wp_when; intros _; [| done].
    apply wp_bind, wp_new_closure, wp_bind, wp_modify, wp_modify.
    by apply (informed_dirty false st2).
  - set (st1 := set_manager _ st).
    assert (H1 : informed false st1) by (by apply (informed_dirty b st)).
    apply wp_bind, wp_modify. set (st2 := set_sessions _ st1).
    assert (H2 : informed false st2) by (by apply (informed_dirty false st1)).
    apply wp_bind. eapply wp_mono; [by apply (informed_persist false) | | done].
    intros ? s3 H3. apply wp_bind.
    eapply wp_mono; [by apply (informed_broadcastSessions false) | | done].
    intros ? s4 [H4 _]. by apply wp_throw.
Qed.

Lemma informed_try_spawn b st (x : session) started :
  informed b st →
  wp (spawned ← try_catch (spawnSession x started ;; mret true) (λ _, mret false);
      when spawned broadcastSessions)
     (λ _ s, informed true s) never st.
Proof.
  intros Hst. apply wp_bind, wp_try_catch, wp_bind.
  eapply wp_mono; [by apply (informed_spawnSession b) | |].
  - intros ? s1 H1. apply wp_ret. simpl.
    eapply wp_mono;
      [by apply (informed_broadcastSessions false) | by intros ? ? [? _] | done].
  - intros e s1 H1. by apply wp_ret.
Qed.

Lemma informed_api_create b st uuid name cwd now started :
  informed b st →
  wp (api_create uuid name cwd now started) (λ _ s, informed true s) never st.
Proof.
  intros Hst. unfold api_create. apply wp_bind, wp_modify.
  set (st1 := set_sessions _ st).
  assert (H1 : informed false st1) by (by apply (informed_dirty b st)).
  apply wp_bind. eapply wp_mono; [by apply (informed_persist false) | | done].
  intros ? s2 H2. by apply (informed_try_spawn false).
Qed.

Lemma informed_api_restart st id started :
  informed true st →
  wp (api_restart id started) (λ _ s, informed true s) never st.
Proof.
  intros Hst. unfold api_restart. apply wp_bind, wp_gets.
  destruct (find _ (sessions st)) as [x|]; [| by apply wp_ret].
  apply wp_bind, wp_gets, wp_bind.
  eapply wp_mono;
    [apply (wp_when _ _ (λ _ s, informed false s));
       [intros _; by apply (informed_kill true)
       | intros _; by apply (informed_weaken true)] | | done].
  intros ? s1 H1. apply wp_bind, wp_modify. set (st2 := set_sessions _ s1).
  assert (H2 : informed false st2) by (by apply (informed_dirty false s1)).
  apply wp_bind. eapply wp_mono; [by apply (informed_persist false) | | done].
  intros ? s3 H3. by apply (informed_try_spawn false).
Qed.

Lemma informed_api_delete st id :
  informed true st → wp (api_delete id) (λ _ s, informed true s) never st.
Proof.
  intros Hst. unfold api_delete. apply wp_bind, wp_gets.
  destruct (find _ (sessions st)) as [x|]; [| by apply wp_ret].
  apply wp_bind. eapply wp_mono; [by apply (informed_kill true) | | done].
  intros ? s1 H1. apply wp_bind, wp_modify. set (st2 := set_sessions _ s1).
  assert (H2 : informed false st2) by (by apply (informed_dirty false s1)).
  apply wp_bind. eapply wp_mono; [by apply (informed_persist false) | | done].
  intros ? s3 H3.
  eapply wp_mono;
    [by apply (informed_broadcastSessions false) | by intros ? ? [? _] | done].
Qed.

Lemma informed_on_attach b st c' msg :
  informed b st →
  wp (on_attach c' msg) (λ _ s, informed b s) (λ _ s, informed b s) st.
Proof.
  intros Hst. unfold on_attach.
  apply wp_bind, wp_lift. destruct (get_prop msg "sessionId") as [sessionId|]; [| done].
  apply wp_bind, wp_lift. destruct (get_prop msg "cols") as [cols|]; [| done].
  apply wp_bind, wp_lift. destruct (get_prop msg "rows") as [rows|]; [| done].
  destruct sessionId as [[| | |sessionId| |]|]; try by apply wp_ret.
  apply wp_bind, wp_gets. destruct (getProcess _ _) as [p|]; [| by apply wp_ret].
  apply wp_weaken.
  apply wp_bind.
  assert (Hdetach : wp (detach_previous c') (λ _ s, informed b s) never st).
  { unfold detach_previous. apply wp_bind, wp_gets, wp_bind, wp_gets.
    destruct (attached_of c' st) as [previous|], (listener_of c' st) as [fn|];
      try by apply wp_ret.
    apply wp_when; intros _; [| done].
    apply wp_bind, wp_modify, wp_modify.
    apply (informed_view b st); [| done].
    etransitivity; [by apply view_vars |].
    apply (view_quiet_manager _ (proc_removeListener fn) previous),
      life_removeListener. }
  eapply wp_mono; [exact Hdetach | | done]. intros ? s1 H1.
  apply wp_bind, wp_modify. set (s2 := set_conns _ s1).
  assert (H2 : informed b s2) by (apply (informed_view b s1); [by apply view_vars | done]).
  apply wp_bind.
  eapply wp_mono;
    [apply (wp_when _ _ (λ _ s, informed b s));
       [intros _; apply wp_modify; apply (informed_view b s2);
          [apply view_quiet_manager, life_resize | done]
       | done] | | done].
  intros ? s3 H3.
  apply wp_bind, wp_new_closure, wp_bind, wp_modify, wp_bind, wp_modify.
  set (s4 := set_manager _ _).
  assert (H4 : informed b s4).
  { apply (informed_view b s3); [| done]. unfold s4.
    etransitivity;
      [apply (view_quiet_manager _ (proc_addListener (nextRef s3)) sessionId),
         life_addListener |].
    etransitivity; [by apply view_vars | done]. }
  apply wp_bind, wp_gets, wp_bind.
  eapply wp_mono;
    [apply (informed_send_others b s4 _ (λ _, c') (λ chunk, MsgOutput sessionId chunk));
       [done | done] | | done].
  intros ? s5 [H5 _]. apply wp_bind.
  eapply wp_mono; [by apply (informed_safeSend b s5) | | done].
  intros ? s6 (H6 & _ & _). apply wp_bind, wp_modify, wp_bind, wp_gets.
  eapply wp_mono;
    [apply (informed_send_others b _ _ (λ _, c') (λ data, MsgOutput sessionId data));
       [done |] | by intros ? ? [? _] | done].
  by apply (informed_view b s6).
Qed.

Lemma informed_on_message b st c' raw :
  informed b st →
  wp (on_message c' raw) (λ _ s, informed b s) (λ _ s, informed b s) st.
Proof.
  intros Hst. unfold on_message. destruct (JSON_parse raw) as [msg|]; [| by apply wp_ret].
  apply wp_bind, wp_lift. destruct (get_prop msg "type") as [ty|]; [| done].
  destruct (type_is ty "attach"); [by apply informed_on_attach |].
  destruct (type_is ty "input").
  { unfold on_input. apply wp_bind, wp_gets.
    destruct (attached_of c' st) as [id|]; [| by apply wp_ret].
    apply wp_when; intros _; [| done].
    apply wp_bind, wp_lift. destruct (get_prop msg "data") as [data|]; [| done].
    apply wp_modify. apply (informed_view b st); [| done].
    apply view_quiet_manager, life_write. }
  destruct (type_is ty "resize"); [| by apply wp_ret].
  unfold on_resize. apply wp_bind, wp_gets.
  destruct (attached_of c' st) as [id|]; [| by apply wp_ret].
  apply wp_when; intros _; [| done].
  apply wp_bind, wp_lift. destruct (get_prop msg "cols") as [cols|]; [| done].
  apply wp_bind, wp_lift. destruct (get_prop msg "rows") as [rows|]; [| done].
  apply wp_when; intros _; [| done].
  apply wp_modify. apply (informed_view b st); [| done].
  apply view_quiet_manager, life_resize.
Qed.

Lemma informed_on_connection b st c' faults :
  informed b st → c' ≠ c →
  wp (on_connection c' faults) (λ _ s, informed b s) never st.
Proof.
  intros [Hc (k & Hk & Hh & Hlast)] Hne. unfold on_connection.
  apply wp_bind, wp_modify, wp_bind, wp_modify, wp_bind, wp_gets.
  eapply wp_mono; [apply (informed_safeSend b) | by intros ? ? [? _] | done].
  - split; [simpl; apply elem_of_app; by left |]. exists k. simpl.
    by rewrite lookup_insert_ne.
  - intros _ ->. done.
Qed.

Lemma informed_close b st c' :
  informed b st → c' ≠ c → wp (step (WsClose c')) (λ _ s, informed b s) never st.
Proof.
  intros [Hc (k & Hk & Hh & Hlast)] Hne. unfold step, on_close.
  apply wp_bind, wp_modify, wp_bind, wp_modify, wp_bind, wp_gets, wp_bind, wp_gets.
  set (s1 := set_clients _ _).
  assert (H1 : informed b s1).
  { split; [simpl; apply list_elem_of_filter; by split |]. exists k. simpl.
    by rewrite lookup_alter_ne. }
  match goal with
  | |- wp (match ?x with _ => _ end) _ _ _ => destruct x as [id|]
  end; [| by apply wp_ret].
  match goal with
  | |- wp (match ?x with _ => _ end) _ _ _ => destruct x as [fn|]
  end; [| by apply wp_ret].
  apply wp_when; intros _; [| done]. apply wp_modify.
  apply (informed_view b s1); [| done]. apply view_quiet_manager, life_removeListener.
Qed.

(** Events that leave the socket of [c] alone. *)
Definition undisturbed (ev : event) : Prop :=
  match ev with
  | WsClose c' | WsReadyState c' _ => c' ≠ c
  | _ => True
  end.

Lemma informed_step used st ev :
  sound used st → informed true st → undisturbed ev →
  wp (step ev) (λ _ s, informed true s) (λ _ s, informed true s) st.
Proof.
  intros Hsound Hst Hev.
  destruct ev as [c' faults | c' n | c' raw | c' | id data | id
                  | uuid name cwd now started | id started | id].
  - unfold step. apply wp_bind, wp_gets. case_bool_decide as Hknown; [by apply wp_ret |].
    apply wp_weaken, informed_on_connection; [done |].
    intros ->. destruct Hst as [_ (k & Hk & _)]. destruct Hknown. eauto.
  - apply wp_modify. destruct Hst as [Hc (k & Hk & Hh & Hlast)].
    split; [done |]. exists k. simpl in *. by rewrite lookup_alter_ne.
  - unfold step. apply wp_bind, wp_gets.
    destruct (bool_decide _); [by apply informed_on_message | by apply wp_ret].
  - by apply wp_weaken, informed_close.
  - by apply wp_weaken, informed_data.
  - by apply wp_weaken, (informed_exit true used).
  - by apply wp_weaken, (informed_api_create true).
  - by apply wp_weaken, informed_api_restart.
  - by apply wp_weaken, informed_api_delete.
Qed.

(** A new connection whose sends succeed is greeted with the current list. *)
Lemma informed_connect st faults :
  conns st !! c = None → Forall (λ b, b = false) faults →
  wp (step (WsConnection c faults)) (λ _ s, informed true s) never st.
Proof.
  intros Hnew Hfaults. unfold step. apply wp_bind, wp_gets.
  rewrite bool_decide_false by (rewrite Hnew; by intros [? ?]).
  unfold on_connection.
  apply wp_bind, wp_modify, wp_bind, wp_modify, wp_bind, wp_gets.
  set (s1 := set_conns _ _).
  assert (H1 : informed false s1).
  { split; [simpl; apply elem_of_app; right; left |].
    eexists. simpl. rewrite lookup_insert_eq. split_and!; [done | | done].
    by split. }
  eapply wp_mono; [by apply (informed_safeSend false) | | done].
  intros ? s (_ & _ & Hnow). by apply Hnow.
Qed.

Lemma informed_run used (evs : list event) st :
  coherent true used st → fresh_ids used evs → Forall undisturbed evs →
  informed true st → informed true (snd (run evs st)).
Proof.
  revert used st. induction evs as [|ev evs IH]; intros used st Hcoh Hfresh Hevs Hst;
    [done |].
  destruct Hfresh as [Hev Hfresh]. apply Forall_cons in Hevs as [Hu Hevs].
  pose proof (coh_step used st ev Hcoh Hev) as Hc.
  pose proof (informed_step used st ev (proj1 Hcoh) Hst Hu) as Hi.
  unfold wp in Hc, Hi. simpl. unfold mbind, M_bind.
  destruct (step ev st) as [[[]|e] s1]; simpl; [| done].
  by apply (IH (hand_out used ev)).
Qed.

End Informed.

Lemma fresh_ids_app used (l1 l2 : list event) :
  fresh_ids used (l1 ++ l2) ↔
  fresh_ids used l1 ∧ fresh_ids (foldl hand_out used l1) l2.
Proof.
  revert used. induction l1 as [|ev l1 IH]; intros used; simpl; [tauto |].
  rewrite IH. tauto.
Qed.

Lemma coh_run_returns used (evs : list event) st s :
  run evs st = (Ok tt, s) → coherent true used st → fresh_ids used evs →
  coherent true (foldl hand_out used evs) s.
Proof.
  revert used st. induction evs as [|ev evs IH]; intros used st Hrun Hcoh Hfresh.
  - simpl in Hrun. by injection Hrun as <-.
  - destruct Hfresh as [Hev Hfresh].
    pose proof (coh_step used st ev Hcoh Hev) as Hc. unfold wp in Hc.
    simpl in Hrun. unfold mbind, M_bind in Hrun.
    destruct (step ev st) as [[[]|e] s1]; [| done].
    by apply (IH (hand_out used ev) s1).
Qed.

(** X14: a connection that the server accepts, whose socket stays open and
    whose sends succeed, always holds the current session list: after
    every handler, the last [sessions] message it has received lists the
    records as they are now, each with the liveness of its process now. *)
Theorem client_holds_current_list (tm : bool) (loaded : list session)
    (started : string → bool) (before after : list event) (c : nat)
    (faults : list bool) (st0 : Server) :
  NoDup (map session_id loaded) →
  fresh_ids (map session_id loaded) (before ++ WsConnection c faults :: after) →
  run before (snd (createServer tm loaded started)) = (Ok tt, st0) →
  conns st0 !! c = None →
  Forall (λ b, b = false) faults →
  Forall (undisturbed c) after →
  let st := snd (run (WsConnection c faults :: after) st0) in
  ∃ k, conns st !! c = Some k
       ∧ last_list k = Some (sessions_message st).
Proof.
  intros Hnd Hfresh Hbefore Hnew Hfaults Hafter st.
  apply fresh_ids_app in Hfresh as [Hf1 [_ Hf2]].
  assert (Hboot : coherent true (map session_id loaded)
                    (snd (createServer tm loaded started))).
  { destruct tm.
    - rewrite createServer_test. split; [| done].
      apply (sound_fresh_server true loaded Hnd).
    - destruct (createServer_spec loaded started Hnd)
        as (s & -> & _ & _ & _ & Hcoh). done. }
  pose proof (coh_run_returns _ before _ st0 Hbefore Hboot Hf1) as H0.
  set (used := foldl hand_out (map session_id loaded) before) in *.
  pose proof (coh_step used st0 (WsConnection c faults) H0 I) as Hc.
  pose proof (informed_connect c st0 faults Hnew Hfaults) as Hi.
  unfold wp in Hc, Hi. unfold st.
  change (run (WsConnection c faults :: after) st0)
    with ((step (WsConnection c faults) ≫= λ _, run after) st0).
  unfold mbind, M_bind.
  destruct (step (WsConnection c faults) st0) as [[[]|e] s1]; [| done].
  simpl in Hc.
  destruct (informed_run c used after s1 Hc Hf2 Hafter Hi) as [_ (k & Hk & _ & Hl)].
  exists k. split; [exact Hk | by apply Hl].
Qed.

Lemma client_holds_current_list_witness :
  ∃ k, conns (snd (run [WsConnection 0 [];
                        ApiCreate "s2" "two" "/tmp" "now" true;
                        PtyExit "s2"]
                     (snd (run [ApiCreate "s1" "one" "/tmp" "now" true]
                             (snd (createServer true [] (λ _, true))))))) !! 0%nat
       = Some k
       ∧ last_list k
         = Some (sessions_message
                   (snd (run [WsConnection 0 [];
                              ApiCreate "s2" "two" "/tmp" "now" true;
                              PtyExit "s2"]
                           (snd (run [ApiCreate "s1" "one" "/tmp" "now" true]
                                   (snd (createServer true [] (λ _, true)))))))).
Proof.
  apply (client_holds_current_list true [] (λ _, true)
           [ApiCreate "s1" "one" "/tmp" "now" true]
           [ApiCreate "s2" "two" "/tmp" "now" true; PtyExit "s2"] 0 []).
  - constructor.
  - simpl. split_and!; try done.
    + intros H. inversion H.
    + intros [H | H]%elem_of_cons; [discriminate H | inversion H].
  - vm_compute. reflexivity.
  - vm_compute. reflexivity.
  - constructor.
  - repeat apply Forall_cons_2; try done.
Defined.

(** ** server.js: the expansion of the home directory *)

Section ExpandHome.
Local Arguments String.append : simpl nomatch.

Lemma substitution_plain (matched before after home : string) :
  (∀ a, In a (list_ascii_of_string home) → a ≠ "$"%char) →
  substitution matched before after home = home.
Proof.
  induction home as [|a home IH]; intros Hplain; [done |]. simpl.
  assert (Ha : Ascii.eqb a "$" = false).
  { apply Ascii.eqb_neq. apply Hplain. by left. }
  rewrite Ha, IH; [done |]. intros b Hb. apply Hplain. by right.
Qed.

(** X15: when the home directory contains no dollar sign, a path that
    starts with a tilde is expanded by replacing that one tilde with the
    home directory, and every other path is left as it is (also one with
    a tilde further on). *)
Theorem expand_home_spec (home : string) :
  (∀ a, In a (list_ascii_of_string home) → a ≠ "$"%char) →
  (∀ rest, expand_home home (String "~" rest) = home +:+ rest)
  ∧ (∀ cwd, (∀ rest, cwd ≠ String "~" rest) → expand_home home cwd = cwd).
Proof.
  intros Hplain. split.
  - intros rest. unfold expand_home. simpl. by rewrite substitution_plain.
  - intros [|a cwd] Hcwd; [done |]. unfold expand_home.
    destruct (Ascii.eqb_spec a "~") as [-> | Hne]; [| done].
    by destruct (Hcwd cwd).
Qed.

Lemma expand_home_spec_witness :
  (∀ rest, expand_home "/home/me" (String "~" rest) = "/home/me" +:+ rest)
  ∧ (∀ cwd, (∀ rest, cwd ≠ String "~" rest) → expand_home "/home/me" cwd = cwd).
Proof.
  apply expand_home_spec. simpl. intros a H.
  repeat (destruct H as [<- | H]; [done |]). done.
Defined.

End ExpandHome.

(** ** server.js: where the input of a connection goes *)

(** The events that leave [attachedSessionId] of connection [c] as it is:
    all of them but an attach request of [c] itself. *)
Definition keeps_attachment (c : nat) (ev : event) : Prop :=
  match ev with
  | WsMessage c' raw => c' = c → is_attach raw = false
  | _ => True
  end.

Section InputRouting.
Implicit Types (st s : Server) (fn a : nat) (id sid : string).
Variable c : nat.

Local Abbreviation f := (attached_of c).

Lemma attached_conns st st' : conns st' = conns st → f st' = f st.
Proof. unfold attached_of. by intros ->. Qed.

Lemma attached_alter (g : connection → connection) c' st :
  (c' = c → ∀ k, attachedSessionId (g k) = attachedSessionId k) →
  f (set_conns (alter g c') st) = f st.
Proof.
  intros Hg. unfold attached_of. simpl.
  destruct (decide (c' = c)) as [-> | Hne]; [| by rewrite lookup_alter_ne].
  rewrite lookup_alter_eq. destruct (conns st !! c) as [k|]; simpl; [| done].
  by apply Hg.
Qed.

Lemma attached_safeSend c' data : preserves f (safeSend c' data).
Proof.
  intros st. rewrite safeSend_eq. simpl. apply attached_alter. intros _ k.
  unfold after_send. by destruct (readyState (ws k) =? 1)%nat.
Qed.

Lemma attached_listener c' l st :
  f (set_conns (alter (set_dataListener l) c') st) = f st.
Proof. by apply attached_alter. Qed.

Lemma attached_on_connection c' faults st :
  conns st !! c' = None → f (snd (on_connection c' faults st)) = f st.
Proof.
  intros Hnew. unfold on_connection, mbind, M_bind, modify, gets.
  rewrite attached_safeSend. unfold attached_of. simpl.
  destruct (decide (c' = c)) as [-> | Hne].
  - by rewrite lookup_insert_eq, Hnew.
  - by rewrite lookup_insert_ne.
Qed.

Lemma attached_step ev : keeps_attachment c ev → preserves f (step ev).
Proof.
  intros Hev.
  destruct ev as [c' faults | c' n | c' raw | c' | id data | id
                  | uuid name cwd now started | id started | id];
    try (by apply (only_step_inner f attached_conns attached_safeSend)).
  - intros st. unfold step. rewrite bind_gets.
    case_bool_decide as Hknown; [done |]. apply attached_on_connection.
    by apply eq_None_not_Some.
  - apply preserves_modify. intros st. by apply attached_alter.
  - apply preserves_bind; [done |]. intros []; [| done].
    destruct (decide (c' = c)) as [-> | Hne].
    + apply (only_on_message_other f attached_conns). by apply Hev.
    + apply (only_on_message f attached_conns attached_safeSend attached_listener).
      intros a st. by apply attached_alter.
  - apply preserves_bind; [apply preserves_modify; intros st; by apply attached_alter |].
    intros _. apply (only_on_close f attached_conns).
Qed.

Lemma attached_run evs : Forall (keeps_attachment c) evs → preserves f (run evs).
Proof.
  induction 1 as [|ev evs Hev _ IH]; [done |].
  apply preserves_bind; [by apply attached_step | done].
Qed.

Lemma known_detach_previous st :
  is_Some (conns st !! c) → is_Some (conns (snd (detach_previous c st)) !! c).
Proof.
  intros Hk. rewrite <-!elem_of_dom in *.
  rewrite (only_detach_previous (λ s, dom (conns s))); [done | by intros ?? -> |].
  intros c' l s. simpl. apply dom_alter_L.
Qed.

(** An attach request of [c] that names a process makes it the session
    [c] is attached to. *)
Lemma attached_attach members sid st :
  is_Some (conns st !! c) →
  is_Some (manager st !! sid) →
  member "type" members = Some (JStr "attach") →
  member "sessionId" members = Some (JStr sid) →
  f (snd (step (WsMessage c (Json (JObj members))) st)) = Some sid.
Proof.
  intros Hk [p Hp] Hty Hsid. unfold step. rewrite bind_gets.
  rewrite bool_decide_true by done.
  unfold on_message. cbn [JSON_parse get_prop]. rewrite bind_lift, Hty.
  cbn [type_is String.eqb]. simpl.
  rewrite (only_on_attach_found f attached_conns attached_safeSend attached_listener
             _ _ _ _ _ Hsid Hp).
  apply known_detach_previous in Hk as [k Hk].
  unfold attached_of. simpl. by rewrite lookup_alter_eq, Hk.
Qed.

End InputRouting.

(** X16: the input of a connection goes to the session it attached to
    last.  After an attach request of a known connection that names a
    process of the manager, and whatever the server has served since but
    another attach request of that connection, an input message of the
    connection is written to that process and a resize message with
    truthy [cols] and [rows] resizes it: the handler returns, and the call
    of the manager is all it does. *)
Theorem input_goes_to_attached_session (c : nat) (sid : string)
    (attach msg : list (string * json)) (after : list event) (st0 : Server) :
  is_Some (conns st0 !! c) →
  is_Some (manager st0 !! sid) →
  sid ≠ "" →
  member "type" attach = Some (JStr "attach") →
  member "sessionId" attach = Some (JStr sid) →
  Forall (keeps_attachment c) after →
  let st := snd (run (WsMessage c (Json (JObj attach)) :: after) st0) in
  (member "type" msg = Some (JStr "input") →
   step (WsMessage c (Json (JObj msg))) st
   = (Ok tt, set_manager (write sid (member "data" msg)) st))
  ∧ (member "type" msg = Some (JStr "resize") →
     truthy (member "cols" msg) = true → truthy (member "rows" msg) = true →
     step (WsMessage c (Json (JObj msg))) st
     = (Ok tt, set_manager (resize sid (member "cols" msg) (member "rows" msg)) st)).
Proof.
  intros Hk Hp Hne Hty Hsid Hafter st.
  assert (Hatt : attached_of c st = Some sid).
  { pose proof (attached_attach c attach sid st0 Hk Hp Hty Hsid) as H.
    subst st. change (run (?ev :: after) st0) with ((step ev ≫= λ _, run after) st0).
    unfold mbind, M_bind.
    destruct (step _ st0) as [[[]|e] s1]; simpl in *; [| done].
    by rewrite attached_run. }
  assert (Hknown : is_Some (conns st !! c)).
  { unfold attached_of in Hatt. destruct (conns st !! c); [eauto | done]. }
  assert (Htruthy : truthy_string (Some sid) = true).
  { simpl. by rewrite (proj2 (String.eqb_neq sid "")). }
  split.
  - intros Hin. unfold step. rewrite bind_gets, bool_decide_true by done.
    unfold on_message. cbn [JSON_parse get_prop]. rewrite bind_lift, Hin.
    cbn [type_is String.eqb]. simpl.
    unfold on_input. rewrite bind_gets, Hatt, Htruthy. done.
  - intros Hre Hcols Hrows. unfold step. rewrite bind_gets, bool_decide_true by done.
    unfold on_message. cbn [JSON_parse get_prop]. rewrite bind_lift, Hre.
    cbn [type_is String.eqb]. simpl.
    unfold on_resize. rewrite bind_gets, Hatt, Htruthy. cbn [when get_prop].
    rewrite !bind_lift, Hcols, Hrows. done.
Qed.

Lemma input_goes_to_attached_session_witness :
  let st0 := snd (run [ApiCreate "s1" "one" "/tmp" "now" true;
                       ApiCreate "s2" "two" "/tmp" "now" true;
                       WsConnection 0 []; WsConnection 1 []] (initial true)) in
  let attach := [("type", JStr "attach"); ("sessionId", JStr "s1")] in
  let after := [WsMessage 1 (Json (JObj [("type", JStr "attach");
                                         ("sessionId", JStr "s2")]));
                PtyData "s1" "out";
                WsClose 1; ApiDelete "s2"] in
  let msg := [("type", JStr "input"); ("data", JStr "ls")] in
  let st := snd (run (WsMessage 0 (Json (JObj attach)) :: after) st0) in
  step (WsMessage 0 (Json (JObj msg))) st
  = (Ok tt, set_manager (write "s1" (Some (JStr "ls"))) st).
Proof.
  intros st0 attach after msg st.
  refine (proj1 (input_goes_to_attached_session 0 "s1" attach msg after st0
                   _ _ _ _ _ _) _); try done.
  subst after. repeat apply Forall_cons_2; try done.
Defined.

(** X17: input that comes before an attach is dropped.  From the
    connection of a new socket on, and whatever the server serves but an
    attach request of that connection, an input or resize message of the
    connection changes nothing: the handler returns and the state is as
    it was. *)
Theorem input_dropped_before_attach (c : nat) (faults : list bool)
    (msg : list (string * json)) (after : list event) (st0 : Server) :
  conns st0 !! c = None →
  Forall (keeps_attachment c) after →
  member "type" msg = Some (JStr "input")
  ∨ member "type" msg = Some (JStr "resize") →
  let st := snd (run (WsConnection c faults :: after) st0) in
  step (WsMessage c (Json (JObj msg))) st = (Ok tt, st).
Proof.
  intros Hnew Hafter Hty st.
  assert (Hatt : attached_of c st = None).
  { subst st. rewrite (attached_run c (_ :: after)).
    - unfold attached_of. by rewrite Hnew.
    - by apply Forall_cons_2. }
  unfold step. rewrite bind_gets. case_bool_decide; [| done].
  unfold on_message. cbn [JSON_parse get_prop]. rewrite bind_lift.
  destruct Hty as [-> | ->]; cbn [type_is String.eqb]; simpl.
  - unfold on_input. by rewrite bind_gets, Hatt.
  - unfold on_resize. by rewrite bind_gets, Hatt.
Qed.

Lemma input_dropped_before_attach_witness :
  let st0 := snd (run [ApiCreate "s1" "one" "/tmp" "now" true;
                       WsConnection 1 []] (initial true)) in
  let after := [WsMessage 1 (attach_message "s1" 80 24); PtyData "s1" "out";
                WsMessage 0 (Json (JObj [("type", JStr "resize");
                                         ("cols", JNum 80); ("rows", JNum 24)]))] in
  let msg := [("type", JStr "input"); ("data", JStr "ls")] in
  let st := snd (run (WsConnection 0 [] :: after) st0) in
  step (WsMessage 0 (Json (JObj msg))) st = (Ok tt, st).
Proof.
  intros st0 after msg st.
  apply (input_dropped_before_attach 0 [] msg after st0); [done | | by left].
  subst after. repeat apply Forall_cons_2; try done.
Defined.
